(** * Exam scheduling by graph colouring: the colouring engine of
    [utils/graphColoring.ts] and the code around it

    The development embeds the conflict-graph builder, the Welsh-Powell
    style greedy colourer, the DSATUR colourer and the solution verifier,
    and states the properties of the engine over that embedding.  It then
    embeds the two parsers of the engine, the data that TimetableView,
    ResultsPage and GraphVisualization compute from a result, and the CSV
    helpers of InputSection and ResultsPage.

    Modelling conventions.
    - A JavaScript string is a sequence of code units; the model uses
      [string], one [ascii] per code unit, so it covers the code units
      U+0000 to U+00FF.
    - A JavaScript [Set] and [Map] iterate in insertion order: a [Set] is a
      duplicate-free list, a [Map] an association list with distinct keys.
    - [Course] objects are mutable and shared by reference: they live in a
      heap (a list indexed by address) and a [Map<string, Course>] holds
      addresses.
    - [console.error] appends to the console component of the state;
      the output of [console.log] and [console.warn] is narrative only and
      is left out.
    - The floating-point values [averageConflictsPerCourse] and
      [improvementPct] are left out, and so are the drawing with d3 and
      the reading of files: of a file handler the model keeps the function
      from the text of the file to the text handed to the callback.
    - A regular expression is modelled by the function that computes its
      match on the modelled code units; the comment of each such function
      names the pattern. *)

From Stdlib Require Import String Ascii List Bool Arith ZArith Lia Permutation.
Import ListNotations.
Local Open Scope string_scope.
Local Open Scope nat_scope.
Local Open Scope list_scope.

Set Implicit Arguments.

(* ------------------------------------------------------------------ *)
(** ** Keys of JavaScript collections *)

Class Key (K : Type) : Type := {
  keyb : K -> K -> bool;
  keyb_spec : forall x y : K, reflect (x = y) (keyb x y)
}.

#[export] Instance string_Key : Key string :=
  {| keyb := String.eqb; keyb_spec := String.eqb_spec |}.

#[export] Instance nat_Key : Key nat :=
  {| keyb := Nat.eqb; keyb_spec := Nat.eqb_spec |}.

Module JS.

Section Collections.
Context {K : Type} `{Key K}.

(** [Set.prototype.has] *)
Definition setHas (x : K) (s : list K) : bool := existsb (keyb x) s.

(** [Set.prototype.add]: a new element goes last, a present one is kept
    where it is. *)
Definition setAdd (x : K) (s : list K) : list K :=
  if setHas x s then s else s ++ [x].

Variable V : Type.

(** [Map.prototype.get]; [None] is [undefined]. *)
Fixpoint mapGet (k : K) (m : list (K * V)) : option V :=
  match m with
  | [] => None
  | (k', v) :: m' => if keyb k k' then Some v else mapGet k m'
  end.

(** [Map.prototype.has] *)
Definition mapHas (k : K) (m : list (K * V)) : bool :=
  match mapGet k m with Some _ => true | None => false end.

(** [Map.prototype.set]: an existing key keeps its position. *)
Fixpoint mapSet (k : K) (v : V) (m : list (K * V)) : list (K * V) :=
  match m with
  | [] => [(k, v)]
  | (k', v') :: m' =>
      if keyb k k' then (k, v) :: m' else (k', v') :: mapSet k v m'
  end.

Definition keys (m : list (K * V)) : list K := map fst m.
Definition values (m : list (K * V)) : list V := map snd m.
End Collections.

(** [String.prototype.trim] on the modelled code units: tab, line feed,
    vertical tab, form feed, carriage return, space and no-break space. *)
Definition isWhiteSpace (c : ascii) : bool :=
  let n := nat_of_ascii c in
  Nat.eqb n 9 || Nat.eqb n 10 || Nat.eqb n 11 || Nat.eqb n 12
  || Nat.eqb n 13 || Nat.eqb n 32 || Nat.eqb n 160.

Fixpoint trimStart (s : string) : string :=
  match s with
  | EmptyString => EmptyString
  | String c s' => if isWhiteSpace c then trimStart s' else s
  end.

Fixpoint trimEnd (s : string) : string :=
  match s with
  | EmptyString => EmptyString
  | String c s' =>
      match trimEnd s' with
      | EmptyString => if isWhiteSpace c then EmptyString else String c EmptyString
      | t => String c t
      end
  end.

Definition trim (s : string) : string := trimEnd (trimStart s).

(** Truthiness of a string: the empty string is falsy. *)
Definition truthy (s : string) : bool := negb (String.eqb s "").

(** [[a, b].sort()]: the default sort orders strings by code units. *)
Definition sortPair (a b : string) : string * string :=
  if String.ltb b a then (b, a) else (a, b).

(** [[a, b].sort().join('|')] *)
Definition pairKey (a b : string) : string :=
  let '(x, y) := sortPair a b in String.append x (String.append "|" y).

(** [s.split('|')] *)
Fixpoint splitBar (s : string) : list string :=
  match s with
  | EmptyString => [EmptyString]
  | String c s' =>
      if Ascii.eqb c "|"%char then EmptyString :: splitBar s'
      else match splitBar s' with
           | [] => [String c EmptyString]
           | w :: ws => String c w :: ws
           end
  end.

(** [Array.prototype.sort(comparefn)]: the sort is stable, and for a
    consistent comparator every stable sort returns the list of this
    insertion sort.  [x] goes before the first [y] with
    [comparefn(x, y) <= 0]. *)
Fixpoint insertSorted {A : Type} (cmp : A -> A -> Z) (x : A) (l : list A)
  : list A :=
  match l with
  | [] => [x]
  | y :: l' => if (cmp x y <=? 0)%Z then x :: l else y :: insertSorted cmp x l'
  end.

Fixpoint sortBy {A : Type} (cmp : A -> A -> Z) (l : list A) : list A :=
  match l with
  | [] => []
  | x :: l' => insertSorted cmp x (sortBy cmp l')
  end.

End JS.
Import JS.

(* ------------------------------------------------------------------ *)
(** ** Data model *)

(** Modelled from the spec: the interface [Student] of [types.ts], which
    is not among the sources: an identifier and the ordered course
    mentions. *)
Record Student : Type := mkStudent {
  id : string;
  courses : list string
}.

(** Modelled from the spec: the interface [Course] of [types.ts], which
    is not among the sources; the fields are those the engine reads and
    writes: [slot] and [color] are optional, [undefined] is [None]. *)
Record Course : Type := mkCourse {
  name : string;
  conflicts : list string;       (* Set<string> *)
  slot : option nat;             (* undefined or a slot number *)
  color : option string
}.

Definition addr : Type := nat.

(** [Map<string, Course>]: the values are references to [Course] objects. *)
Definition CourseMap : Type := list (string * addr).

(** [Map<number, string[]>] *)
Definition Slots : Type := list (nat * list string).

(** Modelled from the spec: the interface [ScheduleResult] of
    [types.ts], which is not among the sources, with the fields the
    colourers fill in ([courses] is [resCourses] here); the
    floating-point field [averageConflictsPerCourse] is left out. *)
Record ConflictDetails : Type := mkConflictDetails {
  totalPairs : nat;
  conflictPairsList : list (list string)
}.

Record ScheduleResult : Type := mkScheduleResult {
  resCourses : CourseMap;
  slots : Slots;
  totalSlots : nat;
  totalConflicts : nat;
  students : list Student;
  conflictDetails : ConflictDetails
}.

Definition SLOT_COLORS : list string :=
  [ "#3B82F6"; "#10B981"; "#F59E0B"; "#EF4444"; "#8B5CF6";
    "#06B6D4"; "#F97316"; "#84CC16"; "#EC4899"; "#6366F1";
    "#F59E0B"; "#10B981"; "#8B5CF6"; "#06B6D4"; "#F97316" ].

(** [SLOT_COLORS[(slot - 1) % SLOT_COLORS.length]] *)
Definition slotColor (slot : nat) : option string :=
  nth_error SLOT_COLORS ((slot - 1) mod length SLOT_COLORS).

(* ------------------------------------------------------------------ *)
(** ** The store and the monad of the engine *)

Inductive LogEntry : Type :=
| ConflictDetected (slot : nat) (course1 course2 : string)
    (* "Conflict detected in slot ..." of verifySolution *)
| CriticalError.
    (* "CRITICAL ERROR: Generated solution contains conflicts!" *)

Record State : Type := mkState {
  heap : list Course;
  console : list LogEntry
}.

Inductive outcome (A : Type) : Type :=
| Ok (a : A)          (* normal completion *)
| TypeError           (* a member access on [undefined] *)
| OutOfFuel.          (* a [while] loop of the model ran out of fuel *)

Arguments TypeError {A}.
Arguments OutOfFuel {A}.

Definition M (A : Type) : Type := State -> outcome A * State.

Definition ret {A : Type} (a : A) : M A := fun s => (Ok a, s).

Definition bind {A B : Type} (m : M A) (f : A -> M B) : M B :=
  fun s =>
    match m s with
    | (Ok a, s') => f a s'
    | (TypeError, s') => (TypeError, s')
    | (OutOfFuel, s') => (OutOfFuel, s')
    end.

Declare Scope engine_scope.
Delimit Scope engine_scope with engine.
Notation "x <- m ;; k" := (bind m (fun x => k))
  (at level 61, m at next level, right associativity) : engine_scope.
Notation "m ;; k" := (bind m (fun _ => k))
  (at level 61, right associativity) : engine_scope.
Local Open Scope engine_scope.

Definition throwTypeError {A : Type} : M A := fun s => (TypeError, s).

Definition liftOutcome {A : Type} (o : outcome A) : M A := fun s => (o, s).

Definition getHeap : M (list Course) := fun s => (Ok (heap s), s).

(** The object an address holds.  A well-formed map only holds addresses
    of allocated objects; [blank] stands in elsewhere. *)
Definition blank : Course := mkCourse "" [] None None.

Definition deref (h : list Course) (a : addr) : Course := nth a h blank.

Fixpoint update (a : addr) (f : Course -> Course) (h : list Course)
  : list Course :=
  match h, a with
  | [], _ => []
  | c :: h', 0 => f c :: h'
  | c :: h', S a' => c :: update a' f h'
  end.

(** An object literal: a fresh object at the next address. *)
Definition alloc (c : Course) : M addr :=
  fun s => (Ok (length (heap s)), mkState (heap s ++ [c]) (console s)).

(** A field assignment through a reference. *)
Definition modify (a : addr) (f : Course -> Course) : M unit :=
  fun s => (Ok tt, mkState (update a f (heap s)) (console s)).

Definition consoleError (e : LogEntry) : M unit :=
  fun s => (Ok tt, mkState (heap s) (console s ++ [e])).

Fixpoint forEach {A : Type} (l : list A) (f : A -> M unit) : M unit :=
  match l with
  | [] => ret tt
  | x :: l' => f x ;; forEach l' f
  end.

Fixpoint foldM {A B : Type} (f : B -> A -> M B) (l : list A) (b : B) : M B :=
  match l with
  | [] => ret b
  | x :: l' => b' <- f b x ;; foldM f l' b'
  end.

Definition setConflicts (cs : list string) (c : Course) : Course :=
  mkCourse (name c) cs (slot c) (color c).

Definition setSlotColor (sl : option nat) (col : option string) (c : Course)
  : Course :=
  mkCourse (name c) (conflicts c) sl col.

(* ------------------------------------------------------------------ *)
(** ** buildConflictGraph *)

(** The body of [courseNames.forEach]: the state of the loop is the pair
    of [validCourses] and [courses]. *)
Definition addCourseName (acc : list string * CourseMap) (nm : string)
  : M (list string * CourseMap) :=
  let '(validCourses, cmap) := acc in
  if truthy nm && truthy (trim nm) then
    let courseName := trim nm in
    a <- alloc (mkCourse courseName [] None None) ;;
    ret (setAdd courseName validCourses, mapSet courseName a cmap)
  else ret acc.

(** [courses.get(course1)!.conflicts.add(course2)] *)
Definition addConflict (cmap : CourseMap) (course1 course2 : string) : M unit :=
  match mapGet course1 cmap with
  | Some a => modify a (fun c => setConflicts (setAdd course2 (conflicts c)) c)
  | None => throwTypeError
  end.

(** The inner loop [for (j = i + 1; ...)] for a fixed [i]. *)
Fixpoint linkWithLater (cmap : CourseMap) (course1 : string)
  (later : list string) : M unit :=
  match later with
  | [] => ret tt
  | course2 :: rest =>
      addConflict cmap course1 course2 ;;
      addConflict cmap course2 course1 ;;
      linkWithLater cmap course1 rest
  end.

(** The outer loop [for (i = 0; ...)]. *)
Fixpoint linkPairs (cmap : CourseMap) (svc : list string) : M unit :=
  match svc with
  | [] => ret tt
  | course1 :: rest => linkWithLater cmap course1 rest ;; linkPairs cmap rest
  end.

Definition studentValidCourses (validCourses : list string) (st : Student)
  : list string :=
  filter (fun c => setHas c validCourses)
    (map trim (filter (fun c => truthy c && truthy (trim c)) (courses st))).

Definition linkStudent (validCourses : list string) (cmap : CourseMap)
  (st : Student) : M unit :=
  let svc := studentValidCourses validCourses st in
  if 1 <? length svc then linkPairs cmap svc else ret tt.

Definition buildConflictGraph (sts : list Student) (courseNames : list string)
  : M CourseMap :=
  acc <- foldM addCourseName courseNames ([], []) ;;
  let '(validCourses, cmap) := acc in
  forEach sts (linkStudent validCourses cmap) ;;
  ret cmap.

(* ------------------------------------------------------------------ *)
(** ** The two colourers and the verifier *)

Definition obind {A B : Type} (o : outcome A) (f : A -> outcome B)
  : outcome B :=
  match o with
  | Ok a => f a
  | TypeError => TypeError
  | OutOfFuel => OutOfFuel
  end.

(** [students || []] *)
Definition studentsOrEmpty (sts : option (list Student)) : list Student :=
  match sts with Some l => l | None => [] end.

(** The pass over all conflict sets that fills [conflictPairs]. *)
Definition collectPairs (cs : list Course) : list string :=
  fold_left
    (fun acc course =>
       fold_left (fun acc' conflictCourse =>
                    setAdd (pairKey (name course) conflictCourse) acc')
                 (conflicts course) acc)
    cs [].

(** [slots.get(slot)!.push(name)], after [slots.set(slot, [])] when the
    slot is new. *)
Definition pushSlot (sl : nat) (nm : string) (sls : Slots) : Slots :=
  match mapGet sl sls with
  | Some coursesInSlot => mapSet sl (coursesInSlot ++ [nm]) sls
  | None => mapSet sl [nm] sls
  end.

(** The test of one slot in the [while (!assigned)] loop. *)
Definition hasConflict (course : Course) (sls : Slots) (sl : nat) : bool :=
  match mapGet sl sls with
  | Some coursesInSlot =>
      existsb (fun existingCourse => setHas existingCourse (conflicts course))
              coursesInSlot
  | None => false
  end.

(** The [while (!assigned)] loop, from slot [sl] on. *)
Fixpoint firstFit (fuel : nat) (course : Course) (sls : Slots) (sl : nat)
  : outcome nat :=
  match fuel with
  | 0 => OutOfFuel
  | S fuel' =>
      if hasConflict course sls sl then firstFit fuel' course sls (S sl)
      else Ok sl
  end.

(** The body of the assignment [forEach] of greedyColoring. *)
Definition assignCourse (sls : Slots) (a : addr) : M Slots :=
  h <- getHeap ;;
  let course := deref h a in
  sl <- liftOutcome (firstFit (S (length sls)) course sls 1) ;;
  modify a (setSlotColor (Some sl) (slotColor sl)) ;;
  ret (pushSlot sl (name course) sls).

(** [courses.get(a)?.conflicts.has(b)], with [undefined] read as false. *)
Definition conflictsHas (h : list Course) (cmap : CourseMap) (a b : string)
  : bool :=
  match mapGet a cmap with
  | Some ad => setHas b (conflicts (deref h ad))
  | None => false
  end.

(** The loops over [i < j] of verifySolution within one slot: the first
    offending pair, if any. *)
Fixpoint verifySlot (h : list Course) (cmap : CourseMap)
  (courseNames : list string) : option (string * string) :=
  match courseNames with
  | [] => None
  | ci :: rest =>
      match find (fun cj => conflictsHas h cmap ci cj
                            || conflictsHas h cmap cj ci) rest with
      | Some cj => Some (ci, cj)
      | None => verifySlot h cmap rest
      end
  end.

Fixpoint verifySlots (h : list Course) (cmap : CourseMap) (sls : Slots)
  : option LogEntry :=
  match sls with
  | [] => None
  | (sl, courseNames) :: rest =>
      match verifySlot h cmap courseNames with
      | Some (ci, cj) => Some (ConflictDetected sl ci cj)
      | None => verifySlots h cmap rest
      end
  end.

Definition verifySolution (cmap : CourseMap) (sls : Slots) : M bool :=
  h <- getHeap ;;
  match verifySlots h cmap sls with
  | Some e => consoleError e ;; ret false
  | None => ret true
  end.

(** Local maps of dsaturColoring. *)
Definition ColorAssignment : Type := list (string * option nat).
Definition Saturation : Type := list (string * list nat).
Definition Degree : Type := list (string * nat).

(** The body of [originalCourses.forEach] of dsaturColoring. *)
Definition copyCourse (cmap : CourseMap) (entry : string * addr)
  : M CourseMap :=
  let '(nm, a) := entry in
  h <- getHeap ;;
  let c := deref h a in
  a' <- alloc (mkCourse (name c) (conflicts c) None None) ;;
  ret (mapSet nm a' cmap).

(** The body of [courseNames.forEach] that fills the helper maps. *)
Definition initEntry (h : list Course) (cmap : CourseMap)
  (acc : outcome (ColorAssignment * Saturation * Degree)) (nm : string)
  : outcome (ColorAssignment * Saturation * Degree) :=
  obind acc (fun '(ca, sat, deg) =>
    match mapGet nm cmap with
    | Some a =>
        Ok (mapSet nm None ca, mapSet nm [] sat,
            mapSet nm (length (conflicts (deref h a))) deg)
    | None => TypeError
    end).

Definition initMaps (h : list Course) (cmap : CourseMap)
  (courseNames : list string)
  : outcome (ColorAssignment * Saturation * Degree) :=
  fold_left (initEntry h cmap) courseNames (Ok ([], [], [])).

(** [colorAssignment.get(nm) === undefined] *)
Definition isUncolored (ca : ColorAssignment) (nm : string) : bool :=
  match mapGet nm ca with
  | Some (Some _) => false
  | _ => true
  end.

Definition uncolored (courseNames : list string) (ca : ColorAssignment)
  : list string :=
  filter (isUncolored ca) courseNames.

(** The colours of the coloured neighbours. *)
Definition neighborColorsOf (ca : ColorAssignment) (cfl : list string)
  : list nat :=
  fold_left (fun acc nb =>
               match mapGet nb ca with
               | Some (Some c) => setAdd c acc
               | _ => acc
               end) cfl [].

(** [while (neighborColors.has(color)) color++] *)
Fixpoint smallestFree (fuel : nat) (neighborColors : list nat) (col : nat)
  : outcome nat :=
  match fuel with
  | 0 => OutOfFuel
  | S fuel' =>
      if setHas col neighborColors
      then smallestFree fuel' neighborColors (S col)
      else Ok col
  end.

(** The update of the neighbours' saturation sets:
    [saturation.get(nb)] of a name that is no key is [undefined] and the
    call of [add] on it raises. *)
Fixpoint updateSaturation (col : nat) (cfl : list string) (sat : Saturation)
  : outcome Saturation :=
  match cfl with
  | [] => Ok sat
  | nb :: rest =>
      match mapGet nb sat with
      | Some nbSet => updateSaturation col rest (mapSet nb (setAdd col nbSet) sat)
      | None => TypeError
      end
  end.

Section Colourers.

(** [String.prototype.localeCompare] depends on the collation of the
    host; the colourers are parametrised by it. *)
Variable localeCompare : string -> string -> Z.

(** The comparator of [courseList.sort] in greedyColoring. *)
Definition byDegreeThenName (h : list Course) (a b : addr) : Z :=
  let ca := deref h a in
  let cb := deref h b in
  if negb (length (conflicts cb) =? length (conflicts ca))
  then (Z.of_nat (length (conflicts cb)) - Z.of_nat (length (conflicts ca)))%Z
  else localeCompare (name ca) (name cb).

Definition greedyColoring (cmap : CourseMap) (sts : option (list Student))
  : M ScheduleResult :=
  let courseList := values cmap in
  if length courseList =? 0 then
    ret (mkScheduleResult cmap [] 0 0 (studentsOrEmpty sts)
           (mkConflictDetails 0 []))
  else
    forEach courseList (fun a => modify a (setSlotColor None None)) ;;
    h <- getHeap ;;
    let sorted := sortBy (byDegreeThenName h) courseList in
    let conflictPairs := collectPairs (map (deref h) sorted) in
    let total := length conflictPairs in
    sls <- foldM assignCourse sorted [] ;;
    isValidSolution <- verifySolution cmap sls ;;
    (if isValidSolution then ret tt else consoleError CriticalError) ;;
    ret (mkScheduleResult cmap sls (length sls) total (studentsOrEmpty sts)
           (mkConflictDetails total (map splitBar conflictPairs))).

(** The comparator of [candidates.sort] in dsaturColoring. *)
Definition bySaturation (sat : Saturation) (deg : Degree) (a b : string)
  : Z :=
  let sa := length (match mapGet a sat with Some s => s | None => [] end) in
  let sb := length (match mapGet b sat with Some s => s | None => [] end) in
  if negb (sb =? sa) then (Z.of_nat sb - Z.of_nat sa)%Z
  else
    let da := match mapGet a deg with Some d => d | None => 0 end in
    let db := match mapGet b deg with Some d => d | None => 0 end in
    if negb (db =? da) then (Z.of_nat db - Z.of_nat da)%Z
    else localeCompare a b.

(** The [while (true)] loop of dsaturColoring. *)
Fixpoint dsaturLoop (fuel : nat) (h : list Course) (cmap : CourseMap)
  (courseNames : list string) (deg : Degree)
  (ca : ColorAssignment) (sat : Saturation) : outcome ColorAssignment :=
  match fuel with
  | 0 => OutOfFuel
  | S fuel' =>
      let candidates := uncolored courseNames ca in
      if length candidates =? 0 then Ok ca
      else
        match sortBy (bySaturation sat deg) candidates with
        | [] => TypeError
        | v :: _ =>
            match mapGet v cmap with
            | None => TypeError
            | Some a =>
                let cfl := conflicts (deref h a) in
                let neighborColors := neighborColorsOf ca cfl in
                obind (smallestFree (S (length neighborColors))
                                    neighborColors 1)
                  (fun col =>
                     let ca' := mapSet v (Some col) ca in
                     obind (updateSaturation col cfl sat)
                       (fun sat' =>
                          dsaturLoop fuel' h cmap courseNames deg ca' sat'))
            end
        end
  end.

(** The body of [colorAssignment.forEach] that builds the slots. *)
Definition placeCourse (cmap : CourseMap) (sls : Slots)
  (entry : string * option nat) : M Slots :=
  let '(nm, col) := entry in
  let slotNum := match col with
                 | Some c => if c =? 0 then 1 else c
                 | None => 1
                 end in
  match mapGet nm cmap with
  | None => throwTypeError
  | Some a =>
      modify a (setSlotColor (Some slotNum) (slotColor slotNum)) ;;
      ret (pushSlot slotNum nm sls)
  end.

Definition dsaturColoring (originalCourses : CourseMap)
  (sts : option (list Student)) : M ScheduleResult :=
  cmap <- foldM copyCourse originalCourses [] ;;
  let courseNames := keys cmap in
  let n := length courseNames in
  if n =? 0 then
    ret (mkScheduleResult cmap [] 0 0 (studentsOrEmpty sts)
           (mkConflictDetails 0 []))
  else
    h <- getHeap ;;
    maps <- liftOutcome (initMaps h cmap courseNames) ;;
    let '(ca0, sat0, deg) := maps in
    ca <- liftOutcome (dsaturLoop (S n) h cmap courseNames deg ca0 sat0) ;;
    sls <- foldM (placeCourse cmap) ca [] ;;
    h' <- getHeap ;;
    let conflictPairs := collectPairs (map (deref h') (values cmap)) in
    let total := length conflictPairs in
    ret (mkScheduleResult cmap sls (length sls) total (studentsOrEmpty sts)
           (mkConflictDetails total (map splitBar conflictPairs))).

End Colourers.

(** Code-unit comparison, the order of [localeCompare] on names that the
    collation orders by code unit. *)
Definition codeUnitCompare (a b : string) : Z :=
  match String.compare a b with
  | Lt => (-1)%Z
  | Eq => 0%Z
  | Gt => 1%Z
  end.

Definition emptyState : State := mkState [] [].

(* ------------------------------------------------------------------ *)
(** ** Properties of course graphs *)

(** The conflict set of the course under key [k]. *)
Definition conflictsOf (h : list Course) (cmap : CourseMap) (k : string)
  : list string :=
  match mapGet k cmap with
  | Some a => conflicts (deref h a)
  | None => []
  end.

(** Every key is the name of the object it maps to, and every address is
    allocated: the course graph is a mapping from name to Course. *)
Definition wf_graph (h : list Course) (cmap : CourseMap) : Prop :=
  NoDup (keys cmap) /\
  forall k a, In (k, a) cmap -> a < length h /\ name (deref h a) = k.

Definition symmetric (h : list Course) (cmap : CourseMap) : Prop :=
  forall A B, In A (keys cmap) -> In B (keys cmap) ->
    (In B (conflictsOf h cmap A) <-> In A (conflictsOf h cmap B)).

Definition noSelfConflict (h : list Course) (cmap : CourseMap) : Prop :=
  forall A, In A (keys cmap) -> ~ In A (conflictsOf h cmap A).

(** Conflict sets only name courses of the graph. *)
Definition closed (h : list Course) (cmap : CourseMap) : Prop :=
  forall A B, In A (keys cmap) -> In B (conflictsOf h cmap A) ->
    In B (keys cmap).

(** No two distinct names of one slot conflict, in either direction. *)
Definition validSlots (h : list Course) (cmap : CourseMap) (sls : Slots)
  : Prop :=
  forall sl l, In (sl, l) sls ->
  forall x y, In x l -> In y l -> x <> y -> ~ In y (conflictsOf h cmap x).

(** A set of pairwise conflicting courses of the graph. *)
Definition clique (h : list Course) (cmap : CourseMap) (cl : list string)
  : Prop :=
  NoDup cl /\
  (forall x, In x cl -> In x (keys cmap)) /\
  (forall x y, In x cl -> In y cl -> x <> y -> In y (conflictsOf h cmap x)).

(** The part of an object the colourers never write. *)
Definition static (c : Course) : string * list string :=
  (name c, conflicts c).

(** What a course graph looks like from outside: keys, names and conflict
    sets, in insertion order. *)
Definition structure (h : list Course) (cmap : CourseMap)
  : list (string * (string * list string)) :=
  map (fun e => (fst e, static (deref h (snd e)))) cmap.

(** The colouring a graph carries: slot and colour under each key. *)
Definition coloring (h : list Course) (cmap : CourseMap)
  : list (string * (option nat * option string)) :=
  map (fun e => (fst e, (slot (deref h (snd e)), color (deref h (snd e))))) cmap.

(** Equality of two ordered pairs of names. *)
Definition pairb (p q : string * string) : bool :=
  String.eqb (fst p) (fst q) && String.eqb (snd p) (snd q).

#[export, refine] Instance pair_Key : Key (string * string) :=
  {| keyb := pairb |}.
Proof.
  intros [a b] [c d]. unfold pairb. simpl.
  destruct (String.eqb_spec a c) as [-> | Hne]; simpl.
  - destruct (String.eqb_spec b d) as [-> | Hne]; constructor; congruence.
  - constructor. congruence.
Defined.

(** The pass over all conflict sets, with [f] for the key of a pair. *)
Definition collectWith {K : Type} `{Key K} (f : string -> string -> K)
  (cs : list Course) (acc : list K) : list K :=
  fold_left
    (fun acc course =>
       fold_left (fun acc' conflictCourse =>
                    setAdd (f (name course) conflictCourse) acc')
                 (conflicts course) acc)
    cs acc.

(** The distinct unordered pairs [{A, B}] with [B] in the conflict set of
    [A], each as the ordered pair of its members. *)
Definition unorderedPairs (cs : list Course) : list (string * string) :=
  collectWith sortPair cs [].

(** A name that contains the separator of the pair keys. *)
Fixpoint hasBar (s : string) : bool :=
  match s with
  | EmptyString => false
  | String c s' => Ascii.eqb c "|"%char || hasBar s'
  end.

(** No course name and no name in a conflict set contains the separator. *)
Definition barless (h : list Course) (cmap : CourseMap) : Prop :=
  forall k, In k (keys cmap) ->
    hasBar k = false /\ forall x, In x (conflictsOf h cmap k) -> hasBar x = false.

(** [[x, y].join('|')] *)
Definition joinBar (p : string * string) : string :=
  String.append (fst p) (String.append "|" (snd p)).

(* ------------------------------------------------------------------ *)
(** ** Slots, colourings and invariants of the loops *)

(** The membership list of a slot; empty for a slot that is no key. *)
Definition slotList (sls : Slots) (sl : nat) : list string :=
  match mapGet sl sls with
  | Some l => l
  | None => []
  end.

(** The keys are 1, 2, ..., in that order. *)
Definition slotsOk (sls : Slots) : Prop :=
  keys sls = seq 1 (length sls).

(** Contiguous slot numbers: the keys are distinct and are exactly
    1, ..., [length sls]. *)
Definition contiguous (sls : Slots) : Prop :=
  NoDup (keys sls) /\ forall sl, In sl (keys sls) <-> 1 <= sl <= length sls.

(** The membership lists partition the courses of the graph. *)
Definition partitioned (cmap : CourseMap) (sls : Slots) : Prop :=
  (forall sl, NoDup (slotList sls sl)) /\
  (forall nm, (exists sl, In nm (slotList sls sl)) <-> In nm (keys cmap)) /\
  (forall nm sl sl', In nm (slotList sls sl) -> In nm (slotList sls sl') ->
                     sl = sl').

(** Every object of the graph carries the number and the colour of the
    slot that lists it. *)
Definition recorded (h : list Course) (cmap : CourseMap) (sls : Slots) : Prop :=
  forall k a, In (k, a) cmap ->
    exists sl, In k (slotList sls sl) /\
               slot (deref h a) = Some sl /\
               color (deref h a) = slotColor sl.

(** The result [r], in the store [h], is a timetable of the course graph
    [cmap] of the store [h0].  Its graph holds the courses of [cmap], with
    their conflict sets.  The slot numbers are 1, ..., totalSlots, and no
    slot is empty.  The membership lists partition the courses of [cmap]:
    no list names a course twice, a name is listed exactly when it is a
    course of [cmap], and a course is in one list only.  Each object
    carries the number of the slot that lists it. *)
Definition wellSlotted (h0 : list Course) (cmap : CourseMap)
  (h : list Course) (r : ScheduleResult) : Prop :=
  wf_graph h (resCourses r) /\
  (forall k, In k (keys (resCourses r)) <-> In k (keys cmap)) /\
  (forall k, conflictsOf h (resCourses r) k = conflictsOf h0 cmap k) /\
  totalSlots r = length (slots r) /\
  NoDup (keys (slots r)) /\
  (forall sl, In sl (keys (slots r)) <-> 1 <= sl <= totalSlots r) /\
  (forall sl, In sl (keys (slots r)) -> slotList (slots r) sl <> []) /\
  (forall sl, NoDup (slotList (slots r) sl)) /\
  (forall nm, (exists sl, In nm (slotList (slots r) sl))
              <-> In nm (keys cmap)) /\
  (forall k a, In (k, a) (resCourses r) ->
     exists sl,
       In k (slotList (slots r) sl) /\
       (forall sl', In k (slotList (slots r) sl') -> sl' = sl) /\
       slot (deref h a) = Some sl).

(** What the [while (!assigned)] loop returns: the least slot number,
    from 1 on, none of whose members is in the conflict set. *)
Definition firstFitSpec (course : Course) (sls : Slots) (r : nat) : Prop :=
  1 <= r <= length sls + 1 /\
  hasConflict course sls r = false /\
  forall j, 1 <= j < r -> hasConflict course sls j = true.

(** The pairs verifySolution accepts. *)
Definition noConflict (h : list Course) (cmap : CourseMap) (x y : string)
  : Prop :=
  ~ In y (conflictsOf h cmap x) /\ ~ In x (conflictsOf h cmap y).

(** The state after the verification step of greedyColoring. *)
Definition reported (cmap : CourseMap) (sls : Slots) (s : State) : State :=
  match verifySlots (heap s) cmap sls with
  | Some e => mkState (heap s) (console s ++ [e; CriticalError])
  | None => s
  end.

(** Two stores of the same size whose objects have the same names and
    conflict sets: they differ in slots and colours only. *)
Definition sameStatic (h h' : list Course) : Prop :=
  length h' = length h /\
  forall a, static (deref h' a) = static (deref h a).

(** The sorted [courseList] of greedyColoring. *)
Definition sortedCourses (localeCompare : string -> string -> Z)
  (h : list Course) (cmap : CourseMap) : list addr :=
  sortBy (byDegreeThenName localeCompare h) (values cmap).

(** The ScheduleResult of greedyColoring on a non-empty graph: [h] is
    the store after the reset, [sls] the slots of the assignment loop. *)
Definition greedyResult (localeCompare : string -> string -> Z)
  (h : list Course) (cmap : CourseMap)
  (sts : option (list Student)) (sls : Slots) : ScheduleResult :=
  let conflictPairs :=
    collectPairs (map (deref h) (sortedCourses localeCompare h cmap)) in
  mkScheduleResult cmap sls (length sls) (length conflictPairs)
    (studentsOrEmpty sts)
    (mkConflictDetails (length conflictPairs) (map splitBar conflictPairs)).

(** The comparator of greedyColoring on the static parts. *)
Definition byDegreeThenNameStatic (localeCompare : string -> string -> Z)
  (p q : string * list string) : Z :=
  if negb (length (snd q) =? length (snd p))
  then (Z.of_nat (length (snd q)) - Z.of_nat (length (snd p)))%Z
  else localeCompare (fst p) (fst q).

(** The ScheduleResult of dsaturColoring on a non-empty graph. *)
Definition dsaturResult (h : list Course) (cmap : CourseMap)
  (sts : option (list Student)) (sls : Slots) : ScheduleResult :=
  let conflictPairs := collectPairs (map (deref h) (values cmap)) in
  mkScheduleResult cmap sls (length sls) (length conflictPairs)
    (studentsOrEmpty sts)
    (mkConflictDetails (length conflictPairs) (map splitBar conflictPairs)).

(** The pairs [(svc[i], svc[j])], [i < j], that the two nested loops of
    buildConflictGraph visit. *)
Fixpoint laterPairs (svc : list string) : list (string * string) :=
  match svc with
  | [] => []
  | c :: rest => map (pair c) rest ++ laterPairs rest
  end.

(** [s'] is [s] with the pairs of [ps] linked in both directions. *)
Definition linkedBy (cmap : CourseMap) (ps : list (string * string))
  (s s' : State) : Prop :=
  wf_graph (heap s') cmap /\
  console s' = console s /\
  length (heap s') = length (heap s) /\
  forall k x,
    In x (conflictsOf (heap s') cmap k) <->
    In x (conflictsOf (heap s) cmap k) \/ In (k, x) ps \/ In (x, k) ps.

(** The invariant of the student loop. *)
Definition graphInv (cmap : CourseMap) (s0 s : State) : Prop :=
  wf_graph (heap s) cmap /\ symmetric (heap s) cmap /\
  closed (heap s) cmap /\ console s = console s0 /\
  length (heap s) = length (heap s0).

(** The name of the object at [a] in the store [h0]. *)
Definition nameAt (h0 : list Course) (a : addr) : string := name (deref h0 a).

(** A member [x] of a slot placed before [y] is not in the conflict set
    of [y]. *)
Definition apart (cmap : CourseMap) (h0 : list Course) (x y : string) : Prop :=
  ~ In x (conflictsOf h0 cmap y).

(** The invariant of the assignment loop of greedyColoring; [h0] and
    [c0] are the store and the console when the loop starts, [done] the
    courses placed so far. *)
Definition assignInv (cmap : CourseMap) (h0 : list Course)
  (c0 : list LogEntry) (done : list addr) (sls : Slots) (s : State) : Prop :=
  slotsOk sls /\
  console s = c0 /\
  sameStatic h0 (heap s) /\
  (forall sl, NoDup (slotList sls sl)) /\
  (forall nm, (exists sl, In nm (slotList sls sl))
              <-> In nm (map (nameAt h0) done)) /\
  (forall nm sl sl', In nm (slotList sls sl) -> In nm (slotList sls sl') ->
                     sl = sl') /\
  (forall sl, 1 <= sl <= length sls -> slotList sls sl <> []) /\
  (forall sl, ForallOrdPairs (apart cmap h0) (slotList sls sl)) /\
  (forall a, In a done ->
     exists sl, In (nameAt h0 a) (slotList sls sl) /\
                slot (deref (heap s) a) = Some sl /\
                color (deref (heap s) a) = slotColor sl).

(** [cmap'] in the store [h'] is a copy of entries of [cmap] in [h], held
    in objects allocated after [h]. *)
Definition copyOf (h : list Course) (cmap : CourseMap)
  (h' : list Course) (cmap' : CourseMap) : Prop :=
  NoDup (keys cmap') /\
  (forall k, In k (keys cmap') <-> In k (keys cmap)) /\
  (forall k a', In (k, a') cmap' ->
     length h <= a' < length h' /\
     slot (deref h' a') = None /\ color (deref h' a') = None /\
     exists a, In (k, a) cmap /\
               (a < length h -> static (deref h' a') = static (deref h a))).

(** The invariant of the [while (true)] loop of dsaturColoring: the
    colours given so far are positive, differ on distinct conflicting
    courses of a symmetric graph, and leave no gap below a colour in use. *)
Definition dsaturInv (h : list Course) (cmap : CourseMap)
  (ca : ColorAssignment) : Prop :=
  NoDup (keys ca) /\
  (forall k, In k (keys ca) <-> In k (keys cmap)) /\
  (symmetric h cmap ->
   forall u v cu cv, u <> v -> In v (conflictsOf h cmap u) ->
     mapGet u ca = Some (Some cu) -> mapGet v ca = Some (Some cv) ->
     cu <> cv) /\
  (forall u cu, mapGet u ca = Some (Some cu) ->
     1 <= cu /\ forall j, 1 <= j < cu -> exists v, mapGet v ca = Some (Some j)).

(** An entry of the assignment with colour [c]. *)
Definition hasColor (c : nat) (e : string * option nat) : bool :=
  match snd e with
  | Some c' => c' =? c
  | None => false
  end.

(** The names an assignment colours with [c], in the order of the
    assignment. *)
Definition colored (ca : ColorAssignment) (c : nat) : list string :=
  map fst (filter (hasColor c) ca).

(** [col || 1] *)
Definition slotNumOf (col : option nat) : nat :=
  match col with
  | Some c => if c =? 0 then 1 else c
  | None => 1
  end.

(** The invariant of the slot-building loop of dsaturColoring; [h1] and
    [c1] are the store and the console when the loop starts, [done] the
    entries of the assignment placed so far. *)
Definition placeInv (cmap : CourseMap) (h1 : list Course) (c1 : list LogEntry)
  (done : ColorAssignment) (sls : Slots) (s : State) : Prop :=
  NoDup (keys sls) /\
  (forall sl, slotList sls sl = colored done sl) /\
  (forall sl, In sl (keys sls) <-> colored done sl <> []) /\
  console s = c1 /\
  sameStatic h1 (heap s) /\
  (forall nm c a, In (nm, Some c) done -> mapGet nm cmap = Some a ->
     slot (deref (heap s) a) = Some c /\
     color (deref (heap s) a) = slotColor c).

(* ------------------------------------------------------------------ *)
(** ** Deciding the graph properties on a concrete store *)

(** Boolean versions of [NoDup], [wf_graph], [symmetric], [closed] and
    [clique]. *)
Fixpoint nodupb (l : list string) : bool :=
  match l with
  | [] => true
  | x :: l' => negb (setHas x l') && nodupb l'
  end.

Definition wf_graphb (h : list Course) (cmap : CourseMap) : bool :=
  nodupb (keys cmap)
  && forallb (fun e => (snd e <? length h)
                       && String.eqb (name (deref h (snd e))) (fst e)) cmap.

Definition symmetricb (h : list Course) (cmap : CourseMap) : bool :=
  forallb (fun A =>
    forallb (fun B => Bool.eqb (setHas B (conflictsOf h cmap A))
                               (setHas A (conflictsOf h cmap B)))
            (keys cmap)) (keys cmap).

Definition closedb (h : list Course) (cmap : CourseMap) : bool :=
  forallb (fun A => forallb (fun B => setHas B (keys cmap))
                            (conflictsOf h cmap A)) (keys cmap).

Definition cliqueb (h : list Course) (cmap : CourseMap) (cl : list string)
  : bool :=
  nodupb cl
  && forallb (fun x => setHas x (keys cmap)) cl
  && forallb (fun x =>
       forallb (fun y => String.eqb x y || setHas y (conflictsOf h cmap x)) cl)
       cl.

(* ------------------------------------------------------------------ *)
(** ** Example graphs *)

Definition scenarioStudents : list Student :=
  [mkStudent "S1" ["Math"; "Physics"]; mkStudent "S2" ["Physics"; "Chemistry"]].

Definition scenarioCourses : list string := ["Math"; "Physics"; "Chemistry"].

(** The graph buildConflictGraph returns for the scenario. *)
Definition scenarioGraph : CourseMap :=
  [("Math", 0); ("Physics", 1); ("Chemistry", 2)].

Definition scenarioState : State :=
  mkState [ mkCourse "Math" ["Physics"] None None;
            mkCourse "Physics" ["Math"; "Chemistry"] None None;
            mkCourse "Chemistry" ["Physics"] None None ] [].

(** The scenario graph after an earlier colouring, in a store that
    holds another object first. *)
Definition scenarioGraphAgain : CourseMap :=
  [("Math", 1); ("Physics", 2); ("Chemistry", 3)].

Definition scenarioStateAgain : State :=
  mkState [ mkCourse "Other" ["Math"] (Some 1) None;
            mkCourse "Math" ["Physics"] (Some 3) (Some "#F59E0B");
            mkCourse "Physics" ["Math"; "Chemistry"] (Some 1) (Some "#3B82F6");
            mkCourse "Chemistry" ["Physics"] None None ] [CriticalError].

(** Three pairwise conflicting courses. *)
Definition triangleGraph : CourseMap := [("A", 0); ("B", 1); ("C", 2)].

Definition triangleState : State :=
  mkState [ mkCourse "A" ["B"; "C"] None None;
            mkCourse "B" ["A"; "C"] None None;
            mkCourse "C" ["A"; "B"] None None ] [].



(** Two students over four courses whose names contain the separator of
    the pair keys. *)
Definition barStudents : list Student :=
  [mkStudent "S1" ["a|b"; "c"]; mkStudent "S2" ["a"; "b|c"]].

Definition barCourses : list string := ["a|b"; "c"; "a"; "b|c"].

Definition barGraph : CourseMap := [("a|b", 0); ("c", 1); ("a", 2); ("b|c", 3)].

Definition barState : State :=
  mkState [ mkCourse "a|b" ["c"] None None;
            mkCourse "c" ["a|b"] None None;
            mkCourse "a" ["b|c"] None None;
            mkCourse "b|c" ["a"] None None ] [].

(* ------------------------------------------------------------------ *)
(** ** Further notions: the builder *)

(** De-duplication in the manner of a [Set]: first occurrences, in
    order. *)
Definition dedupe (l : list string) : list string :=
  fold_left (fun acc x => setAdd x acc) l [].

(** The names of the universe that buildConflictGraph inserts: trimmed,
    non-empty, each once, in the order of their first occurrence. *)
Definition universeKeys (courseNames : list string) : list string :=
  dedupe (map trim (filter (fun nm => truthy nm && truthy (trim nm))
                           courseNames)).

(** [a] and [b] stand at two different positions of [l]. *)
Definition mentionsBoth (l : list string) (a b : string) : Prop :=
  exists i j, i <> j /\ nth_error l i = Some a /\ nth_error l j = Some b.

(** A computation relates every state to the state it leaves, whatever
    its outcome. *)
Definition preserves {A : Type} (R : State -> State -> Prop) (m : M A)
  : Prop :=
  forall s, R s (snd (m s)).

(** The slots and colours of all objects are those of [s]. *)
Definition sameColoring (s s' : State) : Prop :=
  forall a, slot (deref (heap s') a) = slot (deref (heap s) a) /\
            color (deref (heap s') a) = color (deref (heap s) a).

(* ------------------------------------------------------------------ *)
(** ** Further notions: the colourers *)

(** No course can move to a lower slot: every lower slot lists a course
    of its conflict set. *)
Definition tight (h : list Course) (cmap : CourseMap) (sls : Slots) : Prop :=
  forall k sl, In k (slotList sls sl) ->
  forall j, 1 <= j < sl ->
    exists x, In x (slotList sls j) /\ In x (conflictsOf h cmap k).

(** A second invariant of the loop of dsaturColoring: a coloured course
    has all its conflicts among the keys, and every lower colour on one
    of them. *)
Definition dsaturTight (h : list Course) (cmap : CourseMap)
  (ca : ColorAssignment) : Prop :=
  forall u cu, mapGet u ca = Some (Some cu) ->
    (forall nb, In nb (conflictsOf h cmap u) -> In nb (keys cmap)) /\
    forall j, 1 <= j < cu ->
      exists x, In x (conflictsOf h cmap u) /\ mapGet x ca = Some (Some j).

(** A graph whose only course lists a conflict outside the graph. *)
Definition danglingGraph : CourseMap := [("A", 0)].

Definition danglingState : State :=
  mkState [ mkCourse "A" ["Z"] None None ] [].

(* ------------------------------------------------------------------ *)
(** ** Further notions: the views of a result *)

(** A result of one of the two colourers. *)
Definition producedBy (localeCompare : string -> string -> Z)
  (cmap : CourseMap) (sts : option (list Student)) (s : State)
  (r : ScheduleResult) (s' : State) : Prop :=
  greedyColoring localeCompare cmap sts s = (Ok r, s') \/
  dsaturColoring localeCompare cmap sts s = (Ok r, s').

(** The comparator [([a], [b]) => a - b] on the entries of [slots]. *)
Definition bySlot (p q : nat * list string) : Z :=
  (Z.of_nat (fst p) - Z.of_nat (fst q))%Z.

(** [Array.from(result.slots.entries()).sort(([a], [b]) => a - b)]: the
    rows of TimetableView and of the two tables of ResultsPage. *)
Definition sortedSlots (r : ScheduleResult) : list (nat * list string) :=
  sortBy bySlot (slots r).

(** [result.courses.get(course)?.color], the colour of a badge. *)
Definition colorOf (h : list Course) (r : ScheduleResult) (course : string)
  : option string :=
  match mapGet course (resCourses r) with
  | Some a => color (deref h a)
  | None => None
  end.

(** [result.courses.get(courses[0])?.color], the colour of the heading
    of a row. *)
Definition headColor (h : list Course) (r : ScheduleResult)
  (courses : list string) : option string :=
  match courses with
  | c :: _ => colorOf h r c
  | [] => None
  end.

(** A row of the list of differences of ResultsPage. *)
Record DiffRow : Type := mkDiffRow {
  diffName : string;
  standardSlot : option nat;
  optimizedSlot : option nat
}.

(** [stdSlot !== optSlot] on [number | undefined], negated. *)
Definition slotEqb (a b : option nat) : bool :=
  match a, b with
  | Some x, Some y => x =? y
  | None, None => true
  | _, _ => false
  end.

(** [slot ?? 0] *)
Definition slotOr0 (a : option nat) : nat :=
  match a with Some x => x | None => 0 end.

(** The comparator of [changed.sort]:
    [(a.optimizedSlot ?? 0) - (b.optimizedSlot ?? 0)
     || a.name.localeCompare(b.name)]. *)
Definition byOptimizedSlot (localeCompare : string -> string -> Z)
  (a b : DiffRow) : Z :=
  let d := (Z.of_nat (slotOr0 (optimizedSlot a))
            - Z.of_nat (slotOr0 (optimizedSlot b)))%Z in
  if (d =? 0)%Z then localeCompare (diffName a) (diffName b) else d.

(** The body of [result.courses.forEach] in the computation of [diffs]. *)
Definition diffStep (h : list Course) (optimizedCourses : CourseMap)
  (acc : list DiffRow * nat) (entry : string * addr) : list DiffRow * nat :=
  let '(nm, a) := entry in
  let stdSlot := slot (deref h a) in
  let optSlot := match mapGet nm optimizedCourses with
                 | Some a' => slot (deref h a')
                 | None => None
                 end in
  if negb (slotEqb stdSlot optSlot)
  then (fst acc ++ [mkDiffRow nm stdSlot optSlot], S (snd acc))
  else acc.

(** [diffs] of ResultsPage: the rows [changed] and [movedCount]. *)
Definition computeDiffs (localeCompare : string -> string -> Z)
  (h : list Course) (resultCourses optimizedCourses : CourseMap)
  : list DiffRow * nat :=
  let '(changed, movedCount) :=
    fold_left (diffStep h optimizedCourses) resultCourses ([], 0) in
  (sortBy (byOptimizedSlot localeCompare) changed, movedCount).

(** The data of ResultsPage for a result: [optimized], the result of
    [dsaturColoring(result.courses, result.students)], and [diffs]. *)
Definition resultsPage (localeCompare : string -> string -> Z)
  (result : ScheduleResult) : M (ScheduleResult * (list DiffRow * nat)) :=
  optimized <- dsaturColoring localeCompare (resCourses result)
                 (Some (students result)) ;;
  h <- getHeap ;;
  ret (optimized,
       computeDiffs localeCompare h (resCourses result) (resCourses optimized)).

(** The rows that [diffStep] adds for the entries [l]. *)
Definition diffRows (h : list Course) (optimizedCourses : CourseMap)
  (l : CourseMap) : list DiffRow :=
  flat_map (fun entry => fst (diffStep h optimizedCourses ([], 0) entry)) l.

(** A node of GraphVisualization. *)
Record GraphNode : Type := mkGraphNode {
  nodeId : string;
  nodeName : string;
  nodeColor : option string;
  nodeSlot : option nat
}.

(** [Array.from(result.courses.values()).map(course => ({ ... }))] *)
Definition graphNodes (h : list Course) (cmap : CourseMap) : list GraphNode :=
  map (fun a => let course := deref h a in
                mkGraphNode (name course) (name course)
                            (color course) (slot course))
      (values cmap).

(** The inner [course.conflicts.forEach] of the links: a link for each
    conflict whose name comes after the name of the course, by code
    units ([course.name < conflictCourse]). *)
Definition linksOf (course : Course) : list (string * string) :=
  flat_map (fun conflictCourse =>
              if String.ltb (name course) conflictCourse
              then [(name course, conflictCourse)] else [])
           (conflicts course).

(** The [links] of GraphVisualization, as pairs of source and target. *)
Definition graphLinks (h : list Course) (cmap : CourseMap)
  : list (string * string) :=
  flat_map (fun a => linksOf (deref h a)) (values cmap).

(** Conflict sets stay sets: a duplicate-free conflict list stays so. *)
Definition keepsSets (s s' : State) : Prop :=
  forall a, NoDup (conflicts (deref (heap s) a)) ->
            NoDup (conflicts (deref (heap s') a)).

(** The opacity of node [n] while the pointer is over node [d]: full for
    [d] itself and for the ends of the links of [d], dimmed otherwise. *)
Definition highlighted (links : list (string * string)) (d n : string)
  : bool :=
  if String.eqb n d then true
  else existsb (fun l => (String.eqb (fst l) d && String.eqb (snd l) n)
                         || (String.eqb (snd l) d && String.eqb (fst l) n))
               links.

(* ------------------------------------------------------------------ *)
(** ** parseCourseList *)

(** The separators of [split(/[,\n\r]+/)]: comma, line feed and carriage
    return. *)
Definition isSeparator (c : ascii) : bool :=
  let n := nat_of_ascii c in
  Nat.eqb n 44 || Nat.eqb n 10 || Nat.eqb n 13.

(** The quotes that [c.replace] removes from a name, all occurrences:
    apostrophe (39) and quotation mark (34). *)
Definition isQuote (c : ascii) : bool :=
  let n := nat_of_ascii c in
  Nat.eqb n 39 || Nat.eqb n 34.

(** [s.split(/[,\n\r]+/)] from inside the string: the pieces between
    the maximal runs of separators; [inRun] tells that the code unit
    before [s] is a separator.  A run at the start or at the end of the
    input leaves an empty piece there. *)
Fixpoint splitFrom (inRun : bool) (s : string) : list string :=
  match s with
  | EmptyString => [EmptyString]
  | String c s' =>
      if isSeparator c then
        if inRun then splitFrom true s'
        else EmptyString :: splitFrom true s'
      else match splitFrom false s' with
           | [] => [String c EmptyString]
           | w :: ws => String c w :: ws
           end
  end.

Definition splitSeparators (s : string) : list string := splitFrom false s.

(** [c.replace] with the class of the two quotes, flag [g], and the
    empty replacement. *)
Fixpoint removeQuotes (s : string) : string :=
  match s with
  | EmptyString => EmptyString
  | String c s' =>
      if isQuote c then removeQuotes s' else String c (removeQuotes s')
  end.

Definition parseCourseList (input : string) : list string :=
  if negb (truthy input) || negb (truthy (trim input)) then []
  else
    let courses :=
      filter truthy
        (map removeQuotes
           (filter truthy (map trim (splitSeparators input)))) in
    dedupe courses.

(** [names.join(', ')] *)
Fixpoint joinComma (names : list string) : string :=
  match names with
  | [] => EmptyString
  | [x] => x
  | x :: rest => String.append x (String.append ", " (joinComma rest))
  end.

(** Every code unit of [s] passes the test [p]. *)
Fixpoint allChars (p : ascii -> bool) (s : string) : bool :=
  match s with
  | EmptyString => true
  | String c s' => p c && allChars p s'
  end.

(** A course name that parseCourseList leaves as it is: not empty,
    trimmed, and free of separators and quotes. *)
Definition cleanName (n : string) : bool :=
  truthy n && String.eqb (trim n) n
  && allChars (fun c => negb (isSeparator c) && negb (isQuote c)) n.

(** Two stores with the same names and conflict sets everywhere, and
    the same objects from address [n] on. *)
Definition sameFrom (n : nat) (h h' : list Course) : Prop :=
  sameStatic h h' /\ forall a, n <= a -> deref h' a = deref h a.

(** The scenario graph after greedyColoring. *)
Definition scenarioColoured : State :=
  Eval vm_compute in
    snd (greedyColoring codeUnitCompare scenarioGraph None scenarioState).

(** [pair.split] of a pair key, for names without the separator: the
    two names. *)
Definition pairList (p : string * string) : list string := [fst p; snd p].

(* ------------------------------------------------------------------ *)
(** ** parseStudentData *)

(** The class [\w] of the patterns: letters, digits and the low line. *)
Definition isWordChar (c : ascii) : bool :=
  let n := nat_of_ascii c in
  ((48 <=? n) && (n <=? 57)) || ((65 <=? n) && (n <=? 90))
  || Nat.eqb n 95 || ((97 <=? n) && (n <=? 122)).

(** The line terminators, which [.] does not match: line feed and
    carriage return. *)
Definition isLineTerminator (c : ascii) : bool :=
  let n := nat_of_ascii c in
  Nat.eqb n 10 || Nat.eqb n 13.

Definition isComma (c : ascii) : bool := Nat.eqb (nat_of_ascii c) 44.

(** [s.split(sep)] for a separator of one code unit. *)
Fixpoint splitOn (sep : ascii) (s : string) : list string :=
  match s with
  | EmptyString => [EmptyString]
  | String c s' =>
      if Ascii.eqb c sep then EmptyString :: splitOn sep s'
      else match splitOn sep s' with
           | [] => [String c EmptyString]
           | w :: ws => String c w :: ws
           end
  end.

(** The longest prefix of [s] in the class [p], and what follows it:
    what a greedy [p+] or [p*] takes first. *)
Fixpoint span (p : ascii -> bool) (s : string) : string * string :=
  match s with
  | EmptyString => (EmptyString, EmptyString)
  | String c s' =>
      if p c then let '(a, b) := span p s' in (String c a, b)
      else (EmptyString, s)
  end.

Fixpoint lastChar (s : string) : option ascii :=
  match s with
  | EmptyString => None
  | String c EmptyString => Some c
  | String _ s' => lastChar s'
  end.

(** The end [\s*(.+)$] of the three patterns, on what follows the
    separator: the text of the last group, if the pattern matches.
    [\s*] takes the white space in front; [(.+)] must then reach the end
    of the line over code units that are no line terminators.  When only
    white space follows the separator, [\s*] gives back its last code
    unit, and no more, since [(.+)] takes the rest. *)
Definition matchRest (rest : string) : option string :=
  let '(ws, tail) := span isWhiteSpace rest in
  match tail with
  | String _ _ =>
      if allChars (fun c => negb (isLineTerminator c)) tail
      then Some tail else None
  | EmptyString =>
      match lastChar ws with
      | Some c =>
          if isLineTerminator c then None else Some (String c EmptyString)
      | None => None
      end
  end.

(** A pattern [^(C+)S\s*(.+)$] with a class [C] that excludes the
    separator [S]: the two groups. *)
Definition matchPattern (idChar : ascii -> bool) (sep : ascii)
  (line : string) : option (string * string) :=
  let '(idText, rest) := span idChar line in
  match idText, rest with
  | String _ _, String c rest' =>
      if Ascii.eqb c sep then
        match matchRest rest' with
        | Some coursesStr => Some (idText, coursesStr)
        | None => None
        end
      else None
  | _, _ => None
  end.

(** The first of the three patterns that matches. *)
Definition matchLine (line : string) : option (string * string) :=
  match matchPattern isWordChar ":"%char line with
  | Some m => Some m
  | None =>
      match matchPattern isWordChar ","%char line with
      | Some m => Some m
      | None => matchPattern (fun c => negb (isComma c)) ","%char line
      end
  end.

(** [toLowerCase] on the modelled code units: the letters A to Z and the
    capital letters of U+00C0 to U+00DE. *)
Definition lowerChar (c : ascii) : ascii :=
  let n := nat_of_ascii c in
  if ((65 <=? n) && (n <=? 90))
     || ((192 <=? n) && (n <=? 222) && negb (Nat.eqb n 215))
  then ascii_of_nat (n + 32) else c.

Fixpoint toLowerCase (s : string) : string :=
  match s with
  | EmptyString => EmptyString
  | String c s' => String (lowerChar c) (toLowerCase s')
  end.

(** The variants of IoT are standardized. *)
Definition standardize (c : string) : string :=
  if String.eqb (toLowerCase c) "iot"
     || String.eqb (toLowerCase c) "internet of things"
  then "IoT" else c.

(** The body of [lines.forEach]: the student of a line, if any. *)
Definition parseLine (line : string) : option Student :=
  match matchLine line with
  | Some (idText, coursesStr) =>
      if negb (truthy idText) || negb (truthy coursesStr) then None
      else
        let courseNames :=
          filter truthy
            (map standardize
               (map removeQuotes
                  (filter truthy (map trim (splitOn ","%char coursesStr))))) in
        if (0 <? length courseNames) && truthy (trim idText)
        then Some (mkStudent (trim idText) courseNames)
        else None
  | None => None
  end.

Definition parseStudentData (input : string) : list Student :=
  if negb (truthy input) || negb (truthy (trim input)) then []
  else
    let lines :=
      filter (fun line => 0 <? String.length (trim line))
             (splitOn (ascii_of_nat 10) (trim input)) in
    flat_map (fun line => match parseLine line with
                          | Some st => [st]
                          | None => []
                          end) lines.

(** The text of a student in the first format of parseStudentData,
    [S1: Math, Physics], which parseStudentCSV writes. *)
Definition formatStudent (st : Student) : string :=
  String.append (id st) (String.append ": " (joinComma (courses st))).

(** [lines.join] with a line feed. *)
Fixpoint joinLines (ls : list string) : string :=
  match ls with
  | [] => EmptyString
  | [x] => x
  | x :: rest =>
      String.append x (String (ascii_of_nat 10) (joinLines rest))
  end.

(** A student that parseStudentData reads back as it is: an identifier
    of word characters and at least one course, the courses clean and
    none of them a variant of IoT to standardize. *)
Definition cleanStudent (st : Student) : bool :=
  truthy (id st) && allChars isWordChar (id st)
  && (0 <? length (courses st))
  && forallb (fun c => cleanName c && String.eqb (standardize c) c)
             (courses st).

(* ------------------------------------------------------------------ *)
(** ** The CSV of the students: export and import *)

Definition lineFeed : ascii := ascii_of_nat 10.
Definition quotationMark : ascii := ascii_of_nat 34.

Definition isQuotationMark (c : ascii) : bool := Nat.eqb (nat_of_ascii c) 34.

(** [l.join(sep)] *)
Fixpoint joinWith (sep : string) (l : list string) : string :=
  match l with
  | [] => EmptyString
  | [x] => x
  | x :: rest => String.append x (String.append sep (joinWith sep rest))
  end.

(** [s.replace] of every quotation mark by two of them. *)
Fixpoint doubleQuotes (s : string) : string :=
  match s with
  | EmptyString => EmptyString
  | String c s' =>
      if isQuotationMark c then String c (String c (doubleQuotes s'))
      else String c (doubleQuotes s')
  end.

(** [escape] of the export: the text between quotation marks, its own
    quotation marks doubled. *)
Definition escape (s : string) : string :=
  String quotationMark
    (String.append (doubleQuotes s) (String quotationMark EmptyString)).

(** The line of a student in the exported CSV, without its line feed. *)
Definition exportRow (stu : Student) : string :=
  String.append (id stu)
    (String.append "," (escape (joinComma (courses stu)))).

(** The text of [Export Students CSV] of ResultsPage; nothing is
    exported when there is no student. *)
Definition exportStudentsCSV (sts : list Student) : option string :=
  if length sts =? 0 then None
  else
    Some (fold_left
            (fun csv stu =>
               String.append csv
                 (String.append (exportRow stu) (String lineFeed EmptyString)))
            sts
            (String.append "student_id,courses" (String lineFeed EmptyString))).

(** [text.split] at every line feed, with the carriage return in front
    of it if there is one. *)
Fixpoint splitLines (s : string) : list string :=
  match s with
  | EmptyString => [EmptyString]
  | String c s' =>
      let keep := match splitLines s' with
                  | [] => [String c EmptyString]
                  | w :: ws => String c w :: ws
                  end in
      if Nat.eqb (nat_of_ascii c) 10 then EmptyString :: splitLines s'
      else if Nat.eqb (nat_of_ascii c) 13 then
        match s' with
        | String c2 s'' =>
            if Nat.eqb (nat_of_ascii c2) 10
            then EmptyString :: splitLines s''
            else keep
        | EmptyString => keep
        end
      else keep
  end.

(** [hay.includes(needle)] *)
Fixpoint includes (needle hay : string) : bool :=
  String.prefix needle hay
  || match hay with
     | EmptyString => false
     | String _ hay' => includes needle hay'
     end.

(** [s.replace] of every quotation mark by nothing. *)
Fixpoint removeQuotationMarks (s : string) : string :=
  match s with
  | EmptyString => EmptyString
  | String c s' =>
      if isQuotationMark c then removeQuotationMarks s'
      else String c (removeQuotationMarks s')
  end.

(** The body of [dataLines.map] in parseStudentCSV: a line of the file
    in the first format of parseStudentData.  [split] returns at least
    one piece, so that [student] is defined. *)
Definition csvLine (line : string) : string :=
  match splitOn ","%char line with
  | student :: courseFields =>
      let courseStr := trim (removeQuotationMarks (joinWith "," courseFields)) in
      String.append (trim student) (String.append ": " courseStr)
  | [] => EmptyString
  end.

(** The handler of parseStudentCSV on the text of the file: the text
    handed to the callback.  On a file without a non-empty line,
    [lines[0]] is undefined and the handler raises. *)
Definition parseStudentCSV (text : string) : outcome string :=
  let lines := filter truthy (splitLines text) in
  match lines with
  | [] => TypeError
  | first :: rest =>
      let dataLines :=
        if includes "student" (toLowerCase first) then rest else lines in
      Ok (joinLines (map csvLine dataLines))
  end.

(* ------------------------------------------------------------------ *)
(** ** parseCoursesCSV *)

(** The names of one line of the file: the quotation marks removed, the
    line split at the commas, the pieces trimmed, the empty ones
    dropped. *)
Definition lineCourses (line : string) : list string :=
  filter truthy (map trim (splitOn ","%char (removeQuotationMarks line))).

(** The test of the header, a pattern that ignores case: the line,
    without quotation marks, starts with [course]. *)
Definition isCoursesHeader (line : string) : bool :=
  String.prefix "course" (toLowerCase (removeQuotationMarks line)).

(** The handler of parseCoursesCSV on the text of the file: the text
    handed to the callback. *)
Definition parseCoursesCSV (text : string) : string :=
  let lines := filter truthy (map trim (splitLines text)) in
  match lines with
  | [] => EmptyString
  | [line] => joinComma (lineCourses line)
  | first :: rest =>
      let dataLines := if isCoursesHeader first then rest else lines in
      let allCourses := flat_map lineCourses dataLines in
      joinComma (dedupe allCourses)
  end.

(** No carriage return and no apostrophe. *)
Definition plainChar (c : ascii) : bool :=
  let n := nat_of_ascii c in
  negb (Nat.eqb n 13) && negb (Nat.eqb n 39).

(* ------------------------------------------------------------------ *)
(** ** Lemmas on the collections *)

Unset Implicit Arguments.

Section CollectionFacts.
Context {K : Type} `{Key K}.

Lemma keyb_refl (x : K) : keyb x x = true.
Proof. destruct (keyb_spec x x); congruence. Qed.

Lemma keyb_eq (x y : K) : keyb x y = true <-> x = y.
Proof. destruct (keyb_spec x y); split; congruence. Qed.

Lemma keyb_neq (x y : K) : keyb x y = false <-> x <> y.
Proof. destruct (keyb_spec x y); split; congruence. Qed.

Lemma setHas_In (x : K) (s : list K) : setHas x s = true <-> In x s.
Proof.
  unfold setHas. rewrite existsb_exists. split.
  - intros [y [Hy Hk]]. apply keyb_eq in Hk. now subst.
  - intros Hin. exists x. split; [assumption | apply keyb_refl].
Qed.

Lemma setHas_false (x : K) (s : list K) : setHas x s = false <-> ~ In x s.
Proof.
  rewrite <- setHas_In. destruct (setHas x s); split; congruence.
Qed.

Lemma In_setAdd (x y : K) (s : list K) :
  In y (setAdd x s) <-> y = x \/ In y s.
Proof.
  unfold setAdd. destruct (setHas x s) eqn:E.
  - apply setHas_In in E. split; [auto | intros [-> | ?]; assumption].
  - rewrite in_app_iff. simpl. split; intros; intuition congruence.
Qed.

Lemma NoDup_setAdd (x : K) (s : list K) : NoDup s -> NoDup (setAdd x s).
Proof.
  intros Hs. unfold setAdd. destruct (setHas x s) eqn:E; [assumption |].
  apply setHas_false in E.
  apply NoDup_app; [assumption | repeat constructor; intros [] | ].
  intros y Hy [<- | []]. contradiction.
Qed.

Lemma length_setAdd (x : K) (s : list K) :
  length (setAdd x s) = if setHas x s then length s else S (length s).
Proof.
  unfold setAdd. destruct (setHas x s); [reflexivity |].
  rewrite length_app. simpl. lia.
Qed.

Context {V : Type}.
Implicit Types (m : list (K * V)) (k : K) (v : V).

Lemma mapGet_In m k v : mapGet k m = Some v -> In (k, v) m.
Proof.
  induction m as [| [k' v'] m IH]; simpl; [discriminate |].
  destruct (keyb_spec k k') as [-> | Hne].
  - intros [= ->]. now left.
  - intros Hg. right. now apply IH.
Qed.

Lemma mapGet_None m k : mapGet k m = None <-> ~ In k (keys m).
Proof.
  induction m as [| [k' v'] m IH]; simpl.
  - split; [intros _ [] | reflexivity].
  - destruct (keyb_spec k k') as [-> | Hne].
    + split; [discriminate | intros Hn; exfalso; apply Hn; now left].
    + rewrite IH. split; intros Hn; [intros [E | Hin] | ]; try tauto.
      congruence.
Qed.

Lemma mapGet_Some_key m k v : mapGet k m = Some v -> In k (keys m).
Proof.
  intros Hg. apply mapGet_In in Hg. unfold keys.
  now apply (in_map fst) in Hg.
Qed.

Lemma In_keys_mapGet m k : In k (keys m) -> exists v, mapGet k m = Some v.
Proof.
  intros Hin. destruct (mapGet k m) as [v |] eqn:E; [now exists v |].
  apply mapGet_None in E. contradiction.
Qed.

Lemma NoDup_mapGet m k v : NoDup (keys m) -> In (k, v) m -> mapGet k m = Some v.
Proof.
  induction m as [| [k' v'] m IH]; simpl; [intros _ [] |].
  intros Hnd Hin. inversion Hnd as [| ? ? Hni Hnd']; subst.
  destruct Hin as [[= -> ->] | Hin].
  - now rewrite keyb_refl.
  - destruct (keyb_spec k k') as [-> | Hne]; [| now apply IH].
    exfalso. apply Hni. now apply (in_map fst) in Hin.
Qed.

Lemma mapGet_mapSet_eq m k v : mapGet k (mapSet k v m) = Some v.
Proof.
  induction m as [| [k' v'] m IH]; simpl.
  - now rewrite keyb_refl.
  - destruct (keyb_spec k k') as [-> | Hne]; simpl.
    + now rewrite keyb_refl.
    + apply keyb_neq in Hne. now rewrite Hne.
Qed.

Lemma mapGet_mapSet_neq m k k' v :
  k' <> k -> mapGet k' (mapSet k v m) = mapGet k' m.
Proof.
  intros Hne. induction m as [| [k0 v0] m IH]; simpl.
  - apply keyb_neq in Hne. now rewrite Hne.
  - destruct (keyb_spec k k0) as [-> | Hne0]; simpl.
    + apply keyb_neq in Hne. now rewrite Hne.
    + now rewrite IH.
Qed.

Lemma keys_mapSet_in m k v :
  In k (keys m) -> keys (mapSet k v m) = keys m.
Proof.
  induction m as [| [k0 v0] m IH]; simpl; [intros [] |].
  destruct (keyb_spec k k0) as [-> | Hne]; simpl; [reflexivity |].
  intros [E | Hin]; [congruence |]. now rewrite IH.
Qed.

Lemma keys_mapSet_notin m k v :
  ~ In k (keys m) -> keys (mapSet k v m) = keys m ++ [k].
Proof.
  induction m as [| [k0 v0] m IH]; simpl; [reflexivity |].
  intros Hn. destruct (keyb_spec k k0) as [-> | Hne]; simpl.
  - exfalso. apply Hn. now left.
  - rewrite IH; [reflexivity | tauto].
Qed.

Lemma In_keys_mapSet m k k' v :
  In k' (keys (mapSet k v m)) <-> k' = k \/ In k' (keys m).
Proof.
  destruct (in_dec (fun x y => reflect_dec _ _ (keyb_spec x y)) k (keys m))
    as [Hin | Hn].
  - rewrite keys_mapSet_in by assumption.
    split; [auto | intros [-> | ?]; assumption].
  - rewrite keys_mapSet_notin by assumption.
    rewrite in_app_iff. simpl. intuition congruence.
Qed.

Lemma NoDup_keys_mapSet m k v : NoDup (keys m) -> NoDup (keys (mapSet k v m)).
Proof.
  intros Hnd.
  destruct (in_dec (fun x y => reflect_dec _ _ (keyb_spec x y)) k (keys m))
    as [Hin | Hn].
  - now rewrite keys_mapSet_in.
  - rewrite keys_mapSet_notin by assumption.
    apply NoDup_app; [assumption | repeat constructor; intros [] |].
    intros y Hy [<- | []]. contradiction.
Qed.

Lemma In_mapSet m k v k' v' :
  In (k', v') (mapSet k v m) -> (k' = k /\ v' = v) \/ In (k', v') m.
Proof.
  induction m as [| [k0 v0] m IH]; simpl.
  - intros [[= <- <-] | []]. now left.
  - destruct (keyb_spec k k0) as [-> | Hne]; simpl.
    + intros [[= <- <-] | Hin]; [now left | right; now right].
    + intros [[= <- <-] | Hin]; [right; now left |].
      destruct (IH Hin) as [? | ?]; [now left | right; now right].
Qed.

Lemma length_mapSet m k v :
  length (mapSet k v m)
  = if mapHas k m then length m else S (length m).
Proof.
  unfold mapHas. induction m as [| [k0 v0] m IH]; simpl; [reflexivity |].
  destruct (keyb_spec k k0) as [-> | Hne]; simpl; [reflexivity |].
  rewrite IH. now destruct (mapGet k m).
Qed.
End CollectionFacts.

(* ------------------------------------------------------------------ *)
(** ** Lemmas on the store and the monad *)

Lemma length_update a f h : length (update a f h) = length h.
Proof.
  revert a. induction h as [| c h IH]; intros [| a]; simpl; auto.
Qed.

Lemma deref_update_eq a f h :
  a < length h -> deref (update a f h) a = f (deref h a).
Proof.
  unfold deref. revert a.
  induction h as [| c h IH]; intros [| a] Hlt; simpl in *; try lia; auto.
  apply IH. lia.
Qed.

Lemma deref_update_neq a b f h : a <> b -> deref (update a f h) b = deref h b.
Proof.
  unfold deref. revert a b.
  induction h as [| c h IH]; intros [| a] [| b] Hne; simpl; auto; try lia.
Qed.

Lemma deref_update_static a b f h :
  (forall c, static (f c) = static c) ->
  static (deref (update a f h) b) = static (deref h b).
Proof.
  intros Hf. destruct (Nat.eq_dec a b) as [<- | Hne].
  - destruct (Nat.lt_ge_cases a (length h)) as [Hlt | Hge].
    + now rewrite deref_update_eq.
    + unfold deref. rewrite !nth_overflow; auto. now rewrite length_update.
  - now rewrite deref_update_neq.
Qed.

Lemma deref_app_l h e a : a < length h -> deref (h ++ e) a = deref h a.
Proof. intros Hlt. unfold deref. now apply app_nth1. Qed.

Lemma deref_app_new h c : deref (h ++ [c]) (length h) = c.
Proof. unfold deref. rewrite app_nth2, Nat.sub_diag; auto. Qed.

Lemma update_app_r a f h e :
  length h <= a -> update a f (h ++ e) = h ++ update (a - length h) f e.
Proof.
  revert a. induction h as [| c h IH]; intros a Hle; simpl.
  - now rewrite Nat.sub_0_r.
  - destruct a as [| a]; simpl in *; [lia |]. rewrite IH; auto. lia.
Qed.

Lemma bind_Ok {A B : Type} (m : M A) (f : A -> M B) s a s1 :
  m s = (Ok a, s1) -> bind m f s = f a s1.
Proof. intros E. unfold bind. now rewrite E. Qed.

Lemma bind_inv_Ok {A B : Type} (m : M A) (f : A -> M B) s b s2 :
  bind m f s = (Ok b, s2) ->
  exists a s1, m s = (Ok a, s1) /\ f a s1 = (Ok b, s2).
Proof.
  unfold bind. destruct (m s) as [[a | |] s1]; try discriminate.
  intros E. now exists a, s1.
Qed.

(** Invariant rule for [foldM]: an invariant over the processed prefix,
    the accumulator and the state, kept by every step, holds at the end,
    and the loop completes. *)
Lemma foldM_invariant {A B : Type} (f : B -> A -> M B) (Q : A -> Prop)
  (P : list A -> B -> State -> Prop) :
  (forall done x b s, Q x -> P done b s ->
     exists b' s', f b x s = (Ok b', s') /\ P (done ++ [x]) b' s') ->
  forall l done b s, Forall Q l -> P done b s ->
    exists b' s', foldM f l b s = (Ok b', s') /\ P (done ++ l) b' s'.
Proof.
  intros Hstep. induction l as [| x l IH]; intros done b s HQ HP; simpl.
  - exists b, s. now rewrite app_nil_r.
  - inversion HQ as [| ? ? Hx Hl]; subst.
    destruct (Hstep done x b s Hx HP) as (b' & s' & E & HP').
    erewrite bind_Ok by exact E.
    destruct (IH (done ++ [x]) b' s' Hl HP') as (b'' & s'' & E' & HP'').
    exists b'', s''. rewrite <- app_assoc in HP''. now split.
Qed.

Lemma forEach_invariant {A : Type} (f : A -> M unit) (Q : A -> Prop)
  (P : list A -> State -> Prop) :
  (forall done x s, Q x -> P done s ->
     exists s', f x s = (Ok tt, s') /\ P (done ++ [x]) s') ->
  forall l done s, Forall Q l -> P done s ->
    exists s', forEach l f s = (Ok tt, s') /\ P (done ++ l) s'.
Proof.
  intros Hstep. induction l as [| x l IH]; intros done s HQ HP; simpl.
  - exists s. now rewrite app_nil_r.
  - inversion HQ as [| ? ? Hx Hl]; subst.
    destruct (Hstep done x s Hx HP) as (s' & E & HP').
    erewrite bind_Ok by exact E.
    destruct (IH (done ++ [x]) s' Hl HP') as (s'' & E' & HP'').
    exists s''. rewrite <- app_assoc in HP''. now split.
Qed.

(* ------------------------------------------------------------------ *)
(** ** Lemmas on course graphs in the store *)

Lemma wf_graph_mapGet h cmap k a :
  wf_graph h cmap -> mapGet k cmap = Some a ->
  a < length h /\ name (deref h a) = k.
Proof. intros [_ Hwf] Hg. apply Hwf. now apply mapGet_In. Qed.

Lemma wf_graph_addr_inj h cmap k1 k2 a :
  wf_graph h cmap -> mapGet k1 cmap = Some a -> mapGet k2 cmap = Some a ->
  k1 = k2.
Proof.
  intros Hwf H1 H2.
  destruct (wf_graph_mapGet _ _ _ _ Hwf H1) as [_ E1].
  destruct (wf_graph_mapGet _ _ _ _ Hwf H2) as [_ E2]. congruence.
Qed.

Lemma wf_graph_NoDup_values h cmap : wf_graph h cmap -> NoDup (values cmap).
Proof.
  intros [Hnd Hwf]. unfold values, keys in *.
  induction cmap as [| [k a] cmap IH]; simpl in *; [constructor |].
  inversion Hnd as [| ? ? Hni Hnd']; subst. constructor.
  - intros Hin. apply in_map_iff in Hin. destruct Hin as [[k' a'] [E Hin]].
    simpl in E. subst a'. apply Hni.
    destruct (Hwf k a (or_introl eq_refl)) as [_ E1].
    destruct (Hwf k' a (or_intror Hin)) as [_ E2].
    replace k with k' by congruence. now apply (in_map fst) in Hin.
  - apply IH; auto.
Qed.

Lemma wf_graph_update h cmap a f :
  (forall c, name (f c) = name c) ->
  wf_graph h cmap -> wf_graph (update a f h) cmap.
Proof.
  intros Hf [Hnd Hwf]. split; [assumption |].
  intros k b Hin. destruct (Hwf k b Hin) as [Hlt Hn].
  rewrite length_update. split; [assumption |].
  destruct (Nat.eq_dec a b) as [-> | Hne].
  - rewrite deref_update_eq by assumption. now rewrite Hf.
  - now rewrite deref_update_neq.
Qed.

(** A write through the address of key [k1] changes the conflict set of
    [k1] only. *)
Lemma conflictsOf_update h cmap k1 a g k :
  wf_graph h cmap -> mapGet k1 cmap = Some a ->
  conflictsOf (update a (fun c => setConflicts (g (conflicts c)) c) h) cmap k
  = if String.eqb k k1 then g (conflictsOf h cmap k) else conflictsOf h cmap k.
Proof.
  intros Hwf Hg. unfold conflictsOf.
  destruct (String.eqb_spec k k1) as [-> | Hne].
  - rewrite Hg. destruct (wf_graph_mapGet _ _ _ _ Hwf Hg) as [Hlt _].
    now rewrite deref_update_eq.
  - destruct (mapGet k cmap) as [b |] eqn:Eb; [| reflexivity].
    rewrite deref_update_neq; [reflexivity |].
    intros ->. apply Hne. symmetry. eapply wf_graph_addr_inj; eauto.
Qed.

(* ------------------------------------------------------------------ *)
(** ** The conflict graph builder *)

Lemma laterPairs_In svc k x :
  In (k, x) (laterPairs svc) -> In k svc /\ In x svc.
Proof.
  induction svc as [| c rest IH]; simpl; [intros [] |].
  rewrite in_app_iff, in_map_iff.
  intros [[y [[= <- <-] Hy]] | Hin]; [tauto |].
  destruct (IH Hin). tauto.
Qed.

Lemma laterPairs_distinct svc k x :
  NoDup svc -> In (k, x) (laterPairs svc) -> k <> x.
Proof.
  induction svc as [| c rest IH]; simpl; [intros _ [] |].
  intros Hnd. inversion Hnd as [| ? ? Hni Hnd']; subst.
  rewrite in_app_iff, in_map_iff.
  intros [[y [[= <- <-] Hy]] | Hin]; [congruence | now apply IH].
Qed.

Lemma linkedBy_nil cmap s : wf_graph (heap s) cmap -> linkedBy cmap [] s s.
Proof.
  intros Hwf. split; [assumption |]. do 2 (split; [reflexivity |]).
  intros k x. simpl. tauto.
Qed.

Lemma linkedBy_trans cmap ps1 ps2 s s1 s2 :
  linkedBy cmap ps1 s s1 -> linkedBy cmap ps2 s1 s2 ->
  linkedBy cmap (ps1 ++ ps2) s s2.
Proof.
  intros (_ & Hc1 & Hl1 & H1) (Hwf & Hc2 & Hl2 & H2).
  split; [assumption |]. do 2 (split; [congruence |]).
  intros k x. rewrite H2, H1, !in_app_iff. tauto.
Qed.

Lemma addConflict_spec cmap c1 c2 s :
  wf_graph (heap s) cmap -> In c1 (keys cmap) ->
  exists s', addConflict cmap c1 c2 s = (Ok tt, s') /\
    wf_graph (heap s') cmap /\
    console s' = console s /\
    length (heap s') = length (heap s) /\
    forall k x,
      In x (conflictsOf (heap s') cmap k) <->
      In x (conflictsOf (heap s) cmap k) \/ (k = c1 /\ x = c2).
Proof.
  intros Hwf Hin. destruct (In_keys_mapGet _ _ Hin) as [a Ha].
  unfold addConflict. rewrite Ha. unfold modify.
  eexists. split; [reflexivity |]. simpl.
  split; [now apply wf_graph_update |].
  split; [reflexivity |]. split; [apply length_update |].
  intros k x.
  rewrite (conflictsOf_update _ _ c1 a (setAdd c2) k Hwf Ha).
  destruct (String.eqb_spec k c1) as [-> | Hne].
  - rewrite In_setAdd. tauto.
  - tauto.
Qed.

Lemma linkWithLater_spec cmap c1 later :
  In c1 (keys cmap) -> (forall x, In x later -> In x (keys cmap)) ->
  forall s, wf_graph (heap s) cmap ->
  exists s', linkWithLater cmap c1 later s = (Ok tt, s') /\
    linkedBy cmap (map (pair c1) later) s s'.
Proof.
  intros Hc1. induction later as [| c2 rest IH]; intros Hin s Hwf; simpl.
  - exists s. split; [reflexivity | now apply linkedBy_nil].
  - destruct (addConflict_spec cmap c1 c2 s Hwf Hc1)
      as (s1 & E1 & Hwf1 & Hco1 & Hl1 & H1).
    assert (Hc2 : In c2 (keys cmap)) by (apply Hin; now left).
    destruct (addConflict_spec cmap c2 c1 s1 Hwf1 Hc2)
      as (s2 & E2 & Hwf2 & Hco2 & Hl2 & H2).
    destruct (IH (fun x Hx => Hin x (or_intror Hx)) s2 Hwf2)
      as (s3 & E3 & Hlk).
    exists s3. split.
    + erewrite bind_Ok by exact E1. erewrite bind_Ok by exact E2. exact E3.
    + apply (linkedBy_trans cmap [(c1, c2)] _ s s2 s3); [| exact Hlk].
      split; [assumption |]. do 2 (split; [congruence |]).
      intros k x. rewrite H2, H1. simpl.
      split; [intros [[? | [-> ->]] | [-> ->]] | intros [? | [[[= <- <-] | []] | [[= <- <-] | []]]]];
        tauto.
Qed.

Lemma linkPairs_spec cmap svc :
  (forall x, In x svc -> In x (keys cmap)) ->
  forall s, wf_graph (heap s) cmap ->
  exists s', linkPairs cmap svc s = (Ok tt, s') /\
    linkedBy cmap (laterPairs svc) s s'.
Proof.
  induction svc as [| c1 rest IH]; intros Hin s Hwf; simpl.
  - exists s. split; [reflexivity | now apply linkedBy_nil].
  - destruct (linkWithLater_spec cmap c1 rest (Hin c1 (or_introl eq_refl))
                (fun x Hx => Hin x (or_intror Hx)) s Hwf) as (s1 & E1 & Hlk1).
    destruct (IH (fun x Hx => Hin x (or_intror Hx)) s1 (proj1 Hlk1))
      as (s2 & E2 & Hlk2).
    exists s2. split.
    + erewrite bind_Ok by exact E1. exact E2.
    + eapply linkedBy_trans; eauto.
Qed.

(** Linking pairs of courses of the graph keeps symmetry and closure;
    linking pairs of distinct courses keeps the absence of
    self-conflicts. *)
Lemma linkedBy_symmetric cmap ps s s' :
  linkedBy cmap ps s s' -> symmetric (heap s) cmap -> symmetric (heap s') cmap.
Proof.
  intros (_ & _ & _ & Hl) Hsym A B HA HB. rewrite !Hl.
  specialize (Hsym A B HA HB). tauto.
Qed.

Lemma linkedBy_closed cmap ps s s' :
  linkedBy cmap ps s s' ->
  (forall k x, In (k, x) ps -> In k (keys cmap) /\ In x (keys cmap)) ->
  closed (heap s) cmap -> closed (heap s') cmap.
Proof.
  intros (_ & _ & _ & Hl) Hps Hcl A B HA HB. apply Hl in HB.
  destruct HB as [HB | [HB | HB]].
  - eapply Hcl; eauto.
  - now apply Hps in HB.
  - now apply Hps in HB.
Qed.

Lemma linkedBy_noSelfConflict cmap ps s s' :
  linkedBy cmap ps s s' ->
  (forall k x, In (k, x) ps -> k <> x) ->
  noSelfConflict (heap s) cmap -> noSelfConflict (heap s') cmap.
Proof.
  intros (_ & _ & _ & Hl) Hps Hns A HA HAA. apply Hl in HAA.
  destruct HAA as [HAA | [HAA | HAA]].
  - eapply Hns; eauto.
  - now apply Hps in HAA.
  - now apply Hps in HAA.
Qed.

Lemma studentValidCourses_In validCourses st x :
  In x (studentValidCourses validCourses st) -> In x validCourses.
Proof.
  unfold studentValidCourses. rewrite filter_In.
  intros [_ Hx]. now apply setHas_In.
Qed.

Lemma linkStudent_spec validCourses cmap st s0 s :
  (forall x, In x validCourses -> In x (keys cmap)) ->
  graphInv cmap s0 s ->
  exists s', linkStudent validCourses cmap st s = (Ok tt, s') /\
    graphInv cmap s0 s' /\
    (NoDup (studentValidCourses validCourses st) ->
     noSelfConflict (heap s) cmap -> noSelfConflict (heap s') cmap).
Proof.
  intros Hvc (Hwf & Hsym & Hcl & Hco & Hlen). unfold linkStudent.
  destruct (1 <? length (studentValidCourses validCourses st)).
  - assert (Hin : forall x, In x (studentValidCourses validCourses st) ->
                            In x (keys cmap)).
    { intros x Hx. apply Hvc. eapply studentValidCourses_In; eauto. }
    destruct (linkPairs_spec cmap _ Hin s Hwf) as (s' & E & Hlk).
    exists s'. split; [exact E |]. split.
    + split; [apply Hlk |].
      split; [eapply linkedBy_symmetric; eauto |].
      split.
      * eapply linkedBy_closed; eauto.
        intros k x Hkx. apply laterPairs_In in Hkx. destruct Hkx. auto.
      * destruct Hlk as (_ & Hco' & Hlen' & _). split; congruence.
    + intros Hnd. eapply linkedBy_noSelfConflict; eauto.
      intros k x. now apply laterPairs_distinct.
  - exists s. split; [reflexivity |]. split; [| auto].
    unfold graphInv. auto.
Qed.

(** The first loop of buildConflictGraph: one fresh, unlinked object per
    trimmed non-empty name of the universe. *)
Lemma addCourseNames_spec courseNames s :
  exists validCourses cmap s',
    foldM addCourseName courseNames ([], []) s = (Ok (validCourses, cmap), s') /\
    (forall k, In k validCourses <-> In k (keys cmap)) /\
    wf_graph (heap s') cmap /\
    (forall k, conflictsOf (heap s') cmap k = []) /\
    console s' = console s.
Proof.
  pose (P := fun (_ : list string) (acc : list string * CourseMap) (s' : State) =>
    NoDup (keys (snd acc)) /\
    (forall k, In k (fst acc) <-> In k (keys (snd acc))) /\
    (forall k a, In (k, a) (snd acc) ->
       a < length (heap s') /\ deref (heap s') a = mkCourse k [] None None) /\
    console s' = console s).
  destruct (foldM_invariant addCourseName (fun _ => True) P) with
    (l := courseNames) (done := @nil string) (b := (@nil string, @nil (string * addr)))
    (s := s) as ([vc cmap] & s' & E & Hnd & Hvc & Hobj & Hco).
  - intros done nm [vc cmap] s1 _ (Hnd & Hvc & Hobj & Hco). simpl in *.
    destruct (truthy nm && truthy (trim nm)).
    + unfold alloc. cbn [bind ret]. eexists _, _. split; [reflexivity |].
      unfold P. cbn [fst snd heap console].
      split; [now apply NoDup_keys_mapSet |].
      split; [| split; [| assumption]].
      * intros k. rewrite In_setAdd, In_keys_mapSet, Hvc. tauto.
      * intros k a Hin. rewrite length_app. simpl.
        apply In_mapSet in Hin. destruct Hin as [[-> ->] | Hin].
        -- split; [lia | apply deref_app_new].
        -- destruct (Hobj k a Hin) as [Hlt Hd].
           split; [lia |]. now rewrite deref_app_l.
    + exists (vc, cmap), s1. split; [reflexivity |]. unfold P. simpl. auto.
  - apply Forall_forall. auto.
  - unfold P. simpl. repeat split; try constructor; try tauto.
  - exists vc, cmap, s'. simpl in *. split; [exact E |].
    split; [exact Hvc |]. split; [| split; [| exact Hco]].
    + split; [exact Hnd |]. intros k a Hin.
      destruct (Hobj k a Hin) as [Hlt Hd]. split; [exact Hlt |].
      now rewrite Hd.
    + intros k. unfold conflictsOf.
      destruct (mapGet k cmap) as [a |] eqn:Ea; [| reflexivity].
      apply mapGet_In in Ea. destruct (Hobj k a Ea) as [_ Hd]. now rewrite Hd.
Qed.

(** What buildConflictGraph returns, for all inputs: it completes, and
    the graph is a well-formed, symmetric and closed course graph; it has
    no self-conflict when no student mentions a course twice. *)
Lemma buildConflictGraph_spec sts courseNames s :
  exists cmap s',
    buildConflictGraph sts courseNames s = (Ok cmap, s') /\
    wf_graph (heap s') cmap /\ symmetric (heap s') cmap /\
    closed (heap s') cmap /\ console s' = console s /\
    (Forall (fun st => NoDup (studentValidCourses (keys cmap) st)) sts ->
     noSelfConflict (heap s') cmap).
Proof.
  destruct (addCourseNames_spec courseNames s)
    as (vc & cmap & s1 & E1 & Hvc & Hwf & Hempty & Hco).
  assert (Hsvc : forall st, studentValidCourses vc st
                            = studentValidCourses (keys cmap) st).
  { intros st. unfold studentValidCourses. apply filter_ext. intros c.
    destruct (setHas c (keys cmap)) eqn:E.
    - apply setHas_In. apply Hvc. now apply setHas_In.
    - apply setHas_false. rewrite Hvc. now apply setHas_false. }
  pose (P := fun (done : list Student) (s' : State) =>
    graphInv cmap s1 s' /\
    (Forall (fun st => NoDup (studentValidCourses (keys cmap) st)) done ->
     noSelfConflict (heap s') cmap)).
  destruct (forEach_invariant (linkStudent vc cmap) (fun _ => True) P)
    with (l := sts) (done := @nil Student) (s := s1)
    as (s2 & E2 & (Hwf2 & Hsym2 & Hcl2 & Hco2 & _) & Hns2).
  - intros done st s' _ [HG HN].
    destruct (linkStudent_spec vc cmap st s1 s' (fun x Hx => proj1 (Hvc x) Hx) HG)
      as (s'' & E & HG' & HN').
    exists s''. split; [exact E |]. split; [exact HG' |].
    intros Hall. apply Forall_app in Hall. destruct Hall as [Hd Hst].
    inversion Hst; subst. apply HN'; [now rewrite Hsvc | now apply HN].
  - apply Forall_forall. auto.
  - split.
    + split; [exact Hwf |].
      split; [| split; [| split; reflexivity]].
      * intros A B _ _. now rewrite !Hempty.
      * intros A B _. now rewrite Hempty.
    + intros _ A _. now rewrite Hempty.
  - exists cmap, s2. split.
    + unfold buildConflictGraph. erewrite bind_Ok by exact E1. cbn beta iota.
      erewrite bind_Ok by exact E2. reflexivity.
    + repeat (split; [assumption || congruence |]). exact Hns2.
Qed.

(** C3.  For every list of students and every course universe,
    buildConflictGraph completes and the graph it returns is symmetric:
    for all courses A and B of the graph, B is in the conflict set of A
    if and only if A is in the conflict set of B. *)
Theorem buildConflictGraph_symmetric :
  forall (sts : list Student) (courseNames : list string) (s : State),
  exists cmap s',
    buildConflictGraph sts courseNames s = (Ok cmap, s') /\
    symmetric (heap s') cmap.
Proof.
  intros sts courseNames s.
  destruct (buildConflictGraph_spec sts courseNames s)
    as (cmap & s' & E & _ & Hsym & _).
  now exists cmap, s'.
Qed.

(** C2, at the failing input.  A student who mentions the course Math
    twice makes buildConflictGraph link Math with itself: Math is in its
    own conflict set, and the graph has a self-conflict. *)
Theorem buildConflictGraph_repeated_mention_self_conflict :
  exists cmap s',
    buildConflictGraph [mkStudent "S1" ["Math"; "Math"]] ["Math"] emptyState
    = (Ok cmap, s') /\
    In "Math" (keys cmap) /\
    conflictsOf (heap s') cmap "Math" = ["Math"] /\
    ~ noSelfConflict (heap s') cmap.
Proof.
  eexists _, _. split; [vm_compute; reflexivity |].
  split; [simpl; auto |]. split; [reflexivity |].
  intros Hns. apply (Hns "Math"); simpl; auto.
Qed.

(* ------------------------------------------------------------------ *)
(** ** Stores that differ in slots and colours only *)

Lemma sameStatic_refl h : sameStatic h h.
Proof. split; auto. Qed.

Lemma sameStatic_trans h1 h2 h3 :
  sameStatic h1 h2 -> sameStatic h2 h3 -> sameStatic h1 h3.
Proof.
  intros [L1 S1] [L2 S2]. split; [congruence |].
  intros a. now rewrite S2, S1.
Qed.

Lemma sameStatic_update h a sl col :
  sameStatic h (update a (setSlotColor sl col) h).
Proof.
  split; [apply length_update |].
  intros b. now apply deref_update_static.
Qed.

Lemma sameStatic_name h h' a :
  sameStatic h h' -> name (deref h' a) = name (deref h a).
Proof. intros [_ S]. specialize (S a). unfold static in S. congruence. Qed.

Lemma sameStatic_conflicts h h' a :
  sameStatic h h' -> conflicts (deref h' a) = conflicts (deref h a).
Proof. intros [_ S]. specialize (S a). unfold static in S. congruence. Qed.

Lemma sameStatic_conflictsOf h h' cmap k :
  sameStatic h h' -> conflictsOf h' cmap k = conflictsOf h cmap k.
Proof.
  intros HS. unfold conflictsOf. destruct (mapGet k cmap); [| reflexivity].
  now apply sameStatic_conflicts.
Qed.

Lemma sameStatic_wf_graph h h' cmap :
  sameStatic h h' -> wf_graph h cmap -> wf_graph h' cmap.
Proof.
  intros HS [Hnd Hwf]. split; [assumption |]. intros k a Hin.
  destruct (Hwf k a Hin) as [Hlt Hn]. destruct HS as [L S].
  split; [lia |]. rewrite <- Hn. apply sameStatic_name. now split.
Qed.

Lemma sameStatic_symmetric h h' cmap :
  sameStatic h h' -> symmetric h cmap -> symmetric h' cmap.
Proof.
  intros HS Hsym A B HA HB.
  rewrite !(sameStatic_conflictsOf h h') by assumption. now apply Hsym.
Qed.

Lemma sameStatic_validSlots h h' cmap sls :
  sameStatic h h' -> validSlots h cmap sls -> validSlots h' cmap sls.
Proof.
  intros HS Hv sl l Hin x y Hx Hy Hne.
  rewrite (sameStatic_conflictsOf h h') by assumption. eapply Hv; eauto.
Qed.

Lemma sameStatic_structure h h' cmap :
  sameStatic h h' -> structure h' cmap = structure h cmap.
Proof.
  intros [_ S]. unfold structure. apply map_ext. intros [k a]. simpl.
  now rewrite S.
Qed.

(** The reset loop of greedyColoring. *)
Lemma resetAll_spec l s :
  exists s',
    forEach l (fun a => modify a (setSlotColor None None)) s = (Ok tt, s') /\
    console s' = console s /\ sameStatic (heap s) (heap s').
Proof.
  destruct (forEach_invariant (fun a => modify a (setSlotColor None None))
              (fun _ => True)
              (fun _ s' => console s' = console s /\ sameStatic (heap s) (heap s')))
    with (l := l) (done := @nil addr) (s := s) as (s' & E & HP).
  - intros done a s1 _ [Hco HS]. eexists. split; [reflexivity |]. simpl.
    split; [assumption |].
    eapply sameStatic_trans; [exact HS | apply sameStatic_update].
  - apply Forall_forall. auto.
  - split; [reflexivity | apply sameStatic_refl].
  - now exists s'.
Qed.

(* ------------------------------------------------------------------ *)
(** ** Slots *)

Lemma slotsOk_nil : slotsOk [].
Proof. reflexivity. Qed.

Lemma slotsOk_NoDup (sls : Slots) : slotsOk sls -> NoDup (keys sls).
Proof. intros E. rewrite E. apply seq_NoDup. Qed.

Lemma slotsOk_In (sls : Slots) sl :
  slotsOk sls -> (In sl (keys sls) <-> 1 <= sl <= length sls).
Proof. intros E. rewrite E, in_seq. lia. Qed.

Lemma slotList_In (sls : Slots) sl l :
  NoDup (keys sls) -> (In (sl, l) sls <-> mapGet sl sls = Some l).
Proof.
  intros Hnd. split; [now apply NoDup_mapGet | apply mapGet_In].
Qed.

Lemma slotList_pushSlot sls r nm sl :
  slotList (pushSlot r nm sls) sl
  = if sl =? r then slotList sls r ++ [nm] else slotList sls sl.
Proof.
  unfold slotList, pushSlot. destruct (Nat.eqb_spec sl r) as [-> | Hne].
  - destruct (mapGet r sls); now rewrite mapGet_mapSet_eq.
  - destruct (mapGet r sls); now rewrite mapGet_mapSet_neq.
Qed.

Lemma slotsOk_pushSlot sls r nm :
  slotsOk sls -> 1 <= r <= length sls + 1 -> slotsOk (pushSlot r nm sls).
Proof.
  intros Hok Hr. unfold slotsOk, pushSlot in *.
  destruct (mapGet r sls) as [l |] eqn:E.
  - rewrite keys_mapSet_in by (eapply mapGet_Some_key; eauto).
    rewrite length_mapSet. unfold mapHas. now rewrite E.
  - assert (Hni : ~ In r (keys sls)) by now apply mapGet_None.
    rewrite keys_mapSet_notin by assumption.
    rewrite length_mapSet. unfold mapHas. rewrite E.
    assert (r = length sls + 1).
    { rewrite Hok, in_seq in Hni. lia. }
    subst r. rewrite Hok. rewrite seq_S. f_equal. simpl. f_equal. lia.
Qed.

Lemma length_pushSlot sls r nm :
  length (pushSlot r nm sls) = if mapHas r sls then length sls else S (length sls).
Proof.
  unfold pushSlot, mapHas.
  destruct (mapGet r sls) eqn:E; rewrite length_mapSet; unfold mapHas;
    now rewrite E.
Qed.

Lemma hasConflict_slotList course sls sl :
  hasConflict course sls sl
  = existsb (fun e => setHas e (conflicts course)) (slotList sls sl).
Proof.
  unfold hasConflict, slotList. now destruct (mapGet sl sls).
Qed.

Lemma hasConflict_false course sls sl :
  hasConflict course sls sl = false <->
  forall x, In x (slotList sls sl) -> ~ In x (conflicts course).
Proof.
  rewrite hasConflict_slotList. split.
  - intros E x Hx Hin.
    assert (existsb (fun e => setHas e (conflicts course)) (slotList sls sl) = true).
    { apply existsb_exists. exists x. split; [assumption | now apply setHas_In]. }
    congruence.
  - intros Hall. destruct (existsb _ _) eqn:E; [| reflexivity].
    apply existsb_exists in E. destruct E as [x [Hx Hh]].
    apply setHas_In in Hh. exfalso. eapply Hall; eauto.
Qed.

Lemma slotList_beyond sls sl :
  slotsOk sls -> length sls < sl -> slotList sls sl = [].
Proof.
  intros Hok Hlt. unfold slotList.
  destruct (mapGet sl sls) eqn:E; [| reflexivity].
  apply mapGet_Some_key in E. apply (slotsOk_In sls sl Hok) in E. lia.
Qed.

Lemma firstFit_from course sls :
  slotsOk sls ->
  forall fuel sl,
    1 <= sl -> length sls + 2 <= sl + fuel ->
    (forall j, 1 <= j < sl -> hasConflict course sls j = true) ->
    exists r, firstFit fuel course sls sl = Ok r /\ firstFitSpec course sls r.
Proof.
  intros Hok. induction fuel as [| fuel IH]; intros sl H1 Hfuel Hbelow.
  - (* no fuel: every slot up to [length sls + 1] conflicts, but the last
       of them is no key *)
    exfalso. assert (Hc : hasConflict course sls (length sls + 1) = true)
      by (apply Hbelow; lia).
    rewrite hasConflict_slotList, slotList_beyond in Hc by (auto; lia).
    discriminate.
  - simpl. destruct (hasConflict course sls sl) eqn:E.
    + assert (sl <= length sls).
      { destruct (Nat.le_gt_cases sl (length sls)); [assumption |].
        rewrite hasConflict_slotList, slotList_beyond in E by auto.
        discriminate. }
      apply IH; [lia | lia |].
      intros j Hj. destruct (Nat.eq_dec j sl) as [-> | Hne]; [assumption |].
      apply Hbelow. lia.
    + exists sl. split; [reflexivity |]. split; [| split; assumption].
      destruct (Nat.le_gt_cases sl (length sls + 1)); [lia |].
      assert (Hc : hasConflict course sls (length sls + 1) = true)
        by (apply Hbelow; lia).
      rewrite hasConflict_slotList, slotList_beyond in Hc by (auto; lia).
      discriminate.
Qed.

(** The loop of the model never runs out of fuel. *)
Lemma firstFit_total course sls :
  slotsOk sls ->
  exists r, firstFit (S (length sls)) course sls 1 = Ok r /\
            firstFitSpec course sls r.
Proof.
  intros Hok. apply firstFit_from; [assumption | lia | lia |].
  intros j Hj. lia.
Qed.

Lemma assignCourse_run sls a s :
  slotsOk sls ->
  exists r,
    firstFitSpec (deref (heap s) a) sls r /\
    assignCourse sls a s
    = (Ok (pushSlot r (name (deref (heap s) a)) sls),
       mkState (update a (setSlotColor (Some r) (slotColor r)) (heap s))
               (console s)).
Proof.
  intros Hok.
  destruct (firstFit_total (deref (heap s) a) sls Hok) as (r & E & Hspec).
  exists r. split; [assumption |].
  unfold assignCourse, bind, getHeap, liftOutcome, modify, ret.
  now rewrite E.
Qed.

(** The split form of the invariant rule: the step may use where the
    element stands in the list. *)
Lemma foldM_invariant_split {A B : Type} (f : B -> A -> M B)
  (P : list A -> B -> State -> Prop) (l : list A) :
  (forall done x rest b s, l = done ++ x :: rest -> P done b s ->
     exists b' s', f b x s = (Ok b', s') /\ P (done ++ [x]) b' s') ->
  forall b s, P [] b s ->
    exists b' s', foldM f l b s = (Ok b', s') /\ P l b' s'.
Proof.
  intros Hstep.
  assert (G : forall todo done b s, l = done ++ todo -> P done b s ->
            exists b' s', foldM f todo b s = (Ok b', s') /\ P l b' s').
  { induction todo as [| x todo IH]; intros done b s El HP; simpl.
    - exists b, s. rewrite app_nil_r in El. subst. now split.
    - destruct (Hstep done x todo b s El HP) as (b' & s' & E & HP').
      erewrite bind_Ok by exact E.
      apply (IH (done ++ [x])); [| assumption].
      now rewrite <- app_assoc. }
  intros b s HP. now apply (G l []).
Qed.

Lemma ForallOrdPairs_snoc {A : Type} (R : A -> A -> Prop) l y :
  ForallOrdPairs R l -> Forall (fun x => R x y) l ->
  ForallOrdPairs R (l ++ [y]).
Proof.
  induction 1 as [| a l Ha Hl IH]; intros Hy; simpl.
  - constructor; constructor.
  - inversion Hy; subst. constructor; [| now apply IH].
    apply Forall_app. split; [assumption | now repeat constructor].
Qed.

(* ------------------------------------------------------------------ *)
(** ** The assignment loop of greedyColoring *)

Section GreedyLoop.
Variable cmap : CourseMap.
Variable h0 : list Course.          (* the store when the loop starts *)
Variable c0 : list LogEntry.
Hypothesis Hwf : wf_graph h0 cmap.

Lemma values_addr a :
  In a (values cmap) ->
  a < length h0 /\ mapGet (nameAt h0 a) cmap = Some a.
Proof.
  intros Hin. apply in_map_iff in Hin. destruct Hin as [[k a'] [E Hin]].
  simpl in E. subst a'. destruct Hwf as [Hnd Hobj].
  destruct (Hobj k a Hin) as [Hlt Hn]. split; [assumption |].
  unfold nameAt. rewrite Hn. now apply NoDup_mapGet.
Qed.

Lemma nameAt_inj a b :
  In a (values cmap) -> In b (values cmap) -> nameAt h0 a = nameAt h0 b -> a = b.
Proof.
  intros Ha Hb E. destruct (values_addr a Ha) as [_ Ga].
  destruct (values_addr b Hb) as [_ Gb]. rewrite E in Ga. congruence.
Qed.

Lemma assignInv_init s :
  console s = c0 -> sameStatic h0 (heap s) -> assignInv cmap h0 c0 [] [] s.
Proof.
  intros Hco HS. unfold assignInv, slotList. simpl.
  split; [reflexivity |]. split; [assumption |]. split; [assumption |].
  split; [intros; constructor |].
  split; [intros nm; split; [intros [sl []] | intros []] |].
  split; [intros nm sl sl' [] |].
  split; [intros sl Hsl; lia |].
  split; [intros; constructor | intros a []].
Qed.

Lemma assignInv_step l done a rest sls s :
  NoDup l -> (forall x, In x l -> In x (values cmap)) ->
  l = done ++ a :: rest ->
  assignInv cmap h0 c0 done sls s ->
  exists sls' s',
    assignCourse sls a s = (Ok sls', s') /\ assignInv cmap h0 c0 (done ++ [a]) sls' s'.
Proof.
  intros Hnd Hsub El (Hok & Hco & HS & Hnodup & Hnames & Huniq & Hne & Hord & Hfld).
  destruct (assignCourse_run sls a s Hok) as (r & (Hr & Hfree & Hbelow) & E).
  eexists _, _. split; [exact E |].
  assert (Ha : In a (values cmap)).
  { apply Hsub. rewrite El. apply in_or_app. right. now left. }
  destruct (values_addr a Ha) as [Hlt Hget].
  assert (Hnm : name (deref (heap s) a) = nameAt h0 a)
    by now apply sameStatic_name.
  assert (Hcf : conflicts (deref (heap s) a) = conflictsOf h0 cmap (nameAt h0 a)).
  { unfold conflictsOf. rewrite Hget. now apply sameStatic_conflicts. }
  assert (Hfresh : ~ In (nameAt h0 a) (map (nameAt h0) done)).
  { intros Hin. apply in_map_iff in Hin. destruct Hin as [b [Eb Hb]].
    assert (b = a).
    { apply nameAt_inj; auto. apply Hsub. rewrite El.
      apply in_or_app. now left. }
    subst b. rewrite El in Hnd. apply NoDup_remove_2 in Hnd.
    apply Hnd. apply in_or_app. now left. }
  assert (Hnew : forall sl, ~ In (nameAt h0 a) (slotList sls sl)).
  { intros sl Hin. apply Hfresh. apply Hnames. now exists sl. }
  rewrite Hnm. unfold assignInv. cbn [heap console].
  split; [now apply slotsOk_pushSlot |].
  split; [assumption |].
  split; [eapply sameStatic_trans; [exact HS | apply sameStatic_update] |].
  split.
  { intros sl. rewrite slotList_pushSlot.
    destruct (Nat.eqb_spec sl r) as [-> | _]; [| apply Hnodup].
    apply NoDup_app; [apply Hnodup | repeat constructor; intros [] |].
    intros x Hx [<- | []]. now apply (Hnew r). }
  split.
  { intros nm. rewrite map_app, in_app_iff. simpl. split.
    - intros [sl Hin]. rewrite slotList_pushSlot in Hin.
      destruct (Nat.eqb_spec sl r) as [Esl | _].
      + subst sl. apply in_app_iff in Hin. destruct Hin as [Hin | [<- | []]]; [| tauto].
        left. apply Hnames. now exists r.
      + left. apply Hnames. now exists sl.
    - intros [Hin | [<- | []]].
      + apply Hnames in Hin. destruct Hin as [sl Hin]. exists sl.
        rewrite slotList_pushSlot.
        destruct (Nat.eqb_spec sl r) as [-> | _]; [| assumption].
        apply in_or_app. now left.
      + exists r. rewrite slotList_pushSlot, Nat.eqb_refl.
        apply in_or_app. right. now left. }
  split.
  { intros nm sl sl'. rewrite !slotList_pushSlot.
    destruct (Nat.eqb_spec sl r) as [-> | Hsl];
      destruct (Nat.eqb_spec sl' r) as [-> | Hsl']; auto.
    - rewrite in_app_iff. intros [H1 | [<- | []]] H2.
      + eapply Huniq; eauto.
      + now apply Hnew in H2.
    - rewrite in_app_iff. intros H1 [H2 | [<- | []]].
      + eapply Huniq; eauto.
      + now apply Hnew in H1.
    - apply Huniq. }
  split.
  { intros sl Hsl. rewrite slotList_pushSlot.
    destruct (Nat.eqb_spec sl r) as [-> | Hsl'].
    - intros Hnil. now apply app_eq_nil in Hnil.
    - apply Hne. rewrite length_pushSlot in Hsl. unfold mapHas in Hsl.
      destruct (mapGet r sls) eqn:Er; [lia |].
      apply mapGet_None in Er. rewrite (slotsOk_In sls r Hok) in Er. lia. }
  split.
  { intros sl. rewrite slotList_pushSlot.
    destruct (Nat.eqb_spec sl r) as [-> | _]; [| apply Hord].
    apply ForallOrdPairs_snoc; [apply Hord |].
    apply Forall_forall. intros x Hx. unfold apart. rewrite <- Hcf.
    apply (proj1 (hasConflict_false _ _ _) Hfree x Hx). }
  intros b Hb. apply in_app_iff in Hb. destruct Hb as [Hb | [<- | []]].
  - destruct (Hfld b Hb) as (sl & Hin & Hs & Hc).
    assert (a <> b).
    { intros <-. apply Hfresh. now apply in_map. }
    exists sl. rewrite deref_update_neq by assumption.
    split; [| split; assumption].
    rewrite slotList_pushSlot.
    destruct (Nat.eqb_spec sl r) as [-> | _]; [| assumption].
    apply in_or_app. now left.
  - exists r. rewrite deref_update_eq by (destruct HS as [L _]; lia).
    split; [| split; reflexivity].
    rewrite slotList_pushSlot, Nat.eqb_refl. apply in_or_app. right. now left.
Qed.

Lemma assignAll_spec l s :
  NoDup l -> (forall x, In x l -> In x (values cmap)) ->
  console s = c0 -> sameStatic h0 (heap s) ->
  exists sls s',
    foldM assignCourse l [] s = (Ok sls, s') /\ assignInv cmap h0 c0 l sls s'.
Proof.
  intros Hnd Hsub Hco HS.
  apply (foldM_invariant_split assignCourse (assignInv cmap h0 c0) l).
  - intros done x rest b s1 El HP. eapply assignInv_step; eauto.
  - now apply assignInv_init.
Qed.
End GreedyLoop.

(* ------------------------------------------------------------------ *)
(** ** Sorting and verification *)

Lemma insertSorted_Permutation {A : Type} (cmp : A -> A -> Z) x l :
  Permutation (insertSorted cmp x l) (x :: l).
Proof.
  induction l as [| y l IH]; simpl; [reflexivity |].
  destruct (cmp x y <=? 0)%Z; [reflexivity |].
  rewrite IH. apply perm_swap.
Qed.

Lemma sortBy_Permutation {A : Type} (cmp : A -> A -> Z) l :
  Permutation (sortBy cmp l) l.
Proof.
  induction l as [| x l IH]; simpl; [reflexivity |].
  rewrite insertSorted_Permutation. now constructor.
Qed.

(** Sorting through a projection: the comparator only looks at [f x]. *)
Lemma insertSorted_map {A B : Type} (f : A -> B) (cmp : B -> B -> Z) x l :
  map f (insertSorted (fun a b => cmp (f a) (f b)) x l)
  = insertSorted cmp (f x) (map f l).
Proof.
  induction l as [| y l IH]; simpl; [reflexivity |].
  destruct (cmp (f x) (f y) <=? 0)%Z; simpl; [reflexivity | now rewrite IH].
Qed.

Lemma sortBy_map {A B : Type} (f : A -> B) (cmp : B -> B -> Z) l :
  map f (sortBy (fun a b => cmp (f a) (f b)) l) = sortBy cmp (map f l).
Proof.
  induction l as [| x l IH]; simpl; [reflexivity |].
  now rewrite insertSorted_map, IH.
Qed.

Lemma conflictsHas_In h cmap a b :
  conflictsHas h cmap a b = true <-> In b (conflictsOf h cmap a).
Proof.
  unfold conflictsHas, conflictsOf. destruct (mapGet a cmap).
  - apply setHas_In.
  - simpl. split; [discriminate | intros []].
Qed.

Lemma verifySlot_None h cmap l :
  verifySlot h cmap l = None <-> ForallOrdPairs (noConflict h cmap) l.
Proof.
  induction l as [| x l IH]; simpl.
  - split; [constructor | reflexivity].
  - destruct (find _ l) as [y |] eqn:E.
    + split; [discriminate |]. intros HF. inversion HF as [| ? ? Hx _]; subst.
      apply find_some in E. destruct E as [Hy Hc].
      rewrite Forall_forall in Hx. destruct (Hx y Hy) as [H1 H2].
      apply orb_true_iff in Hc.
      destruct Hc as [Hc | Hc]; apply conflictsHas_In in Hc; contradiction.
    + rewrite IH. split.
      * intros HF. constructor; [| assumption].
        apply Forall_forall. intros y Hy.
        pose proof (find_none _ _ E y Hy) as Hc. simpl in Hc.
        apply orb_false_iff in Hc. destruct Hc as [H1 H2].
        split; intros Hin; apply conflictsHas_In in Hin; congruence.
      * intros HF. now inversion HF.
Qed.

Lemma verifySlots_None h cmap sls :
  verifySlots h cmap sls = None <->
  forall sl l, In (sl, l) sls -> ForallOrdPairs (noConflict h cmap) l.
Proof.
  induction sls as [| [sl l] sls IH]; simpl.
  - split; [intros _ ? ? [] | reflexivity].
  - destruct (verifySlot h cmap l) as [[ci cj] |] eqn:E.
    + split; [discriminate |]. intros Hall.
      assert (verifySlot h cmap l = None)
        by (apply verifySlot_None; apply (Hall sl); now left).
      congruence.
    + rewrite IH. apply verifySlot_None in E. split.
      * intros Hall sl' l' [[= <- <-] | Hin]; [assumption | eauto].
      * intros Hall sl' l' Hin. apply (Hall sl'). now right.
Qed.

Lemma NoDup_ForallOrdPairs {A : Type} (R : A -> A -> Prop) l :
  NoDup l -> (forall x y, In x l -> In y l -> x <> y -> R x y) ->
  ForallOrdPairs R l.
Proof.
  induction 1 as [| x l Hni Hnd IH]; intros HR; constructor.
  - apply Forall_forall. intros y Hy. apply HR; simpl; auto.
    intros ->. contradiction.
  - apply IH. intros a b Ha Hb. apply HR; simpl; auto.
Qed.

(** A valid slot mapping with duplicate-free lists passes the verifier. *)
Lemma validSlots_verifySlots h cmap sls :
  validSlots h cmap sls ->
  (forall sl l, In (sl, l) sls -> NoDup l) ->
  verifySlots h cmap sls = None.
Proof.
  intros Hv Hnd. apply verifySlots_None. intros sl l Hin.
  apply NoDup_ForallOrdPairs; [eapply Hnd; eauto |].
  intros x y Hx Hy Hne. split; eapply Hv; eauto.
Qed.

Lemma verifySolution_run cmap sls s :
  verifySolution cmap sls s
  = match verifySlots (heap s) cmap sls with
    | Some e => (Ok false, mkState (heap s) (console s ++ [e]))
    | None => (Ok true, s)
    end.
Proof.
  unfold verifySolution, bind, getHeap.
  destruct (verifySlots (heap s) cmap sls); reflexivity.
Qed.

Lemma heap_reported cmap sls s : heap (reported cmap sls s) = heap s.
Proof. unfold reported. now destruct (verifySlots _ _ _). Qed.

(* ------------------------------------------------------------------ *)
(** ** greedyColoring *)

Lemma slotsOk_contiguous sls : slotsOk sls -> contiguous sls.
Proof.
  intros Hok. split; [now apply slotsOk_NoDup | intros sl; now apply slotsOk_In].
Qed.

Section Greedy.
Variable localeCompare : string -> string -> Z.

(** greedyColoring on a non-empty graph, step by step. *)
Lemma greedyColoring_steps cmap sts s s1 sls s2 :
  values cmap <> [] ->
  forEach (values cmap) (fun a => modify a (setSlotColor None None)) s
  = (Ok tt, s1) ->
  foldM assignCourse (sortedCourses localeCompare (heap s1) cmap) [] s1 = (Ok sls, s2) ->
  greedyColoring localeCompare cmap sts s
  = (Ok (greedyResult localeCompare (heap s1) cmap sts sls), reported cmap sls s2).
Proof.
  intros Hne E1 E2. unfold greedyColoring.
  destruct (length (values cmap) =? 0) eqn:El.
  { apply Nat.eqb_eq in El. apply length_zero_iff_nil in El. contradiction. }
  erewrite bind_Ok by exact E1.
  unfold bind at 1. unfold getHeap at 1. cbn beta iota zeta.
  fold (sortedCourses localeCompare (heap s1) cmap).
  erewrite bind_Ok by exact E2.
  unfold bind at 1. rewrite verifySolution_run. unfold reported.
  destruct (verifySlots (heap s2) cmap sls); [| reflexivity].
  unfold bind, consoleError, ret. cbn [heap console].
  now rewrite <- app_assoc.
Qed.

Lemma greedyColoring_empty cmap sts s :
  values cmap = [] ->
  greedyColoring localeCompare cmap sts s
  = (Ok (mkScheduleResult cmap [] 0 0 (studentsOrEmpty sts)
           (mkConflictDetails 0 [])), s).
Proof. intros E. unfold greedyColoring. now rewrite E. Qed.

(** The assignment loop completes on every input. *)
Lemma assignAll_total l sls s :
  slotsOk sls ->
  exists sls' s',
    foldM assignCourse l sls s = (Ok sls', s') /\
    slotsOk sls' /\ console s' = console s /\ sameStatic (heap s) (heap s').
Proof.
  intros Hok.
  destruct (foldM_invariant assignCourse (fun _ => True)
    (fun _ sls' s' => slotsOk sls' /\ console s' = console s /\
                      sameStatic (heap s) (heap s')))
    with (l := l) (done := @nil addr) (b := sls) (s := s)
    as (sls' & s' & E & HP).
  - intros done a b s1 _ (Hb & Hco & HS).
    destruct (assignCourse_run b a s1 Hb) as (r & (Hr & _) & E).
    eexists _, _. split; [exact E |]. cbn [heap console].
    split; [now apply slotsOk_pushSlot |]. split; [assumption |].
    eapply sameStatic_trans; [exact HS | apply sameStatic_update].
  - apply Forall_forall. auto.
  - split; [assumption |]. split; [reflexivity | apply sameStatic_refl].
  - now exists sls', s'.
Qed.

(** greedyColoring returns a ScheduleResult on every input; what it
    writes to the console is the report of the verifier. *)
Lemma greedyColoring_total cmap sts s :
  exists r s',
    greedyColoring localeCompare cmap sts s = (Ok r, s') /\
    resCourses r = cmap /\ totalSlots r = length (slots r) /\
    slotsOk (slots r) /\ sameStatic (heap s) (heap s') /\
    console s' =
      match verifySlots (heap s') cmap (slots r) with
      | Some e => console s ++ [e; CriticalError]
      | None => console s
      end.
Proof.
  destruct (values cmap) as [| a0 l0] eqn:Ev.
  - eexists _, _. split; [now apply greedyColoring_empty |]. simpl.
    repeat split; auto.
  - destruct (resetAll_spec (values cmap) s) as (s1 & E1 & Hco1 & HS1).
    destruct (assignAll_total (sortedCourses localeCompare (heap s1) cmap) [] s1 slotsOk_nil)
      as (sls & s2 & E2 & Hok & Hco2 & HS2).
    eexists _, _. split.
    { apply (greedyColoring_steps cmap sts s s1 sls s2); [| | exact E2].
      - rewrite Ev. discriminate.
      - exact E1. }
    cbn [resCourses totalSlots slots greedyResult].
    rewrite heap_reported.
    do 3 (split; [easy |]).
    split; [eapply sameStatic_trans; eauto |].
    unfold reported. destruct (verifySlots (heap s2) cmap sls); simpl; congruence.
Qed.
End Greedy.

Lemma ForallOrdPairs_impl {A : Type} (R R' : A -> A -> Prop) l :
  (forall x y, R x y -> R' x y) -> ForallOrdPairs R l -> ForallOrdPairs R' l.
Proof.
  intros HR. induction 1 as [| a l Ha Hl IH]; constructor; [| assumption].
  eapply Forall_impl; [| exact Ha]. intros y. apply HR.
Qed.

Lemma wf_graph_names h cmap l nm :
  wf_graph h cmap -> (forall a, In a l <-> In a (values cmap)) ->
  (In nm (map (fun a => name (deref h a)) l) <-> In nm (keys cmap)).
Proof.
  intros [Hnd Hobj] Hl. unfold keys, values in *. rewrite !in_map_iff. split.
  - intros [a [En Ha]]. apply Hl in Ha. apply in_map_iff in Ha.
    destruct Ha as [[k a'] [Ea Hin]]. simpl in Ea. subst a'.
    exists (k, a). split; [| assumption]. simpl.
    destruct (Hobj k a Hin). congruence.
  - intros [[k a] [Ek Hin]]. simpl in Ek. subst k.
    exists a. split; [now destruct (Hobj _ a Hin) |].
    apply Hl. apply in_map_iff. now exists (nm, a).
Qed.

Lemma wf_graph_nil_values_keys (cmap : CourseMap) :
  values cmap = [] -> cmap = [].
Proof. now destruct cmap. Qed.

Section GreedySpec.
Variable localeCompare : string -> string -> Z.

(** What greedyColoring returns on a well-formed course graph. *)
Lemma greedyColoring_spec cmap sts s :
  wf_graph (heap s) cmap ->
  exists r s',
    greedyColoring localeCompare cmap sts s = (Ok r, s') /\
    resCourses r = cmap /\ totalSlots r = length (slots r) /\
    slotsOk (slots r) /\ sameStatic (heap s) (heap s') /\
    partitioned cmap (slots r) /\
    (forall sl, 1 <= sl <= length (slots r) -> slotList (slots r) sl <> []) /\
    (forall sl, ForallOrdPairs
                  (fun x y => ~ In x (conflictsOf (heap s) cmap y))
                  (slotList (slots r) sl)) /\
    recorded (heap s') cmap (slots r).
Proof.
  intros Hwf. destruct (values cmap) as [| a0 l0] eqn:Ev.
  - apply wf_graph_nil_values_keys in Ev. subst cmap.
    eexists _, _. split; [now apply greedyColoring_empty |]. simpl.
    split; [reflexivity |]. split; [reflexivity |].
    split; [apply slotsOk_nil |]. split; [apply sameStatic_refl |].
    split.
    { split; [intros; constructor |].
      split; [intros nm; split; [intros [sl []] | intros []] |].
      intros nm sl sl' []. }
    split; [intros sl Hsl; lia |].
    split; [intros; constructor | intros k a []].
  - destruct (resetAll_spec (values cmap) s) as (s1 & E1 & Hco1 & HS1).
    assert (Hwf1 : wf_graph (heap s1) cmap)
      by (eapply sameStatic_wf_graph; eauto).
    pose proof (sortBy_Permutation (byDegreeThenName localeCompare (heap s1))
                  (values cmap)) as Hperm.
    fold (sortedCourses localeCompare (heap s1) cmap) in Hperm.
    destruct (assignAll_spec cmap (heap s1) (console s1) Hwf1
                (sortedCourses localeCompare (heap s1) cmap) s1)
      as (sls & s2 & E2 & Hok & Hco2 & HS2 & Hnodup & Hnames & Huniq & Hne
          & Hord & Hfld).
    { eapply Permutation_NoDup; [symmetry; exact Hperm |].
      eapply wf_graph_NoDup_values; eauto. }
    { intros x Hx. eapply Permutation_in; eauto. }
    { reflexivity. }
    { apply sameStatic_refl. }
    assert (Hmem : forall a, In a (sortedCourses localeCompare (heap s1) cmap)
                             <-> In a (values cmap)).
    { intros a. split; apply Permutation_in; [| symmetry]; exact Hperm. }
    eexists _, _. split.
    { apply (greedyColoring_steps localeCompare cmap sts s s1 sls s2);
        [rewrite Ev; discriminate | exact E1 | exact E2]. }
    cbn [resCourses totalSlots slots greedyResult]. rewrite heap_reported.
    do 3 (split; [easy |]).
    split; [eapply sameStatic_trans; eauto |].
    split.
    { split; [assumption |]. split; [| assumption].
      intros nm. rewrite Hnames. now apply wf_graph_names. }
    split; [assumption |].
    split.
    { intros sl. eapply ForallOrdPairs_impl; [| apply Hord].
      cbv beta. intros x y Hxy.
      now rewrite <- (sameStatic_conflictsOf (heap s) (heap s1)). }
    intros k a Hin.
    assert (Ha : In a (values cmap))
      by (apply in_map_iff; now exists (k, a)).
    destruct (Hfld a (proj2 (Hmem a) Ha)) as (sl & Hsl & Hs & Hc).
    exists sl. destruct Hwf1 as [_ Hobj]. destruct (Hobj k a Hin) as [_ Hn].
    unfold nameAt in Hsl. rewrite Hn in Hsl. auto.
Qed.

(** On a symmetric graph the result of greedyColoring is a valid
    colouring, and the verifier accepts it. *)
Lemma greedyColoring_valid cmap sts s :
  wf_graph (heap s) cmap -> symmetric (heap s) cmap ->
  exists r s',
    greedyColoring localeCompare cmap sts s = (Ok r, s') /\
    validSlots (heap s') (resCourses r) (slots r) /\
    verifySolution (resCourses r) (slots r) s' = (Ok true, s').
Proof.
  intros Hwf Hsym.
  destruct (greedyColoring_spec cmap sts s Hwf)
    as (r & s' & E & Hres & _ & Hok & HS & (Hnd & Hnames & _) & _ & Hord & _).
  exists r, s'. split; [exact E |]. rewrite Hres.
  assert (Hslot : forall sl l, In (sl, l) (slots r) -> l = slotList (slots r) sl).
  { intros sl l Hin. unfold slotList.
    now rewrite (NoDup_mapGet _ _ _ (slotsOk_NoDup _ Hok) Hin). }
  assert (Hv : validSlots (heap s') cmap (slots r)).
  { apply (sameStatic_validSlots (heap s)); [assumption |].
    intros sl l Hin x y Hx Hy Hne. rewrite (Hslot sl l Hin) in Hx, Hy.
    assert (Kx : In x (keys cmap)) by (apply Hnames; now exists sl).
    assert (Ky : In y (keys cmap)) by (apply Hnames; now exists sl).
    destruct (ForallOrdPairs_In (Hord sl) x y Hx Hy) as [? | [H1 | H2]].
    - contradiction.
    - intros Hin'. apply H1. now apply (Hsym x y).
    - assumption. }
  split; [assumption |].
  rewrite verifySolution_run, validSlots_verifySlots; auto.
  intros sl l Hin. rewrite (Hslot sl l Hin). apply Hnd.
Qed.
End GreedySpec.

(* ------------------------------------------------------------------ *)
(** ** dsaturColoring: the deep copy *)

Lemma copyAll_spec orig s :
  exists cmap s' ext,
    foldM copyCourse orig [] s = (Ok cmap, s') /\
    heap s' = heap s ++ ext /\ console s' = console s /\
    copyOf (heap s) orig (heap s') cmap.
Proof.
  pose (P := fun (done : list (string * addr)) (cmap : CourseMap) (s' : State) =>
    (exists ext, heap s' = heap s ++ ext) /\ console s' = console s /\
    copyOf (heap s) done (heap s') cmap).
  destruct (foldM_invariant copyCourse (fun _ => True) P)
    with (l := orig) (done := @nil (string * addr)) (b := @nil (string * addr))
         (s := s) as (cmap & s' & E & [ext Hext] & Hco & Hcp).
  - intros done [k a] cmap s1 _ ([ext Hext] & Hco & Hnd & Hkeys & Hent).
    unfold copyCourse, bind, getHeap, alloc, ret. cbn [heap console].
    eexists _, _. split; [reflexivity |]. unfold P. cbn [heap console].
    split; [exists (ext ++ [mkCourse (name (deref (heap s1) a))
                               (conflicts (deref (heap s1) a)) None None]);
            now rewrite Hext, app_assoc |].
    split; [assumption |].
    split; [now apply NoDup_keys_mapSet |].
    split.
    { intros k'. rewrite In_keys_mapSet, Hkeys. unfold keys.
      rewrite map_app, in_app_iff. simpl. intuition congruence. }
    intros k' a' Hin. rewrite length_app. simpl.
    apply In_mapSet in Hin. destruct Hin as [[-> ->] | Hin].
    + rewrite deref_app_new. simpl.
      split; [rewrite Hext, length_app; lia |].
      do 2 (split; [reflexivity |]).
      exists a. split; [apply in_or_app; right; now left |].
      intros Hlt. rewrite Hext, deref_app_l by assumption. reflexivity.
    + destruct (Hent k' a' Hin) as (Hr & Hs & Hc & b & Hb & Hst).
      rewrite deref_app_l by lia.
      split; [lia |]. do 2 (split; [assumption |]).
      exists b. split; [apply in_or_app; now left | assumption].
  - apply Forall_forall. auto.
  - unfold P. split; [exists []; now rewrite app_nil_r |].
    split; [reflexivity |]. split; [constructor |].
    split; [intros k; simpl; tauto | intros k a' []].
  - exists cmap, s', ext. rewrite app_nil_l in Hcp. auto.
Qed.

Lemma copyOf_conflictsOf h orig h' cmap k :
  wf_graph h orig -> copyOf h orig h' cmap ->
  conflictsOf h' cmap k = conflictsOf h orig k.
Proof.
  intros [Hnd Hobj] (Hnd' & Hkeys & Hent). unfold conflictsOf.
  destruct (mapGet k cmap) as [a' |] eqn:E.
  - apply mapGet_In in E. destruct (Hent k a' E) as (_ & _ & _ & a & Ha & Hst).
    rewrite (NoDup_mapGet _ _ _ Hnd Ha).
    destruct (Hobj k a Ha) as [Hlt _]. specialize (Hst Hlt).
    unfold static in Hst. congruence.
  - apply mapGet_None in E. rewrite Hkeys in E. apply mapGet_None in E.
    now rewrite E.
Qed.

Lemma copyOf_wf_graph h orig h' cmap :
  wf_graph h orig -> copyOf h orig h' cmap -> wf_graph h' cmap.
Proof.
  intros [Hnd Hobj] (Hnd' & Hkeys & Hent). split; [assumption |].
  intros k a' Hin. destruct (Hent k a' Hin) as (Hr & _ & _ & a & Ha & Hst).
  split; [lia |]. destruct (Hobj k a Ha) as [Hlt Hn]. specialize (Hst Hlt).
  unfold static in Hst. congruence.
Qed.

Lemma copyOf_symmetric h orig h' cmap :
  wf_graph h orig -> copyOf h orig h' cmap ->
  symmetric h orig -> symmetric h' cmap.
Proof.
  intros Hwf Hcp Hsym A B HA HB.
  rewrite !(copyOf_conflictsOf h orig h' cmap) by assumption.
  destruct Hcp as (_ & Hkeys & _). apply Hsym; now apply Hkeys.
Qed.

Lemma copyOf_closed h orig h' cmap :
  wf_graph h orig -> copyOf h orig h' cmap ->
  closed h orig -> closed h' cmap.
Proof.
  intros Hwf Hcp Hcl A B HA HB.
  rewrite (copyOf_conflictsOf h orig h' cmap) in HB by assumption.
  destruct Hcp as (_ & Hkeys & _). apply Hkeys.
  apply (Hcl A B); [now apply Hkeys | assumption].
Qed.

(* ------------------------------------------------------------------ *)
(** ** dsaturColoring: the helper maps *)

Lemma initMaps_from h cmap names :
  (forall nm, In nm names -> In nm (keys cmap)) ->
  forall ca sat deg,
  exists ca' sat' deg',
    fold_left (initEntry h cmap) names (Ok (ca, sat, deg)) = Ok (ca', sat', deg') /\
    (NoDup (keys ca) -> NoDup (keys ca')) /\
    (forall k, In k (keys ca') <-> In k (keys ca) \/ In k names) /\
    ((forall k v, mapGet k ca = Some v -> v = None) ->
     forall k v, mapGet k ca' = Some v -> v = None) /\
    (forall k, In k (keys sat') <-> In k (keys sat) \/ In k names).
Proof.
  induction names as [| nm names IH]; intros Hin ca sat deg; simpl.
  - exists ca, sat, deg. split; [reflexivity |]. repeat split; tauto.
  - destruct (In_keys_mapGet cmap nm (Hin nm (or_introl eq_refl))) as [a Ha].
    rewrite Ha.
    destruct (IH (fun x Hx => Hin x (or_intror Hx))
                (mapSet nm None ca) (mapSet nm [] sat)
                (mapSet nm (length (conflicts (deref h a))) deg))
      as (ca' & sat' & deg' & E & Hnd & Hk & Hv & Hs).
    exists ca', sat', deg'. split; [exact E |].
    split; [intros H0; apply Hnd; now apply NoDup_keys_mapSet |].
    split; [intros k; rewrite Hk, In_keys_mapSet; intuition congruence |].
    split.
    + intros Hnone. apply Hv. intros k v.
      destruct (String.eqb_spec k nm) as [-> | Hne].
      * rewrite mapGet_mapSet_eq. congruence.
      * rewrite mapGet_mapSet_neq by assumption. apply Hnone.
    + intros k. rewrite Hs, In_keys_mapSet. intuition congruence.
Qed.

Lemma initMaps_spec h cmap :
  exists ca sat deg,
    initMaps h cmap (keys cmap) = Ok (ca, sat, deg) /\
    NoDup (keys ca) /\
    (forall k, In k (keys ca) <-> In k (keys cmap)) /\
    (forall k v, mapGet k ca = Some v -> v = None) /\
    (forall k, In k (keys sat) <-> In k (keys cmap)).
Proof.
  destruct (initMaps_from h cmap (keys cmap) (fun _ H => H) [] [] [])
    as (ca & sat & deg & E & Hnd & Hk & Hv & Hs).
  exists ca, sat, deg. split; [exact E |].
  split; [apply Hnd; constructor |].
  split; [intros k; rewrite Hk; simpl; tauto |].
  split; [apply Hv; intros k v; discriminate |].
  intros k. rewrite Hs. simpl. tauto.
Qed.

(* ------------------------------------------------------------------ *)
(** ** dsaturColoring: the colouring loop *)

Lemma neighborColorsOf_from (ca : ColorAssignment) (cfl : list string) acc c :
  In c (fold_left (fun acc nb =>
                     match mapGet nb ca with
                     | Some (Some c) => setAdd c acc
                     | _ => acc
                     end) cfl acc)
  <-> In c acc \/ exists nb, In nb cfl /\ mapGet nb ca = Some (Some c).
Proof.
  revert acc. induction cfl as [| nb cfl IH]; intros acc; simpl.
  - split; [auto | intros [? | [nb [[] _]]]; assumption].
  - rewrite IH. destruct (mapGet nb ca) as [[c' |] |] eqn:E.
    + rewrite In_setAdd. split.
      * intros [[-> | Hin] | [nb' [Hnb Hg]]]; eauto.
      * intros [Hin | [nb' [[<- | Hnb] Hg]]]; eauto.
        left. left. congruence.
    + split.
      * intros [Hin | [nb' [Hnb Hg]]]; eauto.
      * intros [Hin | [nb' [[<- | Hnb] Hg]]]; eauto. congruence.
    + split.
      * intros [Hin | [nb' [Hnb Hg]]]; eauto.
      * intros [Hin | [nb' [[<- | Hnb] Hg]]]; eauto. congruence.
Qed.

Lemma neighborColorsOf_In (ca : ColorAssignment) (cfl : list string) c :
  In c (neighborColorsOf ca cfl)
  <-> exists nb, In nb cfl /\ mapGet nb ca = Some (Some c).
Proof.
  unfold neighborColorsOf. rewrite neighborColorsOf_from. simpl. tauto.
Qed.

Lemma smallestFree_spec nc :
  forall fuel c0 col,
    smallestFree fuel nc c0 = Ok col ->
    c0 <= col /\ ~ In col nc /\ forall j, c0 <= j < col -> In j nc.
Proof.
  induction fuel as [| fuel IH]; intros c0 col; simpl; [discriminate |].
  destruct (setHas c0 nc) eqn:E.
  - intros Hr. destruct (IH _ _ Hr) as (Hle & Hni & Hbelow).
    split; [lia |]. split; [assumption |].
    intros j Hj. destruct (Nat.eq_dec j c0) as [-> | Hne].
    + now apply setHas_In.
    + apply Hbelow. lia.
  - intros [= <-]. split; [lia |]. split; [now apply setHas_false |].
    intros j Hj. lia.
Qed.

(** The inner loop of the model never runs out of fuel. *)
Lemma smallestFree_from nc :
  forall fuel c0 c,
    c0 <= c -> (forall j, c0 <= j < c -> In j nc) ->
    length nc < (c - c0) + fuel ->
    exists col, smallestFree fuel nc c = Ok col.
Proof.
  induction fuel as [| fuel IH]; intros c0 c Hle Hblock Hfuel.
  - exfalso.
    assert (Hincl : incl (seq c0 (c - c0)) nc).
    { intros j Hj. apply in_seq in Hj. apply Hblock. lia. }
    apply NoDup_incl_length in Hincl; [| apply seq_NoDup].
    rewrite length_seq in Hincl. lia.
  - simpl. destruct (setHas c nc) eqn:E; [| now exists c].
    apply (IH c0 (S c)); [lia | | lia].
    intros j Hj. destruct (Nat.eq_dec j c) as [-> | Hne].
    + now apply setHas_In.
    + apply Hblock. lia.
Qed.

Lemma smallestFree_total nc :
  exists col, smallestFree (S (length nc)) nc 1 = Ok col.
Proof.
  apply (smallestFree_from nc (S (length nc)) 1 1); [lia | | lia].
  intros j Hj. lia.
Qed.

Lemma updateSaturation_keys col cfl :
  forall sat sat',
    updateSaturation col cfl sat = Ok sat' ->
    forall k, In k (keys sat') <-> In k (keys sat).
Proof.
  induction cfl as [| nb cfl IH]; intros sat sat'; simpl.
  - intros [= <-]. tauto.
  - destruct (mapGet nb sat) as [nbSet |] eqn:E; [| discriminate].
    intros Hr k. rewrite (IH _ _ Hr), In_keys_mapSet.
    apply mapGet_Some_key in E. intuition congruence.
Qed.

Lemma updateSaturation_total col cfl :
  forall sat, (forall nb, In nb cfl -> In nb (keys sat)) ->
    exists sat', updateSaturation col cfl sat = Ok sat'.
Proof.
  induction cfl as [| nb cfl IH]; intros sat Hin; simpl.
  - now exists sat.
  - destruct (In_keys_mapGet sat nb (Hin nb (or_introl eq_refl))) as [S E].
    rewrite E. apply IH. intros nb' Hnb'. apply In_keys_mapSet.
    right. apply Hin. now right.
Qed.

Lemma isUncolored_true (ca : ColorAssignment) nm :
  isUncolored ca nm = true <-> forall c, mapGet nm ca <> Some (Some c).
Proof.
  unfold isUncolored. destruct (mapGet nm ca) as [[c |] |]; split;
    try congruence; intros Hall; try reflexivity.
  exfalso. now apply (Hall c).
Qed.

Lemma isUncolored_mapSet (ca : ColorAssignment) v col nm :
  isUncolored (mapSet v (Some col) ca) nm
  = isUncolored ca nm && negb (String.eqb nm v).
Proof.
  unfold isUncolored. destruct (String.eqb_spec nm v) as [-> | Hne].
  - rewrite mapGet_mapSet_eq. now rewrite andb_false_r.
  - rewrite mapGet_mapSet_neq by assumption. now rewrite andb_true_r.
Qed.

Lemma uncolored_shrinks (ca : ColorAssignment) names v col :
  In v names -> isUncolored ca v = true ->
  length (uncolored names (mapSet v (Some col) ca))
  < length (uncolored names ca).
Proof.
  unfold uncolored. intros Hin Hv.
  induction names as [| nm names IH]; [destruct Hin |].
  assert (Hle : forall l,
    length (filter (isUncolored (mapSet v (Some col) ca)) l)
    <= length (filter (isUncolored ca) l)).
  { induction l as [| x l IHl]; simpl; [lia |].
    rewrite isUncolored_mapSet.
    destruct (isUncolored ca x), (negb (String.eqb x v)); simpl; lia. }
  simpl. rewrite isUncolored_mapSet. destruct Hin as [-> | Hin].
  - rewrite Hv, String.eqb_refl. simpl. specialize (Hle names). lia.
  - specialize (IH Hin).
    destruct (isUncolored ca nm), (negb (String.eqb nm v)); simpl; lia.
Qed.

Section DsaturLoop.
Variable localeCompare : string -> string -> Z.
Variable h : list Course.
Variable cmap : CourseMap.
Variable deg : Degree.
Hypothesis Hwf : wf_graph h cmap.

Lemma dsaturInv_step ca v a col :
  dsaturInv h cmap ca ->
  In v (keys cmap) -> isUncolored ca v = true ->
  mapGet v cmap = Some a ->
  smallestFree (S (length (neighborColorsOf ca (conflicts (deref h a)))))
               (neighborColorsOf ca (conflicts (deref h a))) 1 = Ok col ->
  dsaturInv h cmap (mapSet v (Some col) ca).
Proof.
  intros (Hnd & Hkeys & Hproper & Hdown) Hv Hunc Ha Hcol.
  apply smallestFree_spec in Hcol. destruct Hcol as (Hpos & Hfree & Hbelow).
  assert (Hcf : conflicts (deref h a) = conflictsOf h cmap v)
    by (unfold conflictsOf; now rewrite Ha).
  rewrite Hcf in *.
  assert (Hunc' : forall c, mapGet v ca <> Some (Some c))
    by now apply isUncolored_true.
  assert (Hget : forall u c, mapGet u (mapSet v (Some col) ca) = Some (Some c) ->
                   (u = v /\ c = col) \/ (u <> v /\ mapGet u ca = Some (Some c))).
  { intros u c. destruct (String.eqb_spec u v) as [-> | Hne].
    - rewrite mapGet_mapSet_eq. intros [= <-]. now left.
    - rewrite mapGet_mapSet_neq by assumption. right. now split. }
  split; [now apply NoDup_keys_mapSet |].
  split.
  { intros k. rewrite In_keys_mapSet, Hkeys. split; [| tauto].
    intros [-> | ?]; assumption. }
  split.
  - intros Hsym u w cu cw Hne Hin Hu Hw. specialize (Hproper Hsym).
    apply Hget in Hu. apply Hget in Hw.
    destruct Hu as [[-> ->] | [Hu1 Hu2]]; destruct Hw as [[-> ->] | [Hw1 Hw2]].
    + congruence.
    + (* the new colour against an earlier neighbour *)
      intros <-. apply Hfree. apply neighborColorsOf_In. now exists w.
    + (* an earlier course that lists the new one: symmetry *)
      intros ->. apply Hfree. apply neighborColorsOf_In. exists u.
      split; [| assumption].
      apply (Hsym u v); [| assumption | assumption].
      apply Hkeys. eapply mapGet_Some_key; eauto.
    + apply (Hproper u w cu cw); assumption.
  - intros u cu Hu. apply Hget in Hu.
    assert (Hkeep : forall w j, mapGet w ca = Some (Some j) ->
                      mapGet w (mapSet v (Some col) ca) = Some (Some j)).
    { intros w j Hw. rewrite mapGet_mapSet_neq; [assumption |].
      intros ->. now apply (Hunc' j). }
    destruct Hu as [[-> ->] | [Hu1 Hu2]].
    + split; [assumption |]. intros j Hj.
      apply Hbelow in Hj. apply neighborColorsOf_In in Hj.
      destruct Hj as [nb [_ Hnb]]. exists nb. now apply Hkeep.
    + destruct (Hdown u cu Hu2) as [H1 Hj]. split; [assumption |].
      intros j Hlt. destruct (Hj j Hlt) as [w Hw]. exists w. now apply Hkeep.
Qed.

Lemma dsaturLoop_S fuel names ca sat :
  dsaturLoop localeCompare (S fuel) h cmap names deg ca sat
  = if length (uncolored names ca) =? 0 then Ok ca
    else
      match sortBy (bySaturation localeCompare sat deg) (uncolored names ca) with
      | [] => TypeError
      | v :: _ =>
          match mapGet v cmap with
          | None => TypeError
          | Some a =>
              let cfl := conflicts (deref h a) in
              let neighborColors := neighborColorsOf ca cfl in
              obind (smallestFree (S (length neighborColors)) neighborColors 1)
                (fun col =>
                   obind (updateSaturation col cfl sat)
                     (fun sat' =>
                        dsaturLoop localeCompare fuel h cmap names deg
                          (mapSet v (Some col) ca) sat'))
          end
      end.
Proof. reflexivity. Qed.

(** Partial correctness of the loop. *)
Lemma dsaturLoop_spec :
  forall fuel ca sat ca',
    dsaturInv h cmap ca ->
    dsaturLoop localeCompare fuel h cmap (keys cmap) deg ca sat = Ok ca' ->
    dsaturInv h cmap ca' /\ uncolored (keys cmap) ca' = [].
Proof.
  induction fuel as [| fuel IH]; intros ca sat ca' Hinv;
    [discriminate |]. rewrite dsaturLoop_S.
  destruct (length (uncolored (keys cmap) ca) =? 0) eqn:El.
  - intros [= <-]. split; [assumption |].
    apply Nat.eqb_eq in El. now apply length_zero_iff_nil.
  - destruct (sortBy (bySaturation localeCompare sat deg)
                     (uncolored (keys cmap) ca)) as [| v rest] eqn:Es;
      [discriminate |].
    assert (Hv : In v (uncolored (keys cmap) ca)).
    { eapply Permutation_in; [apply sortBy_Permutation |].
      rewrite Es. now left. }
    unfold uncolored in Hv. apply filter_In in Hv. destruct Hv as [Hv Hunc].
    destruct (mapGet v cmap) as [a |] eqn:Ea; [| discriminate].
    cbv zeta.
    destruct (smallestFree
                (S (length (neighborColorsOf ca (conflicts (deref h a)))))
                (neighborColorsOf ca (conflicts (deref h a))) 1)
      as [col | |] eqn:Ecol; cbn [obind]; try discriminate.
    destruct (updateSaturation col (conflicts (deref h a)) sat)
      as [sat' | |] eqn:Esat; cbn [obind]; try discriminate.
    intros Hr. apply (IH (mapSet v (Some col) ca) sat' ca'); [| exact Hr].
    eapply dsaturInv_step; eauto.
Qed.

(** The loop completes on a closed graph. *)
Lemma dsaturLoop_total :
  closed h cmap ->
  forall fuel (ca : ColorAssignment) (sat : Saturation),
    (forall k, In k (keys cmap) -> In k (keys sat)) ->
    length (uncolored (keys cmap) ca) < fuel ->
    exists ca', dsaturLoop localeCompare fuel h cmap (keys cmap) deg ca sat
                = Ok ca'.
Proof.
  intros Hcl. induction fuel as [| fuel IH]; intros ca sat Hsat Hfuel;
    [lia |]. rewrite dsaturLoop_S.
  destruct (length (uncolored (keys cmap) ca) =? 0) eqn:El; [now exists ca |].
  destruct (sortBy (bySaturation localeCompare sat deg)
                   (uncolored (keys cmap) ca)) as [| v rest] eqn:Es.
  { exfalso.
    pose proof (sortBy_Permutation (bySaturation localeCompare sat deg)
                  (uncolored (keys cmap) ca)) as Hp.
    rewrite Es in Hp. apply Permutation_nil in Hp. rewrite Hp in El.
    discriminate. }
  assert (Hv : In v (uncolored (keys cmap) ca)).
  { eapply Permutation_in; [apply sortBy_Permutation |].
    rewrite Es. now left. }
  unfold uncolored in Hv. apply filter_In in Hv. destruct Hv as [Hv Hunc].
  destruct (In_keys_mapGet cmap v Hv) as [a Ea]. rewrite Ea. cbv zeta.
  destruct (smallestFree_total (neighborColorsOf ca (conflicts (deref h a))))
    as [col Ecol].
  rewrite Ecol. cbn [obind].
  destruct (updateSaturation_total col (conflicts (deref h a)) sat)
    as [sat' Esat].
  { intros nb Hnb. apply Hsat. apply (Hcl v nb Hv).
    unfold conflictsOf. now rewrite Ea. }
  rewrite Esat. cbn [obind]. apply IH.
  - intros k Hk. apply (updateSaturation_keys _ _ _ _ Esat). now apply Hsat.
  - pose proof (uncolored_shrinks ca (keys cmap) v col Hv Hunc). lia.
Qed.
End DsaturLoop.

(* ------------------------------------------------------------------ *)
(** ** dsaturColoring: building the slots *)

Lemma colored_snoc ca nm c sl :
  colored (ca ++ [(nm, Some c)]) sl
  = colored ca sl ++ (if sl =? c then [nm] else []).
Proof.
  unfold colored. rewrite filter_app, map_app. simpl. unfold hasColor. simpl.
  rewrite (Nat.eqb_sym c sl). now destruct (sl =? c).
Qed.

Lemma colored_In (ca : ColorAssignment) c nm :
  In nm (colored ca c) <-> In (nm, Some c) ca.
Proof.
  unfold colored. rewrite in_map_iff. split.
  - intros [[nm' col] [E Hin]]. simpl in E. subst nm'.
    apply filter_In in Hin. destruct Hin as [Hin Hc]. unfold hasColor in Hc.
    simpl in Hc. destruct col as [c' |]; [| discriminate].
    apply Nat.eqb_eq in Hc. now subst.
  - intros Hin. exists (nm, Some c). split; [reflexivity |].
    apply filter_In. split; [assumption |]. unfold hasColor. simpl.
    apply Nat.eqb_refl.
Qed.

Lemma colored_NoDup (ca : ColorAssignment) c :
  NoDup (keys ca) -> NoDup (colored ca c).
Proof.
  unfold colored, keys. induction ca as [| [nm col] ca IH]; simpl;
    [constructor |].
  intros Hnd. inversion Hnd as [| ? ? Hni Hnd']; subst.
  destruct (hasColor c (nm, col)); simpl; [| now apply IH].
  constructor; [| now apply IH].
  intros Hin. apply Hni. apply in_map_iff in Hin.
  destruct Hin as [e [E He]]. apply filter_In in He.
  apply in_map_iff. exists e. tauto.
Qed.

Lemma In_keys_pushSlot sls r nm sl :
  In sl (keys (pushSlot r nm sls)) <-> sl = r \/ In sl (keys sls).
Proof.
  unfold pushSlot. destruct (mapGet r sls); apply In_keys_mapSet.
Qed.

Lemma NoDup_keys_pushSlot sls r nm :
  NoDup (keys sls) -> NoDup (keys (pushSlot r nm sls)).
Proof.
  unfold pushSlot. destruct (mapGet r sls); apply NoDup_keys_mapSet.
Qed.

Lemma firstn_update n a f h :
  n <= a -> firstn n (update a f h) = firstn n h.
Proof.
  revert n a. induction h as [| c h IH]; intros [| n] [| a] Hle; simpl; auto;
    try lia.
  f_equal. apply IH. lia.
Qed.

Lemma placeCourse_run cmap sls nm col s :
  placeCourse cmap sls (nm, col) s
  = match mapGet nm cmap with
    | None => (TypeError, s)
    | Some a =>
        (Ok (pushSlot (slotNumOf col) nm sls),
         mkState (update a (setSlotColor (Some (slotNumOf col))
                                         (slotColor (slotNumOf col))) (heap s))
                 (console s))
    end.
Proof.
  unfold placeCourse. fold (slotNumOf col).
  destruct (mapGet nm cmap); reflexivity.
Qed.

Lemma foldM_cons {A B : Type} (f : B -> A -> M B) x l b s :
  foldM f (x :: l) b s
  = match f b x s with
    | (Ok b', s') => foldM f l b' s'
    | (TypeError, s') => (TypeError, s')
    | (OutOfFuel, s') => (OutOfFuel, s')
    end.
Proof. reflexivity. Qed.

(** The writes of the slot-building loop only reach the objects of the
    map it is given. *)
Lemma placeAll_frame (cmap : CourseMap) n0 :
  (forall k a, In (k, a) cmap -> n0 <= a) ->
  forall l sls s,
    firstn n0 (heap (snd (foldM (placeCourse cmap) l sls s)))
    = firstn n0 (heap s) /\
    console (snd (foldM (placeCourse cmap) l sls s)) = console s.
Proof.
  intros Hfresh. induction l as [| [nm col] l IH]; intros sls s.
  - simpl. auto.
  - rewrite foldM_cons, placeCourse_run.
    destruct (mapGet nm cmap) as [a |] eqn:Ea; [| simpl; auto].
    match goal with
    | |- context [foldM (placeCourse cmap) l ?b ?t] =>
        destruct (IH b t) as [H1 H2]
    end.
    rewrite H1, H2. cbn [heap console]. split; [| reflexivity].
    apply firstn_update. apply (Hfresh nm). now apply mapGet_In.
Qed.

Section PlaceLoop.
Variable cmap : CourseMap.
Variable h1 : list Course.           (* the store when the loop starts *)
Variable c1 : list LogEntry.
Hypothesis Hwf : wf_graph h1 cmap.

Lemma placeInv_step (ca done : ColorAssignment) nm col rest sls s :
  NoDup (keys ca) ->
  (forall k v, In (k, v) ca ->
     In k (keys cmap) /\ exists c, v = Some c /\ 1 <= c) ->
  ca = done ++ (nm, col) :: rest ->
  placeInv cmap h1 c1 done sls s ->
  exists sls' s',
    placeCourse cmap sls (nm, col) s = (Ok sls', s') /\
    placeInv cmap h1 c1 (done ++ [(nm, col)]) sls' s'.
Proof.
  intros Hnd Hall Eca (Hk & Hlist & Hkeys & Hco & HS & Hfld).
  assert (Hin : In (nm, col) ca)
    by (rewrite Eca; apply in_or_app; right; now left).
  destruct (Hall nm col Hin) as (Hnm & c & -> & Hc).
  destruct (In_keys_mapGet cmap nm Hnm) as [a Ea].
  rewrite placeCourse_run, Ea.
  assert (Hnum : slotNumOf (Some c) = c).
  { simpl. destruct (Nat.eqb_spec c 0); [lia | reflexivity]. }
  rewrite Hnum. eexists _, _. split; [reflexivity |].
  unfold placeInv. cbn [heap console].
  split; [now apply NoDup_keys_pushSlot |].
  split.
  { intros sl. rewrite slotList_pushSlot, colored_snoc.
    destruct (Nat.eqb_spec sl c) as [-> | _];
      [now rewrite Hlist | now rewrite app_nil_r]. }
  split.
  { intros sl. rewrite In_keys_pushSlot, colored_snoc, Hkeys.
    destruct (Nat.eqb_spec sl c) as [-> | Hne].
    - split; [| auto]. intros _ E. now apply app_eq_nil in E.
    - rewrite app_nil_r. tauto. }
  split; [assumption |].
  split; [eapply sameStatic_trans; [exact HS | apply sameStatic_update] |].
  destruct (wf_graph_mapGet _ _ _ _ Hwf Ea) as [Hlt _].
  intros nm' c' a' Hin' Ea'. apply in_app_iff in Hin'.
  destruct Hin' as [Hin' | [[= <- <-] | []]].
  - assert (Hne : nm' <> nm).
    { intros ->. rewrite Eca in Hnd. unfold keys in Hnd.
      rewrite map_app in Hnd. simpl in Hnd. apply NoDup_remove_2 in Hnd.
      apply Hnd. apply in_or_app. left.
      apply in_map_iff. now exists (nm, Some c'). }
    assert (a <> a').
    { intros <-. apply Hne. eapply wf_graph_addr_inj; eauto. }
    rewrite deref_update_neq by assumption. now apply (Hfld nm').
  - assert (a' = a) by congruence. subst a'.
    rewrite deref_update_eq by (destruct HS as [L _]; lia). now split.
Qed.

Lemma placeAll_spec (ca : ColorAssignment) s :
  NoDup (keys ca) ->
  (forall k v, In (k, v) ca ->
     In k (keys cmap) /\ exists c, v = Some c /\ 1 <= c) ->
  console s = c1 -> sameStatic h1 (heap s) ->
  exists sls s',
    foldM (placeCourse cmap) ca [] s = (Ok sls, s') /\ placeInv cmap h1 c1 ca sls s'.
Proof.
  intros Hnd Hall Hco HS.
  apply (foldM_invariant_split (placeCourse cmap) (placeInv cmap h1 c1) ca).
  - intros done [nm col] rest b s1 El HP. eapply placeInv_step; eauto.
  - unfold placeInv, slotList, colored. simpl.
    split; [constructor |]. split; [reflexivity |].
    split; [intros sl; split; [intros [] | congruence] |].
    split; [assumption |]. split; [assumption |]. intros nm c a [].
Qed.
End PlaceLoop.

(** A duplicate-free list of positive numbers with no gap below any of its
    members lists exactly 1, ..., its length. *)
Lemma downward_closed_range (l : list nat) :
  NoDup l ->
  (forall x, In x l -> 1 <= x /\ forall j, 1 <= j < x -> In j l) ->
  forall x, In x l <-> 1 <= x <= length l.
Proof.
  intros Hnd Hdown x. split.
  - intros Hx. destruct (Hdown x Hx) as [H1 Hbelow]. split; [assumption |].
    assert (Hincl : incl (seq 1 x) l).
    { intros j Hj. apply in_seq in Hj.
      destruct (Nat.eq_dec j x) as [-> | Hne]; [assumption |].
      apply Hbelow. lia. }
    apply NoDup_incl_length in Hincl; [| apply seq_NoDup].
    now rewrite length_seq in Hincl.
  - intros Hx.
    (* otherwise [l] would fit in [1 .. length l] without [x] *)
    destruct (in_dec Nat.eq_dec x l) as [Hin | Hni]; [assumption |].
    exfalso.
    assert (Hincl : incl l (remove Nat.eq_dec x (seq 1 (length l)))).
    { intros y Hy. apply in_in_remove; [congruence |].
      apply in_seq. destruct (Hdown y Hy) as [H1 Hbelow].
      split; [assumption |].
      destruct (Nat.le_gt_cases y (length l)) as [Hle | Hgt]; [lia |].
      exfalso. apply Hni. apply Hbelow. lia. }
    apply NoDup_incl_length in Hincl; [| assumption].
    assert (Hlt : length (remove Nat.eq_dec x (seq 1 (length l)))
                  < length (seq 1 (length l))).
    { apply remove_length_lt. apply in_seq. lia. }
    rewrite length_seq in Hlt. lia.
Qed.

(* ------------------------------------------------------------------ *)
(** ** dsaturColoring *)

Section Dsatur.
Variable localeCompare : string -> string -> Z.

Lemma dsaturColoring_empty orig sts s cmap s1 :
  foldM copyCourse orig [] s = (Ok cmap, s1) -> keys cmap = [] ->
  dsaturColoring localeCompare orig sts s
  = (Ok (mkScheduleResult cmap [] 0 0 (studentsOrEmpty sts)
           (mkConflictDetails 0 [])), s1).
Proof.
  intros E Hk. unfold dsaturColoring. erewrite bind_Ok by exact E.
  now rewrite Hk.
Qed.

(** dsaturColoring on a non-empty graph, after the copy and the
    initialisation of the helper maps. *)
Lemma dsaturColoring_steps orig sts s cmap s1 ca0 sat0 deg :
  foldM copyCourse orig [] s = (Ok cmap, s1) -> keys cmap <> [] ->
  initMaps (heap s1) cmap (keys cmap) = Ok (ca0, sat0, deg) ->
  dsaturColoring localeCompare orig sts s
  = match dsaturLoop localeCompare (S (length (keys cmap))) (heap s1) cmap
            (keys cmap) deg ca0 sat0 with
    | Ok ca =>
        match foldM (placeCourse cmap) ca [] s1 with
        | (Ok sls, s2) => (Ok (dsaturResult (heap s2) cmap sts sls), s2)
        | (TypeError, s2) => (TypeError, s2)
        | (OutOfFuel, s2) => (OutOfFuel, s2)
        end
    | TypeError => (TypeError, s1)
    | OutOfFuel => (OutOfFuel, s1)
    end.
Proof.
  intros E Hk Ei. unfold dsaturColoring. erewrite bind_Ok by exact E.
  destruct (length (keys cmap) =? 0) eqn:El.
  { apply Nat.eqb_eq in El. apply length_zero_iff_nil in El. contradiction. }
  unfold bind at 1. unfold getHeap at 1. cbv iota beta.
  unfold bind at 1. unfold liftOutcome at 1. rewrite Ei. cbv iota beta.
  unfold bind at 1. unfold liftOutcome at 1.
  destruct (dsaturLoop localeCompare (S (length (keys cmap))) (heap s1) cmap
              (keys cmap) deg ca0 sat0) as [ca | |]; reflexivity.
Qed.

(** dsaturColoring writes to the objects it allocates only: the store
    of the caller is a prefix of the store it leaves, whatever the
    outcome, and the map of a result holds fresh addresses. *)
Lemma dsaturColoring_frame orig sts s :
  firstn (length (heap s)) (heap (snd (dsaturColoring localeCompare orig sts s)))
  = heap s /\
  console (snd (dsaturColoring localeCompare orig sts s)) = console s /\
  forall r, fst (dsaturColoring localeCompare orig sts s) = Ok r ->
    forall k a, In (k, a) (resCourses r) -> length (heap s) <= a.
Proof.
  destruct (copyAll_spec orig s) as (cmap & s1 & ext & E & Hext & Hco & Hcp).
  assert (Hfresh : forall k a, In (k, a) cmap -> length (heap s) <= a).
  { intros k a Hin. destruct Hcp as (_ & _ & Hent).
    destruct (Hent k a Hin) as [Hr _]. lia. }
  assert (Hpre : firstn (length (heap s)) (heap s1) = heap s).
  { rewrite Hext, firstn_app, Nat.sub_diag, firstn_all. simpl.
    apply app_nil_r. }
  destruct (keys cmap) as [| k0 ks] eqn:Ek.
  - rewrite (dsaturColoring_empty orig sts s cmap s1 E Ek). simpl.
    split; [assumption |]. split; [assumption |].
    intros r [= <-]. exact Hfresh.
  - destruct (initMaps_spec (heap s1) cmap) as (ca0 & sat0 & deg & Ei & _).
    rewrite (dsaturColoring_steps orig sts s cmap s1 ca0 sat0 deg E);
      [| rewrite Ek; discriminate | exact Ei].
    destruct (dsaturLoop localeCompare _ (heap s1) cmap (keys cmap) deg ca0 sat0)
      as [ca | |]; simpl; try (split; [assumption | split; [assumption |]];
                               intros r; discriminate).
    destruct (placeAll_frame cmap (length (heap s)) Hfresh ca [] s1)
      as [H1 H2].
    destruct (foldM (placeCourse cmap) ca [] s1) as [[sls | |] s2];
      simpl in *; (split; [congruence | split; [congruence |]]);
      intros r; try discriminate.
    intros [= <-]. exact Hfresh.
Qed.
End Dsatur.

Section DsaturSpec.
Variable localeCompare : string -> string -> Z.

(** The assignment a completed loop leaves colours every course. *)
Lemma all_colored (cmap : CourseMap) (ca : ColorAssignment) h :
  dsaturInv h cmap ca -> uncolored (keys cmap) ca = [] ->
  forall k v, In (k, v) ca ->
    In k (keys cmap) /\ exists c, v = Some c /\ 1 <= c.
Proof.
  intros (Hnd & Hkeys & _ & Hdown) Hunc k v Hin.
  assert (Hk : In k (keys cmap)).
  { apply Hkeys. apply in_map_iff. now exists (k, v). }
  split; [assumption |].
  assert (Hget : mapGet k ca = Some v) by now apply NoDup_mapGet.
  destruct (isUncolored ca k) eqn:Eu.
  - exfalso. assert (Hin' : In k (uncolored (keys cmap) ca))
      by (apply filter_In; now split).
    rewrite Hunc in Hin'. destruct Hin'.
  - unfold isUncolored in Eu. rewrite Hget in Eu.
    destruct v as [c |]; [| discriminate].
    exists c. split; [reflexivity |]. now destruct (Hdown k c Hget).
Qed.

(** What dsaturColoring returns, when it returns, on a well-formed
    course graph; the colouring is valid when the graph is symmetric. *)
Lemma dsaturColoring_spec orig sts s r s' :
  wf_graph (heap s) orig ->
  dsaturColoring localeCompare orig sts s = (Ok r, s') ->
  totalSlots r = length (slots r) /\
  contiguous (slots r) /\
  wf_graph (heap s') (resCourses r) /\
  (forall k, In k (keys (resCourses r)) <-> In k (keys orig)) /\
  (forall k, conflictsOf (heap s') (resCourses r) k
             = conflictsOf (heap s) orig k) /\
  partitioned (resCourses r) (slots r) /\
  (symmetric (heap s) orig -> validSlots (heap s') (resCourses r) (slots r)) /\
  recorded (heap s') (resCourses r) (slots r).
Proof.
  intros Hwf Hrun.
  destruct (copyAll_spec orig s) as (cmap & s1 & ext & E & Hext & Hco & Hcp).
  pose proof (copyOf_wf_graph _ _ _ _ Hwf Hcp) as Hwf1.
  pose proof (copyOf_symmetric _ _ _ _ Hwf Hcp) as Hsym1.
  pose proof (fun k => copyOf_conflictsOf _ _ _ _ k Hwf Hcp) as Hcf1.
  assert (Hkeys1 : forall k, In k (keys cmap) <-> In k (keys orig))
    by apply Hcp.
  assert (Hcase : keys cmap = [] \/ keys cmap <> [])
    by (destruct (keys cmap); [now left | right; discriminate]).
  destruct Hcase as [Ek | Hne].
  - rewrite (dsaturColoring_empty localeCompare orig sts s cmap s1 E Ek)
      in Hrun.
    injection Hrun as <- <-. simpl.
    assert (cmap = []) by (now destruct cmap). subst cmap.
    split; [reflexivity |].
    split; [split; [constructor | intros sl; simpl; lia] |].
    split; [assumption |]. split; [assumption |]. split; [assumption |].
    split.
    { split; [intros; constructor |].
      split; [intros nm; split; [intros [sl []] | intros []] |].
      intros nm sl sl' []. }
    split; [intros _ sl l [] | intros k a []].
  - destruct (initMaps_spec (heap s1) cmap)
      as (ca0 & sat0 & deg & Ei & Hnd0 & Hk0 & Hnone0 & _).
    rewrite (dsaturColoring_steps localeCompare orig sts s cmap s1
               ca0 sat0 deg E Hne Ei) in Hrun.
    destruct (dsaturLoop localeCompare (S (length (keys cmap))) (heap s1) cmap
                (keys cmap) deg ca0 sat0) as [ca | |] eqn:Eloop;
      try discriminate.
    assert (Hinv0 : dsaturInv (heap s1) cmap ca0).
    { split; [assumption |]. split; [assumption |].
      split; [intros _ u | intros u]; intros; exfalso;
        match goal with
        | H : mapGet _ ca0 = Some (Some _) |- _ =>
            apply Hnone0 in H; discriminate
        end. }
    destruct (dsaturLoop_spec localeCompare (heap s1) cmap deg
                _ _ _ _ Hinv0 Eloop) as [Hinv Hunc].
    pose proof (all_colored cmap ca (heap s1) Hinv Hunc) as Hall.
    destruct Hinv as (Hnd & Hkeys & Hproper & Hdown).
    destruct (placeAll_spec cmap (heap s1) (console s1) Hwf1 ca s1 Hnd Hall
                eq_refl (sameStatic_refl _))
      as (sls & s2 & Eplace & Hk & Hlist & Hskeys & _ & HS & Hfld).
    rewrite Eplace in Hrun. injection Hrun as <- <-.
    cbn [dsaturResult resCourses slots totalSlots].
    assert (Hcol : forall nm c, In (nm, Some c) ca <-> mapGet nm ca = Some (Some c)).
    { intros nm c. split; [now apply NoDup_mapGet | apply mapGet_In]. }
    assert (Hused : forall sl, In sl (keys sls) <-> exists nm, In (nm, Some sl) ca).
    { intros sl. rewrite Hskeys. split.
      - intros Hnil. destruct (colored ca sl) as [| nm l] eqn:Ec;
          [contradiction |].
        exists nm. apply colored_In. rewrite Ec. now left.
      - intros [nm Hin] Hnil. apply colored_In in Hin. rewrite Hnil in Hin.
        destruct Hin. }
    split; [reflexivity |].
    split.
    { split; [assumption |].
      assert (Hlen : length (keys sls) = length sls) by apply length_map.
      rewrite <- Hlen. apply (downward_closed_range (keys sls)); [assumption |].
      intros x Hx. apply Hused in Hx. destruct Hx as [nm Hin].
      apply Hcol in Hin. destruct (Hdown nm x Hin) as [H1 Hbelow].
      split; [assumption |]. intros j Hj.
      destruct (Hbelow j Hj) as [v Hv]. apply Hused. exists v.
      now apply Hcol. }
    split; [eapply sameStatic_wf_graph; eauto |].
    split; [assumption |].
    split.
    { intros k. rewrite (sameStatic_conflictsOf (heap s1)) by assumption.
      apply Hcf1. }
    split.
    { split; [intros sl; rewrite Hlist; now apply colored_NoDup |].
      split.
      - intros nm. split.
        + intros [sl Hin]. rewrite Hlist in Hin. apply colored_In in Hin.
          now destruct (Hall nm _ Hin).
        + intros Hin. apply Hkeys in Hin. apply in_map_iff in Hin.
          destruct Hin as [[nm' v] [En Hin]]. simpl in En. subst nm'.
          destruct (Hall nm v Hin) as (_ & c & -> & _).
          exists c. rewrite Hlist. now apply colored_In.
      - intros nm sl sl'. rewrite !Hlist, !colored_In, !Hcol. congruence. }
    split.
    { intros Hsym. specialize (Hproper (Hsym1 Hsym)).
      apply (sameStatic_validSlots (heap s1)); [assumption |].
      intros sl l Hin x y Hx Hy Hxy Hconf.
      assert (l = slotList sls sl).
      { unfold slotList. now rewrite (NoDup_mapGet _ _ _ Hk Hin). }
      subst l. rewrite Hlist in Hx, Hy.
      apply colored_In, Hcol in Hx. apply colored_In, Hcol in Hy.
      now apply (Hproper x y sl sl Hxy Hconf Hx Hy). }
    intros k a Hin.
    assert (Hkk : In k (keys cmap)) by (apply in_map_iff; now exists (k, a)).
    apply Hkeys in Hkk. apply in_map_iff in Hkk.
    destruct Hkk as [[k' v] [En Hkv]]. simpl in En. subst k'.
    destruct (Hall k v Hkv) as (_ & c & -> & _).
    exists c. split; [rewrite Hlist; now apply colored_In |].
    apply (Hfld k c a Hkv). apply NoDup_mapGet; [apply Hwf1 | assumption].
Qed.
End DsaturSpec.

Section DsaturTotal.
Variable localeCompare : string -> string -> Z.

Lemma uncolored_length names (ca : ColorAssignment) :
  length (uncolored names ca) <= length names.
Proof. unfold uncolored. apply filter_length_le. Qed.

(** dsaturColoring returns a ScheduleResult on every well-formed closed
    course graph: no loop of the model runs out of fuel, and no
    saturation set is missing. *)
Lemma dsaturColoring_total orig sts s :
  wf_graph (heap s) orig -> closed (heap s) orig ->
  exists r s', dsaturColoring localeCompare orig sts s = (Ok r, s').
Proof.
  intros Hwf Hcl.
  destruct (copyAll_spec orig s) as (cmap & s1 & ext & E & Hext & Hco & Hcp).
  pose proof (copyOf_wf_graph _ _ _ _ Hwf Hcp) as Hwf1.
  pose proof (copyOf_closed _ _ _ _ Hwf Hcp Hcl) as Hcl1.
  assert (Hcase : keys cmap = [] \/ keys cmap <> [])
    by (destruct (keys cmap); [now left | right; discriminate]).
  destruct Hcase as [Ek | Hne].
  - eexists _, _.
    apply (dsaturColoring_empty localeCompare orig sts s cmap s1 E Ek).
  - destruct (initMaps_spec (heap s1) cmap)
      as (ca0 & sat0 & deg & Ei & Hnd0 & Hk0 & Hnone0 & Hsat0).
    rewrite (dsaturColoring_steps localeCompare orig sts s cmap s1
               ca0 sat0 deg E Hne Ei).
    destruct (dsaturLoop_total localeCompare (heap s1) cmap deg Hcl1
                (S (length (keys cmap))) ca0 sat0) as [ca Eloop].
    { intros k Hk. now apply Hsat0. }
    { pose proof (uncolored_length (keys cmap) ca0). lia. }
    rewrite Eloop.
    assert (Hinv0 : dsaturInv (heap s1) cmap ca0).
    { split; [assumption |]. split; [assumption |].
      split; [intros _ u | intros u]; intros; exfalso;
        match goal with
        | H : mapGet _ ca0 = Some (Some _) |- _ =>
            apply Hnone0 in H; discriminate
        end. }
    destruct (dsaturLoop_spec localeCompare (heap s1) cmap deg
                _ _ _ _ Hinv0 Eloop) as [Hinv Hunc].
    pose proof (all_colored cmap ca (heap s1) Hinv Hunc) as Hall.
    destruct (placeAll_spec cmap (heap s1) (console s1) Hwf1 ca s1
                (proj1 Hinv) Hall eq_refl (sameStatic_refl _))
      as (sls & s2 & Eplace & _).
    rewrite Eplace. now eexists _, _.
Qed.
Lemma updateSaturation_fuel col cfl :
  forall sat, updateSaturation col cfl sat <> OutOfFuel.
Proof.
  induction cfl as [| nb cfl IH]; intros sat; simpl; [discriminate |].
  destruct (mapGet nb sat); [apply IH | discriminate].
Qed.

Lemma dsaturLoop_fuel h cmap names deg :
  forall fuel (ca : ColorAssignment) (sat : Saturation),
    length (uncolored names ca) < fuel ->
    dsaturLoop localeCompare fuel h cmap names deg ca sat <> OutOfFuel.
Proof.
  induction fuel as [| fuel IH]; intros ca sat Hfuel; [lia |].
  rewrite dsaturLoop_S.
  destruct (length (uncolored names ca) =? 0); [discriminate |].
  destruct (sortBy (bySaturation localeCompare sat deg) (uncolored names ca))
    as [| v rest] eqn:Es; [discriminate |].
  assert (Hv : In v (uncolored names ca)).
  { eapply Permutation_in; [apply sortBy_Permutation |].
    rewrite Es. now left. }
  unfold uncolored in Hv. apply filter_In in Hv. destruct Hv as [Hv Hunc].
  destruct (mapGet v cmap) as [a |]; [| discriminate]. cbv zeta.
  destruct (smallestFree_total (neighborColorsOf ca (conflicts (deref h a))))
    as [col Ecol].
  rewrite Ecol. cbn [obind].
  destruct (updateSaturation col (conflicts (deref h a)) sat)
    as [sat' | |] eqn:Esat; cbn [obind]; [| discriminate |].
  - apply IH. pose proof (uncolored_shrinks ca names v col Hv Hunc). lia.
  - now apply updateSaturation_fuel in Esat.
Qed.

Lemma placeAll_fuel (cmap : CourseMap) :
  forall l sls s, fst (foldM (placeCourse cmap) l sls s) <> OutOfFuel.
Proof.
  induction l as [| [nm col] l IH]; intros sls s; [discriminate |].
  rewrite foldM_cons, placeCourse_run.
  destruct (mapGet nm cmap); [apply IH | discriminate].
Qed.

(** No loop of the model of dsaturColoring runs out of fuel, on any
    input: the call returns a ScheduleResult or raises a TypeError. *)
Lemma dsaturColoring_fuel orig sts s :
  fst (dsaturColoring localeCompare orig sts s) <> OutOfFuel.
Proof.
  destruct (copyAll_spec orig s) as (cmap & s1 & ext & E & _).
  assert (Hcase : keys cmap = [] \/ keys cmap <> [])
    by (destruct (keys cmap); [now left | right; discriminate]).
  destruct Hcase as [Ek | Hne].
  - rewrite (dsaturColoring_empty localeCompare orig sts s cmap s1 E Ek).
    discriminate.
  - destruct (initMaps_spec (heap s1) cmap) as (ca0 & sat0 & deg & Ei & _).
    rewrite (dsaturColoring_steps localeCompare orig sts s cmap s1
               ca0 sat0 deg E Hne Ei).
    pose proof (dsaturLoop_fuel (heap s1) cmap (keys cmap) deg
                  (S (length (keys cmap))) ca0 sat0) as Hloop.
    destruct (dsaturLoop localeCompare (S (length (keys cmap))) (heap s1) cmap
                (keys cmap) deg ca0 sat0) as [ca | |]; [| discriminate |].
    + pose proof (placeAll_fuel cmap ca [] s1) as Hplace.
      destruct (foldM (placeCourse cmap) ca [] s1) as [[sls | |] s2];
        simpl in *; congruence.
    + exfalso. apply Hloop; [| reflexivity].
      pose proof (uncolored_length (keys cmap) ca0). lia.
Qed.
End DsaturTotal.

(* ------------------------------------------------------------------ *)
(** ** Deciding the graph properties on a concrete store *)

Lemma nodupb_NoDup l : nodupb l = true -> NoDup l.
Proof.
  induction l as [| x l IH]; simpl; [constructor |].
  intros Hb. apply andb_true_iff in Hb. destruct Hb as [Hx Hl].
  constructor; [| now apply IH].
  apply negb_true_iff in Hx. now apply setHas_false.
Qed.

Lemma wf_graphb_sound h cmap : wf_graphb h cmap = true -> wf_graph h cmap.
Proof.
  unfold wf_graphb. intros Hb. apply andb_true_iff in Hb.
  destruct Hb as [Hnd Hall]. split; [now apply nodupb_NoDup |].
  intros k a Hin. rewrite forallb_forall in Hall.
  specialize (Hall (k, a) Hin). simpl in Hall.
  apply andb_true_iff in Hall. destruct Hall as [Hlt Hn].
  split; [now apply Nat.ltb_lt | now apply String.eqb_eq].
Qed.

Lemma symmetricb_sound h cmap : symmetricb h cmap = true -> symmetric h cmap.
Proof.
  unfold symmetricb. intros Hb A B HA HB. rewrite forallb_forall in Hb.
  specialize (Hb A HA). rewrite forallb_forall in Hb. specialize (Hb B HB).
  apply Bool.eqb_prop in Hb. rewrite <- !setHas_In. now rewrite Hb.
Qed.

Lemma closedb_sound h cmap : closedb h cmap = true -> closed h cmap.
Proof.
  unfold closedb. intros Hb A B HA HB. rewrite forallb_forall in Hb.
  specialize (Hb A HA). rewrite forallb_forall in Hb.
  apply setHas_In. now apply Hb.
Qed.

Lemma cliqueb_sound h cmap cl : cliqueb h cmap cl = true -> clique h cmap cl.
Proof.
  unfold cliqueb. intros Hb. apply andb_true_iff in Hb.
  destruct Hb as [Hb Hpair]. apply andb_true_iff in Hb.
  destruct Hb as [Hnd Hin]. split; [now apply nodupb_NoDup |]. split.
  - intros x Hx. rewrite forallb_forall in Hin. apply setHas_In. now apply Hin.
  - intros x y Hx Hy Hne. rewrite forallb_forall in Hpair.
    specialize (Hpair x Hx). rewrite forallb_forall in Hpair.
    specialize (Hpair y Hy). apply orb_true_iff in Hpair.
    destruct Hpair as [E | Hc]; [| now apply setHas_In].
    apply String.eqb_eq in E. contradiction.
Qed.

(* ------------------------------------------------------------------ *)
(** ** Counting slots *)

(** A duplicate-free list that maps injectively into another list is no
    longer than it. *)
Lemma injection_length {A : Type} (R : A -> nat -> Prop) :
  forall (l : list A) (K : list nat),
    NoDup l ->
    (forall x, In x l -> exists k, In k K /\ R x k) ->
    (forall x y k, In x l -> In y l -> R x k -> R y k -> x = y) ->
    length l <= length K.
Proof.
  induction l as [| x l IH]; intros K Hnd Hmap Hinj; simpl; [lia |].
  inversion Hnd as [| ? ? Hni Hnd']; subst.
  destruct (Hmap x (or_introl eq_refl)) as (k & Hk & Hxk).
  assert (Hlt : length (remove Nat.eq_dec k K) < length K)
    by now apply remove_length_lt.
  assert (Hle : length l <= length (remove Nat.eq_dec k K)).
  { apply IH; [assumption | |].
    - intros y Hy. destruct (Hmap y (or_intror Hy)) as (k' & Hk' & Hyk').
      exists k'. split; [| assumption].
      apply in_in_remove; [| assumption].
      intros ->. apply Hni.
      replace x with y; [assumption |].
      apply (Hinj y x k); simpl; auto.
    - intros y z k' Hy Hz. apply Hinj; simpl; auto. }
  lia.
Qed.

(** A valid colouring that lists every course needs a slot per member
    of a clique. *)
Lemma clique_bound h cmap sls cl :
  NoDup (keys sls) -> partitioned cmap sls -> validSlots h cmap sls ->
  clique h cmap cl -> length cl <= length sls.
Proof.
  intros Hk (Hnd & Hnames & Huniq) Hvalid (Hcl & Hin & Hpair).
  rewrite <- (length_map fst sls). fold (keys sls).
  apply (injection_length (fun x sl => In x (slotList sls sl))); [assumption | |].
  - intros x Hx. destruct (proj2 (Hnames x) (Hin x Hx)) as [sl Hsl].
    exists sl. split; [| assumption]. unfold slotList in Hsl.
    destruct (mapGet sl sls) eqn:E; [| destruct Hsl].
    eapply mapGet_Some_key; eauto.
  - intros x y sl Hx Hy Hxs Hys.
    destruct (string_dec x y) as [| Hne]; [assumption |]. exfalso.
    unfold slotList in Hxs, Hys.
    destruct (mapGet sl sls) as [l |] eqn:E; [| destruct Hxs].
    apply mapGet_In in E.
    apply (Hvalid sl l E x y Hxs Hys Hne). now apply Hpair.
Qed.

(* ------------------------------------------------------------------ *)
(** ** Example graphs *)

Example scenario_built :
  buildConflictGraph scenarioStudents scenarioCourses emptyState
  = (Ok scenarioGraph, scenarioState).
Proof. reflexivity. Qed.

(* ------------------------------------------------------------------ *)
(** ** Properties of the colourers *)

(** C1.  On a course graph that satisfies the symmetry invariant,
    greedyColoring returns a ScheduleResult, every ScheduleResult that
    greedyColoring or dsaturColoring returns is a valid colouring (no two
    distinct names of one slot are in each other's conflict sets), and
    verifySolution returns true on its courses and slots. *)
Theorem coloring_valid :
  forall (localeCompare : string -> string -> Z) (cmap : CourseMap)
         (sts : option (list Student)) (s : State),
    wf_graph (heap s) cmap -> symmetric (heap s) cmap ->
    (exists r s',
       greedyColoring localeCompare cmap sts s = (Ok r, s') /\
       validSlots (heap s') (resCourses r) (slots r) /\
       verifySolution (resCourses r) (slots r) s' = (Ok true, s')) /\
    (forall r s',
       dsaturColoring localeCompare cmap sts s = (Ok r, s') ->
       validSlots (heap s') (resCourses r) (slots r) /\
       verifySolution (resCourses r) (slots r) s' = (Ok true, s')).
Proof.
  intros localeCompare cmap sts s Hwf Hsym. split.
  - now apply greedyColoring_valid.
  - intros r s' Hrun.
    destruct (dsaturColoring_spec localeCompare cmap sts s r s' Hwf Hrun)
      as (_ & [Hk _] & _ & _ & _ & (Hnd & _ & _) & Hvalid & _).
    specialize (Hvalid Hsym). split; [assumption |].
    rewrite verifySolution_run, validSlots_verifySlots; auto.
    intros sl l Hin.
    replace l with (slotList (slots r) sl); [apply Hnd |].
    unfold slotList. now rewrite (NoDup_mapGet _ _ _ Hk Hin).
Qed.

Lemma coloring_valid_witness :
  wf_graph (heap scenarioState) scenarioGraph /\
  symmetric (heap scenarioState) scenarioGraph /\
  (exists r s',
     greedyColoring codeUnitCompare scenarioGraph None scenarioState = (Ok r, s') /\
     validSlots (heap s') (resCourses r) (slots r) /\
     verifySolution (resCourses r) (slots r) s' = (Ok true, s')) /\
  (exists r s',
     dsaturColoring codeUnitCompare scenarioGraph None scenarioState = (Ok r, s') /\
     validSlots (heap s') (resCourses r) (slots r) /\
     verifySolution (resCourses r) (slots r) s' = (Ok true, s')).
Proof.
  assert (Hwf : wf_graph (heap scenarioState) scenarioGraph)
    by (apply wf_graphb_sound; reflexivity).
  assert (Hsym : symmetric (heap scenarioState) scenarioGraph)
    by (apply symmetricb_sound; reflexivity).
  destruct (coloring_valid codeUnitCompare scenarioGraph None scenarioState
              Hwf Hsym) as [Hg Hd].
  split; [exact Hwf |]. split; [exact Hsym |]. split; [exact Hg |].
  eexists _, _. split; [vm_compute; reflexivity |].
  apply Hd. vm_compute. reflexivity.
Defined.

(** C5.  dsaturColoring leaves the input graph as it was: whatever the
    outcome, the store of the caller is an unchanged prefix of the store
    after the call, so every object of the input graph keeps its slot,
    its colour and its conflict set, and nothing is written to the
    console; the map of the ScheduleResult holds addresses allocated by
    the call, the deep copy, not those of the input map. *)
Theorem dsaturColoring_leaves_input_unchanged :
  forall (localeCompare : string -> string -> Z) (cmap : CourseMap)
         (sts : option (list Student)) (s : State),
    (forall k a, In (k, a) cmap -> a < length (heap s)) ->
    firstn (length (heap s))
           (heap (snd (dsaturColoring localeCompare cmap sts s))) = heap s /\
    console (snd (dsaturColoring localeCompare cmap sts s)) = console s /\
    coloring (heap (snd (dsaturColoring localeCompare cmap sts s))) cmap
    = coloring (heap s) cmap /\
    structure (heap (snd (dsaturColoring localeCompare cmap sts s))) cmap
    = structure (heap s) cmap /\
    (forall r, fst (dsaturColoring localeCompare cmap sts s) = Ok r ->
       forall k a, In (k, a) (resCourses r) ->
         length (heap s) <= a /\ ~ In a (values cmap)).
Proof.
  intros localeCompare cmap sts s Halloc.
  destruct (dsaturColoring_frame localeCompare cmap sts s) as (Hpre & Hco & Hfresh).
  assert (Hsame : forall k a, In (k, a) cmap ->
            deref (heap (snd (dsaturColoring localeCompare cmap sts s))) a
            = deref (heap s) a).
  { intros k a Hin. specialize (Halloc k a Hin). unfold deref.
    assert (E : nth a (firstn (length (heap s))
                  (heap (snd (dsaturColoring localeCompare cmap sts s)))) blank
                = nth a (heap (snd (dsaturColoring localeCompare cmap sts s)))
                    blank).
    { rewrite nth_firstn. apply Nat.ltb_lt in Halloc. now rewrite Halloc. }
    rewrite <- E. now rewrite Hpre. }
  split; [assumption |]. split; [assumption |].
  split; [| split].
  - unfold coloring. apply map_ext_in. intros [k a] Hin. simpl.
    now rewrite (Hsame k a Hin).
  - unfold structure. apply map_ext_in. intros [k a] Hin. simpl.
    now rewrite (Hsame k a Hin).
  - intros r Hr k a Hin. specialize (Hfresh r Hr k a Hin).
    split; [assumption |]. intros Hv. apply in_map_iff in Hv.
    destruct Hv as [[k' a'] [Ea Hin']]. simpl in Ea. subst a'.
    specialize (Halloc k' a Hin'). lia.
Qed.

Lemma dsaturColoring_leaves_input_unchanged_witness :
  (forall k a, In (k, a) scenarioGraph -> a < length (heap scenarioState)) /\
  coloring (heap (snd (dsaturColoring codeUnitCompare scenarioGraph None
                         scenarioState))) scenarioGraph
  = coloring (heap scenarioState) scenarioGraph.
Proof.
  assert (Halloc : forall k a, In (k, a) scenarioGraph ->
                               a < length (heap scenarioState)).
  { intros k a Hin. simpl in Hin.
    destruct Hin as [[= <- <-] | [[= <- <-] | [[= <- <-] | []]]]; simpl; lia. }
  split; [exact Halloc |].
  apply (dsaturColoring_leaves_input_unchanged codeUnitCompare scenarioGraph
           None scenarioState Halloc).
Defined.

(** C8.  On a course graph that satisfies the symmetry invariant, the
    totalSlots of the ScheduleResult of either colourer is at least the
    size of every set of pairwise conflicting courses, so at least the
    size of the largest one; three pairwise conflicting courses make
    totalSlots at least 3. *)
Theorem totalSlots_at_least_clique :
  forall (localeCompare : string -> string -> Z) (cmap : CourseMap)
         (sts : option (list Student)) (s : State) (cl : list string),
    wf_graph (heap s) cmap -> symmetric (heap s) cmap ->
    clique (heap s) cmap cl ->
    (exists r s',
       greedyColoring localeCompare cmap sts s = (Ok r, s') /\
       length cl <= totalSlots r) /\
    (forall r s',
       dsaturColoring localeCompare cmap sts s = (Ok r, s') ->
       length cl <= totalSlots r).
Proof.
  intros localeCompare cmap sts s cl Hwf Hsym Hcl. split.
  - destruct (greedyColoring_spec localeCompare cmap sts s Hwf)
      as (r & s' & E & Hres & Htot & Hok & HS & Hpart & _).
    destruct (greedyColoring_valid localeCompare cmap sts s Hwf Hsym)
      as (r' & s'' & E' & Hvalid & _).
    rewrite E in E'. injection E' as <- <-.
    exists r, s'. split; [exact E |]. rewrite Htot.
    apply (clique_bound (heap s) cmap).
    + now apply slotsOk_NoDup.
    + assumption.
    + rewrite Hres in Hvalid.
      intros sl l Hin x y Hx Hy Hne.
      rewrite <- (sameStatic_conflictsOf (heap s) (heap s')) by assumption.
      eapply Hvalid; eauto.
    + assumption.
  - intros r s' Hrun.
    destruct (dsaturColoring_spec localeCompare cmap sts s r s' Hwf Hrun)
      as (Htot & [Hk _] & _ & Hkeys & Hcf & Hpart & Hvalid & _).
    rewrite Htot.
    apply (clique_bound (heap s') (resCourses r)); auto.
    destruct Hcl as (Hnd & Hin & Hpair). split; [assumption |]. split.
    + intros x Hx. apply Hkeys. now apply Hin.
    + intros x y Hx Hy Hne. rewrite Hcf. now apply Hpair.
Qed.

Lemma totalSlots_at_least_clique_witness :
  wf_graph (heap triangleState) triangleGraph /\
  symmetric (heap triangleState) triangleGraph /\
  clique (heap triangleState) triangleGraph ["A"; "B"; "C"] /\
  (exists r s',
     greedyColoring codeUnitCompare triangleGraph None triangleState = (Ok r, s') /\
     3 <= totalSlots r) /\
  (exists r s',
     dsaturColoring codeUnitCompare triangleGraph None triangleState = (Ok r, s') /\
     3 <= totalSlots r).
Proof.
  assert (Hwf : wf_graph (heap triangleState) triangleGraph)
    by (apply wf_graphb_sound; reflexivity).
  assert (Hsym : symmetric (heap triangleState) triangleGraph)
    by (apply symmetricb_sound; reflexivity).
  assert (Hcl : clique (heap triangleState) triangleGraph ["A"; "B"; "C"])
    by (apply cliqueb_sound; reflexivity).
  destruct (totalSlots_at_least_clique codeUnitCompare triangleGraph None
              triangleState ["A"; "B"; "C"] Hwf Hsym Hcl) as [Hg Hd].
  split; [exact Hwf |]. split; [exact Hsym |]. split; [exact Hcl |].
  split; [exact Hg |].
  eexists _, _. split; [vm_compute; reflexivity |].
  eapply Hd. vm_compute. reflexivity.
Defined.



(** C9.  Students S1 (Math, Physics) and S2 (Physics, Chemistry) over the
    universe Math, Physics, Chemistry, with a collation that puts
    Chemistry before Math: buildConflictGraph links Math-Physics and
    Physics-Chemistry only, and greedyColoring on that graph returns
    slot 1 = [Physics], slot 2 = [Chemistry, Math], totalSlots 2 and
    totalConflicts 2. *)
Theorem scenario_greedy :
  forall localeCompare : string -> string -> Z,
    (localeCompare "Chemistry" "Math" < 0)%Z ->
    (0 < localeCompare "Math" "Chemistry")%Z ->
    exists cmap s1 r s2,
      buildConflictGraph scenarioStudents scenarioCourses emptyState
      = (Ok cmap, s1) /\
      keys cmap = ["Math"; "Physics"; "Chemistry"] /\
      conflictsOf (heap s1) cmap "Math" = ["Physics"] /\
      conflictsOf (heap s1) cmap "Physics" = ["Math"; "Chemistry"] /\
      conflictsOf (heap s1) cmap "Chemistry" = ["Physics"] /\
      greedyColoring localeCompare cmap None s1 = (Ok r, s2) /\
      slots r = [(1, ["Physics"]); (2, ["Chemistry"; "Math"])] /\
      totalSlots r = 2 /\
      totalConflicts r = 2.
Proof.
  intros localeCompare Hlt Hgt.
  exists scenarioGraph, scenarioState. eexists _, _.
  split; [reflexivity |]. do 4 (split; [reflexivity |]).
  assert (Hsorted : sortedCourses localeCompare (heap scenarioState) scenarioGraph
                    = [1; 2; 0]).
  { unfold sortedCourses, byDegreeThenName. simpl.
    apply Z.leb_gt in Hgt. now rewrite Hgt. }
  split.
  - apply (greedyColoring_steps localeCompare scenarioGraph None scenarioState
             scenarioState); [discriminate | reflexivity |].
    rewrite Hsorted. vm_compute. reflexivity.
  - unfold greedyResult. rewrite Hsorted.
    split; [reflexivity |]. split; reflexivity.
Qed.

Lemma scenario_greedy_witness :
  (codeUnitCompare "Chemistry" "Math" < 0)%Z /\
  (0 < codeUnitCompare "Math" "Chemistry")%Z /\
  exists cmap s1 r s2,
    buildConflictGraph scenarioStudents scenarioCourses emptyState
    = (Ok cmap, s1) /\
    keys cmap = ["Math"; "Physics"; "Chemistry"] /\
    conflictsOf (heap s1) cmap "Math" = ["Physics"] /\
    conflictsOf (heap s1) cmap "Physics" = ["Math"; "Chemistry"] /\
    conflictsOf (heap s1) cmap "Chemistry" = ["Physics"] /\
    greedyColoring codeUnitCompare cmap None s1 = (Ok r, s2) /\
    slots r = [(1, ["Physics"]); (2, ["Chemistry"; "Math"])] /\
    totalSlots r = 2 /\
    totalConflicts r = 2.
Proof.
  assert (H1 : (codeUnitCompare "Chemistry" "Math" < 0)%Z)
    by (vm_compute; reflexivity).
  assert (H2 : (0 < codeUnitCompare "Math" "Chemistry")%Z)
    by (vm_compute; reflexivity).
  split; [exact H1 |]. split; [exact H2 |].
  exact (scenario_greedy codeUnitCompare H1 H2).
Defined.

(* ------------------------------------------------------------------ *)
(** ** greedyColoring is a function of the structure of the graph *)

Lemma hasConflict_ext c c' sls sl :
  conflicts c = conflicts c' -> hasConflict c sls sl = hasConflict c' sls sl.
Proof. intros E. unfold hasConflict. now rewrite E. Qed.

Lemma firstFit_ext c c' sls :
  conflicts c = conflicts c' ->
  forall fuel sl, firstFit fuel c sls sl = firstFit fuel c' sls sl.
Proof.
  intros E. induction fuel as [| fuel IH]; intros sl; simpl; [reflexivity |].
  rewrite (hasConflict_ext c c' sls sl E). now rewrite IH.
Qed.

Lemma assignCourse_unfold sls a s :
  assignCourse sls a s
  = match firstFit (S (length sls)) (deref (heap s) a) sls 1 with
    | Ok sl =>
        (Ok (pushSlot sl (name (deref (heap s) a)) sls),
         mkState (update a (setSlotColor (Some sl) (slotColor sl)) (heap s))
                 (console s))
    | TypeError => (TypeError, s)
    | OutOfFuel => (OutOfFuel, s)
    end.
Proof.
  unfold assignCourse, bind, getHeap, liftOutcome, modify, ret.
  destruct (firstFit _ _ _ _); reflexivity.
Qed.

(** The slots the assignment loop builds depend on the names and the
    conflict sets of the courses it is given, in order, and on nothing
    else in the store. *)
Lemma assignAll_static :
  forall l1 l2 sls s1 s2,
    map (fun a => static (deref (heap s1) a)) l1
    = map (fun a => static (deref (heap s2) a)) l2 ->
    fst (foldM assignCourse l1 sls s1) = fst (foldM assignCourse l2 sls s2).
Proof.
  induction l1 as [| a1 l1 IH]; intros [| a2 l2] sls s1 s2 E; simpl in E;
    try discriminate; [reflexivity |].
  unfold static at 1 3 in E. injection E as En Ec El.
  rewrite !foldM_cons, !assignCourse_unfold.
  rewrite (firstFit_ext _ _ sls Ec), En.
  destruct (firstFit (S (length sls)) (deref (heap s2) a2) sls 1) as [sl | |];
    try reflexivity.
  apply IH. cbn [heap].
  rewrite (map_ext
             (fun a => static (deref (update a1 (setSlotColor (Some sl) (slotColor sl))
                                        (heap s1)) a))
             (fun a => static (deref (heap s1) a)))
    by (intros b; apply deref_update_static; reflexivity).
  rewrite (map_ext
             (fun a => static (deref (update a2 (setSlotColor (Some sl) (slotColor sl))
                                        (heap s2)) a))
             (fun a => static (deref (heap s2) a)))
    by (intros b; apply deref_update_static; reflexivity).
  exact El.
Qed.

Lemma collectPairs_static cs cs' :
  map static cs = map static cs' -> collectPairs cs = collectPairs cs'.
Proof.
  unfold collectPairs. generalize (@nil string) as acc. revert cs'.
  induction cs as [| c cs IH]; intros [| c' cs'] acc E; simpl in E;
    try discriminate; [reflexivity |].
  unfold static at 1 3 in E. injection E as En Ecf El.
  simpl. rewrite En, Ecf. now apply IH.
Qed.

Section Determinism.
Variable localeCompare : string -> string -> Z.

Lemma sortedCourses_static h cmap :
  map (fun a => static (deref h a)) (sortedCourses localeCompare h cmap)
  = sortBy (byDegreeThenNameStatic localeCompare) (map snd (structure h cmap)).
Proof.
  unfold sortedCourses.
  change (byDegreeThenName localeCompare h)
    with (fun a b => byDegreeThenNameStatic localeCompare (static (deref h a))
                                            (static (deref h b))).
  rewrite sortBy_map. f_equal. unfold structure, values.
  rewrite !map_map. reflexivity.
Qed.

Lemma sortedCourses_sameStatic h h' cmap :
  sameStatic h h' ->
  sortedCourses localeCompare h' cmap = sortedCourses localeCompare h cmap.
Proof.
  intros HS. unfold sortedCourses. 
  assert (E : forall a b, byDegreeThenName localeCompare h' a b
                          = byDegreeThenName localeCompare h a b).
  { intros a b. unfold byDegreeThenName.
    now rewrite !(sameStatic_conflicts h h'), !(sameStatic_name h h'). }
  induction (values cmap) as [| x l IH]; simpl; [reflexivity |].
  rewrite IH. generalize (sortBy (byDegreeThenName localeCompare h) l) as m.
  induction m as [| y m IHm]; simpl; [reflexivity |].
  now rewrite E, IHm.
Qed.
End Determinism.

Lemma keys_structure h cmap : map fst (structure h cmap) = keys cmap.
Proof. unfold structure, keys. rewrite map_map. reflexivity. Qed.

(** Two graphs with the same keys whose objects carry the slots of one
    slot mapping carry the same colouring. *)
Lemma coloring_eq h1 h2 sls :
  (forall nm sl sl', In nm (slotList sls sl) -> In nm (slotList sls sl') ->
                     sl = sl') ->
  forall cmap1 cmap2,
    keys cmap1 = keys cmap2 ->
    recorded h1 cmap1 sls -> recorded h2 cmap2 sls ->
    coloring h1 cmap1 = coloring h2 cmap2.
Proof.
  intros Huniq. induction cmap1 as [| [k a1] cmap1 IH];
    intros [| [k2 a2] cmap2] Hk H1 H2; simpl in Hk; try discriminate;
    [reflexivity |].
  injection Hk as <- Hk. unfold coloring. simpl.
  destruct (H1 k a1 (or_introl eq_refl)) as (sl1 & Hin1 & Hs1 & Hc1).
  destruct (H2 k a2 (or_introl eq_refl)) as (sl2 & Hin2 & Hs2 & Hc2).
  assert (sl1 = sl2) by (eapply Huniq; eauto). subst sl2.
  rewrite Hs1, Hs2, Hc1, Hc2. f_equal.
  apply IH; [assumption | |].
  - intros k' a' Hin. apply H1. now right.
  - intros k' a' Hin. apply H2. now right.
Qed.

(** C6.  greedyColoring is deterministic: on two course graphs with the
    same keys, names and conflict sets, in the same order, wherever their
    objects live and whatever slots and colours they carried before, and
    with the same students, the two ScheduleResults have the same slots
    mapping, the same totals, conflict details and students, and the two
    graphs end with the same slot and colour under every key. *)
Theorem greedyColoring_deterministic :
  forall (localeCompare : string -> string -> Z) (cmap1 cmap2 : CourseMap)
         (sts : option (list Student)) (s1 s2 : State),
    wf_graph (heap s1) cmap1 -> wf_graph (heap s2) cmap2 ->
    structure (heap s1) cmap1 = structure (heap s2) cmap2 ->
    exists r1 s1' r2 s2',
      greedyColoring localeCompare cmap1 sts s1 = (Ok r1, s1') /\
      greedyColoring localeCompare cmap2 sts s2 = (Ok r2, s2') /\
      slots r1 = slots r2 /\
      totalSlots r1 = totalSlots r2 /\
      totalConflicts r1 = totalConflicts r2 /\
      conflictDetails r1 = conflictDetails r2 /\
      students r1 = students r2 /\
      coloring (heap s1') (resCourses r1) = coloring (heap s2') (resCourses r2).
Proof.
  intros localeCompare cmap1 cmap2 sts s1 s2 Hwf1 Hwf2 Hstr.
  assert (Hkeys : keys cmap1 = keys cmap2).
  { rewrite <- (keys_structure (heap s1)), <- (keys_structure (heap s2)).
    now rewrite Hstr. }
  destruct (greedyColoring_spec localeCompare cmap1 sts s1 Hwf1)
    as (r1 & s1' & E1 & Hres1 & _ & _ & _ & (_ & _ & Huniq1) & _ & _ & Hrec1).
  destruct (greedyColoring_spec localeCompare cmap2 sts s2 Hwf2)
    as (r2 & s2' & E2 & Hres2 & _ & _ & _ & _ & _ & _ & Hrec2).
  exists r1, s1', r2, s2'. split; [exact E1 |]. split; [exact E2 |].
  assert (Hsame : slots r1 = slots r2 /\ totalSlots r1 = totalSlots r2 /\
                  totalConflicts r1 = totalConflicts r2 /\
                  conflictDetails r1 = conflictDetails r2 /\
                  students r1 = students r2).
  { clear Hres1 Hres2 Hrec1 Hrec2 Huniq1.
    destruct (values cmap1) as [| a0 l0] eqn:Ev1.
    - assert (cmap1 = []) by now destruct cmap1. subst cmap1.
      assert (cmap2 = []) by (destruct cmap2; [reflexivity | discriminate]).
      subst cmap2. rewrite greedyColoring_empty in E1, E2 by reflexivity.
      injection E1 as <- _. injection E2 as <- _. simpl. auto.
    - assert (Hne1 : values cmap1 <> []) by (rewrite Ev1; discriminate).
      assert (Hne2 : values cmap2 <> []).
      { destruct cmap2; [destruct cmap1; discriminate | discriminate]. }
      clear Ev1.
      destruct (resetAll_spec (values cmap1) s1) as (t1 & R1 & _ & HS1).
      destruct (resetAll_spec (values cmap2) s2) as (t2 & R2 & _ & HS2).
      destruct (assignAll_total (sortedCourses localeCompare (heap t1) cmap1)
                  [] t1 slotsOk_nil) as (sls1 & u1 & A1 & _).
      destruct (assignAll_total (sortedCourses localeCompare (heap t2) cmap2)
                  [] t2 slotsOk_nil) as (sls2 & u2 & A2 & _).
      rewrite (greedyColoring_steps localeCompare cmap1 sts s1 t1 sls1 u1
                 Hne1 R1 A1) in E1.
      rewrite (greedyColoring_steps localeCompare cmap2 sts s2 t2 sls2 u2
                 Hne2 R2 A2) in E2.
      injection E1 as <- _. injection E2 as <- _.
      assert (Hsorted :
        map (fun a => static (deref (heap t1) a))
            (sortedCourses localeCompare (heap t1) cmap1)
        = map (fun a => static (deref (heap t2) a))
              (sortedCourses localeCompare (heap t2) cmap2)).
      { rewrite !sortedCourses_static.
        rewrite (sameStatic_structure (heap s1) (heap t1)) by assumption.
        rewrite (sameStatic_structure (heap s2) (heap t2)) by assumption.
        now rewrite Hstr. }
      assert (Hsls : sls1 = sls2).
      { pose proof (assignAll_static _ _ [] t1 t2 Hsorted) as Hfst.
        rewrite A1, A2 in Hfst. simpl in Hfst. congruence. }
      assert (Hpairs :
        collectPairs (map (deref (heap t1))
                          (sortedCourses localeCompare (heap t1) cmap1))
        = collectPairs (map (deref (heap t2))
                            (sortedCourses localeCompare (heap t2) cmap2))).
      { apply collectPairs_static. rewrite !map_map. exact Hsorted. }
      unfold greedyResult. cbn [slots totalSlots totalConflicts
                                 conflictDetails students].
      rewrite Hpairs, Hsls. auto. }
  destruct Hsame as (Hsl & Hts & Htc & Hcd & Hst).
  do 5 (split; [assumption |]).
  rewrite Hres1, Hres2. rewrite <- Hsl in Hrec2.
  now apply (coloring_eq (heap s1') (heap s2') (slots r1)).
Qed.

Lemma greedyColoring_deterministic_witness :
  wf_graph (heap scenarioState) scenarioGraph /\
  wf_graph (heap scenarioStateAgain) scenarioGraphAgain /\
  structure (heap scenarioState) scenarioGraph
  = structure (heap scenarioStateAgain) scenarioGraphAgain /\
  exists r1 s1' r2 s2',
    greedyColoring codeUnitCompare scenarioGraph None scenarioState = (Ok r1, s1') /\
    greedyColoring codeUnitCompare scenarioGraphAgain None scenarioStateAgain
    = (Ok r2, s2') /\
    slots r1 = slots r2 /\
    totalSlots r1 = totalSlots r2 /\
    totalConflicts r1 = totalConflicts r2 /\
    conflictDetails r1 = conflictDetails r2 /\
    students r1 = students r2 /\
    coloring (heap s1') (resCourses r1) = coloring (heap s2') (resCourses r2).
Proof.
  assert (H1 : wf_graph (heap scenarioState) scenarioGraph)
    by (apply wf_graphb_sound; reflexivity).
  assert (H2 : wf_graph (heap scenarioStateAgain) scenarioGraphAgain)
    by (apply wf_graphb_sound; reflexivity).
  assert (H3 : structure (heap scenarioState) scenarioGraph
               = structure (heap scenarioStateAgain) scenarioGraphAgain)
    by reflexivity.
  split; [exact H1 |]. split; [exact H2 |]. split; [exact H3 |].
  exact (greedyColoring_deterministic codeUnitCompare scenarioGraph
           scenarioGraphAgain None scenarioState scenarioStateAgain H1 H2 H3).
Defined.

(* ------------------------------------------------------------------ *)
(** ** The count of conflict pairs *)

(** C7, at the failing input.  The graph built for courses a|b, c, a and
    b|c has two distinct unordered conflict pairs, {a|b, c} and {a, b|c};
    both get the key "a|b|c", and both colourers return totalConflicts 1. *)
Theorem totalConflicts_separator_collision :
  buildConflictGraph barStudents barCourses emptyState = (Ok barGraph, barState) /\
  symmetric (heap barState) barGraph /\
  unorderedPairs (map (deref (heap barState)) (values barGraph))
  = [("a|b", "c"); ("a", "b|c")] /\
  pairKey "a|b" "c" = pairKey "a" "b|c" /\
  (exists r s',
     greedyColoring codeUnitCompare barGraph None barState = (Ok r, s') /\
     totalConflicts r = 1) /\
  (exists r s',
     dsaturColoring codeUnitCompare barGraph None barState = (Ok r, s') /\
     totalConflicts r = 1).
Proof.
  split; [reflexivity |].
  split; [apply symmetricb_sound; reflexivity |].
  split; [reflexivity |]. split; [reflexivity |].
  split; eexists _, _; (split; [vm_compute; reflexivity | reflexivity]).
Qed.

Section CollectWith.
Context {K : Type} `{Key K}.
Variable f : string -> string -> K.

Lemma In_collectInner nm cfl (acc : list K) p :
  In p (fold_left (fun acc' cc => setAdd (f nm cc) acc') cfl acc)
  <-> In p acc \/ exists x, In x cfl /\ p = f nm x.
Proof.
  revert acc. induction cfl as [| c cfl IH]; intros acc; simpl.
  - split; [auto | intros [? | [x [[] _]]]; assumption].
  - rewrite IH, In_setAdd. split.
    + intros [[-> | Hin] | [x [Hx ->]]]; eauto.
    + intros [Hin | [x [[<- | Hx] ->]]]; eauto.
Qed.

Lemma In_collectWith cs (acc : list K) p :
  In p (collectWith f cs acc)
  <-> In p acc \/ exists c x, In c cs /\ In x (conflicts c) /\ p = f (name c) x.
Proof.
  unfold collectWith. revert acc. induction cs as [| c cs IH]; intros acc; simpl.
  - split; [auto | intros [? | [c [x [[] _]]]]; assumption].
  - rewrite IH, In_collectInner. split.
    + intros [[Hin | [x [Hx ->]]] | [c' [x [Hc [Hx ->]]]]]; eauto 8.
    + intros [Hin | [c' [x [[<- | Hc] [Hx ->]]]]]; eauto 8.
Qed.

Lemma NoDup_collectWith cs (acc : list K) :
  NoDup acc -> NoDup (collectWith f cs acc).
Proof.
  unfold collectWith. revert acc. induction cs as [| c cs IH]; intros acc Hnd;
    simpl; [assumption |].
  apply IH. generalize dependent acc.
  induction (conflicts c) as [| x cfl IHc]; intros acc Hnd; simpl;
    [assumption |].
  apply IHc. now apply NoDup_setAdd.
Qed.
End CollectWith.

(** The number of distinct pairs depends on the set of pairs only. *)
Lemma unorderedPairs_length cs cs' :
  (forall p, In p (unorderedPairs cs) <-> In p (unorderedPairs cs')) ->
  length (unorderedPairs cs) = length (unorderedPairs cs').
Proof.
  intros Hsame. apply Permutation_length.
  apply NoDup_Permutation; [| | assumption];
    apply NoDup_collectWith; constructor.
Qed.

Lemma pairKey_joinBar a b : pairKey a b = joinBar (sortPair a b).
Proof. unfold pairKey, joinBar. now destruct (sortPair a b). Qed.

Lemma hasBar_sortPair a b :
  hasBar a = false -> hasBar b = false ->
  hasBar (fst (sortPair a b)) = false /\ hasBar (snd (sortPair a b)) = false.
Proof. intros Ha Hb. unfold sortPair. now destruct (String.ltb b a). Qed.

(** On names without the separator the key of a pair determines it. *)
Lemma joinBar_inj p q :
  hasBar (fst p) = false -> hasBar (fst q) = false ->
  joinBar p = joinBar q -> p = q.
Proof.
  destruct p as [x y], q as [x' y']. unfold joinBar. simpl. revert x'.
  induction x as [| c x IH]; intros [| c' x'] Hx Hx' E; simpl in *.
  - now injection E as ->.
  - injection E as <- _. apply orb_false_iff in Hx'. destruct Hx' as [Hc _].
    discriminate.
  - injection E as -> _. apply orb_false_iff in Hx. destruct Hx as [Hc _].
    discriminate.
  - injection E as <- E. apply orb_false_iff in Hx. apply orb_false_iff in Hx'.
    assert (Hp : (x, y) = (x', y')) by (apply IH; tauto).
    now injection Hp as -> ->.
Qed.

(** On names without the separator the keys that the colourers collect
    are the keys of the distinct unordered pairs, one each. *)
Lemma collectPairs_unorderedPairs cs :
  (forall c, In c cs ->
     hasBar (name c) = false /\ forall x, In x (conflicts c) -> hasBar x = false) ->
  collectPairs cs = map joinBar (unorderedPairs cs).
Proof.
  unfold collectPairs, unorderedPairs, collectWith.
  assert (G : forall cs (acc : list (string * string)),
    (forall c, In c cs ->
       hasBar (name c) = false /\
       forall x, In x (conflicts c) -> hasBar x = false) ->
    (forall q, In q acc -> hasBar (fst q) = false) ->
    fold_left
      (fun acc0 course =>
         fold_left (fun acc' cc => setAdd (pairKey (name course) cc) acc')
                   (conflicts course) acc0) cs (map joinBar acc)
    = map joinBar
        (fold_left
           (fun acc0 course =>
              fold_left (fun acc' cc => setAdd (sortPair (name course) cc) acc')
                        (conflicts course) acc0) cs acc)
    ).
  { clear cs. induction cs as [| c cs IH]; intros acc Hbar Hacc; simpl;
      [reflexivity |].
    destruct (Hbar c (or_introl eq_refl)) as [Hn Hcf].
    assert (Inner : forall cfl (acc0 : list (string * string)),
      (forall x, In x cfl -> hasBar x = false) ->
      (forall q, In q acc0 -> hasBar (fst q) = false) ->
      fold_left (fun acc' cc => setAdd (pairKey (name c) cc) acc') cfl
                (map joinBar acc0)
      = map joinBar
          (fold_left (fun acc' cc => setAdd (sortPair (name c) cc) acc') cfl acc0)
      /\ forall q,
           In q (fold_left (fun acc' cc => setAdd (sortPair (name c) cc) acc')
                           cfl acc0) ->
           hasBar (fst q) = false).
    { induction cfl as [| x cfl IHc]; intros acc0 Hx Hq; simpl; [auto |].
      assert (Hp : hasBar (fst (sortPair (name c) x)) = false)
        by (apply hasBar_sortPair; auto; apply Hx; now left).
      assert (Eadd : setAdd (pairKey (name c) x) (map joinBar acc0)
                     = map joinBar (setAdd (sortPair (name c) x) acc0)).
      { unfold setAdd. rewrite pairKey_joinBar.
        assert (Ehas : setHas (joinBar (sortPair (name c) x)) (map joinBar acc0)
                       = setHas (sortPair (name c) x) acc0).
        { destruct (setHas (sortPair (name c) x) acc0) eqn:E.
          - apply setHas_In. apply in_map. now apply setHas_In.
          - apply setHas_false. apply setHas_false in E. intros Hin.
            apply in_map_iff in Hin. destruct Hin as [q [Eq Hin]].
            apply E. replace (sortPair (name c) x) with q; [assumption |].
            apply joinBar_inj; auto. }
        rewrite Ehas. destruct (setHas (sortPair (name c) x) acc0);
          [reflexivity |]. now rewrite map_app. }
      rewrite Eadd. apply IHc.
      - intros y Hy. apply Hx. now right.
      - intros q Hin. apply In_setAdd in Hin.
        destruct Hin as [-> | Hin]; [assumption | now apply Hq]. }
    destruct (Inner (conflicts c) acc Hcf Hacc) as [E Hq].
    rewrite E. apply IH; [| assumption].
    intros c' Hc'. apply Hbar. now right. }
  intros Hbar. apply (G cs []); [assumption | intros q []].
Qed.

Lemma wf_graph_entry h cmap a :
  wf_graph h cmap -> In a (values cmap) ->
  In (name (deref h a)) (keys cmap) /\
  conflictsOf h cmap (name (deref h a)) = conflicts (deref h a).
Proof.
  intros [Hnd Hobj] Hin. apply in_map_iff in Hin.
  destruct Hin as [[k a'] [E Hin]]. simpl in E. subst a'.
  destruct (Hobj k a Hin) as [_ Hn]. rewrite Hn. split.
  - apply in_map_iff. now exists (k, a).
  - unfold conflictsOf. now rewrite (NoDup_mapGet _ _ _ Hnd Hin).
Qed.

(** The pairs of a well-formed graph, read through its keys. *)
Lemma graph_pairs h cmap l p :
  wf_graph h cmap -> (forall a, In a l <-> In a (values cmap)) ->
  (In p (unorderedPairs (map (deref h) l)) <->
   exists k x, In k (keys cmap) /\ In x (conflictsOf h cmap k) /\
               p = sortPair k x).
Proof.
  intros Hwf Hl. unfold unorderedPairs. rewrite In_collectWith. simpl. split.
  - intros [[] | (c & x & Hc & Hx & ->)].
    apply in_map_iff in Hc. destruct Hc as [a [<- Ha]]. apply Hl in Ha.
    destruct (wf_graph_entry h cmap a Hwf Ha) as [Hk Hcf].
    exists (name (deref h a)), x. rewrite Hcf. auto.
  - intros (k & x & Hk & Hx & ->). right.
    destruct (In_keys_mapGet cmap k Hk) as [a Ha].
    assert (Hv : In a (values cmap)).
    { apply mapGet_In in Ha. apply in_map_iff. now exists (k, a). }
    destruct (wf_graph_mapGet _ _ _ _ Hwf Ha) as [_ Hn].
    exists (deref h a), x. split; [apply in_map; now apply Hl |].
    unfold conflictsOf in Hx. rewrite Ha in Hx. rewrite Hn. auto.
Qed.

Lemma barless_list h cmap l :
  wf_graph h cmap -> barless h cmap ->
  (forall a, In a l -> In a (values cmap)) ->
  forall c, In c (map (deref h) l) ->
    hasBar (name c) = false /\ forall x, In x (conflicts c) -> hasBar x = false.
Proof.
  intros Hwf Hbar Hl c Hc. apply in_map_iff in Hc. destruct Hc as [a [<- Ha]].
  destruct (wf_graph_entry h cmap a Hwf (Hl a Ha)) as [Hk Hcf].
  destruct (Hbar _ Hk) as [Hn Hx]. rewrite Hcf in Hx. auto.
Qed.

Section TotalConflicts.
Variable localeCompare : string -> string -> Z.

Lemma dsaturColoring_totalConflicts orig sts s r s' :
  dsaturColoring localeCompare orig sts s = (Ok r, s') ->
  totalConflicts r
  = length (collectPairs (map (deref (heap s')) (values (resCourses r)))).
Proof.
  intros Hrun.
  destruct (copyAll_spec orig s) as (cmap & s1 & ext & E & _).
  assert (Hcase : keys cmap = [] \/ keys cmap <> [])
    by (destruct (keys cmap); [now left | right; discriminate]).
  destruct Hcase as [Ek | Hne].
  - rewrite (dsaturColoring_empty localeCompare orig sts s cmap s1 E Ek) in Hrun.
    injection Hrun as <- <-. simpl.
    assert (cmap = []) by (now destruct cmap). now subst cmap.
  - destruct (initMaps_spec (heap s1) cmap) as (ca0 & sat0 & deg & Ei & _).
    rewrite (dsaturColoring_steps localeCompare orig sts s cmap s1
               ca0 sat0 deg E Hne Ei) in Hrun.
    destruct (dsaturLoop localeCompare _ (heap s1) cmap (keys cmap) deg ca0 sat0)
      as [ca | |]; try discriminate.
    destruct (foldM (placeCourse cmap) ca [] s1) as [[sls | |] s2];
      try discriminate.
    injection Hrun as <- <-. reflexivity.
Qed.

(** On course names without the separator '|', totalConflicts is the
    number of distinct unordered conflict pairs, for both colourers. *)
Lemma totalConflicts_counts_pairs cmap sts s :
  wf_graph (heap s) cmap -> barless (heap s) cmap ->
  (exists r s',
     greedyColoring localeCompare cmap sts s = (Ok r, s') /\
     totalConflicts r
     = length (unorderedPairs (map (deref (heap s)) (values cmap)))) /\
  (forall r s',
     dsaturColoring localeCompare cmap sts s = (Ok r, s') ->
     totalConflicts r
     = length (unorderedPairs (map (deref (heap s)) (values cmap)))).
Proof.
  intros Hwf Hbar.
  assert (Hcount : forall h' cmap' l,
    wf_graph h' cmap' -> (forall a, In a l <-> In a (values cmap')) ->
    (forall k, In k (keys cmap') <-> In k (keys cmap)) ->
    (forall k, conflictsOf h' cmap' k = conflictsOf (heap s) cmap k) ->
    length (collectPairs (map (deref h') l))
    = length (unorderedPairs (map (deref (heap s)) (values cmap)))).
  { intros h' cmap' l Hwf' Hl Hk Hcf.
    rewrite collectPairs_unorderedPairs, length_map.
    - apply unorderedPairs_length. intros p.
      rewrite (graph_pairs h' cmap' l p Hwf' Hl).
      rewrite (graph_pairs (heap s) cmap (values cmap) p Hwf)
        by (intros a; tauto).
      split; intros (k & x & Hin & Hx & ->); exists k, x.
      + rewrite <- Hcf. split; [now apply Hk | auto].
      + rewrite Hcf. split; [now apply Hk | auto].
    - apply (barless_list h' cmap'); [assumption | | intros a; apply Hl].
      intros k Hin. apply Hk in Hin. destruct (Hbar k Hin) as [Hn Hx].
      rewrite Hcf. auto. }
  split.
  - destruct (values cmap) as [| a0 l0] eqn:Ev.
    + eexists _, _. split; [now apply greedyColoring_empty |]. reflexivity.
    + rewrite <- Ev in *.
      assert (Hne : values cmap <> []) by (rewrite Ev; discriminate).
      destruct (resetAll_spec (values cmap) s) as (t1 & R1 & _ & HS1).
      destruct (assignAll_total (sortedCourses localeCompare (heap t1) cmap)
                  [] t1 slotsOk_nil) as (sls & u1 & A1 & _).
      eexists _, _. split.
      { apply (greedyColoring_steps localeCompare cmap sts s t1 sls u1
                 Hne R1 A1). }
      unfold greedyResult. cbn [totalConflicts].
      apply (Hcount (heap t1) cmap).
      * eapply sameStatic_wf_graph; eauto.
      * intros a. unfold sortedCourses.
        split; apply Permutation_in;
          [| symmetry]; apply sortBy_Permutation.
      * tauto.
      * intros k. now apply sameStatic_conflictsOf.
  - intros r s' Hrun.
    rewrite (dsaturColoring_totalConflicts _ _ _ _ _ Hrun).
    destruct (dsaturColoring_spec localeCompare cmap sts s r s' Hwf Hrun)
      as (_ & _ & Hwf' & Hk & Hcf & _).
    apply (Hcount (heap s') (resCourses r)); auto. tauto.
Qed.
End TotalConflicts.

(* ------------------------------------------------------------------ *)
(** ** More on the conflict graph builder *)

Lemma preserves_ret {A : Type} (R : State -> State -> Prop) (a : A) :
  (forall s, R s s) -> preserves R (ret a).
Proof. intros Hrefl s. apply Hrefl. Qed.

Lemma preserves_bind {A B : Type} (R : State -> State -> Prop)
  (m : M A) (f : A -> M B) :
  (forall s1 s2 s3, R s1 s2 -> R s2 s3 -> R s1 s3) ->
  preserves R m -> (forall a, preserves R (f a)) -> preserves R (bind m f).
Proof.
  intros Htrans Hm Hf s. unfold bind. specialize (Hm s).
  destruct (m s) as [[a | |] s1]; simpl in *; try assumption.
  eapply Htrans; [exact Hm | apply Hf].
Qed.

Lemma preserves_forEach {A : Type} (R : State -> State -> Prop)
  (f : A -> M unit) (l : list A) :
  (forall s, R s s) -> (forall s1 s2 s3, R s1 s2 -> R s2 s3 -> R s1 s3) ->
  (forall x, preserves R (f x)) -> preserves R (forEach l f).
Proof.
  intros Hrefl Htrans Hf. induction l as [| x l IH]; simpl.
  - now apply preserves_ret.
  - apply preserves_bind; auto.
Qed.

Lemma preserves_foldM {A B : Type} (R : State -> State -> Prop)
  (f : B -> A -> M B) (l : list A) :
  (forall s, R s s) -> (forall s1 s2 s3, R s1 s2 -> R s2 s3 -> R s1 s3) ->
  (forall b x, preserves R (f b x)) -> forall b, preserves R (foldM f l b).
Proof.
  intros Hrefl Htrans Hf. induction l as [| x l IH]; intros b; simpl.
  - now apply preserves_ret.
  - apply preserves_bind; auto.
Qed.

Lemma sameColoring_refl s : sameColoring s s.
Proof. intros a. now split. Qed.

Lemma sameColoring_trans s1 s2 s3 :
  sameColoring s1 s2 -> sameColoring s2 s3 -> sameColoring s1 s3.
Proof.
  intros H1 H2 a. destruct (H1 a) as [A1 B1]. destruct (H2 a) as [A2 B2].
  split; congruence.
Qed.

Lemma deref_update h a b g :
  deref (update a g h) b
  = if (a =? b) && (a <? length h) then g (deref h b) else deref h b.
Proof.
  destruct (Nat.eqb_spec a b) as [<- | Hne]; simpl.
  - destruct (Nat.ltb_spec a (length h)) as [Hlt | Hge].
    + now apply deref_update_eq.
    + unfold deref. rewrite !nth_overflow; auto. now rewrite length_update.
  - now apply deref_update_neq.
Qed.

(** Linking never touches a slot or a colour. *)
Lemma addConflict_sameColoring cmap c1 c2 :
  preserves sameColoring (addConflict cmap c1 c2).
Proof.
  intros s. unfold addConflict. destruct (mapGet c1 cmap) as [a |].
  - unfold modify. cbn [snd]. intros b. cbn [heap]. rewrite deref_update.
    destruct ((a =? b) && (a <? length (heap s))); now split.
  - apply sameColoring_refl.
Qed.

Lemma linkStudent_sameColoring vc cmap st :
  preserves sameColoring (linkStudent vc cmap st).
Proof.
  unfold linkStudent. destruct (1 <? length (studentValidCourses vc st));
    [| apply preserves_ret, sameColoring_refl].
  induction (studentValidCourses vc st) as [| c1 rest IH]; simpl.
  - apply preserves_ret, sameColoring_refl.
  - apply preserves_bind; [apply sameColoring_trans | | intros _; exact IH].
    clear IH. induction rest as [| c2 rest IH]; simpl.
    + apply preserves_ret, sameColoring_refl.
    + repeat (apply preserves_bind;
              [apply sameColoring_trans | try apply addConflict_sameColoring
               | intros _]).
      exact IH.
Qed.

Lemma keys_mapSet_setAdd {V : Type} (m : list (string * V)) k v :
  keys (mapSet k v m) = setAdd k (keys m).
Proof.
  unfold setAdd. destruct (setHas k (keys m)) eqn:E.
  - apply setHas_In in E. now apply keys_mapSet_in.
  - apply setHas_false in E. now apply keys_mapSet_notin.
Qed.

Lemma addCourseName_run acc nm s :
  addCourseName acc nm s
  = if truthy nm && truthy (trim nm)
    then (Ok (setAdd (trim nm) (fst acc),
              mapSet (trim nm) (length (heap s)) (snd acc)),
          mkState (heap s ++ [mkCourse (trim nm) [] None None]) (console s))
    else (Ok acc, s).
Proof.
  destruct acc as [vc cmap]. unfold addCourseName.
  destruct (truthy nm && truthy (trim nm)); reflexivity.
Qed.

(** The first loop of buildConflictGraph, in full: the keys it inserts,
    in order, and the objects it allocates. *)
Lemma addCourseNames_keys courseNames :
  forall acc s acc' s',
    foldM addCourseName courseNames acc s = (Ok acc', s') ->
    keys (snd acc')
    = fold_left (fun ks x => setAdd x ks)
        (map trim (filter (fun nm => truthy nm && truthy (trim nm)) courseNames))
        (keys (snd acc)) /\
    ((forall k a, In (k, a) (snd acc) ->
        a < length (heap s) /\ deref (heap s) a = mkCourse k [] None None) ->
     forall k a, In (k, a) (snd acc') ->
        a < length (heap s') /\ deref (heap s') a = mkCourse k [] None None).
Proof.
  induction courseNames as [| nm l IH]; intros acc s acc' s' E.
  - simpl in E. injection E as <- <-. auto.
  - rewrite foldM_cons, addCourseName_run in E. simpl.
    destruct (truthy nm && truthy (trim nm)).
    + apply IH in E. cbn [fst snd heap] in E. destruct E as [Ek Eobj].
      split; [rewrite Ek; simpl; now rewrite keys_mapSet_setAdd |].
      intros Hobj. apply Eobj. intros k a Hin. rewrite length_app. simpl.
      apply In_mapSet in Hin. destruct Hin as [[-> ->] | Hin].
      * split; [lia | apply deref_app_new].
      * destruct (Hobj k a Hin) as [Hlt Hd]. split; [lia |].
        now rewrite deref_app_l.
    + now apply IH in E.
Qed.

Lemma buildConflictGraph_inv sts courseNames s cmap s' :
  buildConflictGraph sts courseNames s = (Ok cmap, s') ->
  exists vc s1,
    foldM addCourseName courseNames ([], []) s = (Ok (vc, cmap), s1) /\
    forEach sts (linkStudent vc cmap) s1 = (Ok tt, s').
Proof.
  unfold buildConflictGraph. intros E. apply bind_inv_Ok in E.
  destruct E as ([vc cmap'] & s1 & E1 & E2). apply bind_inv_Ok in E2.
  destruct E2 as ([] & s2 & E2 & E3). injection E3 as <- <-.
  now exists vc, s1.
Qed.

(** X1.  The graph of buildConflictGraph has one entry per trimmed
    non-empty name of the course universe, in the order of the first
    occurrences, whatever the students are; each entry is an object
    named by its key, and no object has a slot or a colour. *)
Theorem buildConflictGraph_keys :
  forall (sts : list Student) (courseNames : list string) (s : State),
  exists cmap s',
    buildConflictGraph sts courseNames s = (Ok cmap, s') /\
    keys cmap = universeKeys courseNames /\
    forall k a, In (k, a) cmap ->
      name (deref (heap s') a) = k /\
      slot (deref (heap s') a) = None /\
      color (deref (heap s') a) = None.
Proof.
  intros sts courseNames s.
  destruct (buildConflictGraph_spec sts courseNames s)
    as (cmap & s' & E & Hwf & _).
  exists cmap, s'. split; [exact E |].
  destruct (buildConflictGraph_inv _ _ _ _ _ E) as (vc & s1 & E1 & E2).
  destruct (addCourseNames_keys courseNames _ _ _ _ E1) as [Hk Hobj].
  split; [exact Hk |]. intros k a Hin.
  split; [now apply (proj2 Hwf) |].
  assert (Hfresh : deref (heap s1) a = mkCourse k [] None None).
  { apply Hobj; [intros ? ? [] | exact Hin]. }
  pose proof (preserves_forEach sameColoring (linkStudent vc cmap) sts
                sameColoring_refl sameColoring_trans
                (linkStudent_sameColoring vc cmap) s1) as Hsame.
  rewrite E2 in Hsame. simpl in Hsame. destruct (Hsame a) as [Hs Hc].
  rewrite Hs, Hc, Hfresh. now split.
Qed.

Lemma laterPairs_nth l k x :
  In (k, x) (laterPairs l) <->
  exists i j, i < j /\ nth_error l i = Some k /\ nth_error l j = Some x.
Proof.
  induction l as [| c rest IH]; simpl.
  - split; [intros [] | intros (i & j & _ & Hi & _); now destruct i].
  - rewrite in_app_iff, in_map_iff, IH. split.
    + intros [[y [[= <- <-] Hy]] | (i & j & Hlt & Hi & Hj)].
      * apply In_nth_error in Hy. destruct Hy as [j Hj].
        exists 0, (S j). simpl. split; [lia | auto].
      * exists (S i), (S j). simpl. split; [lia | auto].
    + intros (i & j & Hlt & Hi & Hj). destruct j as [| j]; [lia |].
      simpl in Hj. destruct i as [| i]; simpl in Hi.
      * injection Hi as ->. left. exists x. split; [reflexivity |].
        eapply nth_error_In; eauto.
      * right. exists i, j. split; [lia | auto].
Qed.

Lemma laterPairs_mentionsBoth l k x :
  In (k, x) (laterPairs l) \/ In (x, k) (laterPairs l) <-> mentionsBoth l k x.
Proof.
  rewrite !laterPairs_nth. unfold mentionsBoth. split.
  - intros [(i & j & Hlt & Hi & Hj) | (i & j & Hlt & Hi & Hj)].
    + exists i, j. split; [lia | auto].
    + exists j, i. split; [lia | auto].
  - intros (i & j & Hne & Hi & Hj).
    destruct (Nat.lt_ge_cases i j) as [Hlt | Hge].
    + left. now exists i, j.
    + right. exists j, i. split; [lia | auto].
Qed.

Lemma laterPairs_short l : length l <= 1 -> laterPairs l = [].
Proof.
  destruct l as [| a [| b l]]; simpl; intros Hle; try reflexivity. lia.
Qed.

Lemma linkStudent_linked validCourses cmap st s :
  (forall x, In x validCourses -> In x (keys cmap)) ->
  wf_graph (heap s) cmap ->
  exists s', linkStudent validCourses cmap st s = (Ok tt, s') /\
    linkedBy cmap (laterPairs (studentValidCourses validCourses st)) s s'.
Proof.
  intros Hvc Hwf. unfold linkStudent.
  destruct (Nat.ltb_spec 1 (length (studentValidCourses validCourses st)))
    as [Hlt | Hge].
  - apply linkPairs_spec; [| assumption].
    intros x Hx. apply Hvc. eapply studentValidCourses_In; eauto.
  - exists s. split; [reflexivity |].
    rewrite laterPairs_short by assumption. now apply linkedBy_nil.
Qed.

(** X2.  In the graph of buildConflictGraph, B is in the conflict set of
    A exactly when some student mentions A and B at two different
    positions of the list of mentions that survive the filter (trimmed,
    non-empty, in the universe): nothing else is ever linked, and every
    such pair is. *)
Theorem buildConflictGraph_conflicts :
  forall (sts : list Student) (courseNames : list string) (s : State),
  exists cmap s',
    buildConflictGraph sts courseNames s = (Ok cmap, s') /\
    forall A B,
      In B (conflictsOf (heap s') cmap A) <->
      exists st, In st sts /\
                 mentionsBoth (studentValidCourses (keys cmap) st) A B.
Proof.
  intros sts courseNames s.
  destruct (addCourseNames_spec courseNames s)
    as (vc & cmap & s1 & E1 & Hvc & Hwf & Hempty & Hco).
  assert (Hsvc : forall st, studentValidCourses vc st
                            = studentValidCourses (keys cmap) st).
  { intros st. unfold studentValidCourses. apply filter_ext. intros c.
    destruct (setHas c (keys cmap)) eqn:E.
    - apply setHas_In. apply Hvc. now apply setHas_In.
    - apply setHas_false. rewrite Hvc. now apply setHas_false. }
  pose (P := fun (done : list Student) (s' : State) =>
    wf_graph (heap s') cmap /\
    forall A B,
      In B (conflictsOf (heap s') cmap A) <->
      exists st, In st done /\
                 mentionsBoth (studentValidCourses (keys cmap) st) A B).
  destruct (forEach_invariant (linkStudent vc cmap) (fun _ => True) P)
    with (l := sts) (done := @nil Student) (s := s1) as (s2 & E2 & _ & Hedges).
  - intros done st s' _ [Hwf' Hed].
    destruct (linkStudent_linked vc cmap st s' (fun x Hx => proj1 (Hvc x) Hx) Hwf')
      as (s'' & E & Hwf'' & _ & _ & Hl).
    exists s''. split; [exact E |]. split; [exact Hwf'' |].
    intros A B. rewrite Hl, Hed, Hsvc.
    rewrite <- or_assoc, (or_assoc (exists st0, _)), laterPairs_mentionsBoth.
    split.
    + intros [(st0 & Hin & Hm) | Hm].
      * exists st0. split; [apply in_or_app; now left | assumption].
      * exists st. split; [apply in_or_app; right; now left | assumption].
    + intros (st0 & Hin & Hm). apply in_app_iff in Hin.
      destruct Hin as [Hin | [<- | []]]; [left; now exists st0 | now right].
  - apply Forall_forall. auto.
  - split; [exact Hwf |]. intros A B. rewrite Hempty. simpl.
    split; [intros [] | intros (st & [] & _)].
  - exists cmap, s2. split; [| exact Hedges].
    unfold buildConflictGraph. erewrite bind_Ok by exact E1. cbn beta iota.
    erewrite bind_Ok by exact E2. reflexivity.
Qed.

(* ------------------------------------------------------------------ *)
(** ** More on dsaturColoring *)

Lemma updateSaturation_In col cfl :
  forall sat sat',
    updateSaturation col cfl sat = Ok sat' ->
    forall nb, In nb cfl -> In nb (keys sat).
Proof.
  induction cfl as [| c cfl IH]; intros sat sat' E nb Hin; [destruct Hin |].
  simpl in E. destruct (mapGet c sat) as [cSet |] eqn:Ec; [| discriminate].
  destruct Hin as [<- | Hin].
  - eapply mapGet_Some_key; eauto.
  - apply (IH _ _ E) in Hin. apply In_keys_mapSet in Hin.
    destruct Hin as [-> | Hin]; [eapply mapGet_Some_key; eauto | assumption].
Qed.

Section DsaturMore.
Variable localeCompare : string -> string -> Z.
Variable h : list Course.
Variable cmap : CourseMap.
Variable deg : Degree.

Lemma dsaturLoop_tight :
  forall fuel ca sat ca',
    (forall k, In k (keys sat) -> In k (keys cmap)) ->
    dsaturTight h cmap ca ->
    dsaturLoop localeCompare fuel h cmap (keys cmap) deg ca sat = Ok ca' ->
    dsaturTight h cmap ca'.
Proof.
  induction fuel as [| fuel IH]; intros ca sat ca' Hsat Ht; [discriminate |].
  rewrite dsaturLoop_S.
  destruct (length (uncolored (keys cmap) ca) =? 0); [now intros [= <-] |].
  destruct (sortBy (bySaturation localeCompare sat deg)
                   (uncolored (keys cmap) ca)) as [| v rest] eqn:Es;
    [discriminate |].
  assert (Hv : In v (uncolored (keys cmap) ca)).
  { eapply Permutation_in; [apply sortBy_Permutation |].
    rewrite Es. now left. }
  unfold uncolored in Hv. apply filter_In in Hv. destruct Hv as [Hv Hunc].
  destruct (mapGet v cmap) as [a |] eqn:Ea; [| discriminate]. cbv zeta.
  destruct (smallestFree
              (S (length (neighborColorsOf ca (conflicts (deref h a)))))
              (neighborColorsOf ca (conflicts (deref h a))) 1)
    as [col | |] eqn:Ecol; cbn [obind]; try discriminate.
  destruct (updateSaturation col (conflicts (deref h a)) sat)
    as [sat' | |] eqn:Esat; cbn [obind]; try discriminate.
  intros Hr. apply (IH (mapSet v (Some col) ca) sat' ca'); [| | exact Hr].
  - intros k Hk. apply Hsat. now apply (updateSaturation_keys _ _ _ _ Esat).
  - assert (Hcf : conflicts (deref h a) = conflictsOf h cmap v)
      by (unfold conflictsOf; now rewrite Ea).
    rewrite Hcf in *.
    assert (Hunc' : forall c, mapGet v ca <> Some (Some c))
      by now apply isUncolored_true.
    assert (Hkeep : forall w j, mapGet w ca = Some (Some j) ->
                      mapGet w (mapSet v (Some col) ca) = Some (Some j)).
    { intros w j Hw. rewrite mapGet_mapSet_neq; [assumption |].
      intros ->. now apply (Hunc' j). }
    apply smallestFree_spec in Ecol. destruct Ecol as (_ & _ & Hbelow).
    intros u cu Hu. destruct (String.eqb_spec u v) as [-> | Hne].
    + rewrite mapGet_mapSet_eq in Hu. injection Hu as <-. split.
      * intros nb Hnb. apply Hsat.
        eapply updateSaturation_In; eauto.
      * intros j Hj. apply Hbelow in Hj. apply neighborColorsOf_In in Hj.
        destruct Hj as [nb [Hnb Hc]]. exists nb. split; [assumption |].
        now apply Hkeep.
    + rewrite mapGet_mapSet_neq in Hu by assumption.
      destruct (Ht u cu Hu) as [Hin Hj]. split; [assumption |].
      intros j Hlt. destruct (Hj j Hlt) as [x [Hx Hc]].
      exists x. split; [assumption | now apply Hkeep].
Qed.
End DsaturMore.

Section DsaturMoreSpec.
Variable localeCompare : string -> string -> Z.

(** More of what dsaturColoring returns, when it returns, on a
    well-formed course graph: the graph is closed, the slots are tight
    and none is empty. *)
Lemma dsaturColoring_more orig sts s r s' :
  wf_graph (heap s) orig ->
  dsaturColoring localeCompare orig sts s = (Ok r, s') ->
  closed (heap s) orig /\
  tight (heap s') (resCourses r) (slots r) /\
  (forall sl, In sl (keys (slots r)) -> slotList (slots r) sl <> []).
Proof.
  intros Hwf Hrun.
  destruct (copyAll_spec orig s) as (cmap & s1 & ext & E & Hext & Hco & Hcp).
  pose proof (copyOf_wf_graph _ _ _ _ Hwf Hcp) as Hwf1.
  pose proof (fun k => copyOf_conflictsOf _ _ _ _ k Hwf Hcp) as Hcf1.
  assert (Hkeys1 : forall k, In k (keys cmap) <-> In k (keys orig))
    by apply Hcp.
  assert (Hcase : keys cmap = [] \/ keys cmap <> [])
    by (destruct (keys cmap); [now left | right; discriminate]).
  destruct Hcase as [Ek | Hne].
  - rewrite (dsaturColoring_empty localeCompare orig sts s cmap s1 E Ek)
      in Hrun.
    injection Hrun as <- <-. simpl. split; [| split].
    + intros A B HA. apply Hkeys1 in HA. rewrite Ek in HA. destruct HA.
    + intros k sl [].
    + intros sl [].
  - destruct (initMaps_spec (heap s1) cmap)
      as (ca0 & sat0 & deg & Ei & Hnd0 & Hk0 & Hnone0 & Hsat0).
    rewrite (dsaturColoring_steps localeCompare orig sts s cmap s1
               ca0 sat0 deg E Hne Ei) in Hrun.
    destruct (dsaturLoop localeCompare (S (length (keys cmap))) (heap s1) cmap
                (keys cmap) deg ca0 sat0) as [ca | |] eqn:Eloop;
      try discriminate.
    assert (Hinv0 : dsaturInv (heap s1) cmap ca0).
    { split; [assumption |]. split; [assumption |].
      split; [intros _ u | intros u]; intros; exfalso;
        match goal with
        | H : mapGet _ ca0 = Some (Some _) |- _ =>
            apply Hnone0 in H; discriminate
        end. }
    assert (Ht0 : dsaturTight (heap s1) cmap ca0).
    { intros u cu Hu. apply Hnone0 in Hu. discriminate. }
    destruct (dsaturLoop_spec localeCompare (heap s1) cmap deg
                _ _ _ _ Hinv0 Eloop) as [Hinv Hunc].
    pose proof (dsaturLoop_tight localeCompare (heap s1) cmap deg _ _ _ _
                  (fun k Hk => proj1 (Hsat0 k) Hk) Ht0 Eloop) as Ht.
    pose proof (all_colored cmap ca (heap s1) Hinv Hunc) as Hall.
    destruct Hinv as (Hnd & Hkeys & _ & _).
    destruct (placeAll_spec cmap (heap s1) (console s1) Hwf1 ca s1 Hnd Hall
                eq_refl (sameStatic_refl _))
      as (sls & s2 & Eplace & Hk & Hlist & Hskeys & _ & HS & _).
    rewrite Eplace in Hrun. injection Hrun as <- <-.
    cbn [dsaturResult resCourses slots].
    assert (Hcol : forall nm c, In (nm, Some c) ca <-> mapGet nm ca = Some (Some c)).
    { intros nm c. split; [now apply NoDup_mapGet | apply mapGet_In]. }
    assert (Hcolored : forall k, In k (keys cmap) ->
                         exists c, mapGet k ca = Some (Some c)).
    { intros k Hin. apply Hkeys in Hin. apply in_map_iff in Hin.
      destruct Hin as [[k' v] [En Hin]]. simpl in En. subst k'.
      destruct (Hall k v Hin) as (_ & c & -> & _). exists c. now apply Hcol. }
    split; [| split].
    + intros A B HA HB. apply Hkeys1. apply Hkeys1 in HA.
      destruct (Hcolored A HA) as [c Hc]. destruct (Ht A c Hc) as [Hin _].
      apply Hin. now rewrite Hcf1.
    + intros k sl Hin j Hj. rewrite Hlist in Hin. apply colored_In, Hcol in Hin.
      destruct (Ht k sl Hin) as [_ Hlow]. destruct (Hlow j Hj) as [x [Hx Hc]].
      exists x. split; [rewrite Hlist; now apply colored_In, Hcol |].
      now rewrite (sameStatic_conflictsOf (heap s1)).
    + intros sl Hin. rewrite Hlist. now apply Hskeys.
Qed.

(** X3.  On a well-formed course graph dsaturColoring returns a
    ScheduleResult exactly when every conflict set names courses of the
    graph only; otherwise it raises a TypeError (the saturation set of a
    course that is no key is undefined). *)
Theorem dsaturColoring_returns_iff_closed :
  forall (cmap : CourseMap) (sts : option (list Student)) (s : State),
    wf_graph (heap s) cmap ->
    ((exists r s', dsaturColoring localeCompare cmap sts s = (Ok r, s'))
     <-> closed (heap s) cmap) /\
    (~ closed (heap s) cmap ->
     fst (dsaturColoring localeCompare cmap sts s) = TypeError).
Proof.
  intros cmap sts s Hwf.
  assert (Hok : forall r s', dsaturColoring localeCompare cmap sts s = (Ok r, s') ->
                             closed (heap s) cmap).
  { intros r s' Hrun. now destruct (dsaturColoring_more _ _ _ _ _ Hwf Hrun). }
  split.
  - split; [intros (r & s' & Hrun); eapply Hok; eauto |].
    now apply dsaturColoring_total.
  - intros Hncl. pose proof (dsaturColoring_fuel localeCompare cmap sts s) as Hf.
    destruct (dsaturColoring localeCompare cmap sts s) as [[r | |] s'] eqn:E;
      simpl in *; [| reflexivity | congruence].
    exfalso. apply Hncl. eapply Hok; eauto.
Qed.
End DsaturMoreSpec.

(* ------------------------------------------------------------------ *)
(** ** Tight slots *)

Section GreedyTight.
Variable cmap : CourseMap.
Variable h0 : list Course.
Variable c0 : list LogEntry.
Hypothesis Hwf : wf_graph h0 cmap.

Lemma assignAll_tight l s :
  NoDup l -> (forall x, In x l -> In x (values cmap)) ->
  console s = c0 -> sameStatic h0 (heap s) ->
  exists sls s',
    foldM assignCourse l [] s = (Ok sls, s') /\
    assignInv cmap h0 c0 l sls s' /\ tight h0 cmap sls.
Proof.
  intros Hnd Hsub Hco HS.
  apply (foldM_invariant_split assignCourse
           (fun done sls s => assignInv cmap h0 c0 done sls s /\
                              tight h0 cmap sls) l).
  - intros done a rest sls s1 El [Hinv Ht].
    destruct (assignInv_step cmap h0 c0 Hwf l done a rest sls s1
                Hnd Hsub El Hinv) as (sls' & s' & E & Hinv').
    exists sls', s'. split; [exact E |]. split; [exact Hinv' |].
    destruct Hinv as (Hok & _ & HS1 & _).
    destruct (assignCourse_run sls a s1 Hok) as (r & (Hr & Hfree & Hbelow) & E').
    rewrite E' in E. injection E as <- <-.
    assert (Ha : In a (values cmap)).
    { apply Hsub. rewrite El. apply in_or_app. right. now left. }
    destruct (values_addr cmap h0 Hwf a Ha) as [Hlt Hget].
    assert (Hcf : conflicts (deref (heap s1) a)
                  = conflictsOf h0 cmap (name (deref (heap s1) a))).
    { rewrite (sameStatic_name h0 (heap s1) a HS1). fold (nameAt h0 a).
      unfold conflictsOf. rewrite Hget. now apply sameStatic_conflicts. }
    assert (Hkeep : forall x j, In x (slotList sls j) ->
              In x (slotList (pushSlot r (name (deref (heap s1) a)) sls) j)).
    { intros x j Hx. rewrite slotList_pushSlot.
      destruct (Nat.eqb_spec j r) as [-> | _]; [| assumption].
      apply in_or_app. now left. }
    intros k sl Hin j Hj. rewrite slotList_pushSlot in Hin.
    assert (Hold : In k (slotList sls sl) ->
              exists x, In x (slotList (pushSlot r (name (deref (heap s1) a)) sls) j)
                        /\ In x (conflictsOf h0 cmap k)).
    { intros Hk. destruct (Ht k sl Hk j Hj) as [x [Hx Hc]].
      exists x. split; [now apply Hkeep | assumption]. }
    destruct (Nat.eqb_spec sl r) as [Esl | _]; [| now apply Hold].
    subst sl. apply in_app_iff in Hin. destruct Hin as [Hin | [<- | []]];
      [now apply Hold |].
    specialize (Hbelow j Hj). rewrite hasConflict_slotList in Hbelow.
    apply existsb_exists in Hbelow. destruct Hbelow as [x [Hx Hc]].
    apply setHas_In in Hc. exists x. split; [now apply Hkeep |].
    now rewrite <- Hcf.
  - split; [now apply assignInv_init |]. intros k sl Hin. destruct Hin.
Qed.
End GreedyTight.

Section Tight.
Variable localeCompare : string -> string -> Z.

Lemma greedyColoring_tight cmap sts s :
  wf_graph (heap s) cmap ->
  exists r s',
    greedyColoring localeCompare cmap sts s = (Ok r, s') /\
    tight (heap s') (resCourses r) (slots r).
Proof.
  intros Hwf. destruct (values cmap) as [| a0 l0] eqn:Ev.
  - eexists _, _. split; [now apply greedyColoring_empty |]. simpl.
    intros k sl Hin. destruct Hin.
  - destruct (resetAll_spec (values cmap) s) as (s1 & E1 & Hco1 & HS1).
    assert (Hwf1 : wf_graph (heap s1) cmap)
      by (eapply sameStatic_wf_graph; eauto).
    pose proof (sortBy_Permutation (byDegreeThenName localeCompare (heap s1))
                  (values cmap)) as Hperm.
    fold (sortedCourses localeCompare (heap s1) cmap) in Hperm.
    destruct (assignAll_tight cmap (heap s1) (console s1) Hwf1
                (sortedCourses localeCompare (heap s1) cmap) s1)
      as (sls & s2 & E2 & (_ & _ & HS2 & _) & Ht).
    { eapply Permutation_NoDup; [symmetry; exact Hperm |].
      eapply wf_graph_NoDup_values; eauto. }
    { intros x Hx. eapply Permutation_in; eauto. }
    { reflexivity. }
    { apply sameStatic_refl. }
    eexists _, _. split.
    { apply (greedyColoring_steps localeCompare cmap sts s s1 sls s2);
        [rewrite Ev; discriminate | exact E1 | exact E2]. }
    cbn [resCourses slots greedyResult]. rewrite heap_reported.
    intros k sl Hin j Hj. destruct (Ht k sl Hin j Hj) as [x [Hx Hc]].
    exists x. split; [assumption |].
    now rewrite (sameStatic_conflictsOf (heap s1) (heap s2)).
Qed.

(** X4.  Both colourers give every course the LOWEST free slot: in any
    result, a course of slot [sl] has, in each slot below [sl], a course
    of its own conflict set, so no course can be moved to an earlier
    slot. *)
Theorem coloring_tight :
  forall (cmap : CourseMap) (sts : option (list Student)) (s : State),
    wf_graph (heap s) cmap ->
    (exists r s',
       greedyColoring localeCompare cmap sts s = (Ok r, s') /\
       tight (heap s') (resCourses r) (slots r)) /\
    (forall r s',
       dsaturColoring localeCompare cmap sts s = (Ok r, s') ->
       tight (heap s') (resCourses r) (slots r)).
Proof.
  intros cmap sts s Hwf. split; [now apply greedyColoring_tight |].
  intros r s' Hrun.
  now destruct (dsaturColoring_more localeCompare cmap sts s r s' Hwf Hrun)
    as (_ & Ht & _).
Qed.

(** A course of a tight partition sits at most one slot above the size
    of its conflict set. *)
Lemma tight_bound h cmap sls k sl :
  tight h cmap sls ->
  (forall nm sl1 sl2, In nm (slotList sls sl1) -> In nm (slotList sls sl2) ->
                      sl1 = sl2) ->
  In k (slotList sls sl) ->
  sl <= length (conflictsOf h cmap k) + 1.
Proof.
  intros Ht Huniq Hin.
  assert (G : forall n, n + 1 <= sl ->
            exists l, NoDup l /\ length l = n /\
                      incl l (conflictsOf h cmap k) /\
                      forall x, In x l ->
                        exists j, 1 <= j <= n /\ In x (slotList sls j)).
  { induction n as [| n IH]; intros Hn.
    - exists []. split; [constructor |]. split; [reflexivity |].
      split; [intros x [] | intros x []].
    - destruct IH as (l & Hnd & Hlen & Hincl & Hsl); [lia |].
      destruct (Ht k sl Hin (S n)) as [x [Hx Hc]]; [lia |].
      exists (x :: l). split.
      { constructor; [| assumption]. intros Hxl.
        destruct (Hsl x Hxl) as (j & Hj & Hxj).
        pose proof (Huniq x _ _ Hx Hxj). lia. }
      split; [simpl; now rewrite Hlen |].
      split.
      { intros y [<- | Hy]; [assumption | now apply Hincl]. }
      intros y [<- | Hy].
      + exists (S n). split; [lia | assumption].
      + destruct (Hsl y Hy) as (j & Hj & Hyj). exists j. split; [lia | assumption]. }
  destruct sl as [| n]; [lia |].
  destruct (G n) as (l & Hnd & Hlen & Hincl & _); [lia |].
  pose proof (NoDup_incl_length Hnd Hincl). lia.
Qed.

(** X5.  The number of slots either colourer uses is at most one more
    than the largest conflict set: if every course conflicts with at
    most [D] courses, totalSlots is at most [D + 1]. *)
Theorem totalSlots_at_most_degree_plus_one :
  forall (cmap : CourseMap) (sts : option (list Student)) (s : State)
         (D : nat),
    wf_graph (heap s) cmap ->
    (forall k, In k (keys cmap) ->
               length (conflictsOf (heap s) cmap k) <= D) ->
    (exists r s',
       greedyColoring localeCompare cmap sts s = (Ok r, s') /\
       totalSlots r <= D + 1) /\
    (forall r s',
       dsaturColoring localeCompare cmap sts s = (Ok r, s') ->
       totalSlots r <= D + 1).
Proof.
  intros cmap sts s D Hwf Hdeg. split.
  - destruct (greedyColoring_spec localeCompare cmap sts s Hwf)
      as (r & s' & E & Hres & Htot & Hok & HS & (_ & Hnames & Huniq) & Hne & _).
    destruct (greedyColoring_tight cmap sts s Hwf) as (r' & s'' & E' & Ht).
    rewrite E in E'. injection E' as <- <-.
    exists r, s'. split; [exact E |]. rewrite Htot.
    destruct (length (slots r)) as [| n] eqn:El; [lia |].
    specialize (Hne (S n)).
    destruct (slotList (slots r) (S n)) as [| k l] eqn:Ek;
      [exfalso; apply Hne; [lia | reflexivity] |].
    assert (Hin : In k (slotList (slots r) (S n))) by (rewrite Ek; now left).
    pose proof (tight_bound _ _ _ _ _ Ht Huniq Hin) as Hb.
    rewrite Hres, (sameStatic_conflictsOf (heap s) (heap s')) in Hb
      by assumption.
    assert (Hkey : In k (keys cmap)) by (apply Hnames; eauto).
    specialize (Hdeg k Hkey). lia.
  - intros r s' Hrun.
    destruct (dsaturColoring_spec localeCompare cmap sts s r s' Hwf Hrun)
      as (Htot & [_ Hk] & _ & Hkeys & Hcf & (_ & Hnames & Huniq) & _).
    destruct (dsaturColoring_more localeCompare cmap sts s r s' Hwf Hrun)
      as (_ & Ht & Hne).
    rewrite Htot.
    destruct (length (slots r)) as [| n] eqn:El; [lia |].
    specialize (Hne (S n)).
    destruct (slotList (slots r) (S n)) as [| k l] eqn:Ek;
      [exfalso; apply Hne; [apply Hk; lia | reflexivity] |].
    assert (Hin : In k (slotList (slots r) (S n))) by (rewrite Ek; now left).
    pose proof (tight_bound _ _ _ _ _ Ht Huniq Hin) as Hb.
    rewrite Hcf in Hb.
    assert (Hkey : In k (keys cmap)) by (apply Hkeys, Hnames; eauto).
    specialize (Hdeg k Hkey). lia.
Qed.
End Tight.

Lemma coloring_tight_witness :
  wf_graph (heap triangleState) triangleGraph /\
  (exists r s',
     greedyColoring codeUnitCompare triangleGraph None triangleState = (Ok r, s') /\
     tight (heap s') (resCourses r) (slots r)) /\
  (exists r s',
     dsaturColoring codeUnitCompare triangleGraph None triangleState = (Ok r, s') /\
     tight (heap s') (resCourses r) (slots r)).
Proof.
  assert (Hwf : wf_graph (heap triangleState) triangleGraph)
    by (apply wf_graphb_sound; reflexivity).
  destruct (coloring_tight codeUnitCompare triangleGraph None triangleState Hwf)
    as [Hg Hd].
  split; [exact Hwf |]. split; [exact Hg |].
  eexists _, _. split; [vm_compute; reflexivity |].
  eapply Hd. vm_compute. reflexivity.
Defined.

Lemma totalSlots_at_most_degree_plus_one_witness :
  wf_graph (heap scenarioState) scenarioGraph /\
  (forall k, In k (keys scenarioGraph) ->
             length (conflictsOf (heap scenarioState) scenarioGraph k) <= 2) /\
  (exists r s',
     greedyColoring codeUnitCompare scenarioGraph None scenarioState = (Ok r, s') /\
     totalSlots r <= 2 + 1) /\
  (exists r s',
     dsaturColoring codeUnitCompare scenarioGraph None scenarioState = (Ok r, s') /\
     totalSlots r <= 2 + 1).
Proof.
  assert (Hwf : wf_graph (heap scenarioState) scenarioGraph)
    by (apply wf_graphb_sound; reflexivity).
  assert (Hdeg : forall k, In k (keys scenarioGraph) ->
             length (conflictsOf (heap scenarioState) scenarioGraph k) <= 2).
  { intros k [<- | [<- | [<- | []]]]; vm_compute; lia. }
  destruct (totalSlots_at_most_degree_plus_one codeUnitCompare scenarioGraph
              None scenarioState 2 Hwf Hdeg) as [Hg Hd].
  split; [exact Hwf |]. split; [exact Hdeg |]. split; [exact Hg |].
  eexists _, _. split; [vm_compute; reflexivity |].
  eapply Hd. vm_compute. reflexivity.
Defined.

(* ------------------------------------------------------------------ *)
(** ** The verifier, and the pipeline from the input to a timetable *)

Lemma verifySlot_Some h cmap l ci cj :
  verifySlot h cmap l = Some (ci, cj) ->
  exists i j, i < j /\ nth_error l i = Some ci /\ nth_error l j = Some cj /\
              (In cj (conflictsOf h cmap ci) \/ In ci (conflictsOf h cmap cj)).
Proof.
  induction l as [| c rest IH]; simpl; [discriminate |].
  destruct (find _ rest) as [c' |] eqn:Ef.
  - intros [= <- <-]. apply find_some in Ef. destruct Ef as [Hin Hc].
    apply In_nth_error in Hin. destruct Hin as [j Hj].
    exists 0, (S j). split; [lia |]. split; [reflexivity |].
    split; [exact Hj |].
    apply orb_true_iff in Hc. now rewrite !conflictsHas_In in Hc.
  - intros E. destruct (IH E) as (i & j & Hlt & Hi & Hj & Hc).
    exists (S i), (S j). split; [lia |]. now split.
Qed.

Lemma verifySlots_Some h cmap sls e :
  verifySlots h cmap sls = Some e ->
  exists sl l ci cj i j,
    e = ConflictDetected sl ci cj /\ In (sl, l) sls /\ i < j /\
    nth_error l i = Some ci /\ nth_error l j = Some cj /\
    (In cj (conflictsOf h cmap ci) \/ In ci (conflictsOf h cmap cj)).
Proof.
  induction sls as [| [sl l] rest IH]; simpl; [discriminate |].
  destruct (verifySlot h cmap l) as [[ci cj] |] eqn:Ev.
  - intros [= <-]. destruct (verifySlot_Some _ _ _ _ _ Ev)
      as (i & j & Hlt & Hi & Hj & Hc).
    exists sl, l, ci, cj, i, j. split; [reflexivity |].
    split; [now left |]. now repeat split.
  - intros E. destruct (IH E) as (sl' & l' & ci & cj & i & j & He & Hin & H).
    exists sl', l', ci, cj, i, j. split; [assumption |].
    split; [now right | assumption].
Qed.

(** X6.  verifySolution either returns true, when no two courses listed
    in one slot are in each other's conflict sets, and then writes
    nothing; or returns false after one console.error that names a slot
    and two courses at positions i < j of that slot, one of which is in
    the conflict set of the other.  It never changes a course. *)
Theorem verifySolution_spec :
  forall (cmap : CourseMap) (sls : Slots) (s : State),
    ((forall sl l, In (sl, l) sls ->
        ForallOrdPairs (noConflict (heap s) cmap) l) /\
     verifySolution cmap sls s = (Ok true, s))
    \/
    (exists sl l ci cj i j,
       In (sl, l) sls /\ i < j /\
       nth_error l i = Some ci /\ nth_error l j = Some cj /\
       (In cj (conflictsOf (heap s) cmap ci) \/
        In ci (conflictsOf (heap s) cmap cj)) /\
       verifySolution cmap sls s
       = (Ok false,
          mkState (heap s) (console s ++ [ConflictDetected sl ci cj]))).
Proof.
  intros cmap sls s. rewrite verifySolution_run.
  destruct (verifySlots (heap s) cmap sls) as [e |] eqn:Ev.
  - right. destruct (verifySlots_Some _ _ _ _ Ev)
      as (sl & l & ci & cj & i & j & -> & Hin & Hlt & Hi & Hj & Hc).
    exists sl, l, ci, cj, i, j. now repeat split.
  - left. split; [now apply verifySlots_None | reflexivity].
Qed.

(** X7.  The whole pipeline never fails: for every list of students and
    every course universe, buildConflictGraph returns a graph on which
    greedyColoring and dsaturColoring both return a valid colouring, and
    nothing is written with console.error on the way. *)
Theorem pipeline_valid :
  forall (localeCompare : string -> string -> Z)
         (sts : list Student) (courseNames : list string) (s : State),
  exists cmap s1,
    buildConflictGraph sts courseNames s = (Ok cmap, s1) /\
    (exists r s2,
       greedyColoring localeCompare cmap (Some sts) s1 = (Ok r, s2) /\
       validSlots (heap s2) (resCourses r) (slots r) /\
       console s2 = console s) /\
    (exists r s2,
       dsaturColoring localeCompare cmap (Some sts) s1 = (Ok r, s2) /\
       validSlots (heap s2) (resCourses r) (slots r) /\
       console s2 = console s).
Proof.
  intros localeCompare sts courseNames s.
  destruct (buildConflictGraph_spec sts courseNames s)
    as (cmap & s1 & E & Hwf & Hsym & Hcl & Hco & _).
  exists cmap, s1. split; [exact E |]. split.
  - destruct (greedyColoring_valid localeCompare cmap (Some sts) s1 Hwf Hsym)
      as (r & s2 & Eg & Hvalid & Hver).
    destruct (greedyColoring_total localeCompare cmap (Some sts) s1)
      as (r' & s2' & Eg' & Hres & _ & _ & _ & Hlog).
    rewrite Eg in Eg'. injection Eg' as <- <-.
    exists r, s2. split; [exact Eg |]. split; [exact Hvalid |].
    rewrite verifySolution_run, Hres in Hver. rewrite Hlog.
    destruct (verifySlots (heap s2) cmap (slots r)); [discriminate | exact Hco].
  - destruct (dsaturColoring_total localeCompare cmap (Some sts) s1 Hwf Hcl)
      as (r & s2 & Ed).
    exists r, s2. split; [exact Ed |].
    destruct (dsaturColoring_spec localeCompare cmap (Some sts) s1 r s2 Hwf Ed)
      as (_ & _ & _ & _ & _ & _ & Hvalid & _).
    split; [now apply Hvalid |].
    pose proof (dsaturColoring_frame localeCompare cmap (Some sts) s1)
      as (_ & Hc & _).
    rewrite Ed in Hc. simpl in Hc. congruence.
Qed.


Lemma dsaturColoring_returns_iff_closed_witness :
  wf_graph (heap danglingState) danglingGraph /\
  ((exists r s',
      dsaturColoring codeUnitCompare danglingGraph None danglingState
      = (Ok r, s'))
   <-> closed (heap danglingState) danglingGraph) /\
  (~ closed (heap danglingState) danglingGraph ->
   fst (dsaturColoring codeUnitCompare danglingGraph None danglingState)
   = TypeError).
Proof.
  assert (Hwf : wf_graph (heap danglingState) danglingGraph)
    by (apply wf_graphb_sound; reflexivity).
  split; [exact Hwf |].
  exact (dsaturColoring_returns_iff_closed codeUnitCompare danglingGraph None
           danglingState Hwf).
Defined.

(* ------------------------------------------------------------------ *)
(** ** The timetable views *)

(** Sorting by a comparator whose sign decides a transitive relation
    gives a list ordered by that relation. *)
Lemma insertSorted_sorted {A : Type} (cmp : A -> A -> Z) (R : A -> A -> Prop) :
  (forall x y z, R x y -> R y z -> R x z) ->
  (forall x y, (cmp x y <= 0)%Z -> R x y) ->
  (forall x y, (0 < cmp x y)%Z -> R y x) ->
  forall x l, ForallOrdPairs R l -> ForallOrdPairs R (insertSorted cmp x l).
Proof.
  intros Htrans Hle Hgt x l. induction 1 as [| y l Hy Hl IH]; simpl.
  - constructor; constructor.
  - destruct (Z.leb_spec (cmp x y) 0) as [Hc | Hc].
    + constructor; [| now constructor].
      constructor; [now apply Hle |]. eapply Forall_impl; [| exact Hy].
      cbv beta. intros z Hz. eapply Htrans; [apply Hle |]; eassumption.
    + constructor; [| assumption].
      apply Forall_forall. intros z Hz.
      eapply Permutation_in in Hz; [| apply insertSorted_Permutation].
      destruct Hz as [<- | Hz]; [now apply Hgt |].
      rewrite Forall_forall in Hy. now apply Hy.
Qed.

Lemma sortBy_sorted {A : Type} (cmp : A -> A -> Z) (R : A -> A -> Prop) :
  (forall x y z, R x y -> R y z -> R x z) ->
  (forall x y, (cmp x y <= 0)%Z -> R x y) ->
  (forall x y, (0 < cmp x y)%Z -> R y x) ->
  forall l, ForallOrdPairs R (sortBy cmp l).
Proof.
  intros Htrans Hle Hgt. induction l as [| x l IH]; simpl; [constructor |].
  now apply insertSorted_sorted.
Qed.

Lemma sortBy_bySlot l :
  ForallOrdPairs (fun p q : nat * list string => fst p <= fst q)
                 (sortBy bySlot l).
Proof.
  apply sortBy_sorted; unfold bySlot; intros; lia.
Qed.

Lemma ForallOrdPairs_map {A B : Type} (f : A -> B) (R : B -> B -> Prop) l :
  ForallOrdPairs (fun a b => R (f a) (f b)) l -> ForallOrdPairs R (map f l).
Proof.
  induction 1 as [| a l Ha Hl IH]; simpl; constructor; [| assumption].
  now apply Forall_map.
Qed.

(** An ascending duplicate-free list of the numbers [a], ..., [a + n - 1]
    is [seq a n]. *)
Lemma ascending_seq :
  forall n a (l : list nat),
    ForallOrdPairs le l -> NoDup l ->
    (forall x, In x l <-> a <= x < a + n) ->
    l = seq a n.
Proof.
  induction n as [| n IH]; intros a l Hs Hnd Hin.
  - destruct l as [| y l]; [reflexivity |].
    exfalso. assert (a <= y < a + 0) by (apply Hin; now left). lia.
  - destruct l as [| y l].
    { exfalso. assert (H : In a []) by (apply Hin; lia). destruct H. }
    inversion Hs as [| ? ? Hy Hs']; subst.
    inversion Hnd as [| ? ? Hni Hnd']; subst.
    rewrite Forall_forall in Hy.
    assert (Ey : y = a).
    { assert (Ha : In a (y :: l)) by (apply Hin; lia).
      assert (a <= y < a + S n) by (apply Hin; now left).
      destruct Ha as [-> | Ha]; [reflexivity |]. apply Hy in Ha. lia. }
    subst y. simpl. f_equal. apply IH; [assumption | assumption |].
    intros x. split.
    + intros Hx. assert (a <= x < a + S n) by (apply Hin; now right).
      assert (x <> a) by (intros ->; contradiction). lia.
    + intros Hx. assert (H : In x (a :: l)) by (apply Hin; lia).
      destruct H as [<- | H]; [lia | assumption].
Qed.

Lemma slotColor_palette sl :
  exists col, slotColor sl = Some col /\ In col SLOT_COLORS.
Proof.
  unfold slotColor.
  destruct (nth_error SLOT_COLORS ((sl - 1) mod length SLOT_COLORS))
    as [col |] eqn:E.
  - exists col. split; [reflexivity |]. eapply nth_error_In; eauto.
  - exfalso. apply nth_error_None in E.
    pose proof (Nat.mod_upper_bound (sl - 1) (length SLOT_COLORS)) as Hb.
    simpl in *. lia.
Qed.

Section Views.
Variable localeCompare : string -> string -> Z.

(** What the views use of a result of either colourer. *)
Lemma produced_facts cmap sts s r s' :
  wf_graph (heap s) cmap ->
  producedBy localeCompare cmap sts s r s' ->
  totalSlots r = length (slots r) /\
  contiguous (slots r) /\
  wf_graph (heap s') (resCourses r) /\
  (forall k, In k (keys (resCourses r)) <-> In k (keys cmap)) /\
  (forall k, conflictsOf (heap s') (resCourses r) k
             = conflictsOf (heap s) cmap k) /\
  partitioned (resCourses r) (slots r) /\
  recorded (heap s') (resCourses r) (slots r) /\
  (forall sl, In sl (keys (slots r)) -> slotList (slots r) sl <> []).
Proof.
  intros Hwf [Hrun | Hrun].
  - destruct (greedyColoring_spec localeCompare cmap sts s Hwf)
      as (r' & s'' & E & Hres & Htot & Hok & HS & Hpart & Hne & _ & Hrec).
    rewrite Hrun in E. injection E as <- <-. rewrite Hres.
    split; [assumption |]. split; [now apply slotsOk_contiguous |].
    split; [eapply sameStatic_wf_graph; eauto |].
    split; [tauto |].
    split; [intros k; now apply sameStatic_conflictsOf |].
    split; [assumption |]. split; [assumption |].
    intros sl Hsl. apply Hne. now apply slotsOk_In.
  - destruct (dsaturColoring_spec localeCompare cmap sts s r s' Hwf Hrun)
      as (Htot & Hcont & Hwf' & Hkeys & Hcf & Hpart & _ & Hrec).
    destruct (dsaturColoring_more localeCompare cmap sts s r s' Hwf Hrun)
      as (_ & _ & Hne).
    now repeat (split; [assumption |]).
Qed.

(** X8.  The timetable of a result of either colourer: the rows of
    TimetableView (and of the tables of ResultsPage) are the slots
    1, 2, ..., totalSlots in this order; no row is empty; and the heading
    and every course badge of the row of slot [sl] carry one colour of the
    palette, [SLOT_COLORS[(sl - 1) % SLOT_COLORS.length]]. *)
Theorem timetable_rows :
  forall (cmap : CourseMap) (sts : option (list Student)) (s : State)
         (r : ScheduleResult) (s' : State),
    wf_graph (heap s) cmap ->
    producedBy localeCompare cmap sts s r s' ->
    map fst (sortedSlots r) = seq 1 (totalSlots r) /\
    forall sl courses, In (sl, courses) (sortedSlots r) ->
      courses <> [] /\
      (exists col, slotColor sl = Some col /\ In col SLOT_COLORS) /\
      headColor (heap s') r courses = slotColor sl /\
      forall c, In c courses -> colorOf (heap s') r c = slotColor sl.
Proof.
  intros cmap sts s r s' Hwf Hrun.
  destruct (produced_facts cmap sts s r s' Hwf Hrun)
    as (Htot & [Hnd Hrange] & Hwf' & _ & _ & (_ & Hnames & Huniq) & Hrec & Hne).
  pose proof (sortBy_Permutation bySlot (slots r)) as Hperm.
  fold (sortedSlots r) in Hperm.
  split.
  - rewrite Htot. apply ascending_seq.
    + apply ForallOrdPairs_map. apply sortBy_bySlot.
    + eapply Permutation_NoDup; [| exact Hnd].
      apply Permutation_map. now symmetry.
    + intros x.
      assert (Hmem : In x (map fst (sortedSlots r)) <-> In x (keys (slots r))).
      { unfold keys. split; apply Permutation_in; apply Permutation_map;
          [assumption | now symmetry]. }
      rewrite Hmem, Hrange. lia.
  - intros sl courses Hin.
    eapply Permutation_in in Hin; [| exact Hperm].
    assert (Hl : slotList (slots r) sl = courses).
    { unfold slotList. now rewrite (NoDup_mapGet _ _ _ Hnd Hin). }
    assert (Hsl : In sl (keys (slots r))).
    { apply in_map_iff. now exists (sl, courses). }
    assert (Hcol : forall c, In c courses ->
                     colorOf (heap s') r c = slotColor sl).
    { intros c Hc. rewrite <- Hl in Hc.
      assert (Hk : In c (keys (resCourses r))) by (apply Hnames; eauto).
      destruct (In_keys_mapGet (resCourses r) c Hk) as [a Ha].
      unfold colorOf. rewrite Ha.
      destruct (Hrec c a (mapGet_In _ _ _ Ha)) as (sl' & Hin' & _ & Hc').
      now rewrite (Huniq c sl sl' Hc Hin'). }
    split; [rewrite <- Hl; now apply Hne |].
    split; [apply slotColor_palette |].
    split; [| assumption].
    destruct courses as [| c0 rest].
    + exfalso. apply (Hne sl Hsl). assumption.
    + simpl. apply Hcol. now left.
Qed.
End Views.

Lemma timetable_rows_witness :
  wf_graph (heap scenarioState) scenarioGraph /\
  (exists r s',
     producedBy codeUnitCompare scenarioGraph None scenarioState r s' /\
     map fst (sortedSlots r) = seq 1 (totalSlots r) /\
     forall sl courses, In (sl, courses) (sortedSlots r) ->
       courses <> [] /\
       (exists col, slotColor sl = Some col /\ In col SLOT_COLORS) /\
       headColor (heap s') r courses = slotColor sl /\
       forall c, In c courses -> colorOf (heap s') r c = slotColor sl).
Proof.
  assert (Hwf : wf_graph (heap scenarioState) scenarioGraph)
    by (apply wf_graphb_sound; reflexivity).
  split; [exact Hwf |].
  eexists _, _. split; [right; vm_compute; reflexivity |].
  apply (timetable_rows codeUnitCompare scenarioGraph None scenarioState
           _ _ Hwf).
  right. vm_compute. reflexivity.
Defined.

(* ------------------------------------------------------------------ *)
(** ** The comparison of ResultsPage *)

Lemma slotEqb_spec a b : reflect (a = b) (slotEqb a b).
Proof.
  destruct a as [x |], b as [y |]; simpl; try (constructor; congruence).
  destruct (Nat.eqb_spec x y); constructor; congruence.
Qed.

Lemma diffStep_rows h oc acc entry :
  diffStep h oc acc entry
  = (fst acc ++ fst (diffStep h oc ([], 0) entry),
     snd acc + length (fst (diffStep h oc ([], 0) entry))).
Proof.
  destruct entry as [nm a], acc as [rows n]. unfold diffStep.
  destruct (negb (slotEqb _ _)); simpl.
  - f_equal. lia.
  - rewrite app_nil_r. f_equal. lia.
Qed.

Lemma diffs_fold h oc l :
  forall acc,
    fold_left (diffStep h oc) l acc
    = (fst acc ++ diffRows h oc l, snd acc + length (diffRows h oc l)).
Proof.
  unfold diffRows. induction l as [| e l IH]; intros acc; simpl.
  - rewrite app_nil_r, Nat.add_0_r. now destruct acc.
  - rewrite IH, diffStep_rows. simpl.
    rewrite <- app_assoc, length_app. f_equal. lia.
Qed.

Lemma In_diffRows h oc l row :
  In row (diffRows h oc l) <->
  exists nm a, In (nm, a) l /\
    slot (deref h a)
    <> match mapGet nm oc with Some a' => slot (deref h a') | None => None end /\
    row = mkDiffRow nm (slot (deref h a))
            match mapGet nm oc with Some a' => slot (deref h a') | None => None end.
Proof.
  unfold diffRows. rewrite in_flat_map. split.
  - intros [[nm a] [Hin Hrow]]. exists nm, a. split; [assumption |].
    unfold diffStep in Hrow.
    destruct (slotEqb_spec (slot (deref h a))
                match mapGet nm oc with
                | Some a' => slot (deref h a') | None => None end)
      as [E | Hne]; simpl in Hrow; [destruct Hrow |].
    destruct Hrow as [<- | []]. now split.
  - intros (nm & a & Hin & Hne & ->). exists (nm, a). split; [assumption |].
    unfold diffStep.
    destruct (slotEqb_spec (slot (deref h a))
                match mapGet nm oc with
                | Some a' => slot (deref h a') | None => None end)
      as [E | _]; [contradiction | simpl; now left].
Qed.

Lemma diffRows_names h oc (l : CourseMap) :
  NoDup (keys l) -> NoDup (map diffName (diffRows h oc l)).
Proof.
  unfold diffRows, keys. induction l as [| [nm a] l IH]; simpl;
    [constructor |].
  intros Hnd. inversion Hnd as [| ? ? Hni Hnd']; subst.
  rewrite map_app. apply NoDup_app; [| now apply IH |].
  - unfold diffStep. destruct (negb (slotEqb _ _)); simpl;
      repeat constructor; intros [].
  - intros x Hx Hx'. apply Hni.
    assert (x = nm).
    { unfold diffStep in Hx. destruct (negb (slotEqb _ _)); simpl in Hx;
        [destruct Hx as [<- | []]; reflexivity | destruct Hx]. }
    subst x. apply in_map_iff in Hx'. destruct Hx' as [row [En Hrow]].
    apply (In_diffRows h oc l row) in Hrow.
    destruct Hrow as (nm' & a' & Hin & _ & ->). simpl in En. subst nm'.
    apply in_map_iff. now exists (nm, a').
Qed.

Lemma sameStatic_closed h h' cmap :
  sameStatic h h' -> closed h cmap -> closed h' cmap.
Proof.
  intros HS Hcl A B HA HB. rewrite (sameStatic_conflictsOf h h') in HB
    by assumption. eapply Hcl; eauto.
Qed.

Lemma deref_prefix h h' a :
  firstn (length h) h' = h -> a < length h -> deref h' a = deref h a.
Proof.
  intros Hpre Hlt. unfold deref.
  assert (E : nth a (firstn (length h) h') blank = nth a h' blank).
  { rewrite nth_firstn. apply Nat.ltb_lt in Hlt. now rewrite Hlt. }
  rewrite <- E. now rewrite Hpre.
Qed.

Section ResultsPage.
Variable localeCompare : string -> string -> Z.

(** X9.  ResultsPage after greedyColoring on a closed course graph: the
    DSATUR comparison returns; the standard result stays recorded on its
    own courses; movedCount is the number of rows of [changed]; no course
    has two rows; the rows are ordered by optimized slot; and a course
    has a row, with its two slot numbers, exactly when its standard slot
    and its optimized slot differ. *)
Theorem resultsPage_diffs :
  forall (cmap : CourseMap) (sts : option (list Student)) (s : State)
         (r : ScheduleResult) (s1 : State),
    wf_graph (heap s) cmap -> closed (heap s) cmap ->
    greedyColoring localeCompare cmap sts s = (Ok r, s1) ->
    exists opt changed moved s2,
      resultsPage localeCompare r s1 = (Ok (opt, (changed, moved)), s2) /\
      recorded (heap s2) (resCourses r) (slots r) /\
      moved = length changed /\
      NoDup (map diffName changed) /\
      ForallOrdPairs
        (fun x y => slotOr0 (optimizedSlot x) <= slotOr0 (optimizedSlot y))
        changed /\
      forall n a b,
        In (mkDiffRow n a b) changed <->
        exists sa sb, a = Some sa /\ b = Some sb /\ sa <> sb /\
                      In n (slotList (slots r) sa) /\
                      In n (slotList (slots opt) sb).
Proof.
  intros cmap sts s r s1 Hwf Hcl Hg.
  destruct (greedyColoring_spec localeCompare cmap sts s Hwf)
    as (r' & s' & E & Hres & _ & _ & HS & (_ & Hnames & Huniq) & _ & _ & Hrec).
  rewrite Hg in E. injection E as <- <-.
  assert (Hwf1 : wf_graph (heap s1) cmap)
    by (eapply sameStatic_wf_graph; eauto).
  assert (Hcl1 : closed (heap s1) cmap)
    by (eapply sameStatic_closed; eauto).
  rewrite Hres in *.
  destruct (dsaturColoring_total localeCompare cmap (Some (students r)) s1
              Hwf1 Hcl1) as (opt & s2 & Ed).
  destruct (dsaturColoring_spec localeCompare cmap (Some (students r)) s1
              opt s2 Hwf1 Ed)
    as (_ & _ & Hwf2 & Hkeys & _ & (_ & Hnames2 & Huniq2) & _ & Hrec2).
  pose proof (dsaturColoring_frame localeCompare cmap (Some (students r)) s1)
    as (Hpre & _ & _).
  rewrite Ed in Hpre. cbn [snd] in Hpre.
  assert (Hsame : forall k a, In (k, a) cmap ->
            deref (heap s2) a = deref (heap s1) a).
  { intros k a Hin. apply deref_prefix; [assumption |].
    destruct Hwf1 as [_ Hobj]. now apply (Hobj k a). }
  pose (rows := diffRows (heap s2) (resCourses opt) cmap).
  exists opt, (sortBy (byOptimizedSlot localeCompare) rows), (length rows), s2.
  split.
  { unfold resultsPage. rewrite Hres. erewrite bind_Ok by exact Ed.
    unfold bind, getHeap, ret, computeDiffs. cbn [fst snd].
    rewrite diffs_fold. reflexivity. }
  pose proof (sortBy_Permutation (byOptimizedSlot localeCompare) rows) as Hperm.
  split.
  { intros k a Hin. destruct (Hrec k a Hin) as (sl & Hsl & Hs & Hc).
    exists sl. rewrite (Hsame k a Hin). auto. }
  split; [symmetry; now apply Permutation_length |].
  split.
  { eapply Permutation_NoDup; [apply Permutation_map; symmetry; exact Hperm |].
    apply diffRows_names. apply Hwf1. }
  split.
  { apply sortBy_sorted.
    - intros; lia.
    - intros x y. unfold byOptimizedSlot.
      destruct (Z.eqb_spec
        (Z.of_nat (slotOr0 (optimizedSlot x))
         - Z.of_nat (slotOr0 (optimizedSlot y))) 0); intros; lia.
    - intros x y. unfold byOptimizedSlot.
      destruct (Z.eqb_spec
        (Z.of_nat (slotOr0 (optimizedSlot x))
         - Z.of_nat (slotOr0 (optimizedSlot y))) 0); intros; lia. }
  intros n a b.
  assert (Hmem : In (mkDiffRow n a b)
                    (sortBy (byOptimizedSlot localeCompare) rows)
                 <-> In (mkDiffRow n a b) rows).
  { split; apply Permutation_in; [assumption | now symmetry]. }
  rewrite Hmem. unfold rows. rewrite In_diffRows.
  assert (Hslots : forall k ad, In (k, ad) cmap ->
    exists sa sb,
      slot (deref (heap s2) ad) = Some sa /\
      match mapGet k (resCourses opt) with
      | Some a' => slot (deref (heap s2) a') | None => None end = Some sb /\
      In k (slotList (slots r) sa) /\ In k (slotList (slots opt) sb)).
  { intros k ad Hin. destruct (Hrec k ad Hin) as (sa & Hsa & Hs & _).
    assert (Hk : In k (keys (resCourses opt))).
    { apply Hkeys. apply in_map_iff. now exists (k, ad). }
    destruct (In_keys_mapGet (resCourses opt) k Hk) as [a' Ha'].
    destruct (Hrec2 k a' (mapGet_In _ _ _ Ha')) as (sb & Hsb & Hs' & _).
    exists sa, sb. rewrite Ha', (Hsame k ad Hin). auto. }
  split.
  - intros (k & ad & Hin & Hne & Erow).
    destruct (Hslots k ad Hin) as (sa & sb & Es & Eo & Hsa & Hsb).
    rewrite Es, Eo in Erow, Hne. injection Erow as -> -> ->.
    exists sa, sb. repeat split; auto; congruence.
  - intros (sa & sb & -> & -> & Hne & Hsa & Hsb).
    assert (Hk : In n (keys cmap)) by (apply Hnames; eauto).
    destruct (In_keys_mapGet cmap n Hk) as [ad Had].
    pose proof (mapGet_In _ _ _ Had) as Hin.
    destruct (Hslots n ad Hin) as (sa' & sb' & Es & Eo & Hsa' & Hsb').
    assert (sa' = sa) by (eapply Huniq; eauto).
    assert (sb' = sb) by (eapply Huniq2; eauto).
    subst sa' sb'. exists n, ad. rewrite Es, Eo.
    split; [assumption |]. split; [congruence | reflexivity].
Qed.
End ResultsPage.

Lemma resultsPage_diffs_witness :
  wf_graph (heap scenarioState) scenarioGraph /\
  closed (heap scenarioState) scenarioGraph /\
  exists r s1,
    greedyColoring codeUnitCompare scenarioGraph None scenarioState
    = (Ok r, s1) /\
    exists opt changed moved s2,
      resultsPage codeUnitCompare r s1 = (Ok (opt, (changed, moved)), s2) /\
      recorded (heap s2) (resCourses r) (slots r) /\
      moved = length changed /\
      NoDup (map diffName changed) /\
      ForallOrdPairs
        (fun x y => slotOr0 (optimizedSlot x) <= slotOr0 (optimizedSlot y))
        changed /\
      forall n a b,
        In (mkDiffRow n a b) changed <->
        exists sa sb, a = Some sa /\ b = Some sb /\ sa <> sb /\
                      In n (slotList (slots r) sa) /\
                      In n (slotList (slots opt) sb).
Proof.
  assert (Hwf : wf_graph (heap scenarioState) scenarioGraph)
    by (apply wf_graphb_sound; reflexivity).
  assert (Hcl : closed (heap scenarioState) scenarioGraph)
    by (apply closedb_sound; reflexivity).
  split; [exact Hwf |]. split; [exact Hcl |].
  eexists _, _. split; [vm_compute; reflexivity |].
  apply (resultsPage_diffs codeUnitCompare scenarioGraph None scenarioState
           _ _ Hwf Hcl).
  vm_compute. reflexivity.
Defined.

(* ------------------------------------------------------------------ *)
(** ** The conflict graph view *)

Lemma compare_refl (a : string) : String.compare a a = Eq.
Proof.
  pose proof (String.compare_antisym a a) as H.
  destruct (String.compare a a); simpl in H; congruence.
Qed.

Lemma ltb_irrefl a : String.ltb a a = false.
Proof. unfold String.ltb. now rewrite compare_refl. Qed.

Lemma ltb_asym a b : String.ltb a b = true -> String.ltb b a = false.
Proof.
  unfold String.ltb. rewrite (String.compare_antisym b a).
  now destruct (String.compare a b).
Qed.

Lemma ltb_total a b :
  a <> b -> String.ltb a b = true \/ String.ltb b a = true.
Proof.
  intros Hne. unfold String.ltb. rewrite (String.compare_antisym b a).
  destruct (String.compare a b) eqn:E; simpl; auto.
  apply String.compare_eq_iff in E. congruence.
Qed.

Lemma In_linksOf course x y :
  In (x, y) (linksOf course) <->
  x = name course /\ In y (conflicts course) /\ String.ltb x y = true.
Proof.
  unfold linksOf. rewrite in_flat_map. split.
  - intros [c [Hc Hin]].
    destruct (String.ltb (name course) c) eqn:E; [| destruct Hin].
    destruct Hin as [[= <- <-] | []]. auto.
  - intros (-> & Hy & Hlt). exists y. split; [assumption |].
    rewrite Hlt. now left.
Qed.

Lemma In_graphLinks h cmap x y :
  wf_graph h cmap ->
  (In (x, y) (graphLinks h cmap) <->
   In x (keys cmap) /\ In y (conflictsOf h cmap x) /\ String.ltb x y = true).
Proof.
  intros Hwf. unfold graphLinks. rewrite in_flat_map. split.
  - intros [a [Ha Hin]]. apply In_linksOf in Hin.
    destruct Hin as (-> & Hy & Hlt).
    destruct (wf_graph_entry h cmap a Hwf Ha) as [Hk Hcf].
    rewrite Hcf. auto.
  - intros (Hx & Hy & Hlt).
    destruct (In_keys_mapGet cmap x Hx) as [a Ha].
    destruct (wf_graph_mapGet h cmap x a Hwf Ha) as [_ Hn].
    exists a. split.
    + apply in_map_iff. exists (x, a). split; [reflexivity |].
      now apply mapGet_In.
    + apply In_linksOf. unfold conflictsOf in Hy. rewrite Ha in Hy. auto.
Qed.

Lemma NoDup_flat_map_disjoint {A B : Type} (f : A -> list B) l :
  (forall a, In a l -> NoDup (f a)) ->
  ForallOrdPairs (fun a b => forall x, In x (f a) -> ~ In x (f b)) l ->
  NoDup (flat_map f l).
Proof.
  intros Hnd. induction 1 as [| a l Ha Hl IH]; simpl; [constructor |].
  apply NoDup_app.
  - apply Hnd. now left.
  - apply IH. intros b Hb. apply Hnd. now right.
  - intros x Hx Hx'. apply in_flat_map in Hx'. destruct Hx' as [b [Hb Hxb]].
    rewrite Forall_forall in Ha. now apply (Ha b Hb x).
Qed.

Lemma NoDup_linksOf course :
  NoDup (conflicts course) -> NoDup (linksOf course).
Proof.
  unfold linksOf. induction 1 as [| c l Hni Hnd IH]; simpl; [constructor |].
  destruct (String.ltb (name course) c); simpl; [| assumption].
  constructor; [| assumption].
  intros Hin. apply (In_linksOf {| name := name course; conflicts := l;
                                   slot := None; color := None |}) in Hin.
  simpl in Hin. now apply Hni.
Qed.

Lemma NoDup_graphLinks h cmap :
  wf_graph h cmap -> (forall k, NoDup (conflictsOf h cmap k)) ->
  NoDup (graphLinks h cmap).
Proof.
  intros Hwf Hsets. unfold graphLinks. apply NoDup_flat_map_disjoint.
  - intros a Ha. apply NoDup_linksOf.
    destruct (wf_graph_entry h cmap a Hwf Ha) as [_ <-]. apply Hsets.
  - apply NoDup_ForallOrdPairs; [eapply wf_graph_NoDup_values; eauto |].
    intros a b Ha Hb Hne [x y] Hx Hy.
    apply In_linksOf in Hx, Hy. destruct Hx as (Ex & _), Hy as (Ey & _).
    apply Hne. apply (nameAt_inj cmap h Hwf a b Ha Hb). unfold nameAt.
    congruence.
Qed.

Section GraphView.
Variable localeCompare : string -> string -> Z.

(** The links of a result of either colourer, read on the input graph. *)
Lemma produced_links cmap sts s r s' :
  wf_graph (heap s) cmap ->
  producedBy localeCompare cmap sts s r s' ->
  forall x y,
    In (x, y) (graphLinks (heap s') (resCourses r)) <->
    In x (keys cmap) /\ In y (conflictsOf (heap s) cmap x) /\
    String.ltb x y = true.
Proof.
  intros Hwf Hrun x y.
  destruct (produced_facts localeCompare cmap sts s r s' Hwf Hrun)
    as (_ & _ & Hwf' & Hkeys & Hcf & _).
  rewrite (In_graphLinks _ _ x y Hwf'). now rewrite Hkeys, Hcf.
Qed.

(** X10.  The graph view of a result of either colourer.  There is one
    node per course, carrying its slot and the colour of that slot.  The
    links are the pairs (x, y) with y in the conflict set of x and
    x before y by code units: never a loop, never a pair in both
    directions, and, when the conflict sets are duplicate-free, never a
    pair twice.  On a closed graph both ends of a link are nodes; on a
    closed symmetric graph every conflict between two different courses
    is drawn, in one of the two directions. *)
Theorem graph_view :
  forall (cmap : CourseMap) (sts : option (list Student)) (s : State)
         (r : ScheduleResult) (s' : State),
    wf_graph (heap s) cmap ->
    producedBy localeCompare cmap sts s r s' ->
    let nodes := graphNodes (heap s') (resCourses r) in
    let links := graphLinks (heap s') (resCourses r) in
    NoDup (map nodeId nodes) /\
    (forall k, In k (map nodeId nodes) <-> In k (keys cmap)) /\
    (forall nd, In nd nodes ->
       exists sl, nodeSlot nd = Some sl /\ nodeColor nd = slotColor sl /\
                  In (nodeId nd) (slotList (slots r) sl)) /\
    (forall x y, In (x, y) links <->
       In x (keys cmap) /\ In y (conflictsOf (heap s) cmap x) /\
       String.ltb x y = true) /\
    (forall x y, In (x, y) links -> x <> y /\ ~ In (y, x) links) /\
    ((forall k, NoDup (conflictsOf (heap s) cmap k)) -> NoDup links) /\
    (closed (heap s) cmap ->
     forall x y, In (x, y) links ->
       In x (map nodeId nodes) /\ In y (map nodeId nodes)) /\
    (closed (heap s) cmap -> symmetric (heap s) cmap ->
     forall A B, In A (keys cmap) -> In B (conflictsOf (heap s) cmap A) ->
       A <> B -> In (A, B) links \/ In (B, A) links).
Proof.
  intros cmap sts s r s' Hwf Hrun nodes links.
  destruct (produced_facts localeCompare cmap sts s r s' Hwf Hrun)
    as (_ & _ & Hwf' & Hkeys & Hcf & _ & Hrec & _).
  assert (Hids : map nodeId nodes = keys (resCourses r)).
  { unfold nodes, graphNodes, keys, values. rewrite !map_map.
    apply map_ext_in. intros [k a] Hin. simpl.
    destruct Hwf' as [_ Hobj]. now destruct (Hobj k a Hin). }
  pose proof (produced_links cmap sts s r s' Hwf Hrun) as Hlinks.
  fold links in Hlinks.
  split; [rewrite Hids; apply Hwf' |].
  split; [intros k; rewrite Hids; apply Hkeys |].
  split.
  { intros nd Hnd. unfold nodes, graphNodes, values in Hnd.
    rewrite map_map in Hnd. apply in_map_iff in Hnd.
    destruct Hnd as [[k a] [<- Hin]]. simpl.
    destruct (Hrec k a Hin) as (sl & Hsl & Hs & Hc).
    exists sl. destruct Hwf' as [_ Hobj]. destruct (Hobj k a Hin) as [_ ->].
    auto. }
  split; [exact Hlinks |].
  split.
  { intros x y Hxy. apply Hlinks in Hxy. destruct Hxy as (_ & _ & Hlt).
    split.
    - intros ->. rewrite ltb_irrefl in Hlt. discriminate.
    - intros Hyx. apply Hlinks in Hyx. destruct Hyx as (_ & _ & Hlt').
      apply ltb_asym in Hlt. congruence. }
  split.
  { intros Hsets. apply NoDup_graphLinks; [assumption |].
    intros k. rewrite Hcf. apply Hsets. }
  split.
  { intros Hcl x y Hxy. apply Hlinks in Hxy. destruct Hxy as (Hx & Hy & _).
    rewrite Hids. split; apply Hkeys; [assumption |]. eapply Hcl; eauto. }
  intros Hcl Hsym A B HA HB Hne.
  assert (HBk : In B (keys cmap)) by (eapply Hcl; eauto).
  destruct (ltb_total A B Hne) as [Hlt | Hlt].
  - left. apply Hlinks. auto.
  - right. apply Hlinks. split; [assumption |]. split; [| assumption].
    now apply (Hsym A B).
Qed.
End GraphView.

Lemma graph_view_witness :
  wf_graph (heap scenarioState) scenarioGraph /\
  exists r s',
    producedBy codeUnitCompare scenarioGraph None scenarioState r s' /\
    let nodes := graphNodes (heap s') (resCourses r) in
    let links := graphLinks (heap s') (resCourses r) in
    NoDup (map nodeId nodes) /\
    (forall k, In k (map nodeId nodes) <-> In k (keys scenarioGraph)) /\
    (forall nd, In nd nodes ->
       exists sl, nodeSlot nd = Some sl /\ nodeColor nd = slotColor sl /\
                  In (nodeId nd) (slotList (slots r) sl)) /\
    (forall x y, In (x, y) links <->
       In x (keys scenarioGraph) /\
       In y (conflictsOf (heap scenarioState) scenarioGraph x) /\
       String.ltb x y = true) /\
    (forall x y, In (x, y) links -> x <> y /\ ~ In (y, x) links) /\
    ((forall k, NoDup (conflictsOf (heap scenarioState) scenarioGraph k)) ->
     NoDup links) /\
    (closed (heap scenarioState) scenarioGraph ->
     forall x y, In (x, y) links ->
       In x (map nodeId nodes) /\ In y (map nodeId nodes)) /\
    (closed (heap scenarioState) scenarioGraph ->
     symmetric (heap scenarioState) scenarioGraph ->
     forall A B, In A (keys scenarioGraph) ->
       In B (conflictsOf (heap scenarioState) scenarioGraph A) ->
       A <> B -> In (A, B) links \/ In (B, A) links).
Proof.
  assert (Hwf : wf_graph (heap scenarioState) scenarioGraph)
    by (apply wf_graphb_sound; reflexivity).
  split; [exact Hwf |].
  eexists _, _. split; [left; vm_compute; reflexivity |].
  apply (graph_view codeUnitCompare scenarioGraph None scenarioState
           _ _ Hwf).
  left. vm_compute. reflexivity.
Defined.

(* ------------------------------------------------------------------ *)
(** ** The links drawn and the conflicts counted *)

Lemma linkStudent_preserves (R : State -> State -> Prop) vc cmap st :
  (forall s, R s s) -> (forall s1 s2 s3, R s1 s2 -> R s2 s3 -> R s1 s3) ->
  (forall c1 c2, preserves R (addConflict cmap c1 c2)) ->
  preserves R (linkStudent vc cmap st).
Proof.
  intros Hrefl Htrans Hadd. unfold linkStudent.
  destruct (1 <? length (studentValidCourses vc st));
    [| now apply preserves_ret].
  induction (studentValidCourses vc st) as [| c1 rest IH]; simpl.
  - now apply preserves_ret.
  - apply preserves_bind; [assumption | | intros _; exact IH].
    clear IH. induction rest as [| c2 rest IH]; simpl.
    + now apply preserves_ret.
    + repeat (apply preserves_bind; [assumption | try apply Hadd | intros _]).
      exact IH.
Qed.

Lemma addConflict_keepsSets cmap c1 c2 :
  preserves keepsSets (addConflict cmap c1 c2).
Proof.
  intros s. unfold addConflict. destruct (mapGet c1 cmap) as [a |].
  - unfold modify. cbn [snd]. intros b. cbn [heap]. rewrite deref_update.
    destruct ((a =? b) && (a <? length (heap s))); [| auto].
    simpl. apply NoDup_setAdd.
  - intros b Hb. exact Hb.
Qed.

(** The conflict sets of the graph of buildConflictGraph hold no name
    twice. *)
Lemma buildConflictGraph_sets sts courseNames s cmap s' :
  buildConflictGraph sts courseNames s = (Ok cmap, s') ->
  forall k, NoDup (conflictsOf (heap s') cmap k).
Proof.
  intros E k. destruct (buildConflictGraph_inv _ _ _ _ _ E)
    as (vc & s1 & E1 & E2).
  destruct (addCourseNames_keys courseNames _ _ _ _ E1) as [_ Hobj].
  cbn [snd] in Hobj.
  assert (Hkeep : keepsSets s1 s').
  { pose proof (preserves_forEach keepsSets (linkStudent vc cmap) sts) as Hp.
    specialize (Hp (fun s0 a H => H)
                   (fun s1 s2 s3 H12 H23 a H => H23 a (H12 a H))).
    specialize (Hp (fun st => linkStudent_preserves keepsSets vc cmap st
                      (fun s0 a H => H)
                      (fun s1 s2 s3 H12 H23 a H => H23 a (H12 a H))
                      (addConflict_keepsSets cmap)) s1).
    now rewrite E2 in Hp. }
  unfold conflictsOf. destruct (mapGet k cmap) as [a |] eqn:Ea;
    [| constructor].
  apply Hkeep. destruct (Hobj (fun k0 a0 (H : In (k0, a0) []) =>
                                 match H with end) k a (mapGet_In _ _ _ Ea))
    as [_ ->].
  constructor.
Qed.

Lemma links_count_graph h cmap :
  wf_graph h cmap -> symmetric h cmap -> closed h cmap ->
  noSelfConflict h cmap -> (forall k, NoDup (conflictsOf h cmap k)) ->
  length (graphLinks h cmap)
  = length (unorderedPairs (map (deref h) (values cmap))).
Proof.
  intros Hwf Hsym Hcl Hno Hsets. apply Permutation_length.
  apply NoDup_Permutation.
  - now apply NoDup_graphLinks.
  - apply NoDup_collectWith. constructor.
  - intros [x y].
    rewrite (graph_pairs h cmap (values cmap) (x, y) Hwf
               (fun a => iff_refl _)).
    rewrite (In_graphLinks h cmap x y Hwf). split.
    + intros (Hx & Hy & Hlt). exists x, y. split; [assumption |].
      split; [assumption |]. unfold sortPair.
      now rewrite (ltb_asym x y Hlt).
    + intros (k & z & Hk & Hz & Ep). unfold sortPair in Ep.
      assert (Hzk : In z (keys cmap)) by (eapply Hcl; eauto).
      destruct (String.ltb z k) eqn:Hlt; injection Ep as -> ->.
      * split; [assumption |]. split; [now apply (Hsym k z) | assumption].
      * split; [assumption |]. split; [assumption |].
        assert (Hne : k <> z) by (intros ->; now apply (Hno z)).
        destruct (ltb_total k z Hne); congruence.
Qed.

Section LinksCount.
Variable localeCompare : string -> string -> Z.

(** X11.  From the input to the graph view: when no course name of the
    universe contains the separator [|] and no student mentions a course
    of the universe twice, the number of links drawn for a result of
    either colourer is its totalConflicts. *)
Theorem links_count :
  forall (sts : list Student) (courseNames : list string) (s : State)
         (cmap : CourseMap) (s1 : State) (osts : option (list Student))
         (r : ScheduleResult) (s2 : State),
    (forall k, In k (universeKeys courseNames) -> hasBar k = false) ->
    Forall (fun st => NoDup (studentValidCourses (universeKeys courseNames) st))
           sts ->
    buildConflictGraph sts courseNames s = (Ok cmap, s1) ->
    producedBy localeCompare cmap osts s1 r s2 ->
    length (graphLinks (heap s2) (resCourses r)) = totalConflicts r.
Proof.
  intros sts courseNames s cmap s1 osts r s2 Hbar Hstu Hbuild Hrun.
  destruct (buildConflictGraph_spec sts courseNames s)
    as (cmap' & s1' & E & Hwf & Hsym & Hcl & _ & Hno).
  rewrite Hbuild in E. injection E as <- <-.
  assert (Hkeys : keys cmap = universeKeys courseNames).
  { destruct (buildConflictGraph_inv _ _ _ _ _ Hbuild) as (vc & s0 & E1 & _).
    now destruct (addCourseNames_keys courseNames _ _ _ _ E1). }
  rewrite Hkeys in Hno. specialize (Hno Hstu).
  pose proof (buildConflictGraph_sets _ _ _ _ _ Hbuild) as Hsets.
  assert (Hbarless : barless (heap s1) cmap).
  { intros k Hk. split; [apply Hbar; now rewrite <- Hkeys |].
    intros x Hx. apply Hbar. rewrite <- Hkeys. eapply Hcl; eauto. }
  destruct (produced_facts localeCompare cmap osts s1 r s2 Hwf Hrun)
    as (_ & _ & Hwf' & Hk' & Hcf & _).
  assert (Hlen : length (graphLinks (heap s2) (resCourses r))
                 = length (graphLinks (heap s1) cmap)).
  { apply Permutation_length. apply NoDup_Permutation.
    - apply NoDup_graphLinks; [assumption |]. intros k. rewrite Hcf.
      apply Hsets.
    - now apply NoDup_graphLinks.
    - intros [x y]. rewrite (In_graphLinks _ _ x y Hwf'),
        (In_graphLinks _ _ x y Hwf). now rewrite Hk', Hcf. }
  rewrite Hlen, (links_count_graph _ _ Hwf Hsym Hcl Hno Hsets).
  destruct (totalConflicts_counts_pairs localeCompare cmap osts s1
              Hwf Hbarless) as [(r' & s' & Eg & Hg) Hd].
  destruct Hrun as [Hrun | Hrun].
  - rewrite Hrun in Eg. injection Eg as <- <-. now rewrite Hg.
  - now rewrite (Hd r s2 Hrun).
Qed.
End LinksCount.

Lemma links_count_witness :
  (forall k, In k (universeKeys scenarioCourses) -> hasBar k = false) /\
  Forall (fun st => NoDup (studentValidCourses
                             (universeKeys scenarioCourses) st))
         scenarioStudents /\
  exists cmap s1 r s2,
    buildConflictGraph scenarioStudents scenarioCourses emptyState
    = (Ok cmap, s1) /\
    producedBy codeUnitCompare cmap (Some scenarioStudents) s1 r s2 /\
    length (graphLinks (heap s2) (resCourses r)) = totalConflicts r.
Proof.
  assert (Hbar : forall k, In k (universeKeys scenarioCourses) ->
                           hasBar k = false).
  { intros k Hk. vm_compute in Hk.
    destruct Hk as [<- | [<- | [<- | []]]]; reflexivity. }
  assert (Hstu : Forall (fun st => NoDup (studentValidCourses
                                     (universeKeys scenarioCourses) st))
                        scenarioStudents).
  { unfold scenarioStudents.
    repeat (apply Forall_cons; [apply nodupb_NoDup; reflexivity |]).
    apply Forall_nil. }
  split; [exact Hbar |]. split; [exact Hstu |].
  eexists _, _, _, _. split; [vm_compute; reflexivity |].
  split; [right; vm_compute; reflexivity |].
  apply (links_count codeUnitCompare scenarioStudents scenarioCourses
           emptyState scenarioGraph scenarioState (Some scenarioStudents)
           _ _ Hbar Hstu).
  - vm_compute. reflexivity.
  - right. vm_compute. reflexivity.
Defined.


Section Hover.
Variable localeCompare : string -> string -> Z.

(** X12.  Hovering in the graph view of a result on a closed symmetric
    graph: with the pointer over the node of course [d], the nodes that
    stay at full opacity are [d] and exactly the courses of the conflict
    set of [d]. *)
Theorem hover_highlights_conflicts :
  forall (cmap : CourseMap) (sts : option (list Student)) (s : State)
         (r : ScheduleResult) (s' : State),
    wf_graph (heap s) cmap -> closed (heap s) cmap ->
    symmetric (heap s) cmap ->
    producedBy localeCompare cmap sts s r s' ->
    forall d n,
      highlighted (graphLinks (heap s') (resCourses r)) d n = true <->
      n = d \/ In n (conflictsOf (heap s) cmap d).
Proof.
  intros cmap sts s r s' Hwf Hcl Hsym Hrun d n.
  pose proof (produced_links localeCompare cmap sts s r s' Hwf Hrun)
    as Hlinks.
  unfold highlighted. destruct (String.eqb_spec n d) as [-> | Hne].
  - split; auto.
  - rewrite existsb_exists. split.
    + intros [[x y] [Hin Hb]]. right. simpl in Hb.
      apply Hlinks in Hin. destruct Hin as (Hx & Hy & _).
      apply orb_true_iff in Hb.
      destruct Hb as [Hb | Hb]; apply andb_true_iff in Hb;
        destruct Hb as [E1 E2]; apply String.eqb_eq in E1, E2; subst.
      * assumption.
      * apply (Hsym n d); [assumption | eapply Hcl; eauto | assumption].
    + intros [-> | Hin]; [contradiction |].
      assert (Hd : In d (keys cmap)).
      { unfold conflictsOf in Hin.
        destruct (mapGet d cmap) eqn:E; [| destruct Hin].
        eapply mapGet_Some_key; eauto. }
      assert (Hn : In n (keys cmap)) by (eapply Hcl; eauto).
      destruct (ltb_total d n (fun E => Hne (eq_sym E))) as [Hlt | Hlt].
      * exists (d, n). split; [apply Hlinks; auto |]. simpl.
        now rewrite !String.eqb_refl.
      * exists (n, d). split.
        { apply Hlinks. split; [assumption |]. split; [| assumption].
          now apply (Hsym d n). }
        simpl. rewrite !String.eqb_refl. apply orb_true_r.
Qed.
End Hover.

Lemma hover_highlights_conflicts_witness :
  wf_graph (heap scenarioState) scenarioGraph /\
  closed (heap scenarioState) scenarioGraph /\
  symmetric (heap scenarioState) scenarioGraph /\
  exists r s',
    producedBy codeUnitCompare scenarioGraph None scenarioState r s' /\
    forall d n,
      highlighted (graphLinks (heap s') (resCourses r)) d n = true <->
      n = d \/ In n (conflictsOf (heap scenarioState) scenarioGraph d).
Proof.
  assert (Hwf : wf_graph (heap scenarioState) scenarioGraph)
    by (apply wf_graphb_sound; reflexivity).
  assert (Hcl : closed (heap scenarioState) scenarioGraph)
    by (apply closedb_sound; reflexivity).
  assert (Hsym : symmetric (heap scenarioState) scenarioGraph)
    by (apply symmetricb_sound; reflexivity).
  split; [exact Hwf |]. split; [exact Hcl |]. split; [exact Hsym |].
  eexists _, _. split; [left; vm_compute; reflexivity |].
  apply (hover_highlights_conflicts codeUnitCompare scenarioGraph None
           scenarioState _ _ Hwf Hcl Hsym).
  left. vm_compute. reflexivity.
Defined.

(* ------------------------------------------------------------------ *)
(** ** parseCourseList *)

Lemma dedupe_acc (l : list string) :
  forall acc,
    NoDup acc ->
    NoDup (fold_left (fun a x => setAdd x a) l acc) /\
    forall x, In x (fold_left (fun a x => setAdd x a) l acc)
              <-> In x acc \/ In x l.
Proof.
  induction l as [| y l IH]; intros acc Hnd; simpl.
  - split; [assumption | intros x; tauto].
  - destruct (IH (setAdd y acc) (NoDup_setAdd y acc Hnd)) as [Hn Hin].
    split; [assumption |]. intros x. rewrite Hin, In_setAdd.
    split; [intros [[H | H] | H] | intros [H | [H | H]]]; auto.
Qed.

Lemma dedupe_spec (l : list string) :
  NoDup (dedupe l) /\ forall x, In x (dedupe l) <-> In x l.
Proof.
  destruct (dedupe_acc l [] (NoDup_nil _)) as [Hn Hin].
  split; [exact Hn |]. intros x. rewrite (Hin x). simpl. tauto.
Qed.

Lemma dedupe_NoDup_acc (l : list string) :
  forall acc, NoDup (acc ++ l) ->
    fold_left (fun a x => setAdd x a) l acc = acc ++ l.
Proof.
  induction l as [| y l IH]; intros acc Hnd; simpl.
  - now rewrite app_nil_r.
  - assert (Hy : setAdd y acc = acc ++ [y]).
    { unfold setAdd. destruct (setHas y acc) eqn:E; [| reflexivity].
      apply setHas_In in E. apply NoDup_remove_2 in Hnd.
      exfalso. apply Hnd. apply in_or_app. now left. }
    rewrite Hy, IH; rewrite <- app_assoc; [reflexivity | assumption].
Qed.

Lemma dedupe_NoDup (l : list string) : NoDup l -> dedupe l = l.
Proof. intros Hnd. now apply (dedupe_NoDup_acc l []). Qed.

Lemma truthy_spec s : truthy s = true <-> s <> "".
Proof.
  unfold truthy. destruct (String.eqb_spec s ""); simpl; split;
    congruence.
Qed.

Lemma allChars_impl (p q : ascii -> bool) s :
  (forall c, p c = true -> q c = true) ->
  allChars p s = true -> allChars q s = true.
Proof.
  intros Hpq. induction s as [| c s IH]; simpl; [reflexivity |].
  intros H. apply andb_true_iff in H. destruct H as [Hc Hs].
  apply andb_true_iff. auto.
Qed.

Lemma allChars_trimStart p s :
  allChars p s = true -> allChars p (trimStart s) = true.
Proof.
  induction s as [| c s IH]; simpl; [reflexivity |].
  intros H. destruct (isWhiteSpace c); [| exact H].
  apply andb_true_iff in H. now apply IH.
Qed.

Lemma allChars_trimEnd p s :
  allChars p s = true -> allChars p (trimEnd s) = true.
Proof.
  induction s as [| c s IH]; simpl; [reflexivity |].
  intros H. apply andb_true_iff in H. destruct H as [Hc Hs].
  specialize (IH Hs). destruct (trimEnd s) as [| c' t].
  - destruct (isWhiteSpace c); simpl; [reflexivity | now rewrite Hc].
  - simpl in *. now rewrite Hc.
Qed.

Lemma allChars_trim p s : allChars p s = true -> allChars p (trim s) = true.
Proof. intros H. now apply allChars_trimEnd, allChars_trimStart. Qed.

Lemma allChars_removeQuotes p s :
  allChars p s = true ->
  allChars (fun c => p c && negb (isQuote c)) (removeQuotes s) = true.
Proof.
  induction s as [| c s IH]; simpl; [reflexivity |].
  intros H. apply andb_true_iff in H. destruct H as [Hc Hs].
  destruct (isQuote c) eqn:E; simpl; [now apply IH |].
  now rewrite Hc, E, IH.
Qed.

Lemma removeQuotes_clean s :
  allChars (fun c => negb (isQuote c)) s = true -> removeQuotes s = s.
Proof.
  induction s as [| c s IH]; simpl; [reflexivity |].
  intros H. apply andb_true_iff in H. destruct H as [Hc Hs].
  apply negb_true_iff in Hc. rewrite Hc. now rewrite IH.
Qed.

Lemma splitFrom_nonnil b s : splitFrom b s <> [].
Proof.
  revert b. induction s as [| c s IH]; intros b; simpl; [discriminate |].
  destruct (isSeparator c).
  - destruct b; [apply IH | discriminate].
  - destruct (splitFrom false s); discriminate.
Qed.

(** No piece of the split contains a separator. *)
Lemma splitFrom_pieces s :
  forall b w, In w (splitFrom b s) ->
    allChars (fun c => negb (isSeparator c)) w = true.
Proof.
  induction s as [| c s IH]; intros b w; simpl.
  - intros [<- | []]. reflexivity.
  - destruct (isSeparator c) eqn:E.
    + destruct b; [apply IH |]. intros [<- | H]; [reflexivity | eauto].
    + destruct (splitFrom false s) as [| w0 ws] eqn:Es.
      * intros [<- | []]. simpl. now rewrite E.
      * intros [<- | H].
        { simpl. rewrite E. simpl. apply (IH false). rewrite Es. now left. }
        { apply (IH false). rewrite Es. now right. }
Qed.

(** A piece without separators in front of the rest of the input. *)
Lemma splitFrom_append n rest :
  allChars (fun c => negb (isSeparator c)) n = true ->
  forall b, n <> "" \/ b = false ->
    splitFrom b (String.append n rest)
    = match splitFrom false rest with
      | [] => [n]
      | w :: ws => String.append n w :: ws
      end.
Proof.
  induction n as [| c n IH]; intros Hn b Hb; simpl.
  - destruct Hb as [Hb | ->]; [congruence |].
    destruct (splitFrom false rest) eqn:E; [| reflexivity].
    now apply splitFrom_nonnil in E.
  - simpl in Hn. apply andb_true_iff in Hn. destruct Hn as [Hc Hn].
    apply negb_true_iff in Hc. rewrite Hc.
    rewrite (IH Hn false) by now right.
    destruct (splitFrom false rest); reflexivity.
Qed.

Lemma append_empty_r s : String.append s "" = s.
Proof. induction s as [| c s IH]; simpl; [reflexivity | now rewrite IH]. Qed.

Lemma splitFrom_joinComma names :
  Forall (fun n => allChars (fun c => negb (isSeparator c)) n = true) names ->
  names <> [] ->
  splitFrom false (joinComma names)
  = match names with
    | [] => []
    | x :: rest => x :: map (String " "%char) rest
    end.
Proof.
  induction 1 as [| x rest Hx Hrest IH]; intros Hne; [congruence |].
  destruct rest as [| y rest].
  - simpl. rewrite <- (append_empty_r x) at 1.
    rewrite splitFrom_append by auto. simpl. f_equal. apply append_empty_r.
  - change (joinComma (x :: y :: rest))
      with (String.append x (String.append ", " (joinComma (y :: rest)))).
    rewrite splitFrom_append by auto.
    change (splitFrom false (String.append ", " (joinComma (y :: rest))))
      with (EmptyString
              :: match splitFrom false (joinComma (y :: rest)) with
                 | [] => [String " "%char EmptyString]
                 | w :: ws => String " "%char w :: ws
                 end).
    rewrite IH by discriminate. rewrite append_empty_r. reflexivity.
Qed.

(** The result of [trim] is empty or starts with a code unit that is no
    white space. *)
Lemma trimStart_head s c t :
  trimStart s = String c t -> isWhiteSpace c = false.
Proof.
  induction s as [| c' s IH]; simpl; [discriminate |].
  destruct (isWhiteSpace c') eqn:E; [assumption |].
  now intros [= <- <-].
Qed.

Lemma trimEnd_head c s :
  isWhiteSpace c = false -> exists t, trimEnd (String c s) = String c t.
Proof.
  intros Hc. simpl. destruct (trimEnd s); rewrite ?Hc; eauto.
Qed.

Lemma trimEnd_head_inv s c t :
  trimEnd s = String c t -> exists s', s = String c s'.
Proof.
  destruct s as [| c' s]; simpl; [discriminate |].
  destruct (trimEnd s); [destruct (isWhiteSpace c'); [discriminate |] |];
    intros [= <- <-]; eauto.
Qed.

Lemma trim_head s c t : trim s = String c t -> isWhiteSpace c = false.
Proof.
  unfold trim. intros E. destruct (trimEnd_head_inv _ _ _ E) as [s' Es].
  eapply trimStart_head; eauto.
Qed.

Lemma trim_truthy c s :
  isWhiteSpace c = false -> truthy (trim (String c s)) = true.
Proof.
  intros Hc. unfold trim. simpl trimStart. rewrite Hc.
  destruct (trimEnd_head c s Hc) as [t ->]. reflexivity.
Qed.

Lemma cleanName_spec n :
  cleanName n = true ->
  n <> "" /\ trim n = n /\
  allChars (fun c => negb (isSeparator c)) n = true /\
  allChars (fun c => negb (isQuote c)) n = true.
Proof.
  unfold cleanName. intros H. apply andb_true_iff in H.
  destruct H as [H Hc]. apply andb_true_iff in H. destruct H as [Ht Htr].
  apply truthy_spec in Ht. apply String.eqb_eq in Htr.
  split; [assumption |]. split; [assumption |].
  split; eapply allChars_impl; try exact Hc; cbv beta; intros c Hx;
    apply andb_true_iff in Hx; tauto.
Qed.

(** X13.  Whatever the input, parseCourseList returns a list without
    repetitions, whose names are not empty and contain no comma, no line
    break and no quote. *)
Theorem parseCourseList_names :
  forall input : string,
    NoDup (parseCourseList input) /\
    forall c, In c (parseCourseList input) ->
      c <> "" /\
      allChars (fun ch => negb (isSeparator ch) && negb (isQuote ch)) c
      = true.
Proof.
  intros input. unfold parseCourseList.
  destruct (negb (truthy input) || negb (truthy (trim input))).
  - split; [constructor | intros c []].
  - cbv zeta.
    destruct (dedupe_spec
                (filter truthy
                   (map removeQuotes
                      (filter truthy (map trim (splitSeparators input))))))
      as [Hn Hin].
    split; [exact Hn |].
    intros c Hc. apply (proj1 (Hin c)) in Hc. apply filter_In in Hc.
    destruct Hc as [Hc Hne]. apply truthy_spec in Hne.
    split; [assumption |].
    apply in_map_iff in Hc. destruct Hc as [w [<- Hw]].
    apply filter_In in Hw. destruct Hw as [Hw _].
    apply in_map_iff in Hw. destruct Hw as [piece [<- Hp]].
    apply allChars_removeQuotes, allChars_trim.
    eapply splitFrom_pieces; eauto.
Qed.

(** Clean names joined with a comma and a space are parsed back, up to
    the removal of repetitions. *)
Lemma parseCourseList_joinComma_dedupe (names : list string) :
  Forall (fun n => cleanName n = true) names ->
  parseCourseList (joinComma names) = dedupe names.
Proof.
  intros Hclean.
  destruct names as [| x rest]; [reflexivity |].
  assert (Hall : forall n, In n (x :: rest) ->
            n <> "" /\ trim n = n /\
            allChars (fun c => negb (isSeparator c)) n = true /\
            allChars (fun c => negb (isQuote c)) n = true).
  { intros n Hn. apply cleanName_spec. rewrite Forall_forall in Hclean.
    now apply Hclean. }
  destruct (Hall x (or_introl eq_refl)) as (Hx & Htx & _ & _).
  destruct x as [| c x']; [congruence |].
  assert (Hc : isWhiteSpace c = false) by (eapply trim_head; eauto).
  assert (Hj : exists j, joinComma (String c x' :: rest) = String c j).
  { destruct rest; simpl; eauto. }
  destruct Hj as [j Hj].
  unfold parseCourseList.
  assert (Hguard : negb (truthy (joinComma (String c x' :: rest)))
                   || negb (truthy (trim (joinComma (String c x' :: rest))))
                   = false).
  { rewrite Hj. now rewrite trim_truthy. }
  rewrite Hguard. cbv zeta. unfold splitSeparators.
  rewrite splitFrom_joinComma;
    [| apply Forall_forall; intros n Hn; now apply Hall | discriminate].
  assert (Htrim : map trim (String c x' :: map (String " "%char) rest)
                  = String c x' :: rest).
  { simpl map. rewrite Htx. f_equal. rewrite map_map.
    rewrite <- (map_id rest) at 2. apply map_ext_in. intros n Hn.
    change (trim (String " "%char n)) with (trim n).
    apply Hall. now right. }
  rewrite Htrim.
  assert (Hfilter : forall l, (forall n, In n l -> n <> "") ->
                              filter truthy l = l).
  { induction l as [| n l IH]; intros Hl; simpl; [reflexivity |].
    rewrite (proj2 (truthy_spec n)) by (apply Hl; now left).
    f_equal. apply IH. intros m Hm. apply Hl. now right. }
  rewrite (Hfilter (String c x' :: rest)) by (intros n Hn; now apply Hall).
  assert (Hquotes : map removeQuotes (String c x' :: rest)
                    = String c x' :: rest).
  { rewrite <- (map_id (String c x' :: rest)) at 2. apply map_ext_in.
    intros n Hn. apply removeQuotes_clean. now apply Hall. }
  rewrite Hquotes, Hfilter by (intros n Hn; now apply Hall).
  reflexivity.
Qed.

(** X14.  Round trip with the format of the course field: a list of
    distinct clean names, joined with [', '] as parseCoursesCSV and the
    exports write it, is parsed back to the same list, in the same
    order. *)
Theorem parseCourseList_joinComma :
  forall names : list string,
    NoDup names -> Forall (fun n => cleanName n = true) names ->
    parseCourseList (joinComma names) = names.
Proof.
  intros names Hnd Hclean.
  rewrite (parseCourseList_joinComma_dedupe names Hclean).
  now apply dedupe_NoDup.
Qed.

Lemma parseCourseList_joinComma_witness :
  NoDup scenarioCourses /\
  Forall (fun n => cleanName n = true) scenarioCourses /\
  parseCourseList (joinComma scenarioCourses) = scenarioCourses.
Proof.
  assert (Hnd : NoDup scenarioCourses) by (apply nodupb_NoDup; reflexivity).
  assert (Hcl : Forall (fun n => cleanName n = true) scenarioCourses).
  { unfold scenarioCourses.
    repeat (apply Forall_cons; [reflexivity |]). apply Forall_nil. }
  split; [exact Hnd |]. split; [exact Hcl |].
  exact (parseCourseList_joinComma scenarioCourses Hnd Hcl).
Defined.

(* ------------------------------------------------------------------ *)
(** ** The order in which greedyColoring places the courses *)

Section GreedyHead.
Variable cmap : CourseMap.
Variable h0 : list Course.
Variable c0 : list LogEntry.
Hypothesis Hwf : wf_graph h0 cmap.

(** The first course placed opens slot 1 and stays at its head. *)
Lemma assignAll_head l s :
  NoDup l -> (forall x, In x l -> In x (values cmap)) ->
  console s = c0 -> sameStatic h0 (heap s) ->
  exists sls s',
    foldM assignCourse l [] s = (Ok sls, s') /\
    forall a0 rest0, l = a0 :: rest0 ->
      exists t, slotList sls 1 = nameAt h0 a0 :: t.
Proof.
  intros Hnd Hsub Hco HS.
  destruct (foldM_invariant_split assignCourse
              (fun done sls s =>
                 assignInv cmap h0 c0 done sls s /\
                 forall a0 rest0, done = a0 :: rest0 ->
                   exists t, slotList sls 1 = nameAt h0 a0 :: t) l)
    with (b := @nil (nat * list string)) (s := s)
    as (sls & s' & E & _ & Hhead).
  - intros done a rest sls s1 El [Hinv Hhead].
    destruct (assignInv_step cmap h0 c0 Hwf l done a rest sls s1
                Hnd Hsub El Hinv) as (sls' & s' & E & Hinv').
    exists sls', s'. split; [exact E |]. split; [exact Hinv' |].
    destruct Hinv as (Hok & _ & HS1 & _ & Hnames & _ & Hne & _).
    destruct (assignCourse_run sls a s1 Hok) as (r & (Hr & _) & E').
    rewrite E' in E. injection E as <- <-.
    rewrite (sameStatic_name h0 (heap s1) a HS1). fold (nameAt h0 a).
    intros a0 rest0 Ed. rewrite slotList_pushSlot.
    destruct done as [| d0 done'].
    + simpl in Ed. injection Ed as <- <-.
      assert (Hempty : forall sl, slotList sls sl = []).
      { intros sl. destruct (slotList sls sl) as [| x xs] eqn:Ex;
          [reflexivity |].
        exfalso. apply (proj1 (Hnames x)). exists sl. rewrite Ex. now left. }
      assert (Hlen : length sls = 0).
      { destruct (length sls) as [| n] eqn:El0; [reflexivity |].
        exfalso. apply (Hne 1); [lia | apply Hempty]. }
      assert (r = 1) by lia. subst r. simpl. rewrite Hempty. now exists [].
    + simpl in Ed. injection Ed as <- <-.
      destruct (Hhead d0 done' eq_refl) as [t Ht].
      destruct (Nat.eqb_spec 1 r) as [<- | _].
      * rewrite Ht. simpl. eauto.
      * eauto.
  - split; [now apply assignInv_init | discriminate].
  - exists sls, s'. now split.
Qed.
End GreedyHead.

Lemma byDegreeThenName_sorted localeCompare h l :
  ForallOrdPairs
    (fun a b => length (conflicts (deref h b))
                <= length (conflicts (deref h a)))
    (sortBy (byDegreeThenName localeCompare h) l).
Proof.
  apply sortBy_sorted.
  - intros; lia.
  - intros x y. unfold byDegreeThenName.
    destruct (Nat.eqb_spec (length (conflicts (deref h y)))
                           (length (conflicts (deref h x)))); simpl;
      intros; lia.
  - intros x y. unfold byDegreeThenName.
    destruct (Nat.eqb_spec (length (conflicts (deref h y)))
                           (length (conflicts (deref h x)))); simpl;
      intros; lia.
Qed.

Section GreedyOrder.
Variable localeCompare : string -> string -> Z.

(** X15.  greedyColoring starts with a course of largest degree: on a
    non-empty course graph the first course of slot 1 is a course whose
    conflict set is at least as large as that of every course, whatever
    the collation is. *)
Theorem greedy_first_is_busiest :
  forall (cmap : CourseMap) (sts : option (list Student)) (s : State),
    wf_graph (heap s) cmap -> cmap <> [] ->
    exists r s' k t,
      greedyColoring localeCompare cmap sts s = (Ok r, s') /\
      slotList (slots r) 1 = k :: t /\
      In k (keys cmap) /\
      forall k', In k' (keys cmap) ->
        length (conflictsOf (heap s) cmap k')
        <= length (conflictsOf (heap s) cmap k).
Proof.
  intros cmap sts s Hwf Hne.
  assert (Hv : values cmap <> []) by (destruct cmap; [congruence | discriminate]).
  destruct (resetAll_spec (values cmap) s) as (s1 & E1 & Hco1 & HS1).
  assert (Hwf1 : wf_graph (heap s1) cmap)
    by (eapply sameStatic_wf_graph; eauto).
  pose proof (sortBy_Permutation (byDegreeThenName localeCompare (heap s1))
                (values cmap)) as Hperm.
  pose proof (byDegreeThenName_sorted localeCompare (heap s1) (values cmap))
    as Hsorted.
  fold (sortedCourses localeCompare (heap s1) cmap) in Hperm, Hsorted.
  destruct (assignAll_head cmap (heap s1) (console s1) Hwf1
              (sortedCourses localeCompare (heap s1) cmap) s1)
    as (sls & s2 & E2 & Hhead).
  { eapply Permutation_NoDup; [symmetry; exact Hperm |].
    eapply wf_graph_NoDup_values; eauto. }
  { intros x Hx. eapply Permutation_in; eauto. }
  { reflexivity. }
  { apply sameStatic_refl. }
  destruct (sortedCourses localeCompare (heap s1) cmap) as [| a0 rest0] eqn:Es.
  { exfalso. apply Hv. apply Permutation_nil. exact Hperm. }
  destruct (Hhead a0 rest0 eq_refl) as [t Ht].
  assert (Ha0 : In a0 (values cmap)).
  { eapply Permutation_in; [exact Hperm | now left]. }
  destruct (wf_graph_entry (heap s1) cmap a0 Hwf1 Ha0) as [Hk Hcf].
  exists (greedyResult localeCompare (heap s1) cmap sts sls),
         (reported cmap sls s2), (nameAt (heap s1) a0), t.
  split.
  { apply (greedyColoring_steps localeCompare cmap sts s s1 sls s2);
      [exact Hv | exact E1 | now rewrite Es]. }
  split; [exact Ht |]. split; [exact Hk |].
  intros k' Hk'.
  rewrite <- !(sameStatic_conflictsOf (heap s) (heap s1)) by assumption.
  unfold nameAt. rewrite Hcf.
  destruct (In_keys_mapGet cmap k' Hk') as [a' Ha'].
  unfold conflictsOf at 1. rewrite Ha'.
  assert (Hin : In a' (a0 :: rest0)).
  { eapply Permutation_in; [symmetry; exact Hperm |].
    apply in_map_iff. exists (k', a'). split; [reflexivity |].
    now apply mapGet_In. }
  inversion Hsorted as [| ? ? Hall _]; subst.
  destruct Hin as [<- | Hin]; [lia |].
  rewrite Forall_forall in Hall. now apply Hall.
Qed.
End GreedyOrder.

Lemma greedy_first_is_busiest_witness :
  wf_graph (heap scenarioState) scenarioGraph /\
  scenarioGraph <> [] /\
  exists r s' k t,
    greedyColoring codeUnitCompare scenarioGraph None scenarioState
    = (Ok r, s') /\
    slotList (slots r) 1 = k :: t /\
    In k (keys scenarioGraph) /\
    forall k', In k' (keys scenarioGraph) ->
      length (conflictsOf (heap scenarioState) scenarioGraph k')
      <= length (conflictsOf (heap scenarioState) scenarioGraph k).
Proof.
  assert (Hwf : wf_graph (heap scenarioState) scenarioGraph)
    by (apply wf_graphb_sound; reflexivity).
  assert (Hne : scenarioGraph <> []) by discriminate.
  split; [exact Hwf |]. split; [exact Hne |].
  exact (greedy_first_is_busiest codeUnitCompare scenarioGraph None
           scenarioState Hwf Hne).
Defined.

(* ------------------------------------------------------------------ *)
(** ** dsaturColoring does not read an earlier colouring *)

Lemma deref_snoc h c a :
  deref (h ++ [c]) a
  = if a <? length h then deref h a
    else if a =? length h then c else blank.
Proof.
  destruct (Nat.ltb_spec a (length h)) as [Hlt | Hge].
  - now apply deref_app_l.
  - destruct (Nat.eqb_spec a (length h)) as [-> | Hne].
    + apply deref_app_new.
    + unfold deref. apply nth_overflow. rewrite length_app. simpl. lia.
Qed.

Lemma sameFrom_start h h' : sameStatic h h' -> sameFrom (length h) h h'.
Proof.
  intros HS. split; [assumption |]. intros a Ha. destruct HS as [Hlen _].
  unfold deref. rewrite !nth_overflow; [reflexivity | lia | lia].
Qed.

Lemma sameFrom_alloc n h h' c :
  sameFrom n h h' -> sameFrom n (h ++ [c]) (h' ++ [c]).
Proof.
  intros [[Hlen Hst] Hfrom]. split; [split |].
  - rewrite !length_app. simpl. lia.
  - intros a. rewrite !deref_snoc, Hlen.
    destruct (a <? length h); [apply Hst |].
    destruct (a =? length h); reflexivity.
  - intros a Ha. rewrite !deref_snoc, Hlen.
    destruct (a <? length h); [now apply Hfrom |].
    destruct (a =? length h); reflexivity.
Qed.

Lemma sameFrom_update n h h' a sl col :
  sameFrom n h h' ->
  sameFrom n (update a (setSlotColor sl col) h)
             (update a (setSlotColor sl col) h').
Proof.
  intros [[Hlen Hst] Hfrom]. split; [split |].
  - now rewrite !length_update.
  - intros b. rewrite !deref_update, Hlen.
    destruct ((a =? b) && (a <? length h)); [| apply Hst].
    specialize (Hst b). unfold static in *. simpl. exact Hst.
  - intros b Hb. rewrite !deref_update, Hlen.
    destruct ((a =? b) && (a <? length h)); now rewrite Hfrom.
Qed.

Lemma copyAll_sameFrom n orig :
  forall acc s t,
    sameFrom n (heap s) (heap t) ->
    fst (foldM copyCourse orig acc s) = fst (foldM copyCourse orig acc t) /\
    sameFrom n (heap (snd (foldM copyCourse orig acc s)))
               (heap (snd (foldM copyCourse orig acc t))).
Proof.
  induction orig as [| [nm a] orig IH]; intros acc s t Hrel.
  - now split.
  - rewrite !foldM_cons. unfold copyCourse, bind, getHeap, alloc, ret.
    cbn [fst snd heap console].
    destruct Hrel as [[Hlen Hst] Hfrom].
    assert (Ec : mkCourse (name (deref (heap t) a))
                          (conflicts (deref (heap t) a)) None None
                 = mkCourse (name (deref (heap s) a))
                            (conflicts (deref (heap s) a)) None None).
    { specialize (Hst a). unfold static in Hst. now injection Hst as -> ->. }
    rewrite Ec, Hlen. apply IH. cbn [heap].
    apply sameFrom_alloc. now split.
Qed.

Lemma initMaps_static h h' cmap l :
  sameStatic h h' -> initMaps h' cmap l = initMaps h cmap l.
Proof.
  intros HS. unfold initMaps. generalize (Ok (@nil (string * option nat),
    @nil (string * list nat), @nil (string * nat))).
  induction l as [| nm l IH]; intros acc; simpl; [reflexivity |].
  rewrite IH. f_equal. unfold initEntry. destruct acc as [[[ca sat] deg] | |];
    simpl; try reflexivity.
  destruct (mapGet nm cmap); [| reflexivity].
  now rewrite (sameStatic_conflicts h h').
Qed.

Lemma dsaturLoop_static localeCompare h h' cmap names deg :
  sameStatic h h' ->
  forall fuel ca sat,
    dsaturLoop localeCompare fuel h' cmap names deg ca sat
    = dsaturLoop localeCompare fuel h cmap names deg ca sat.
Proof.
  intros HS. induction fuel as [| fuel IH]; intros ca sat; [reflexivity |].
  rewrite !dsaturLoop_S.
  destruct (length (uncolored names ca) =? 0); [reflexivity |].
  destruct (sortBy (bySaturation localeCompare sat deg) (uncolored names ca))
    as [| v rest]; [reflexivity |].
  destruct (mapGet v cmap) as [a |]; [| reflexivity]. cbv zeta.
  rewrite (sameStatic_conflicts h h' a HS).
  destruct (smallestFree _ _ 1) as [col | |]; cbn [obind]; try reflexivity.
  destruct (updateSaturation col _ sat) as [sat' | |]; cbn [obind];
    try reflexivity.
  apply IH.
Qed.

Lemma placeAll_sameFrom n cmap (ca : ColorAssignment) :
  forall (sls : Slots) s t,
    sameFrom n (heap s) (heap t) ->
    fst (foldM (placeCourse cmap) ca sls s)
    = fst (foldM (placeCourse cmap) ca sls t) /\
    sameFrom n (heap (snd (foldM (placeCourse cmap) ca sls s)))
               (heap (snd (foldM (placeCourse cmap) ca sls t))).
Proof.
  induction ca as [| [nm col] ca IH]; intros sls s t Hrel.
  - now split.
  - rewrite !foldM_cons, !placeCourse_run.
    destruct (mapGet nm cmap) as [a |]; [| now split].
    apply IH. cbn [heap]. now apply sameFrom_update.
Qed.

Section DsaturStatic.
Variable localeCompare : string -> string -> Z.

(** X16.  dsaturColoring reads names and conflict sets only: on two
    stores that differ in the slots and colours of their courses alone
    (the graph before and after greedyColoring, say) it has the same
    outcome, with the same ScheduleResult, and allocates the same
    objects. *)
Theorem dsaturColoring_ignores_coloring :
  forall (cmap : CourseMap) (sts : option (list Student)) (s t : State),
    sameStatic (heap s) (heap t) ->
    fst (dsaturColoring localeCompare cmap sts t)
    = fst (dsaturColoring localeCompare cmap sts s) /\
    forall a, length (heap s) <= a ->
      deref (heap (snd (dsaturColoring localeCompare cmap sts t))) a
      = deref (heap (snd (dsaturColoring localeCompare cmap sts s))) a.
Proof.
  intros cmap sts s t HS.
  pose proof (sameFrom_start _ _ HS) as Hrel.
  destruct (copyAll_sameFrom (length (heap s)) cmap [] s t Hrel)
    as [Ecopy Hrel1].
  destruct (copyAll_spec cmap s) as (cm & s1 & ext & Es & _).
  destruct (copyAll_spec cmap t) as (cm' & t1 & ext' & Et & _).
  rewrite Es, Et in Ecopy, Hrel1. cbn [fst snd] in Ecopy, Hrel1.
  injection Ecopy as <-.
  assert (Hcase : keys cm = [] \/ keys cm <> [])
    by (destruct (keys cm); [now left | right; discriminate]).
  destruct Hcase as [Ek | Hne].
  - rewrite (dsaturColoring_empty localeCompare cmap sts s cm s1 Es Ek),
      (dsaturColoring_empty localeCompare cmap sts t cm t1 Et Ek).
    split; [reflexivity | apply Hrel1].
  - destruct (initMaps_spec (heap s1) cm) as (ca0 & sat0 & deg & Ei & _).
    assert (Ei' : initMaps (heap t1) cm (keys cm) = Ok (ca0, sat0, deg)).
    { rewrite <- Ei. apply initMaps_static. apply Hrel1. }
    rewrite (dsaturColoring_steps localeCompare cmap sts s cm s1
               ca0 sat0 deg Es Hne Ei),
      (dsaturColoring_steps localeCompare cmap sts t cm t1
               ca0 sat0 deg Et Hne Ei').
    rewrite (dsaturLoop_static localeCompare (heap s1) (heap t1) cm
               (keys cm) deg (proj1 Hrel1)).
    destruct (dsaturLoop localeCompare (S (length (keys cm))) (heap s1) cm
                (keys cm) deg ca0 sat0) as [ca | |];
      try (split; [reflexivity | apply Hrel1]).
    destruct (placeAll_sameFrom (length (heap s)) cm ca [] s1 t1 Hrel1)
      as [Eplace Hrel2].
    destruct (foldM (placeCourse cm) ca [] s1) as [[sls | |] s2];
      destruct (foldM (placeCourse cm) ca [] t1) as [[sls' | |] t2];
      cbn [fst snd] in *; try discriminate;
      try (split; [reflexivity | apply Hrel2]).
    injection Eplace as <-. split; [| apply Hrel2].
    unfold dsaturResult.
    rewrite (collectPairs_static (map (deref (heap t2)) (values cm))
               (map (deref (heap s2)) (values cm))); [reflexivity |].
    rewrite !map_map. apply map_ext. intros a. apply Hrel2.
Qed.
End DsaturStatic.

Lemma dsaturColoring_ignores_coloring_witness :
  sameStatic (heap scenarioState) (heap scenarioColoured) /\
  fst (dsaturColoring codeUnitCompare scenarioGraph None scenarioColoured)
  = fst (dsaturColoring codeUnitCompare scenarioGraph None scenarioState) /\
  forall a, length (heap scenarioState) <= a ->
    deref (heap (snd (dsaturColoring codeUnitCompare scenarioGraph None
                        scenarioColoured))) a
    = deref (heap (snd (dsaturColoring codeUnitCompare scenarioGraph None
                          scenarioState))) a.
Proof.
  assert (HS : sameStatic (heap scenarioState) (heap scenarioColoured)).
  { split; [reflexivity |]. intros a.
    do 3 (destruct a as [| a]; [reflexivity |]). reflexivity. }
  split; [exact HS |].
  exact (dsaturColoring_ignores_coloring codeUnitCompare scenarioGraph None
           scenarioState scenarioColoured HS).
Defined.

(* ------------------------------------------------------------------ *)
(** ** The conflict details of a result *)

Lemma splitBar_barless s : hasBar s = false -> splitBar s = [s].
Proof.
  induction s as [| c s IH]; simpl; [reflexivity |].
  destruct (Ascii.eqb c "|"%char); simpl; [discriminate |].
  intros H. now rewrite (IH H).
Qed.

Lemma splitBar_joinBar p :
  hasBar (fst p) = false -> hasBar (snd p) = false ->
  splitBar (joinBar p) = pairList p.
Proof.
  destruct p as [x y]. unfold joinBar, pairList. simpl. intros Hx Hy.
  induction x as [| c x IH]; simpl.
  - now rewrite (splitBar_barless y Hy).
  - simpl in Hx. destruct (Ascii.eqb c "|"%char); simpl in *; [discriminate |].
    now rewrite (IH Hx).
Qed.

Section Details.
Variable localeCompare : string -> string -> Z.

(** The pair keys behind the totals of a result of either colourer. *)
Lemma produced_details cmap sts s r s' :
  wf_graph (heap s) cmap ->
  producedBy localeCompare cmap sts s r s' ->
  exists l,
    (forall a, In a l <-> In a (values (resCourses r))) /\
    totalConflicts r = length (collectPairs (map (deref (heap s')) l)) /\
    conflictDetails r
    = mkConflictDetails (totalConflicts r)
        (map splitBar (collectPairs (map (deref (heap s')) l))).
Proof.
  intros Hwf [Hrun | Hrun].
  - destruct (values cmap) as [| a0 l0] eqn:Ev.
    + rewrite (greedyColoring_empty localeCompare cmap sts s Ev) in Hrun.
      injection Hrun as <- <-. exists []. simpl. rewrite Ev.
      split; [tauto | split; reflexivity].
    + assert (Hne : values cmap <> []) by (rewrite Ev; discriminate).
      clear Ev.
      destruct (resetAll_spec (values cmap) s) as (s1 & E1 & _ & HS1).
      destruct (assignAll_total (sortedCourses localeCompare (heap s1) cmap)
                  [] s1 slotsOk_nil) as (sls & s2 & E2 & _ & _ & HS2).
      rewrite (greedyColoring_steps localeCompare cmap sts s s1 sls s2
                 Hne E1 E2) in Hrun.
      injection Hrun as <- <-.
      exists (sortedCourses localeCompare (heap s1) cmap).
      unfold greedyResult. cbn [resCourses totalConflicts conflictDetails].
      rewrite heap_reported.
      assert (Ecp : collectPairs (map (deref (heap s2))
                                   (sortedCourses localeCompare (heap s1) cmap))
                    = collectPairs (map (deref (heap s1))
                                   (sortedCourses localeCompare (heap s1) cmap))).
      { apply collectPairs_static. rewrite !map_map. apply map_ext.
        intros a. apply HS2. }
      rewrite Ecp. split; [| split; reflexivity].
      intros a. unfold sortedCourses.
      split; apply Permutation_in; [| symmetry]; apply sortBy_Permutation.
  - destruct (copyAll_spec cmap s) as (cm & s1 & ext & E & _).
    assert (Hcase : keys cm = [] \/ keys cm <> [])
      by (destruct (keys cm); [now left | right; discriminate]).
    destruct Hcase as [Ek | Hne].
    + rewrite (dsaturColoring_empty localeCompare cmap sts s cm s1 E Ek)
        in Hrun.
      injection Hrun as <- <-. exists []. simpl.
      assert (cm = []) by (now destruct cm). subst cm.
      split; [tauto | split; reflexivity].
    + destruct (initMaps_spec (heap s1) cm) as (ca0 & sat0 & deg & Ei & _).
      rewrite (dsaturColoring_steps localeCompare cmap sts s cm s1
                 ca0 sat0 deg E Hne Ei) in Hrun.
      destruct (dsaturLoop localeCompare _ (heap s1) cm (keys cm) deg ca0 sat0)
        as [ca | |]; try discriminate.
      destruct (foldM (placeCourse cm) ca [] s1) as [[sls | |] s2];
        try discriminate.
      injection Hrun as <- <-. exists (values cm).
      split; [tauto | split; reflexivity].
Qed.

(** X17.  The conflict details of a result of either colourer.
    totalPairs is totalConflicts, and conflictPairsList has that many
    entries.  On course names without the separator [|] the entries are
    distinct and are exactly the two-element lists [A, B], in code-unit
    order, of the courses A and B with B in the conflict set of A. *)
Theorem conflictDetails_pairs :
  forall (cmap : CourseMap) (sts : option (list Student)) (s : State)
         (r : ScheduleResult) (s' : State),
    wf_graph (heap s) cmap ->
    producedBy localeCompare cmap sts s r s' ->
    totalPairs (conflictDetails r) = totalConflicts r /\
    length (conflictPairsList (conflictDetails r)) = totalConflicts r /\
    (barless (heap s) cmap ->
     NoDup (conflictPairsList (conflictDetails r)) /\
     forall e, In e (conflictPairsList (conflictDetails r)) <->
       exists k x, In k (keys cmap) /\
                   In x (conflictsOf (heap s) cmap k) /\
                   e = pairList (sortPair k x)).
Proof.
  intros cmap sts s r s' Hwf Hrun.
  destruct (produced_details cmap sts s r s' Hwf Hrun)
    as (l & Hl & Htot & Hdet).
  destruct (produced_facts localeCompare cmap sts s r s' Hwf Hrun)
    as (_ & _ & Hwf' & Hkeys & Hcf & _).
  rewrite Hdet. cbn [totalPairs conflictPairsList].
  split; [reflexivity |]. split; [now rewrite length_map |].
  intros Hbar.
  assert (Hbar' : forall c, In c (map (deref (heap s')) l) ->
            hasBar (name c) = false /\
            forall x, In x (conflicts c) -> hasBar x = false).
  { apply (barless_list (heap s') (resCourses r)); [assumption | |
      intros a; apply Hl].
    intros k Hk. apply Hkeys in Hk. destruct (Hbar k Hk) as [Hn Hx].
    rewrite Hcf. auto. }
  rewrite (collectPairs_unorderedPairs _ Hbar'), map_map.
  assert (Hpairs : forall p, In p (unorderedPairs (map (deref (heap s')) l)) <->
            exists k x, In k (keys cmap) /\
                        In x (conflictsOf (heap s) cmap k) /\
                        p = sortPair k x).
  { intros p. rewrite (graph_pairs (heap s') (resCourses r) l p Hwf' Hl).
    split; intros (k & x & Hk & Hx & ->); exists k, x.
    - rewrite <- Hcf. split; [now apply Hkeys | auto].
    - rewrite Hcf. split; [now apply Hkeys | auto]. }
  assert (Hsplit : forall p, In p (unorderedPairs (map (deref (heap s')) l)) ->
            splitBar (joinBar p) = pairList p).
  { intros p Hp. apply Hpairs in Hp. destruct Hp as (k & x & Hk & Hx & ->).
    destruct (Hbar k Hk) as [Hn Hc].
    destruct (hasBar_sortPair k x Hn (Hc x Hx)) as [H1 H2].
    now apply splitBar_joinBar. }
  rewrite (map_ext_in _ pairList _ Hsplit).
  split.
  - apply Finite.Injective_map_NoDup.
    + intros [a b] [a' b'] E. unfold pairList in E. simpl in E. congruence.
    + apply NoDup_collectWith. constructor.
  - intros e. rewrite in_map_iff. split.
    + intros [p [<- Hp]]. apply Hpairs in Hp.
      destruct Hp as (k & x & Hk & Hx & ->). eauto.
    + intros (k & x & Hk & Hx & ->). exists (sortPair k x).
      split; [reflexivity |]. apply Hpairs. eauto.
Qed.
End Details.

Lemma conflictDetails_pairs_witness :
  wf_graph (heap scenarioState) scenarioGraph /\
  exists r s',
    producedBy codeUnitCompare scenarioGraph None scenarioState r s' /\
    totalPairs (conflictDetails r) = totalConflicts r /\
    length (conflictPairsList (conflictDetails r)) = totalConflicts r /\
    (barless (heap scenarioState) scenarioGraph ->
     NoDup (conflictPairsList (conflictDetails r)) /\
     forall e, In e (conflictPairsList (conflictDetails r)) <->
       exists k x, In k (keys scenarioGraph) /\
                   In x (conflictsOf (heap scenarioState) scenarioGraph k) /\
                   e = pairList (sortPair k x)).
Proof.
  assert (Hwf : wf_graph (heap scenarioState) scenarioGraph)
    by (apply wf_graphb_sound; reflexivity).
  split; [exact Hwf |].
  eexists _, _. split; [left; vm_compute; reflexivity |].
  eapply (conflictDetails_pairs codeUnitCompare scenarioGraph None
            scenarioState _ _ Hwf).
  left. vm_compute. reflexivity.
Defined.

(* ------------------------------------------------------------------ *)
(** ** parseStudentData *)

Lemma allChars_app p a b :
  allChars p (String.append a b) = allChars p a && allChars p b.
Proof.
  induction a as [| c a IH]; simpl; [reflexivity |].
  now rewrite IH, andb_assoc.
Qed.

Lemma span_spec p s :
  s = String.append (fst (span p s)) (snd (span p s)) /\
  allChars p (fst (span p s)) = true /\
  match snd (span p s) with
  | EmptyString => True
  | String c _ => p c = false
  end.
Proof.
  induction s as [| c s IH]; simpl; [auto |].
  destruct (p c) eqn:E.
  - destruct (span p s) as [a b]. simpl in *.
    destruct IH as (Es & Ha & Hb). rewrite E, Ha. split; [now f_equal | auto].
  - simpl. rewrite E. auto.
Qed.

Lemma splitOn_pieces p sep s :
  allChars p s = true ->
  forall w, In w (splitOn sep s) ->
    allChars (fun c => p c && negb (Ascii.eqb c sep)) w = true.
Proof.
  induction s as [| c s IH]; simpl.
  - intros _ w [<- | []]. reflexivity.
  - intros H. apply andb_true_iff in H. destruct H as [Hc Hs].
    destruct (Ascii.eqb c sep) eqn:E.
    + intros w [<- | Hw]; [reflexivity | now apply IH].
    + destruct (splitOn sep s) as [| w0 ws] eqn:Es.
      * intros w [<- | []]. simpl. now rewrite Hc, E.
      * intros w [<- | Hw].
        { simpl. rewrite Hc, E. simpl. apply (IH Hs). now left. }
        { apply (IH Hs). now right. }
Qed.

Lemma lastChar_app s c : lastChar (String.append s (String c "")) = Some c.
Proof.
  induction s as [| c' s IH]; simpl; [reflexivity |].
  rewrite IH. now destruct (String.append s (String c "")).
Qed.

Lemma lastChar_app_r a b :
  b <> "" -> lastChar (String.append a b) = lastChar b.
Proof.
  intros Hb. induction a as [| c a IH]; simpl; [reflexivity |].
  rewrite IH. destruct (String.append a b) eqn:E; [| reflexivity].
  destruct a; simpl in E; [congruence | discriminate].
Qed.

Lemma allChars_lastChar p s c :
  allChars p s = true -> lastChar s = Some c -> p c = true.
Proof.
  induction s as [| c' s IH]; simpl; [discriminate |].
  intros H. apply andb_true_iff in H. destruct H as [Hc Hs].
  destruct s as [| c'' s']; [now intros [= <-] | now apply IH].
Qed.

(** What the last group of a pattern holds: a non-empty end of the line
    without line terminators. *)
Lemma matchRest_Some rest cs :
  matchRest rest = Some cs ->
  cs <> "" /\
  allChars (fun c => negb (isLineTerminator c)) cs = true /\
  lastChar cs = lastChar rest.
Proof.
  unfold matchRest. pose proof (span_spec isWhiteSpace rest) as (Es & Hws & _).
  destruct (span isWhiteSpace rest) as [ws tail]. simpl in *.
  destruct tail as [| c tail].
  - rewrite append_empty_r in Es. subst rest.
    destruct (lastChar ws) as [c |] eqn:El; [| discriminate].
    destruct (isLineTerminator c) eqn:Elt; [discriminate |].
    intros [= <-]. split; [discriminate |]. simpl. now rewrite Elt.
  - destruct (allChars _ (String c tail)) eqn:Ea; [| discriminate].
    intros [= <-]. split; [discriminate |]. split; [assumption |].
    rewrite Es. symmetry. apply lastChar_app_r. discriminate.
Qed.

Lemma matchPattern_Some idChar sep line idText cs :
  matchPattern idChar sep line = Some (idText, cs) ->
  exists rest,
    line = String.append idText (String sep rest) /\
    idText <> "" /\ allChars idChar idText = true /\
    matchRest rest = Some cs.
Proof.
  unfold matchPattern. pose proof (span_spec idChar line) as (Es & Hid & _).
  destruct (span idChar line) as [a b]. simpl in *.
  destruct a as [| c0 a]; [discriminate |].
  destruct b as [| c b]; [discriminate |].
  destruct (Ascii.eqb_spec c sep) as [-> | _]; [| discriminate].
  destruct (matchRest b) as [cs' |] eqn:Er; [| discriminate].
  intros [= <- <-]. exists b. repeat split; auto. discriminate.
Qed.

Lemma matchLine_Some line idText cs :
  matchLine line = Some (idText, cs) ->
  exists sep rest,
    line = String.append idText (String sep rest) /\
    idText <> "" /\ matchRest rest = Some cs.
Proof.
  unfold matchLine.
  destruct (matchPattern isWordChar ":"%char line) as [m |] eqn:E1.
  { intros [= ->]. destruct (matchPattern_Some _ _ _ _ _ E1)
      as (rest & El & Hne & _ & Hr). eauto. }
  destruct (matchPattern isWordChar ","%char line) as [m |] eqn:E2.
  { intros [= ->]. destruct (matchPattern_Some _ _ _ _ _ E2)
      as (rest & El & Hne & _ & Hr). eauto. }
  intros E3. destruct (matchPattern_Some _ _ _ _ _ E3)
    as (rest & El & Hne & _ & Hr). eauto.
Qed.

Lemma trimEnd_idempotent s : trimEnd (trimEnd s) = trimEnd s.
Proof.
  induction s as [| c s IH]; simpl; [reflexivity |].
  destruct (trimEnd s) as [| c' t] eqn:E.
  - destruct (isWhiteSpace c) eqn:Ec; simpl; [reflexivity | now rewrite Ec].
  - simpl in *. now rewrite IH.
Qed.

Lemma trim_idempotent s : trim (trim s) = trim s.
Proof.
  destruct (trim s) as [| c t] eqn:E; [reflexivity |].
  pose proof (trim_head _ _ _ E) as Hc.
  unfold trim at 1. simpl trimStart. rewrite Hc. rewrite <- E.
  unfold trim. apply trimEnd_idempotent.
Qed.

Lemma isComma_eqb c : Ascii.eqb c ","%char = isComma c.
Proof. destruct c as [[] [] [] [] [] [] [] []]; reflexivity. Qed.

Lemma standardize_cases c : standardize c = "IoT" \/ standardize c = c.
Proof.
  unfold standardize.
  destruct (String.eqb (toLowerCase c) "iot"
            || String.eqb (toLowerCase c) "internet of things"); auto.
Qed.

Lemma parseLine_Some line st :
  parseLine line = Some st ->
  id st <> "" /\ trim (id st) = id st /\ courses st <> [] /\
  forall c, In c (courses st) ->
    c <> "" /\
    allChars (fun ch => negb (isSeparator ch) && negb (isQuote ch)) c = true.
Proof.
  unfold parseLine. destruct (matchLine line) as [[idText cs] |] eqn:Em;
    [| discriminate].
  destruct (negb (truthy idText) || negb (truthy cs)); [discriminate |].
  cbv zeta.
  destruct (filter truthy
              (map standardize
                 (map removeQuotes
                    (filter truthy (map trim (splitOn ","%char cs))))))
    as [| c0 l0] eqn:Ec; [discriminate |].
  simpl Nat.ltb. cbn [andb negb].
  destruct (truthy (trim idText)) eqn:Et; [| discriminate].
  intros [= <-]. cbn [id courses].
  split; [now apply truthy_spec |]. split; [apply trim_idempotent |].
  split; [discriminate |].
  intros c Hc. rewrite <- Ec in Hc. apply filter_In in Hc.
  destruct Hc as [Hc Hne]. apply truthy_spec in Hne.
  split; [assumption |].
  apply in_map_iff in Hc. destruct Hc as [x [Ex Hx]].
  destruct (standardize_cases x) as [E | E]; rewrite E in Ex; subst c;
    [reflexivity |].
  apply in_map_iff in Hx. destruct Hx as [w [<- Hw]].
  apply filter_In in Hw. destruct Hw as [Hw _].
  apply in_map_iff in Hw. destruct Hw as [piece [<- Hp]].
  destruct (matchLine_Some _ _ _ Em) as (sep & rest & _ & _ & Hr).
  destruct (matchRest_Some _ _ Hr) as (_ & Hlt & _).
  pose proof (splitOn_pieces _ ","%char cs Hlt piece Hp) as Hpiece.
  eapply allChars_impl; [| apply allChars_removeQuotes, allChars_trim;
                           exact Hpiece].
  cbv beta. intros ch H. rewrite isComma_eqb in H.
  unfold isSeparator, isLineTerminator, isComma in *.
  destruct (nat_of_ascii ch =? 44), (nat_of_ascii ch =? 10),
    (nat_of_ascii ch =? 13), (isQuote ch); simpl in *; congruence.
Qed.

(** X18.  Every student parseStudentData returns has a non-empty,
    trimmed identifier and at least one course; the course names are
    non-empty and contain no comma, no line break and no quote. *)
Theorem parseStudentData_students :
  forall (input : string) (st : Student),
    In st (parseStudentData input) ->
    id st <> "" /\ trim (id st) = id st /\ courses st <> [] /\
    forall c, In c (courses st) ->
      c <> "" /\
      allChars (fun ch => negb (isSeparator ch) && negb (isQuote ch)) c
      = true.
Proof.
  intros input st. unfold parseStudentData.
  destruct (negb (truthy input) || negb (truthy (trim input)));
    [intros [] |].
  cbv zeta. rewrite in_flat_map. intros [line [_ Hst]].
  destruct (parseLine line) as [st' |] eqn:E; [| destruct Hst].
  destruct Hst as [<- | []]. exact (parseLine_Some line st' E).
Qed.

Lemma parseStudentData_students_witness :
  In (mkStudent "S1" ["Math"; "Physics"])
     (parseStudentData "S1: Math, 'Physics'") /\
  id (mkStudent "S1" ["Math"; "Physics"]) <> "" /\
  trim (id (mkStudent "S1" ["Math"; "Physics"]))
  = id (mkStudent "S1" ["Math"; "Physics"]) /\
  courses (mkStudent "S1" ["Math"; "Physics"]) <> [] /\
  forall c, In c (courses (mkStudent "S1" ["Math"; "Physics"])) ->
    c <> "" /\
    allChars (fun ch => negb (isSeparator ch) && negb (isQuote ch)) c = true.
Proof.
  assert (Hin : In (mkStudent "S1" ["Math"; "Physics"])
                   (parseStudentData "S1: Math, 'Physics'"))
    by (vm_compute; left; reflexivity).
  split; [exact Hin |].
  exact (parseStudentData_students _ _ Hin).
Defined.

(** X19.  A line that ends with a carriage return yields no student:
    none of the three patterns matches it. *)
Theorem parseLine_carriage_return :
  forall l : string,
    parseLine (String.append l (String (ascii_of_nat 13) "")) = None.
Proof.
  intros l. unfold parseLine.
  destruct (matchLine (String.append l (String (ascii_of_nat 13) "")))
    as [[idText cs] |] eqn:Em; [| reflexivity].
  exfalso. destruct (matchLine_Some _ _ _ Em) as (sep & rest & El & _ & Hr).
  destruct (matchRest_Some _ _ Hr) as (Hne & Hlt & Hlast).
  assert (Hl : lastChar (String.append idText (String sep rest))
               = Some (ascii_of_nat 13)).
  { rewrite <- El. apply lastChar_app. }
  destruct rest as [| c rest'].
  - unfold matchRest in Hr. simpl in Hr. discriminate.
  - rewrite lastChar_app_r in Hl by discriminate.
    assert (Hl' : lastChar (String c rest') = Some (ascii_of_nat 13)).
    { simpl in Hl. simpl. destruct rest'; exact Hl. }
    rewrite <- Hlast in Hl'.
    pose proof (allChars_lastChar _ _ _ Hlt Hl') as Hc. discriminate.
Qed.


Lemma append_assoc_s a b c :
  String.append (String.append a b) c = String.append a (String.append b c).
Proof. induction a as [| x a IH]; simpl; [reflexivity | now rewrite IH]. Qed.

Lemma splitOn_nonnil sep s : splitOn sep s <> [].
Proof.
  induction s as [| c s IH]; simpl; [discriminate |].
  destruct (Ascii.eqb c sep); [discriminate |].
  destruct (splitOn sep s); discriminate.
Qed.

Lemma splitOn_append sep n rest :
  allChars (fun c => negb (Ascii.eqb c sep)) n = true ->
  splitOn sep (String.append n rest)
  = match splitOn sep rest with
    | [] => [n]
    | w :: ws => String.append n w :: ws
    end.
Proof.
  induction n as [| c n IH]; simpl; intros Hn.
  - destruct (splitOn sep rest) eqn:E; [| reflexivity].
    now apply splitOn_nonnil in E.
  - apply andb_true_iff in Hn. destruct Hn as [Hc Hn].
    apply negb_true_iff in Hc. rewrite Hc, (IH Hn).
    destruct (splitOn sep rest); reflexivity.
Qed.

Lemma splitOn_joinComma names :
  Forall (fun n => allChars (fun c => negb (Ascii.eqb c ","%char)) n = true)
         names ->
  names <> [] ->
  splitOn ","%char (joinComma names)
  = match names with
    | [] => []
    | x :: rest => x :: map (String " "%char) rest
    end.
Proof.
  induction 1 as [| x rest Hx Hrest IH]; intros Hne; [congruence |].
  destruct rest as [| y rest].
  - simpl. rewrite <- (append_empty_r x) at 1.
    rewrite splitOn_append by assumption. simpl. f_equal.
    apply append_empty_r.
  - change (joinComma (x :: y :: rest))
      with (String.append x (String.append ", " (joinComma (y :: rest)))).
    rewrite splitOn_append by assumption.
    change (splitOn ","%char (String.append ", " (joinComma (y :: rest))))
      with (EmptyString
              :: match splitOn ","%char (joinComma (y :: rest)) with
                 | [] => [String " "%char EmptyString]
                 | w :: ws => String " "%char w :: ws
                 end).
    rewrite IH by discriminate. rewrite append_empty_r. reflexivity.
Qed.

Lemma splitOn_joinLines ls :
  Forall (fun l => allChars (fun c => negb (Ascii.eqb c (ascii_of_nat 10))) l
                   = true) ls ->
  ls <> [] ->
  splitOn (ascii_of_nat 10) (joinLines ls) = ls.
Proof.
  induction 1 as [| x rest Hx Hrest IH]; intros Hne; [congruence |].
  destruct rest as [| y rest].
  - simpl. rewrite <- (append_empty_r x) at 1.
    rewrite splitOn_append by assumption. simpl. f_equal.
    apply append_empty_r.
  - change (joinLines (x :: y :: rest))
      with (String.append x
              (String (ascii_of_nat 10) (joinLines (y :: rest)))).
    rewrite splitOn_append by assumption.
    change (splitOn (ascii_of_nat 10)
              (String (ascii_of_nat 10) (joinLines (y :: rest))))
      with (EmptyString :: splitOn (ascii_of_nat 10) (joinLines (y :: rest))).
    rewrite IH by discriminate. now rewrite append_empty_r.
Qed.

Lemma span_app p a b :
  allChars p a = true ->
  match b with EmptyString => True | String c _ => p c = false end ->
  span p (String.append a b) = (a, b).
Proof.
  induction a as [| x a IH]; simpl; intros Ha Hb.
  - destruct b as [| c b]; [reflexivity |]. simpl. now rewrite Hb.
  - apply andb_true_iff in Ha. destruct Ha as [Hx Ha].
    now rewrite Hx, (IH Ha Hb).
Qed.

Lemma trimEnd_app a b :
  trimEnd b = b -> b <> "" -> trimEnd (String.append a b) = String.append a b.
Proof.
  intros Hb Hne. induction a as [| c a IH]; simpl; [assumption |].
  rewrite IH. destruct (String.append a b) eqn:E; [| reflexivity].
  destruct a; simpl in E; [congruence | discriminate].
Qed.

(** A non-empty trimmed string starts with a code unit that is no white
    space and has no white space at its end. *)
Lemma trimmed_ends n :
  trim n = n -> n <> "" ->
  trimEnd n = n /\ exists c t, n = String c t /\ isWhiteSpace c = false.
Proof.
  intros Ht Hne. destruct n as [| c t]; [congruence |].
  pose proof (trim_head _ _ _ Ht) as Hc.
  split; [| eauto]. unfold trim in Ht. simpl trimStart in Ht.
  now rewrite Hc in Ht.
Qed.

Lemma trim_app c a b :
  isWhiteSpace c = false -> trimEnd b = b -> b <> "" ->
  trim (String c (String.append a b)) = String c (String.append a b).
Proof.
  intros Hc Hb Hne. unfold trim. simpl trimStart. rewrite Hc.
  now apply (trimEnd_app (String c a) b).
Qed.

Lemma joinComma_last names :
  names <> [] ->
  exists a z, joinComma names = String.append a z /\ In z names.
Proof.
  induction names as [| x rest IH]; intros Hne; [congruence |].
  destruct rest as [| y rest].
  - exists "", x. simpl. auto.
  - destruct IH as (a & z & E & Hz); [discriminate |].
    exists (String.append x (String.append ", " a)), z.
    change (joinComma (x :: y :: rest))
      with (String.append x (String.append ", " (joinComma (y :: rest)))).
    rewrite E, !append_assoc_s. split; [reflexivity | now right].
Qed.

Lemma joinLines_last ls :
  ls <> [] ->
  exists a z, joinLines ls = String.append a z /\ In z ls.
Proof.
  induction ls as [| x rest IH]; intros Hne; [congruence |].
  destruct rest as [| y rest].
  - exists "", x. simpl. auto.
  - destruct IH as (a & z & E & Hz); [discriminate |].
    exists (String.append x (String (ascii_of_nat 10) a)), z.
    change (joinLines (x :: y :: rest))
      with (String.append x
              (String (ascii_of_nat 10) (joinLines (y :: rest)))).
    rewrite E, append_assoc_s. split; [reflexivity | now right].
Qed.

Lemma allChars_joinComma p names :
  p ","%char = true -> p " "%char = true ->
  Forall (fun n => allChars p n = true) names ->
  allChars p (joinComma names) = true.
Proof.
  intros Hc Hs. induction 1 as [| x rest Hx Hrest IH]; [reflexivity |].
  destruct rest as [| y rest]; [exact Hx |].
  change (joinComma (x :: y :: rest))
    with (String.append x (String.append ", " (joinComma (y :: rest)))).
  rewrite !allChars_app, Hx, IH. simpl. now rewrite Hc, Hs.
Qed.

Lemma word_not_white c : isWordChar c = true -> isWhiteSpace c = false.
Proof. destruct c as [[] [] [] [] [] [] [] []]; vm_compute; congruence. Qed.

Lemma clean_not_comma c :
  negb (isSeparator c) && negb (isQuote c) = true ->
  negb (Ascii.eqb c ","%char) = true.
Proof. destruct c as [[] [] [] [] [] [] [] []]; vm_compute; congruence. Qed.

Lemma clean_not_terminator c :
  negb (isSeparator c) && negb (isQuote c) = true ->
  negb (isLineTerminator c) = true.
Proof. destruct c as [[] [] [] [] [] [] [] []]; vm_compute; congruence. Qed.

Lemma terminator_not_feed c :
  negb (isLineTerminator c) = true ->
  negb (Ascii.eqb c (ascii_of_nat 10)) = true.
Proof. destruct c as [[] [] [] [] [] [] [] []]; vm_compute; congruence. Qed.

Lemma word_not_terminator c :
  isWordChar c = true -> negb (isLineTerminator c) = true.
Proof. destruct c as [[] [] [] [] [] [] [] []]; vm_compute; congruence. Qed.

Lemma cleanStudent_spec st :
  cleanStudent st = true ->
  (exists c t, id st = String c t /\ isWordChar c = true) /\
  allChars isWordChar (id st) = true /\
  courses st <> [] /\
  forall n, In n (courses st) ->
    n <> "" /\ trim n = n /\ standardize n = n /\
    allChars (fun c => negb (isSeparator c) && negb (isQuote c)) n = true.
Proof.
  unfold cleanStudent. intros H.
  apply andb_true_iff in H. destruct H as [H Hcs].
  apply andb_true_iff in H. destruct H as [H Hlen].
  apply andb_true_iff in H. destruct H as [Hid Hw].
  apply truthy_spec in Hid. split.
  { destruct (id st) as [| c t]; [congruence |]. exists c, t.
    simpl in Hw. apply andb_true_iff in Hw. tauto. }
  split; [assumption |]. split.
  { destruct (courses st); [discriminate | discriminate]. }
  intros n Hn. rewrite forallb_forall in Hcs. specialize (Hcs n Hn).
  apply andb_true_iff in Hcs. destruct Hcs as [Hc Hstd].
  apply String.eqb_eq in Hstd. unfold cleanName in Hc.
  apply andb_true_iff in Hc. destruct Hc as [Hc Hall].
  apply andb_true_iff in Hc. destruct Hc as [Ht Htr].
  apply truthy_spec in Ht. apply String.eqb_eq in Htr. auto.
Qed.

Lemma map_id_in {A : Type} (f : A -> A) l :
  (forall x, In x l -> f x = x) -> map f l = l.
Proof.
  intros H. rewrite <- (map_id l) at 2. now apply map_ext_in.
Qed.

Lemma filter_truthy_id l :
  (forall n, In n l -> n <> "") -> filter truthy l = l.
Proof.
  induction l as [| n l IH]; intros Hl; simpl; [reflexivity |].
  rewrite (proj2 (truthy_spec n)) by (apply Hl; now left).
  f_equal. apply IH. intros m Hm. apply Hl. now right.
Qed.

Lemma matchRest_spaced c t :
  isWhiteSpace c = false ->
  allChars (fun ch => negb (isLineTerminator ch)) (String c t) = true ->
  matchRest (String " "%char (String c t)) = Some (String c t).
Proof.
  intros Hc Hlt. unfold matchRest.
  assert (Hsp : span isWhiteSpace (String " "%char (String c t))
                = (String " "%char EmptyString, String c t)).
  { change (String " "%char (String c t))
      with (String.append (String " "%char EmptyString) (String c t)).
    apply span_app; [reflexivity | exact Hc]. }
  rewrite Hsp. now rewrite Hlt.
Qed.

Lemma matchLine_format idText rest cs :
  allChars isWordChar idText = true -> idText <> "" ->
  matchRest rest = Some cs ->
  matchLine (String.append idText (String ":"%char rest))
  = Some (idText, cs).
Proof.
  intros Hword Hne Hr. unfold matchLine, matchPattern.
  rewrite (span_app isWordChar idText (String ":"%char rest) Hword)
    by reflexivity.
  destruct idText as [| c0 t0]; [congruence |].
  rewrite Hr. reflexivity.
Qed.

Lemma trim_word idText :
  allChars isWordChar idText = true -> trim idText = idText.
Proof.
  intros Hword. unfold trim.
  assert (Hs : trimStart idText = idText).
  { destruct idText as [| c t]; [reflexivity |]. simpl in *.
    apply andb_true_iff in Hword. destruct Hword as [Hc _].
    now rewrite (word_not_white c Hc). }
  rewrite Hs. induction idText as [| c t IH]; simpl; [reflexivity |].
  simpl in Hword. apply andb_true_iff in Hword.
  destruct Hword as [Hc Ht]. rewrite (IH Ht).
  - destruct t; [now rewrite (word_not_white c Hc) | reflexivity].
  - destruct t as [| c' t']; [reflexivity |]. simpl in *.
    apply andb_true_iff in Ht. destruct Ht as [Hc' _].
    now rewrite (word_not_white c' Hc').
Qed.

(** The line of a clean student: how it starts and ends, and what
    parseLine reads from it. *)
Lemma formatStudent_line st :
  cleanStudent st = true ->
  (exists c t, formatStudent st = String c t /\ isWhiteSpace c = false) /\
  trim (formatStudent st) = formatStudent st /\
  allChars (fun c => negb (Ascii.eqb c (ascii_of_nat 10))) (formatStudent st)
  = true /\
  parseLine (formatStudent st) = Some st.
Proof.
  intros Hclean.
  destruct (cleanStudent_spec st Hclean)
    as ((c0 & t0 & Eid & Hc0) & Hword & Hne & Hnames).
  destruct st as [idText cs]. cbn [id courses] in *.
  unfold formatStudent. cbn [id courses].
  assert (Hnt : allChars (fun c => negb (isLineTerminator c))
                  (joinComma cs) = true).
  { apply allChars_joinComma; [reflexivity | reflexivity |].
    apply Forall_forall. intros n Hn.
    eapply allChars_impl; [apply clean_not_terminator |]. now apply Hnames. }
  assert (Hsplit : map trim (splitOn ","%char (joinComma cs)) = cs).
  { destruct cs as [| x rest]; [congruence |].
    rewrite splitOn_joinComma;
      [| apply Forall_forall; intros n Hn;
         eapply allChars_impl; [apply clean_not_comma |]; now apply Hnames
       | discriminate].
    simpl map. f_equal; [now apply Hnames; left |]. rewrite map_map.
    apply map_id_in. intros n Hn.
    change (trim (String " "%char n)) with (trim n).
    apply Hnames. now right. }
  assert (Hhead : exists cx tj, joinComma cs = String cx tj /\
                                isWhiteSpace cx = false).
  { destruct cs as [| x rest]; [congruence |].
    destruct (Hnames x (or_introl eq_refl)) as (Hx & Htx & _ & _).
    destruct (trimmed_ends x Htx Hx) as (_ & cx & tx & Ex & Hcx).
    exists cx. rewrite Ex. destruct rest; simpl; eauto. }
  destruct Hhead as (cx & tj & Hjc & Hcx).
  destruct (joinComma_last cs Hne) as (a & z & Ez & Hz).
  destruct (Hnames z Hz) as (Hzne & Htz & _ & _).
  destruct (trimmed_ends z Htz Hzne) as (Hzend & _).
  remember (joinComma cs) as J eqn:EJ.
  change (String.append ": " J) with (String ":"%char (String " "%char J)).
  split; [| split; [| split]].
  - rewrite Eid. simpl. eexists _, _.
    split; [reflexivity | now apply word_not_white].
  - rewrite Eid, Ez.
    change (String.append (String c0 t0)
              (String ":"%char (String " "%char (String.append a z))))
      with (String c0 (String.append t0
              (String.append ": " (String.append a z)))).
    rewrite <- !append_assoc_s. apply trim_app; auto.
    now apply word_not_white.
  - rewrite allChars_app.
    rewrite (allChars_impl _ _ idText
               (fun c H => terminator_not_feed c (word_not_terminator c H))
               Hword).
    cbn [allChars].
    now rewrite (allChars_impl _ _ _ terminator_not_feed Hnt).
  - unfold parseLine.
    rewrite (matchLine_format idText (String " "%char J) J Hword);
      [| rewrite Eid; discriminate
       | rewrite Hjc; apply matchRest_spaced; [exact Hcx | now rewrite <- Hjc]].
    assert (Ht1 : truthy idText = true) by (rewrite Eid; reflexivity).
    assert (Ht2 : truthy J = true) by (rewrite Hjc; reflexivity).
    rewrite Ht1, Ht2. cbn [negb orb]. cbv zeta. rewrite Hsplit.
    rewrite (filter_truthy_id cs) by (intros n Hn; now apply Hnames).
    rewrite (map_id_in removeQuotes cs).
    2:{ intros n Hn. apply removeQuotes_clean.
        eapply allChars_impl; [| apply (Hnames n Hn)].
        cbv beta. intros c H. apply andb_true_iff in H. tauto. }
    rewrite (map_id_in standardize cs) by (intros n Hn; now apply Hnames).
    rewrite (filter_truthy_id cs) by (intros n Hn; now apply Hnames).
    rewrite (trim_word idText Hword), Ht1.
    destruct cs; [congruence | reflexivity].
Qed.

Lemma parseStudentData_joinLines (sts : list Student) :
  Forall (fun st => cleanStudent st = true) sts ->
  parseStudentData (joinLines (map formatStudent sts)) = sts.
Proof.
  intros Hclean. destruct sts as [| st0 rest0]; [reflexivity |].
  set (sts := st0 :: rest0) in *.
  assert (Hlines : forall l, In l (map formatStudent sts) ->
            (exists c t, l = String c t /\ isWhiteSpace c = false) /\
            trim l = l /\
            allChars (fun c => negb (Ascii.eqb c (ascii_of_nat 10))) l = true).
  { intros l Hl. apply in_map_iff in Hl. destruct Hl as [st [<- Hst]].
    rewrite Forall_forall in Hclean.
    destruct (formatStudent_line st (Hclean st Hst)) as (H1 & H2 & H3 & _).
    auto. }
  assert (Hne : map formatStudent sts <> []) by discriminate.
  destruct (Hlines (formatStudent st0) (or_introl eq_refl))
    as ((c0 & t0 & E0 & Hc0) & _ & _).
  assert (Hj : exists tj, joinLines (map formatStudent sts) = String c0 tj).
  { unfold sts. simpl map. rewrite E0. destruct (map formatStudent rest0);
      simpl; eauto. }
  destruct Hj as [tj Hj].
  destruct (joinLines_last (map formatStudent sts) Hne) as (a & z & Ez & Hz).
  destruct (Hlines z Hz) as ((cz & tz & Ecz & Hcz) & Htz & _).
  assert (Hzne : z <> "") by (rewrite Ecz; discriminate).
  destruct (trimmed_ends z Htz Hzne) as (Hzend & _).
  assert (Htrim : trim (joinLines (map formatStudent sts))
                  = joinLines (map formatStudent sts)).
  { unfold trim. rewrite Hj. simpl trimStart. rewrite Hc0. rewrite <- Hj, Ez.
    now apply trimEnd_app. }
  unfold parseStudentData. rewrite Htrim.
  assert (Hguard : negb (truthy (joinLines (map formatStudent sts)))
                   || negb (truthy (joinLines (map formatStudent sts)))
                   = false) by (rewrite Hj; reflexivity).
  rewrite Hguard. cbv zeta.
  rewrite splitOn_joinLines;
    [| apply Forall_forall; intros l Hl; now apply Hlines | assumption].
  assert (Hfilter : filter (fun line => 0 <? String.length (trim line))
                           (map formatStudent sts)
                    = map formatStudent sts).
  { apply forallb_filter_id. apply forallb_forall. intros l Hl.
    destruct (Hlines l Hl) as ((c & t & -> & _) & -> & _). reflexivity. }
  rewrite Hfilter. clear - Hclean. generalize dependent sts.
  induction sts as [| st rest IH]; intros Hclean; [reflexivity |].
  inversion Hclean as [| ? ? Hst Hrest]; subst. simpl.
  destruct (formatStudent_line st Hst) as (_ & _ & _ & ->).
  simpl. f_equal. now apply IH.
Qed.

(** X20.  Round trip with the first line format: the text that lists
    clean students one per line as [id: course, course, ...] is parsed by
    parseStudentData to these students, in the same order. *)
Theorem parseStudentData_format :
  forall sts : list Student,
    Forall (fun st => cleanStudent st = true) sts ->
    parseStudentData (joinLines (map formatStudent sts)) = sts.
Proof. exact parseStudentData_joinLines. Qed.

Lemma parseStudentData_format_witness :
  Forall (fun st => cleanStudent st = true) scenarioStudents /\
  parseStudentData (joinLines (map formatStudent scenarioStudents))
  = scenarioStudents.
Proof.
  assert (Hcl : Forall (fun st => cleanStudent st = true) scenarioStudents).
  { unfold scenarioStudents.
    repeat (apply Forall_cons; [reflexivity |]). apply Forall_nil. }
  split; [exact Hcl |].
  exact (parseStudentData_format scenarioStudents Hcl).
Defined.

(* ------------------------------------------------------------------ *)
(** ** The CSV of the students: export and import *)

Lemma export_fold (sts : list Student) :
  forall acc,
    fold_left
      (fun csv stu =>
         String.append csv
           (String.append (exportRow stu) (String lineFeed EmptyString)))
      sts acc
    = String.append acc
        (fold_right (fun stu r => String.append (exportRow stu)
                                    (String lineFeed r))
                    EmptyString sts).
Proof.
  induction sts as [| st sts IH]; intros acc; simpl.
  - now rewrite append_empty_r.
  - rewrite IH, !append_assoc_s. reflexivity.
Qed.

Lemma splitLines_line l rest :
  allChars (fun c => negb (isLineTerminator c)) l = true ->
  splitLines (String.append l (String lineFeed rest)) = l :: splitLines rest.
Proof.
  induction l as [| c l IH]; intros Hl; [reflexivity |].
  simpl in Hl. apply andb_true_iff in Hl. destruct Hl as [Hc Hl].
  specialize (IH Hl). unfold isLineTerminator in Hc.
  apply negb_true_iff, orb_false_iff in Hc. destruct Hc as [H10 H13].
  change (String.append (String c l) (String lineFeed rest))
    with (String c (String.append l (String lineFeed rest))).
  cbn [splitLines]. rewrite H10, H13, IH. reflexivity.
Qed.

Lemma splitLines_rows (rows : list string) :
  Forall (fun l => allChars (fun c => negb (isLineTerminator c)) l = true)
         rows ->
  splitLines (fold_right (fun l r => String.append l (String lineFeed r))
                         EmptyString rows)
  = rows ++ [EmptyString].
Proof.
  induction 1 as [| l rows Hl Hrows IH]; simpl; [reflexivity |].
  now rewrite splitLines_line, IH.
Qed.

Lemma doubleQuotes_clean s :
  allChars (fun c => negb (isQuotationMark c)) s = true ->
  doubleQuotes s = s.
Proof.
  induction s as [| c s IH]; simpl; [reflexivity |].
  intros H. apply andb_true_iff in H. destruct H as [Hc Hs].
  apply negb_true_iff in Hc. now rewrite Hc, IH.
Qed.

Lemma removeQuotationMarks_escape s :
  allChars (fun c => negb (isQuotationMark c)) s = true ->
  removeQuotationMarks (escape s) = s.
Proof.
  intros Hs. unfold escape. rewrite (doubleQuotes_clean s Hs).
  change (removeQuotationMarks
            (String quotationMark
               (String.append s (String quotationMark EmptyString))))
    with (removeQuotationMarks
            (String.append s (String quotationMark EmptyString))).
  induction s as [| c s IH]; [reflexivity |].
  simpl in Hs. apply andb_true_iff in Hs. destruct Hs as [Hc Hs].
  apply negb_true_iff in Hc. simpl. now rewrite Hc, (IH Hs).
Qed.

Lemma joinWith_splitOn sep s :
  joinWith (String sep EmptyString) (splitOn sep s) = s.
Proof.
  induction s as [| c s IH]; [reflexivity |]. simpl.
  pose proof (splitOn_nonnil sep s) as Hne.
  destruct (Ascii.eqb_spec c sep) as [-> | _].
  - destruct (splitOn sep s) as [| w ws]; [congruence |].
    change (joinWith (String sep "") ("" :: w :: ws))
      with (String sep (joinWith (String sep "") (w :: ws))).
    now rewrite IH.
  - destruct (splitOn sep s) as [| w ws]; [congruence |].
    rewrite <- IH. destruct ws; reflexivity.
Qed.

Lemma clean_not_mark c :
  negb (isSeparator c) && negb (isQuote c) = true ->
  negb (isQuotationMark c) = true.
Proof. destruct c as [[] [] [] [] [] [] [] []]; vm_compute; congruence. Qed.

Lemma word_not_comma c :
  isWordChar c = true -> negb (Ascii.eqb c ","%char) = true.
Proof. destruct c as [[] [] [] [] [] [] [] []]; vm_compute; congruence. Qed.

Lemma joinComma_clean cs :
  cs <> [] ->
  (forall n, In n cs ->
     n <> "" /\ trim n = n /\
     allChars (fun c => negb (isSeparator c) && negb (isQuote c)) n = true) ->
  joinComma cs <> "" /\
  trim (joinComma cs) = joinComma cs /\
  allChars (fun c => negb (isLineTerminator c)) (joinComma cs) = true /\
  allChars (fun c => negb (isQuotationMark c)) (joinComma cs) = true.
Proof.
  intros Hne Hnames.
  assert (Hhead : exists cx tj, joinComma cs = String cx tj /\
                                isWhiteSpace cx = false).
  { destruct cs as [| x rest]; [congruence |].
    destruct (Hnames x (or_introl eq_refl)) as (Hx & Htx & _).
    destruct (trimmed_ends x Htx Hx) as (_ & cx & tx & Ex & Hcx).
    exists cx. rewrite Ex. destruct rest; simpl; eauto. }
  destruct Hhead as (cx & tj & Hjc & Hcx).
  destruct (joinComma_last cs Hne) as (a & z & Ez & Hz).
  destruct (Hnames z Hz) as (Hzne & Htz & _).
  destruct (trimmed_ends z Htz Hzne) as (Hzend & _).
  split; [rewrite Hjc; discriminate |]. split.
  - unfold trim. rewrite Hjc. simpl trimStart. rewrite Hcx, <- Hjc, Ez.
    now apply trimEnd_app.
  - split; (apply allChars_joinComma; [reflexivity | reflexivity |]);
      apply Forall_forall; intros n Hn;
      (eapply allChars_impl; [| apply (Hnames n Hn)]).
    + apply clean_not_terminator.
    + apply clean_not_mark.
Qed.

(** The exported line of a clean student, and what parseStudentCSV makes
    of it. *)
Lemma exportRow_line st :
  cleanStudent st = true ->
  exportRow st <> "" /\
  allChars (fun c => negb (isLineTerminator c)) (exportRow st) = true /\
  csvLine (exportRow st) = formatStudent st.
Proof.
  intros Hclean.
  destruct (cleanStudent_spec st Hclean)
    as ((c0 & t0 & Eid & Hc0) & Hword & Hne & Hnames).
  destruct (joinComma_clean (courses st) Hne) as (Hjne & Hjt & Hjlt & Hjq).
  { intros n Hn. destruct (Hnames n Hn) as (H1 & H2 & _ & H4). auto. }
  unfold exportRow. split; [rewrite Eid; discriminate |]. split.
  - rewrite !allChars_app.
    rewrite (allChars_impl _ _ (id st) word_not_terminator Hword).
    unfold escape. rewrite (doubleQuotes_clean _ Hjq).
    cbn [allChars]. rewrite allChars_app, Hjlt. reflexivity.
  - unfold csvLine.
    change (String.append "," (escape (joinComma (courses st))))
      with (String ","%char (escape (joinComma (courses st)))).
    rewrite splitOn_append
      by (eapply allChars_impl; [apply word_not_comma | exact Hword]).
    change (splitOn ","%char (String ","%char (escape (joinComma (courses st)))))
      with (EmptyString :: splitOn ","%char (escape (joinComma (courses st)))).
    cbv iota beta zeta. rewrite append_empty_r.
    rewrite (joinWith_splitOn ","%char), (removeQuotationMarks_escape _ Hjq).
    rewrite Hjt, (trim_word _ Hword). reflexivity.
Qed.

(** X21.  Round trip through the file: the CSV that ResultsPage exports
    for a non-empty list of clean students is turned by parseStudentCSV
    into the lines [id: course, course, ...], which parseStudentData
    parses to the same students, in the same order. *)
Theorem students_csv_round_trip :
  forall sts : list Student,
    sts <> [] ->
    Forall (fun st => cleanStudent st = true) sts ->
    exists csv,
      exportStudentsCSV sts = Some csv /\
      parseStudentCSV csv = Ok (joinLines (map formatStudent sts)) /\
      parseStudentData (joinLines (map formatStudent sts)) = sts.
Proof.
  intros sts Hne Hclean.
  assert (Hrows : forall st, In st sts ->
            exportRow st <> "" /\
            allChars (fun c => negb (isLineTerminator c)) (exportRow st) = true /\
            csvLine (exportRow st) = formatStudent st).
  { intros st Hst. apply exportRow_line. rewrite Forall_forall in Hclean.
    now apply Hclean. }
  unfold exportStudentsCSV.
  assert (Hlen : (length sts =? 0) = false)
    by (destruct sts; [congruence | reflexivity]).
  rewrite Hlen, export_fold. eexists. split; [reflexivity |]. split.
  - unfold parseStudentCSV. rewrite append_assoc_s.
    change (String.append (String lineFeed "")
              (fold_right (fun stu r => String.append (exportRow stu)
                                          (String lineFeed r)) "" sts))
      with (String lineFeed
              (fold_right (fun stu r => String.append (exportRow stu)
                                          (String lineFeed r)) "" sts)).
    rewrite splitLines_line by reflexivity.
    assert (Efold : fold_right (fun stu r => String.append (exportRow stu)
                                               (String lineFeed r)) "" sts
                    = fold_right (fun l r => String.append l (String lineFeed r))
                                 "" (map exportRow sts)).
    { clear. induction sts as [| st sts IH]; simpl; [reflexivity |].
      now rewrite IH. }
    rewrite Efold, splitLines_rows.
    2:{ apply Forall_forall. intros l Hl. apply in_map_iff in Hl.
        destruct Hl as [st [<- Hst]]. now apply Hrows. }
    assert (Efilter : filter truthy (map exportRow sts ++ [""])
                      = map exportRow sts).
    { rewrite filter_app. simpl. rewrite app_nil_r.
      apply filter_truthy_id. intros n Hn. apply in_map_iff in Hn.
      destruct Hn as [st [<- Hst]]. now apply Hrows. }
    cbn [filter]. change (truthy "student_id,courses") with true.
    cbv iota. rewrite Efilter. cbv zeta.
    change (includes "student" (toLowerCase "student_id,courses")) with true.
    cbv iota. rewrite map_map. f_equal. f_equal.
    apply map_ext_in. intros st Hst. now apply Hrows.
  - now apply parseStudentData_joinLines.
Qed.

Lemma students_csv_round_trip_witness :
  scenarioStudents <> [] /\
  Forall (fun st => cleanStudent st = true) scenarioStudents /\
  exists csv,
    exportStudentsCSV scenarioStudents = Some csv /\
    parseStudentCSV csv = Ok (joinLines (map formatStudent scenarioStudents)) /\
    parseStudentData (joinLines (map formatStudent scenarioStudents))
    = scenarioStudents.
Proof.
  assert (Hne : scenarioStudents <> []) by discriminate.
  assert (Hcl : Forall (fun st => cleanStudent st = true) scenarioStudents).
  { unfold scenarioStudents.
    repeat (apply Forall_cons; [reflexivity |]). apply Forall_nil. }
  split; [exact Hne |]. split; [exact Hcl |].
  exact (students_csv_round_trip scenarioStudents Hne Hcl).
Defined.

(* ------------------------------------------------------------------ *)
(** ** parseCoursesCSV *)

Lemma splitLines_pieces p :
  forall n s, String.length s <= n ->
    allChars p s = true ->
    forall w, In w (splitLines s) ->
      allChars (fun c => p c && negb (Nat.eqb (nat_of_ascii c) 10)) w = true.
Proof.
  induction n as [| n IH]; intros s Hlen Hs w Hw.
  - destruct s; [| simpl in Hlen; lia]. destruct Hw as [<- | []]. reflexivity.
  - destruct s as [| c s']; [destruct Hw as [<- | []]; reflexivity |].
    simpl in Hlen, Hs. apply andb_true_iff in Hs. destruct Hs as [Hc Hs'].
    assert (Hkeep : (nat_of_ascii c =? 10) = false ->
              In w match splitLines s' with
                   | [] => [String c EmptyString]
                   | w0 :: ws => String c w0 :: ws
                   end ->
              allChars (fun c => p c && negb (Nat.eqb (nat_of_ascii c) 10)) w
              = true).
    { intros H10 Hin.
      pose proof (IH s' ltac:(lia) Hs') as IHs.
      destruct (splitLines s') as [| w0 ws].
      - destruct Hin as [<- | []]. simpl. now rewrite Hc, H10.
      - destruct Hin as [<- | Hin].
        + simpl. rewrite Hc, H10. simpl. apply IHs. now left.
        + apply IHs. now right. }
    cbn [splitLines] in Hw.
    destruct (nat_of_ascii c =? 10) eqn:H10.
    { destruct Hw as [<- | Hw]; [reflexivity |].
      apply (IH s'); [lia | assumption | assumption]. }
    destruct (nat_of_ascii c =? 13); [| now apply Hkeep].
    destruct s' as [| c2 s'']; [now apply Hkeep |].
    destruct (nat_of_ascii c2 =? 10); [| now apply Hkeep].
    destruct Hw as [<- | Hw]; [reflexivity |].
    simpl in Hs'. apply andb_true_iff in Hs'. destruct Hs' as [_ Hs''].
    apply (IH s''); [simpl in Hlen; lia | assumption | assumption].
Qed.

Lemma allChars_removeQuotationMarks p s :
  allChars p s = true ->
  allChars (fun c => p c && negb (isQuotationMark c))
           (removeQuotationMarks s) = true.
Proof.
  induction s as [| c s IH]; simpl; [reflexivity |].
  intros H. apply andb_true_iff in H. destruct H as [Hc Hs].
  destruct (isQuotationMark c) eqn:E; simpl; [now apply IH |].
  now rewrite Hc, E, IH.
Qed.

Lemma lineCourses_names p line n :
  allChars p line = true -> In n (lineCourses line) ->
  n <> "" /\ trim n = n /\
  allChars (fun c => (p c && negb (isQuotationMark c))
                     && negb (Ascii.eqb c ","%char)) n = true.
Proof.
  intros Hp Hn. unfold lineCourses in Hn. apply filter_In in Hn.
  destruct Hn as [Hn Hne]. apply truthy_spec in Hne.
  apply in_map_iff in Hn. destruct Hn as [piece [<- Hpiece]].
  split; [assumption |]. split; [apply trim_idempotent |].
  apply allChars_trim.
  eapply splitOn_pieces; [| exact Hpiece].
  now apply allChars_removeQuotationMarks.
Qed.

(** The names behind the text of parseCoursesCSV, each from a line of
    the file. *)
Lemma parseCoursesCSV_structure text :
  exists names,
    parseCoursesCSV text = joinComma names /\
    forall n, In n names ->
      exists l0, In l0 (splitLines text) /\ In n (lineCourses (trim l0)).
Proof.
  unfold parseCoursesCSV.
  assert (Hlines : forall l, In l (filter truthy (map trim (splitLines text))) ->
            exists l0, In l0 (splitLines text) /\ l = trim l0).
  { intros l Hl. apply filter_In in Hl. destruct Hl as [Hl _].
    apply in_map_iff in Hl. destruct Hl as [l0 [<- Hl0]]. eauto. }
  destruct (filter truthy (map trim (splitLines text)))
    as [| first [| second rest]] eqn:El.
  - exists []. split; [reflexivity | intros n []].
  - exists (lineCourses first). split; [reflexivity |].
    intros n Hn. destruct (Hlines first (or_introl eq_refl)) as (l0 & H0 & ->).
    eauto.
  - cbv zeta.
    exists (dedupe (flat_map lineCourses
                      (if isCoursesHeader first then second :: rest
                       else first :: second :: rest))).
    split; [reflexivity |].
    intros n Hn. apply (proj1 (proj2 (dedupe_spec _) n)) in Hn.
    apply in_flat_map in Hn.
    destruct Hn as [line [Hline Hn]].
    assert (Hin : In line (first :: second :: rest)).
    { destruct (isCoursesHeader first); [now right | assumption]. }
    destruct (Hlines line Hin) as (l0 & H0 & ->). eauto.
Qed.

Lemma plain_clean c :
  ((plainChar c && negb (Nat.eqb (nat_of_ascii c) 10))
   && negb (isQuotationMark c)) && negb (Ascii.eqb c ","%char) = true ->
  negb (isSeparator c) && negb (isQuote c) = true.
Proof. destruct c as [[] [] [] [] [] [] [] []]; vm_compute; congruence. Qed.

(** X22.  The text parseCoursesCSV hands on is a list of names joined
    with [', ']; every name is non-empty, trimmed and free of commas,
    line feeds and quotation marks.  When the file holds no carriage
    return and no apostrophe, parseCourseList reads these names back,
    without their repetitions. *)
Theorem parseCoursesCSV_names :
  forall text : string,
  exists names,
    parseCoursesCSV text = joinComma names /\
    (forall n, In n names ->
       n <> "" /\ trim n = n /\
       allChars (fun c => negb (Nat.eqb (nat_of_ascii c) 10)
                          && negb (isQuotationMark c)
                          && negb (Ascii.eqb c ","%char)) n = true) /\
    (allChars plainChar text = true ->
     parseCourseList (parseCoursesCSV text) = dedupe names).
Proof.
  intros text.
  destruct (parseCoursesCSV_structure text) as (names & Etext & Hfrom).
  exists names. split; [exact Etext |].
  assert (Hgen : forall p, allChars p text = true ->
            forall n, In n names ->
              n <> "" /\ trim n = n /\
              allChars (fun c => ((p c && negb (Nat.eqb (nat_of_ascii c) 10))
                                  && negb (isQuotationMark c))
                                 && negb (Ascii.eqb c ","%char)) n = true).
  { intros p Hp n Hn. destruct (Hfrom n Hn) as (l0 & Hl0 & Hin).
    eapply lineCourses_names; [| exact Hin].
    apply allChars_trim.
    apply (splitLines_pieces p (String.length text) text (le_n _) Hp l0 Hl0). }
  split.
  - intros n Hn.
    assert (Htrue : allChars (fun _ => true) text = true)
      by (clear; induction text; simpl; auto).
    destruct (Hgen (fun _ => true) Htrue n Hn) as (H1 & H2 & H3).
    split; [assumption |]. split; [assumption |].
    eapply allChars_impl; [| exact H3]. cbv beta. intros c H. exact H.
  - intros Hplain. rewrite Etext.
    apply parseCourseList_joinComma_dedupe. apply Forall_forall.
    intros n Hn. destruct (Hgen plainChar Hplain n Hn) as (H1 & H2 & H3).
    unfold cleanName. rewrite (proj2 (truthy_spec n) H1), H2, String.eqb_refl.
    simpl. eapply allChars_impl; [apply plain_clean | exact H3].
Qed.


Lemma parseCoursesCSV_names_witness :
  allChars plainChar "Math, Physics, Math" = true /\
  exists names,
    parseCoursesCSV "Math, Physics, Math" = joinComma names /\
    (forall n, In n names ->
       n <> "" /\ trim n = n /\
       allChars (fun c => negb (Nat.eqb (nat_of_ascii c) 10)
                          && negb (isQuotationMark c)
                          && negb (Ascii.eqb c ","%char)) n = true) /\
    parseCourseList (parseCoursesCSV "Math, Physics, Math") = dedupe names.
Proof.
  assert (Hplain : allChars plainChar "Math, Physics, Math" = true)
    by reflexivity.
  split; [exact Hplain |].
  destruct (parseCoursesCSV_names "Math, Physics, Math")
    as (names & E & Hn & Hc).
  exists names. split; [exact E |]. split; [exact Hn | exact (Hc Hplain)].
Defined.

(* ------------------------------------------------------------------ *)
(** ** From the course field to the graph *)

Lemma universeKeys_clean (names : list string) :
  Forall (fun n => cleanName n = true) names ->
  universeKeys names = dedupe names.
Proof.
  intros Hclean. unfold universeKeys. f_equal.
  assert (Hall : forall n, In n names -> n <> "" /\ trim n = n).
  { intros n Hn. rewrite Forall_forall in Hclean.
    destruct (cleanName_spec n (Hclean n Hn)) as (H1 & H2 & _). auto. }
  assert (Hfilter : filter (fun nm => truthy nm && truthy (trim nm)) names
                    = names).
  { apply forallb_filter_id. apply forallb_forall. intros n Hn.
    destruct (Hall n Hn) as [H1 H2]. rewrite H2.
    now rewrite (proj2 (truthy_spec n) H1). }
  rewrite Hfilter. apply map_id_in. intros n Hn. now apply Hall.
Qed.

(** X23.  From the course field to the graph: for distinct clean course
    names typed as [name, name, ...], the graph buildConflictGraph
    builds on the list parseCourseList returns has these names as its
    keys, in the order typed, whatever the students are. *)
Theorem course_field_to_graph :
  forall (names : list string) (sts : list Student) (s : State),
    NoDup names -> Forall (fun n => cleanName n = true) names ->
    parseCourseList (joinComma names) = names /\
    exists cmap s',
      buildConflictGraph sts (parseCourseList (joinComma names)) s
      = (Ok cmap, s') /\
      keys cmap = names.
Proof.
  intros names sts s Hnd Hclean.
  assert (Eparse : parseCourseList (joinComma names) = names).
  { rewrite (parseCourseList_joinComma_dedupe names Hclean).
    now apply dedupe_NoDup. }
  split; [exact Eparse |]. rewrite Eparse.
  destruct (buildConflictGraph_spec sts names s) as (cmap & s' & E & _).
  exists cmap, s'. split; [exact E |].
  destruct (buildConflictGraph_inv _ _ _ _ _ E) as (vc & s0 & E1 & _).
  destruct (addCourseNames_keys names _ _ _ _ E1) as [Hk _].
  change (keys cmap = universeKeys names) in Hk.
  rewrite Hk, (universeKeys_clean names Hclean). now apply dedupe_NoDup.
Qed.

Lemma course_field_to_graph_witness :
  NoDup scenarioCourses /\
  Forall (fun n => cleanName n = true) scenarioCourses /\
  parseCourseList (joinComma scenarioCourses) = scenarioCourses /\
  exists cmap s',
    buildConflictGraph scenarioStudents
      (parseCourseList (joinComma scenarioCourses)) emptyState
    = (Ok cmap, s') /\
    keys cmap = scenarioCourses.
Proof.
  assert (Hnd : NoDup scenarioCourses) by (apply nodupb_NoDup; reflexivity).
  assert (Hcl : Forall (fun n => cleanName n = true) scenarioCourses).
  { unfold scenarioCourses.
    repeat (apply Forall_cons; [reflexivity |]). apply Forall_nil. }
  split; [exact Hnd |]. split; [exact Hcl |].
  exact (course_field_to_graph scenarioCourses scenarioStudents emptyState
           Hnd Hcl).
Defined.

(* ------------------------------------------------------------------ *)
(** ** The empty timetable *)

Section EmptyTimetable.
Variable localeCompare : string -> string -> Z.

(** X24.  A result of either colourer has no slot exactly when the
    graph has no course: an empty graph gives totalSlots 0 and an empty
    slots map, and any course at all gives at least one slot. *)
Theorem no_slot_iff_no_course :
  forall (cmap : CourseMap) (sts : option (list Student)) (s : State)
         (r : ScheduleResult) (s' : State),
    wf_graph (heap s) cmap ->
    producedBy localeCompare cmap sts s r s' ->
    (totalSlots r = 0 <-> cmap = []) /\ (slots r = [] <-> cmap = []).
Proof.
  intros cmap sts s r s' Hwf Hrun.
  destruct (produced_facts localeCompare cmap sts s r s' Hwf Hrun)
    as (Htot & [_ Hrange] & _ & Hkeys & _ & (_ & Hnames & _) & _ & Hne).
  assert (Hiff : length (slots r) = 0 <-> cmap = []).
  { split.
    - intros Hlen. destruct cmap as [| [k a] cmap']; [reflexivity |].
      exfalso.
      assert (Hk : In k (keys (resCourses r))) by (apply Hkeys; now left).
      apply Hnames in Hk. destruct Hk as [sl Hsl].
      assert (Hin : In sl (keys (slots r))).
      { unfold slotList in Hsl.
        destruct (mapGet sl (slots r)) eqn:E; [| destruct Hsl].
        eapply mapGet_Some_key; eauto. }
      apply Hrange in Hin. lia.
    - intros ->. destruct (length (slots r)) as [| n] eqn:El; [reflexivity |].
      exfalso.
      assert (Hin : In (S n) (keys (slots r))) by (apply Hrange; lia).
      pose proof (Hne (S n) Hin) as Hnon.
      destruct (slotList (slots r) (S n)) as [| k l] eqn:Ek; [congruence |].
      assert (Hk : In k (keys (resCourses r))).
      { apply Hnames. exists (S n). rewrite Ek. now left. }
      apply Hkeys in Hk. destruct Hk. }
  split; [now rewrite Htot |].
  rewrite <- Hiff. split; [now intros -> |].
  now destruct (slots r).
Qed.
End EmptyTimetable.

Lemma no_slot_iff_no_course_witness :
  wf_graph (heap scenarioState) scenarioGraph /\
  exists r s',
    producedBy codeUnitCompare scenarioGraph None scenarioState r s' /\
    (totalSlots r = 0 <-> scenarioGraph = []) /\
    (slots r = [] <-> scenarioGraph = []).
Proof.
  assert (Hwf : wf_graph (heap scenarioState) scenarioGraph)
    by (apply wf_graphb_sound; reflexivity).
  split; [exact Hwf |].
  eexists _, _. split; [right; vm_compute; reflexivity |].
  eapply (no_slot_iff_no_course codeUnitCompare scenarioGraph None
            scenarioState _ _ Hwf).
  right. vm_compute. reflexivity.
Defined.

(* ------------------------------------------------------------------ *)
(** ** The slots of a result *)

Lemma wellSlotted_produced localeCompare cmap sts s r s' :
  wf_graph (heap s) cmap ->
  producedBy localeCompare cmap sts s r s' ->
  wellSlotted (heap s) cmap (heap s') r.
Proof.
  intros Hwf Hrun.
  destruct (produced_facts localeCompare cmap sts s r s' Hwf Hrun)
    as (Htot & [Hnd Hrange] & Hwf' & Hkeys & Hcf & (Hlists & Hnames & Huniq)
        & Hrec & Hne).
  split; [exact Hwf' |]. split; [exact Hkeys |]. split; [exact Hcf |].
  split; [exact Htot |]. split; [exact Hnd |].
  split; [intros sl; rewrite Htot; apply Hrange |].
  split; [exact Hne |]. split; [exact Hlists |].
  split; [intros nm; rewrite (Hnames nm); apply Hkeys |].
  intros k a Hin. destruct (Hrec k a Hin) as (sl & Hsl & Hs & _).
  exists sl. split; [exact Hsl |]. split; [| exact Hs].
  intros sl' Hsl'. exact (Huniq k sl' sl Hsl' Hsl).
Qed.

(** C10.  The ScheduleResult of either colourer is a timetable of the
    input graph.  greedyColoring returns, with the input map as the graph
    of its result; dsaturColoring returns on every closed graph, and the
    graph of every result it returns holds the courses of the input, with
    their conflict sets.  In both results the slot numbers in use are
    exactly 1, ..., totalSlots, with no gap and no slot 0, and no slot is
    empty; a name is in a membership list exactly when it is a course of
    the input graph; and every course is in exactly one membership list,
    once, with its slot field equal to the number of that slot. *)
Theorem slots_contiguous_and_partition :
  forall (localeCompare : string -> string -> Z) (cmap : CourseMap)
         (sts : option (list Student)) (s : State),
    wf_graph (heap s) cmap ->
    (exists r s',
       greedyColoring localeCompare cmap sts s = (Ok r, s') /\
       resCourses r = cmap /\
       wellSlotted (heap s) cmap (heap s') r) /\
    (forall r s',
       dsaturColoring localeCompare cmap sts s = (Ok r, s') ->
       wellSlotted (heap s) cmap (heap s') r) /\
    (closed (heap s) cmap ->
     exists r s', dsaturColoring localeCompare cmap sts s = (Ok r, s')).
Proof.
  intros localeCompare cmap sts s Hwf. split; [| split].
  - destruct (greedyColoring_spec localeCompare cmap sts s Hwf)
      as (r & s' & E & Hres & _).
    exists r, s'. split; [exact E |]. split; [exact Hres |].
    apply (wellSlotted_produced localeCompare cmap sts s r s' Hwf).
    left. exact E.
  - intros r s' Hrun.
    apply (wellSlotted_produced localeCompare cmap sts s r s' Hwf).
    right. exact Hrun.
  - intros Hcl. now apply dsaturColoring_total.
Qed.

Lemma slots_contiguous_and_partition_witness :
  wf_graph (heap scenarioState) scenarioGraph /\
  (exists r s',
     greedyColoring codeUnitCompare scenarioGraph None scenarioState = (Ok r, s') /\
     resCourses r = scenarioGraph /\
     wellSlotted (heap scenarioState) scenarioGraph (heap s') r) /\
  (exists r s',
     dsaturColoring codeUnitCompare scenarioGraph None scenarioState = (Ok r, s') /\
     wellSlotted (heap scenarioState) scenarioGraph (heap s') r) /\
  closed (heap scenarioState) scenarioGraph.
Proof.
  assert (Hwf : wf_graph (heap scenarioState) scenarioGraph)
    by (apply wf_graphb_sound; reflexivity).
  assert (Hcl : closed (heap scenarioState) scenarioGraph)
    by (apply closedb_sound; reflexivity).
  destruct (slots_contiguous_and_partition codeUnitCompare scenarioGraph None
              scenarioState Hwf) as (Hg & Hd & Hret).
  split; [exact Hwf |]. split; [exact Hg |]. split; [| exact Hcl].
  destruct (Hret Hcl) as (r & s' & E).
  exists r, s'. split; [exact E | exact (Hd r s' E)].
Defined.
